(** * TusasSon: composite laminate stacking optimizer

    A shallow embedding of the rule evaluator
    ([tusas/core/laminate_optimizer.py]), the drop-off engine
    ([tusas/core/dropoff_optimizer.py]) and the zone connectivity check
    ([tusas/core/multi_zone_optimizer.py]).

    Conventions of the embedding.
    - A ply angle is a Python [int], here [Z]; a sequence is a [list Z].
    - Python [float] arithmetic is read as exact rational arithmetic over
      [Q]; [sqrt] (inside [numpy.std]) and [**] are not rational, so they
      are operations of a [FloatOps] environment.  [round(x, 2)] is
      rounding to the nearest hundredth, ties to even.  The exact
      reading loses the rounding of each float operation; where a
      statement turns on it (the penalty and the score of a rule
      entry), the operations are the correctly rounded binary64 ones
      of the section on binary64 arithmetic.
    - A Python [dict] is an association list in insertion order.
    - A call that can raise returns a [result]; [random] draws are read
      from a tape of naturals that is threaded through the search. *)

From Stdlib Require Import Ascii String DecimalString Bool Arith ZArith.
From Stdlib Require Import QArith Qround Qabs Qminmax Qreduction.
From Stdlib Require Import List Permutation Lia Lqa.
Import ListNotations.

Set Implicit Arguments.
Open Scope nat_scope.

(** ** Python exceptions and results *)

Inductive exn : Type :=
| IndexError
| ValueError (msg : string).

Inductive result (A : Type) : Type :=
| Ok (a : A)
| Raise (e : exn).

Arguments Ok {A} a.
Arguments Raise {A} e.

Definition bind {A B : Type} (r : result A) (k : A -> result B) : result B :=
  match r with
  | Ok a => k a
  | Raise e => Raise e
  end.

Notation "x <- c ;; k" := (bind c (fun x => k))
  (at level 61, c at next level, right associativity).
Notation "' p <- c ;; k" := (bind c (fun p => k))
  (at level 61, p pattern, c at next level, right associativity).

(** [l[i]] with Python's negative indices. *)
Definition py_getitem {A : Type} (l : list A) (i : Z) : result A :=
  let n := Z.of_nat (length l) in
  let j := if (i <? 0)%Z then (i + n)%Z else i in
  if ((j <? 0) || (n <=? j))%Z then Raise IndexError
  else match nth_error l (Z.to_nat j) with
       | Some a => Ok a
       | None => Raise IndexError
       end.

Definition str_of_Z (z : Z) : string := NilZero.string_of_int (Z.to_int z).
Definition str_of_nat (n : nat) : string := str_of_Z (Z.of_nat n).

(** ** Numbers *)

Definition Qltb (x y : Q) : bool := negb (Qle_bool y x).
Definition Qleb (x y : Q) : bool := Qle_bool x y.
Definition Qofnat (n : nat) : Q := inject_Z (Z.of_nat n).

(** [round(x)] to an integer, ties to even. *)
Definition round_half_even (x : Q) : Z :=
  let f := Qfloor x in
  match Qcompare (x - inject_Z f) (1 # 2) with
  | Lt => f
  | Gt => (f + 1)%Z
  | Eq => if Z.even f then f else (f + 1)%Z
  end.

(** [round(x, 2)] *)
Definition round2 (x : Q) : Q := (round_half_even (x * 100) # 100)%Q.

Definition Qsum (l : list Q) : Q := fold_left Qplus l 0%Q.

(** The two float operations that leave the rationals. *)
Record FloatOps : Type := {
  fsqrt : Q -> Q;          (* numpy.sqrt, as used by numpy.std *)
  fpow : Q -> Q -> Q       (* x ** y *)
}.

Definition np_mean (l : list Q) : Q := (Qsum l / Qofnat (length l))%Q.

(** [numpy.std]: the root of the mean squared deviation. *)
Definition np_std (fl : FloatOps) (l : list Q) : Q :=
  let m := np_mean l in
  fsqrt fl (np_mean (map (fun x => ((x - m) * (x - m))%Q) l)).

(** [numpy.diff] on a list of indices. *)
Fixpoint np_diff (l : list nat) : list Q :=
  match l with
  | a :: (b :: _) as tl => (Qofnat b - Qofnat a)%Q :: np_diff tl
  | _ => []
  end.

(** ** Rule weights *)

Record Weights : Type := {
  R1 : Q; R2 : Q; R3 : Q; R4 : Q; R5 : Q; R6 : Q; R7 : Q; R8 : Q
}.

(** [LaminateOptimizer.WEIGHTS] *)
Definition WEIGHTS : Weights := {|
  R1 := 18; R2 := 12; R3 := 13; R4 := 12;
  R5 := 14; R6 := 41 # 2; R7 := 7 # 2; R8 := 7
|}%Q.

Definition LATERAL_BENDING_THRESHOLD : Q := (20 # 100)%Q.
Definition ANGLE_TARGET_DROP_ATTEMPTS : nat := 3000.
Definition DROP_OFF_ATTEMPTS : nat := 3000.

(** ** Sequence primitives *)

Definition count (sequence : list Z) (angle : Z) : nat :=
  count_occ Z.eq_dec sequence angle.

(** [[i for i, x in enumerate(sequence) if p(x)]] *)
Fixpoint indices_from (p : Z -> bool) (sequence : list Z) (i : nat) : list nat :=
  match sequence with
  | [] => []
  | x :: rest => if p x then i :: indices_from p rest (S i)
                 else indices_from p rest (S i)
  end.

Definition indices_where (p : Z -> bool) (sequence : list Z) : list nat :=
  indices_from p sequence 0.

Definition is_0_90_pair (a b : Z) : bool :=
  ((a =? 0) && (b =? 90) || (a =? 90) && (b =? 0))%Z.

(** The first [i] with a 0/90 pair at [i], [i+1], scanning from [i]. *)
Fixpoint first_adj_0_90 (sequence : list Z) (i : nat) : option nat :=
  match sequence with
  | a :: (b :: _) as tl =>
      if is_0_90_pair a b then Some i else first_adj_0_90 tl (S i)
  | _ => None
  end.

Definition _has_adjacent_0_90 (sequence : list Z) : bool :=
  match first_adj_0_90 sequence 0 with
  | Some _ => true
  | None => false
  end.

Definition _is_symmetric (sequence : list Z) : bool :=
  let n := length sequence in
  forallb (fun i => (nth i sequence 0%Z =? nth (n - 1 - i) sequence 0%Z)%Z)
          (seq 0 (n / 2)).

(** The run-length loop shared by the grouping functions: [prev] is
    [sequence[i - 1]], [curr] the length of the run ending there. *)
Fixpoint groups_loop (target_size : nat) (prev : Z) (rest : list Z)
         (curr cnt : nat) : nat :=
  match rest with
  | [] => if curr =? target_size then S cnt else cnt
  | x :: rest' =>
      if (x =? prev)%Z then groups_loop target_size x rest' (S curr) cnt
      else groups_loop target_size x rest' 1
             (if curr =? target_size then S cnt else cnt)
  end.

Definition _find_groups_of_size (sequence : list Z) (target_size : nat) : nat :=
  if length sequence <? target_size then 0
  else match sequence with
       | [] => 0
       | x :: rest => groups_loop target_size x rest 1 0
       end.

Definition _count_groupings (sequence : list Z) : nat :=
  match sequence with
  | [] => 0
  | x :: rest =>
      fst (fold_left (fun '(cnt, prev) y =>
                        (if (y =? prev)%Z then S cnt else cnt, y))
                     rest (0, x))
  end.

Record GroupingStats : Type := {
  adjacent_pairs : nat;
  group_runs : nat;
  groups_len_2 : nat;
  groups_len_3 : nat;
  groups_len_ge4 : nat;
  max_run : nat
}.

(** Closing a run of length [curr] in [_grouping_stats]. *)
Definition close_run (st : GroupingStats) (curr : nat) : GroupingStats :=
  if 2 <=? curr then
    {| adjacent_pairs := adjacent_pairs st + (curr - 1);
       group_runs := S (group_runs st);
       groups_len_2 := if curr =? 2 then S (groups_len_2 st) else groups_len_2 st;
       groups_len_3 := if curr =? 3 then S (groups_len_3 st) else groups_len_3 st;
       groups_len_ge4 := if 4 <=? curr then S (groups_len_ge4 st)
                         else groups_len_ge4 st;
       max_run := Nat.max (max_run st) curr |}
  else
    {| adjacent_pairs := adjacent_pairs st;
       group_runs := group_runs st;
       groups_len_2 := groups_len_2 st;
       groups_len_3 := groups_len_3 st;
       groups_len_ge4 := groups_len_ge4 st;
       max_run := Nat.max (max_run st) curr |}.

Fixpoint stats_loop (prev : Z) (rest : list Z) (curr : nat)
         (st : GroupingStats) : GroupingStats :=
  match rest with
  | [] => close_run st curr
  | x :: rest' =>
      if (x =? prev)%Z then stats_loop x rest' (S curr) st
      else stats_loop x rest' 1 (close_run st curr)
  end.

Definition _grouping_stats (sequence : list Z) : GroupingStats :=
  match sequence with
  | [] => {| adjacent_pairs := 0; group_runs := 0; groups_len_2 := 0;
             groups_len_3 := 0; groups_len_ge4 := 0; max_run := 0 |}
  | x :: rest =>
      stats_loop x rest 1
        {| adjacent_pairs := 0; group_runs := 0; groups_len_2 := 0;
           groups_len_3 := 0; groups_len_ge4 := 0; max_run := 1 |}
  end.

(** ** The eight soft rules *)

Section Rules.

Variable fl : FloatOps.
Variable W : Weights.

(** [mid = (n - 1) / 2] *)
Definition mid_plane (n : nat) : Q := ((Z.of_nat n - 1) # 2)%Q.

(** [abs(i - mid) / max(1, mid)] *)
Definition dist_from_mid (n i : nat) : Q :=
  (Qabs (Qofnat i - mid_plane n) / Qmax 1 (mid_plane n))%Q.

(** Rule 1: distance-weighted symmetry penalty. *)
Definition _check_symmetry_distance_weighted (sequence : list Z) : Q :=
  let n := length sequence in
  let max_penalty := R1 W in
  let penalty :=
    fold_left
      (fun penalty i =>
         if negb (nth i sequence 0%Z =? nth (n - 1 - i) sequence 0%Z)%Z
         then (penalty + max_penalty * dist_from_mid n i)%Q
         else penalty)
      (seq 0 (n / 2)) 0%Q in
  Qmin penalty max_penalty.

(** Rule 2: +45 / -45 balance. *)
Definition _check_balance_45 (sequence : list Z) : Q :=
  let diff := Z.abs (Z.of_nat (count sequence 45) - Z.of_nat (count sequence (-45))) in
  let total_45_count := count sequence 45 + count sequence (-45) in
  let max_penalty := R2 W in
  if 0 <? total_45_count then
    let normalized_diff :=
      Qmin 1 (inject_Z diff / inject_Z (Z.max 1 (Z.of_nat (total_45_count / 2)))) in
    (max_penalty * normalized_diff)%Q
  else 0%Q.

(** Rule 3: every angle between 8% and 67% of the plies. *)
Definition _check_percentage_rule (sequence : list Z) : Q :=
  let n := length sequence in
  let max_penalty := R3 W in
  let per_violation_penalty := (max_penalty / 4)%Q in
  let penalty :=
    fold_left
      (fun penalty angle =>
         let ratio := if 0 <? n then (Qofnat (count sequence angle) / Qofnat n)%Q
                      else 0%Q in
         if Qltb ratio (8 # 100) || Qltb (67 # 100) ratio
         then (penalty + per_violation_penalty)%Q
         else penalty)
      [0; 45; -45; 90]%Z 0%Q in
  Qmin penalty max_penalty.

(** Rule 4: external plies; this one returns the score. *)
Definition _check_external_plies (sequence : list Z) : Q :=
  let n := length sequence in
  let max_score := R4 W in
  if n <? 2 then max_score
  else
    let penalty := 0%Q in
    let penalty :=
      if (2 <=? n) && (nth 0 sequence 0%Z =? nth 1 sequence 0%Z)%Z
      then (penalty + max_score * (15 # 100))%Q else penalty in
    let penalty :=
      if (2 <=? n) && (nth (n - 1) sequence 0%Z =? nth (n - 2) sequence 0%Z)%Z
      then (penalty + max_score * (15 # 100))%Q else penalty in
    Qmax 0 (max_score - penalty).

(** Rule 5: spacing deviation and clustering, per angle. *)
Definition distribution_of_angle (sequence : list Z) (angle : Z) : Q :=
  let n := length sequence in
  let per_angle_penalty := (R5 W / 4)%Q in
  let indices := indices_where (Z.eqb angle) sequence in
  if 1 <? length indices then
    let ideal_spacing := (Qofnat n / Qofnat (length indices))%Q in
    let actual_spacings := np_diff indices in
    let penalty1 :=
      if 0 <? length actual_spacings then
        let std_dev := np_std fl actual_spacings in
        let normalized_std := Qmin 1 (std_dev / Qmax ideal_spacing 1) in
        (normalized_std * per_angle_penalty * (6 # 10))%Q
      else 0%Q in
    let span := last indices 0 - hd 0 indices in
    let span_ratio := (Qofnat span / Qmax 1 (inject_Z (Z.of_nat n - 1)))%Q in
    let target_span := (6 # 10)%Q in
    let penalty2 :=
      if Qltb span_ratio target_span then
        let clustering := ((target_span - span_ratio) / target_span)%Q in
        (clustering * per_angle_penalty * (4 # 10))%Q
      else 0%Q in
    (penalty1 + penalty2)%Q
  else 0%Q.

Definition _check_distribution_variance (sequence : list Z) : Q :=
  let max_penalty := R5 W in
  let penalty :=
    fold_left (fun penalty angle => (penalty + distribution_of_angle sequence angle)%Q)
              [0; 45; -45; 90]%Z 0%Q in
  Qmin penalty max_penalty.

(** Loop state of [_check_grouping]. *)
Record GroupingLoop : Type := {
  gl_curr : nat;
  gl_total_adjacent_pairs : nat;
  gl_adjacent_pairs_0_90 : nat;
  gl_max_group_found : nat
}.

Fixpoint grouping_loop (prev : Z) (rest : list Z) (st : GroupingLoop) : GroupingLoop :=
  match rest with
  | [] => st
  | x :: rest' =>
      let st1 :=
        if (x =? prev)%Z then
          {| gl_curr := S (gl_curr st);
             gl_total_adjacent_pairs := S (gl_total_adjacent_pairs st);
             gl_adjacent_pairs_0_90 :=
               if ((x =? 0) || (x =? 90))%Z then S (gl_adjacent_pairs_0_90 st)
               else gl_adjacent_pairs_0_90 st;
             gl_max_group_found := gl_max_group_found st |}
        else
          {| gl_curr := 1;
             gl_total_adjacent_pairs := gl_total_adjacent_pairs st;
             gl_adjacent_pairs_0_90 := gl_adjacent_pairs_0_90 st;
             gl_max_group_found := gl_max_group_found st |} in
      grouping_loop x rest'
        {| gl_curr := gl_curr st1;
           gl_total_adjacent_pairs := gl_total_adjacent_pairs st1;
           gl_adjacent_pairs_0_90 := gl_adjacent_pairs_0_90 st1;
           gl_max_group_found := Nat.max (gl_max_group_found st1) (gl_curr st1) |}
  end.

(** Rule 6: grouping. *)
Definition _check_grouping (sequence : list Z) (max_group : nat) : Q :=
  let max_penalty := R6 W in
  let init := {| gl_curr := 1; gl_total_adjacent_pairs := 0;
                 gl_adjacent_pairs_0_90 := 0; gl_max_group_found := 1 |} in
  let st := match sequence with
            | [] => init
            | x :: rest => grouping_loop x rest init
            end in
  let penalty := 0%Q in
  let penalty :=
    if max_group <? gl_max_group_found st then
      let excess := gl_max_group_found st - max_group in
      (penalty + Qofnat excess * (max_penalty * (35 # 100)))%Q
    else penalty in
  let groups_of_3 := _find_groups_of_size sequence 3 in
  let penalty := (penalty + Qofnat groups_of_3 * 2)%Q in
  let penalty := (penalty + Qofnat (gl_adjacent_pairs_0_90 st) * (3 # 10))%Q in
  let n := length sequence in
  let penalty :=
    if 1 <? n then
      let adjacent_ratio := (Qofnat (gl_total_adjacent_pairs st) / Qofnat (n - 1))%Q in
      (penalty + adjacent_ratio * (max_penalty * (50 # 100)))%Q
    else penalty in
  Qmin penalty max_penalty.

(** Rule 7: buckling; +-45 plies near the mid-plane are penalised. *)
Definition _check_buckling (sequence : list Z) : Q :=
  let max_penalty := R7 W in
  let n := length sequence in
  let positions_45 := indices_where (fun ang => (Z.abs ang =? 45)%Z) sequence in
  match positions_45 with
  | [] => 0%Q
  | _ =>
      let center_zone := (15 # 100)%Q in
      let penalty_sum :=
        fold_left
          (fun penalty_sum pos =>
             let dist := dist_from_mid n pos in
             if Qltb dist center_zone then
               let proximity := ((center_zone - dist) / center_zone)%Q in
               (penalty_sum + fpow fl proximity (1 # 2) * (1 # 2))%Q
             else penalty_sum)
          positions_45 0%Q in
      let total_45_count := length positions_45 in
      let normalized_penalty :=
        if 0 <? total_45_count
        then (penalty_sum / Qofnat total_45_count * max_penalty)%Q
        else 0%Q in
      Qmin normalized_penalty max_penalty
  end.

(** Rule 8: lateral bending; 90 plies near the mid-plane are penalised. *)
Definition _check_lateral_bending (sequence : list Z) : Q :=
  let max_penalty := R8 W in
  let threshold := LATERAL_BENDING_THRESHOLD in
  let n := length sequence in
  let positions_90 := indices_where (fun ang => (ang =? 90)%Z) sequence in
  match positions_90 with
  | [] => 0%Q
  | _ =>
      let '(penalty_sum, center_hits) :=
        fold_left
          (fun '(penalty_sum, center_hits) pos =>
             let dist := dist_from_mid n pos in
             if Qltb dist threshold then
               let proximity := ((threshold - dist) / threshold)%Q in
               ((penalty_sum + fpow fl proximity (4 # 10) * (15 # 10))%Q,
                if Qltb dist (20 # 100) then S center_hits else center_hits)
             else (penalty_sum, center_hits))
          positions_90 (0%Q, 0) in
      let total_90_count := length positions_90 in
      let normalized_penalty :=
        if 0 <? total_90_count
        then (penalty_sum / Qofnat total_90_count * max_penalty)%Q
        else 0%Q in
      let normalized_penalty :=
        if 2 <=? center_hits then Qmax normalized_penalty (max_penalty * (95 # 100))
        else if center_hits =? 1 then Qmax normalized_penalty (max_penalty * (85 # 100))
        else normalized_penalty in
      Qmin normalized_penalty max_penalty
  end.

End Rules.

(** ** [calculate_fitness] *)

Record RuleEntry : Type := {
  weight : Q;
  score : Q;
  penalty : Q;
  reason : string
}.

Record Breakdown : Type := {
  total_score : Q;
  max_score : Q;
  rules : list (string * RuleEntry)
}.

(** The value returned by each of the three hard-constraint exits. *)
Definition hard_fail (name rsn : string) : Q * Breakdown :=
  (0%Q, {| total_score := 0; max_score := 100;
           rules := [(name, {| weight := 999; score := 0; penalty := 999;
                               reason := rsn |})] |}).

(** The first outer ply whose absolute value is not 45, with its
    position in [outer_plies]. *)
Fixpoint first_non_45 (outer_plies : list Z) (idx : nat) : option (nat * Z) :=
  match outer_plies with
  | [] => None
  | ply :: rest =>
      if negb (Z.abs ply =? 45)%Z then Some (idx, ply)
      else first_non_45 rest (S idx)
  end.

Definition pos_label (idx : nat) : string :=
  nth idx ["1."; "2."; "sondan 2."; "son"]%string ""%string.

Definition soft_entry (w p s : Q) (rsn : string) : RuleEntry :=
  {| weight := w; score := round2 s; penalty := round2 p;
     reason := if Qltb 0 p then rsn else ""%string |}.

Section Fitness.

Variable fl : FloatOps.
Variable W : Weights.

(** The soft part of [calculate_fitness]: rules R1..R8 in order. *)
Definition soft_rules (sequence : list Z) : list (string * RuleEntry) :=
  let penalty_r1 := _check_symmetry_distance_weighted W sequence in
  let score_r1 := Qmax 0 (R1 W - penalty_r1) in
  let penalty_r2 := _check_balance_45 W sequence in
  let score_r2 := Qmax 0 (R2 W - penalty_r2) in
  let penalty_r3 := _check_percentage_rule W sequence in
  let score_r3 := Qmax 0 (R3 W - penalty_r3) in
  let score_r4 := _check_external_plies W sequence in
  let penalty_r4 := (R4 W - score_r4)%Q in
  let penalty_r5 := _check_distribution_variance fl W sequence in
  let score_r5 := Qmax 0 (R5 W - penalty_r5) in
  let penalty_r6 := _check_grouping W sequence 3 in
  let score_r6 := Qmax 0 (R6 W - penalty_r6) in
  let gstats := _grouping_stats sequence in
  let reason_r6 :=
    ("2'li grup: " ++ str_of_nat (groups_len_2 gstats)
     ++ ", 3'lü grup: " ++ str_of_nat (groups_len_3 gstats)
     ++ ", 4+ grup: " ++ str_of_nat (groups_len_ge4 gstats))%string in
  let penalty_r7 := _check_buckling fl W sequence in
  let score_r7 := Qmax 0 (R7 W - penalty_r7) in
  let penalty_r8 := _check_lateral_bending fl W sequence in
  let score_r8 := Qmax 0 (R8 W - penalty_r8) in
  [ ("R1", soft_entry (R1 W) penalty_r1 score_r1 "Asimetri var");
    ("R2", soft_entry (R2 W) penalty_r2 score_r2 "+45/-45 sayıları eşit değil");
    ("R3", soft_entry (R3 W) penalty_r3 score_r3 "Bazı açılar %8-67 dışında");
    ("R4", soft_entry (R4 W) penalty_r4 score_r4 "Dış katmanlar ideal değil");
    ("R5", soft_entry (R5 W) penalty_r5 score_r5 "Dağılım uniform değil");
    ("R6", soft_entry (R6 W) penalty_r6 score_r6 reason_r6);
    ("R7", soft_entry (R7 W) penalty_r7 score_r7 "±45 middle plane'e yakın");
    ("R8", soft_entry (R8 W) penalty_r8 score_r8 "90° middle plane'e yakın") ]%string.

Definition calculate_fitness (sequence : list Z) : result (Q * Breakdown) :=
  (* HARD 1 *)
  s_first <- py_getitem sequence 0 ;;
  s_last <- py_getitem sequence (-1) ;;
  if ((s_first =? 0) || (s_last =? 0))%Z then
    Ok (hard_fail "EXTERNAL_0" "0° başlangıç veya bitiş katmanı (YASAK)")
  else
  (* HARD 2 *)
  match first_adj_0_90 sequence 0 with
  | Some i =>
      Ok (hard_fail "ADJ_0_90"
            ("0° ve 90° yan yana (YASAK) - pozisyon "
             ++ str_of_nat i ++ "/" ++ str_of_nat (i + 1)))
  | None =>
  (* HARD 3 *)
  outer_fail <-
    (if 4 <=? length sequence then
       s1 <- py_getitem sequence 1 ;;
       s2 <- py_getitem sequence (-2) ;;
       Ok (first_non_45 [s_first; s1; s2; s_last] 0)
     else Ok None) ;;
  match outer_fail with
  | Some (idx, ply) =>
      Ok (hard_fail "EXTERNAL_45"
            (pos_label idx ++ " katman ±45° değil (" ++ str_of_Z ply
             ++ "° bulundu) (YASAK)"))
  | None =>
  (* SOFT CONSTRAINTS *)
  let rules_result := soft_rules sequence in
  let total_score := Qsum (map (fun r => score (snd r)) rules_result) in
  Ok (total_score,
      {| total_score := round2 total_score; max_score := 100;
         rules := rules_result |})
  end
  end.

End Fitness.

(** ** Specification-side predicates of the evaluator *)

(** A 0/90 pair at positions [i], [i + 1]. *)
Definition adjacent_0_90_at (sequence : list Z) (i : nat) : Prop :=
  i + 1 < length sequence /\
  ((nth i sequence 0 = 0 /\ nth (i + 1) sequence 0 = 90) \/
   (nth i sequence 0 = 90 /\ nth (i + 1) sequence 0 = 0))%Z.

(** The hard constraints of the evaluator, as the claim words them. *)
Definition violates_hard (sequence : list Z) : Prop :=
  let n := length sequence in
  (nth 0 sequence 0 = 0)%Z \/
  (nth (n - 1) sequence 0 = 0)%Z \/
  (exists i, adjacent_0_90_at sequence i) \/
  (4 <= n /\
   (Z.abs (nth 0 sequence 0) <> 45 \/ Z.abs (nth 1 sequence 0) <> 45 \/
    Z.abs (nth (n - 2) sequence 0) <> 45 \/
    Z.abs (nth (n - 1) sequence 0) <> 45)%Z).

(** What [calculate_fitness] returns on a sequence with no hard
    violation. *)
Definition soft_result (fl : FloatOps) (W : Weights) (sequence : list Z)
  : Q * Breakdown :=
  let rules_result := soft_rules fl W sequence in
  let total := Qsum (map (fun r => score (snd r)) rules_result) in
  (total, {| total_score := round2 total; max_score := 100;
             rules := rules_result |}).

(** ** A computable float environment

    Roots are taken by bisection on integers and are exact on perfect
    powers; six decimal digits otherwise.  The theorems below hold for
    every environment with non-negative roots and powers; this one is
    used to run the evaluator. *)

Fixpoint root_bisect (fuel k : nat) (n lo hi : Z) : Z :=
  match fuel with
  | O => lo
  | S fuel' =>
      if (hi - lo <=? 1)%Z then lo
      else
        let m := ((lo + hi) / 2)%Z in
        if (m ^ Z.of_nat k <=? n)%Z then root_bisect fuel' k n m hi
        else root_bisect fuel' k n lo m
  end.

(** The integer part of the [k]-th root of [n]. *)
Definition Zroot (k : nat) (n : Z) : Z :=
  root_bisect (S (Z.to_nat (Z.log2_up (n + 2)))) k n 0 (n + 1).

Definition approx_pow (x y : Q) : Q :=
  if Qle_bool x 0 then 0%Q
  else
    let a := Z.to_nat (Qnum y) in
    let b := Pos.to_nat (Qden y) in
    let p := (Qnum x ^ Z.of_nat a)%Z in
    let q := (Zpos (Qden x) ^ Z.of_nat a)%Z in
    let s := (10 ^ 6)%Z in
    (Zroot b (p * q ^ Z.of_nat (b - 1) * s ^ Z.of_nat b)
       # Z.to_pos (q * s))%Q.

Definition approx_float : FloatOps :=
  {| fsqrt := fun x => approx_pow x (1 # 2); fpow := approx_pow |}.

(** [z] is a nearest integer of [x], and the even one at a tie. *)
Definition nearest_even (x : Q) (z : Z) : Prop :=
  (- (1 # 2) < x - inject_Z z /\ x - inject_Z z < 1 # 2)%Q \/
  ((x - inject_Z z == 1 # 2 \/ x - inject_Z z == - (1 # 2))%Q /\ Z.even z = true).

(** Roots and powers never return a negative number. *)
Definition nonneg_float (fl : FloatOps) : Prop :=
  (forall x, 0 <= fsqrt fl x)%Q /\ (forall x y, 0 <= fpow fl x y)%Q.

Definition nonneg_weights (W : Weights) : Prop :=
  (0 <= R1 W /\ 0 <= R2 W /\ 0 <= R3 W /\ 0 <= R4 W /\
   0 <= R5 W /\ 0 <= R6 W /\ 0 <= R7 W /\ 0 <= R8 W)%Q.

(** A rule entry within its range: the score and the penalty both lie
    between 0 and the weight. *)
Definition entry_bounded (e : RuleEntry) : Prop :=
  (0 <= score e <= weight e /\ 0 <= penalty e <= weight e)%Q.

(** The penalty is the weight minus the score up to one hundredth. *)
Definition within_hundredth (e : RuleEntry) : Prop :=
  (Qabs (weight e - score e - penalty e) <= 1 # 100)%Q.

Definition rule_names : list string :=
  ["R1"; "R2"; "R3"; "R4"; "R5"; "R6"; "R7"; "R8"]%string.

Definition weights_list (W : Weights) : list Q :=
  [R1 W; R2 W; R3 W; R4 W; R5 W; R6 W; R7 W; R8 W].

(** The sum of the scores listed in a breakdown. *)
Definition sum_of_scores (bd : Breakdown) : Q :=
  Qsum (map (fun r => score (snd r)) (rules bd)).

(** The hard constraints as a boolean test. *)
Definition violates_hard_b (sequence : list Z) : bool :=
  let n := length sequence in
  ((nth 0 sequence 0 =? 0) || (nth (n - 1) sequence 0 =? 0))%Z
  || _has_adjacent_0_90 sequence
  || ((4 <=? n)
      && negb (forallb (fun a => (Z.abs a =? 45)%Z)
                 [nth 0 sequence 0%Z; nth 1 sequence 0%Z;
                  nth (n - 2) sequence 0%Z; nth (n - 1) sequence 0%Z])).

(** The un-rounded scores [score_r1 .. score_r8] of [calculate_fitness]. *)
Definition rule_scores (fl : FloatOps) (W : Weights) (sequence : list Z) : list Q :=
  [ Qmax 0 (R1 W - _check_symmetry_distance_weighted W sequence);
    Qmax 0 (R2 W - _check_balance_45 W sequence);
    Qmax 0 (R3 W - _check_percentage_rule W sequence);
    _check_external_plies W sequence;
    Qmax 0 (R5 W - _check_distribution_variance fl W sequence);
    Qmax 0 (R6 W - _check_grouping W sequence 3);
    Qmax 0 (R7 W - _check_buckling fl W sequence);
    Qmax 0 (R8 W - _check_lateral_bending fl W sequence) ].

(** The total as the specification words it: the un-rounded sum. *)
Definition exact_total (fl : FloatOps) (W : Weights) (sequence : list Z) : Q :=
  Qsum (rule_scores fl W sequence).

(** Rule 2 as the specification words it: the half of the +-45 count
    is an exact division. *)
Definition balance_penalty_exact_half (W : Weights) (sequence : list Z) : Q :=
  let c45 := Z.of_nat (count sequence 45) in
  let cm45 := Z.of_nat (count sequence (-45)) in
  let d := Z.abs (c45 - cm45) in
  (R2 W * Qmin 1 (inject_Z d / Qmax 1 (inject_Z (c45 + cm45) / 2)))%Q.

(** Rule 2 with the half taken by floor division. *)
Definition balance_penalty_floor_half (W : Weights) (sequence : list Z) : Q :=
  let c45 := Z.of_nat (count sequence 45) in
  let cm45 := Z.of_nat (count sequence (-45)) in
  let d := Z.abs (c45 - cm45) in
  (R2 W * Qmin 1 (inject_Z d / Qmax 1 (inject_Z ((c45 + cm45) / 2))))%Q.

(** ** Multi-zone orchestrator: zone graph and connectivity *)

(** A zone rectangle [{"x", "y", "w", "h"}] in pixels. *)
Record Bounds : Type := { b_x : Q; b_y : Q; b_w : Q; b_h : Q }.

Definition NEIGHBOR_THRESHOLD_PX : Q := 40%Q.

(** [r1], [r2] are [(x, y, x + w, y + h)]. *)
Definition _rects_adjacent (r1 r2 : Q * Q * Q * Q) (threshold : Q) : bool :=
  let '(x1, y1, x1b, y1b) := r1 in
  let '(x2, y2, x2b, y2b) := r2 in
  let h_overlap := Qmax 0 (Qmin x1b x2b - Qmax x1 x2) in
  let v_overlap := Qmax 0 (Qmin y1b y2b - Qmax y1 y2) in
  let h_gap := (Qmax x1 x2 - Qmin x1b x2b)%Q in
  if Qltb 0 v_overlap && Qleb 0 h_gap && Qleb h_gap threshold then true
  else
    let v_gap := (Qmax y1 y2 - Qmin y1b y2b)%Q in
    if Qltb 0 h_overlap && Qleb 0 v_gap && Qleb v_gap threshold then true
    else false.

Definition rect_of (b : Bounds) : Q * Q * Q * Q :=
  (b_x b, b_y b, (b_x b + b_w b)%Q, (b_y b + b_h b)%Q).

(** [lists[i].append(x)], for [i] in range. *)
Fixpoint append_at (i : nat) (x : nat) (lists : list (list nat)) : list (list nat) :=
  match lists, i with
  | [], _ => []
  | l :: rest, O => (l ++ [x]) :: rest
  | l :: rest, S i' => l :: append_at i' x rest
  end.

(** The neighbour lists built by [_compute_geometry]: pairs [i < j] in
    loop order, each adjacent pair recorded on both sides. *)
Definition compute_neighbors (bounds : list Bounds) : list (list nat) :=
  let n := length bounds in
  let d := {| b_x := 0; b_y := 0; b_w := 0; b_h := 0 |} in
  fold_left
    (fun zone_neighbors i =>
       let ri := rect_of (nth i bounds d) in
       fold_left
         (fun zone_neighbors j =>
            let rj := rect_of (nth j bounds d) in
            if _rects_adjacent ri rj NEIGHBOR_THRESHOLD_PX
            then append_at j i (append_at i j zone_neighbors)
            else zone_neighbors)
         (seq (S i) (n - S i)) zone_neighbors)
    (seq 0 n) (repeat [] n).

(** The part of a [MultiZoneOptimizer] that the connectivity check reads. *)
Record MultiZoneOptimizer : Type := {
  zones_config : list (list (Z * Z));
  zone_totals : list Z;
  root_index : nat;
  zone_neighbors : list (list nat)
}.

(** [l.index(max(l))]: the first position of the largest element. *)
Fixpoint index_of_max (l : list Z) (i best_i : nat) (best : Z) : nat :=
  match l with
  | [] => best_i
  | x :: rest => if (best <? x)%Z then index_of_max rest (S i) i x
                 else index_of_max rest (S i) best_i best
  end.

(** [MultiZoneOptimizer.__init__]; [max] of no zones raises. *)
Definition mz_init (config : list (list (Z * Z))) (bounds : option (list Bounds))
  : result MultiZoneOptimizer :=
  let totals := map (fun z => fold_left Z.add (map snd z) 0%Z) config in
  match totals with
  | [] => Raise (ValueError "max() arg is an empty sequence")
  | t :: rest =>
      Ok {| zones_config := config;
            zone_totals := totals;
            root_index := index_of_max rest 1 0 t;
            zone_neighbors :=
              match bounds with
              | Some ((_ :: _) as bs) =>
                  if length bs =? length config then compute_neighbors bs else []
              | _ => []
              end |}
  end.

Definition mem_nat (x : nat) (l : list nat) : bool := existsb (Nat.eqb x) l.

(** The [for neighbor in ...] loop of the traversal. *)
Definition visit_neighbors (neighbors : list nat) (queue visited : list nat)
  : list nat * list nat :=
  fold_left
    (fun '(queue, visited) neighbor =>
       if mem_nat neighbor visited then (queue, visited)
       else (queue ++ [neighbor], neighbor :: visited))
    neighbors (queue, visited).

(** The [while queue] loop; [None] when the fuel runs out. *)
Fixpoint bfs_loop (fuel : nat) (graph : list (list nat)) (queue visited : list nat)
  : option (result (list nat)) :=
  match fuel with
  | O => None
  | S fuel' =>
      match queue with
      | [] => Some (Ok visited)
      | current :: queue' =>
          match nth_error graph current with
          | None => Some (Raise IndexError)
          | Some neighbors =>
              let '(queue2, visited2) := visit_neighbors neighbors queue' visited in
              bfs_loop fuel' graph queue2 visited2
          end
      end
  end.

(** Every node named by the graph, and the root. *)
Definition graph_nodes (graph : list (list nat)) (root : nat) : list nat :=
  root :: concat graph.

Definition bfs_fuel (graph : list (list nat)) (root : nat) : nat :=
  2 * length (graph_nodes graph root) + 2.

Definition _check_connectivity (mz : MultiZoneOptimizer)
  : option (result (bool * list nat)) :=
  match zone_neighbors mz with
  | [] => Some (Ok (true, []))
  | _ =>
      let n := length (zones_config mz) in
      match bfs_loop (bfs_fuel (zone_neighbors mz) (root_index mz))
                     (zone_neighbors mz) [root_index mz] [root_index mz] with
      | None => None
      | Some (Raise e) => Some (Raise e)
      | Some (Ok visited) =>
          let disconnected :=
            filter (fun i => negb (mem_nat i visited)) (seq 0 n) in
          Some (Ok (length disconnected =? 0, disconnected))
      end
  end.

(** The dictionary returned when the zones are not connected. *)
Record ConnectivityFailure : Type := {
  cf_success : bool;
  cf_error : string;
  cf_disconnected_zones : list nat;
  cf_zones : list (list Z);
  cf_transitions : list (nat * nat * list nat);
  cf_root_index : nat;
  cf_drop_off_tree : list (nat * nat);
  cf_neighbor_graph : list (list nat)
}.

Inductive OptimizeAllResult (R : Type) : Type :=
| Disconnected (r : ConnectivityFailure)
| Attempted (r : R).

Arguments Disconnected {R} r.
Arguments Attempted {R} r.

Fixpoint join_comma (l : list string) : string :=
  match l with
  | [] => ""
  | [a] => a
  | a :: rest => a ++ ", " ++ join_comma rest
  end.

(** The dictionary [optimize_all] returns for disconnected zones. *)
Definition disconnected_report (mz : MultiZoneOptimizer) (disconnected : list nat)
  : ConnectivityFailure :=
  let disc_labels :=
    map (fun i => ("Zone " ++ str_of_nat (i + 1))%string) disconnected in
  {| cf_success := false;
     cf_error :=
       ("Baglantisiz zone'lar tespit edildi: " ++ join_comma disc_labels
        ++ ". Tum zone'lar root zone'a (Zone "
        ++ str_of_nat (root_index mz + 1)
        ++ ") komsu yol ile baglanmalidir.")%string;
     cf_disconnected_zones := disconnected;
     cf_zones := [];
     cf_transitions := [];
     cf_root_index := root_index mz;
     cf_drop_off_tree := [];
     cf_neighbor_graph := zone_neighbors mz |}.

(** [optimize_all] up to the retry loop.  The loop (root optimization,
    drop-offs, weight and ramp checks) is the continuation
    [retry_loop]; it is entered only past the connectivity check. *)
Definition optimize_all (R : Type) (mz : MultiZoneOptimizer)
           (retry_loop : MultiZoneOptimizer -> result R)
  : option (result (OptimizeAllResult R)) :=
  let continue :=
    match retry_loop mz with
    | Ok r => Some (Ok (Attempted r))
    | Raise e => Some (Raise e)
    end in
  match zone_neighbors mz with
  | [] => continue
  | _ =>
      match _check_connectivity mz with
      | None => None
      | Some (Raise e) => Some (Raise e)
      | Some (Ok (connected, disconnected)) =>
          if negb connected
          then Some (Ok (Disconnected (disconnected_report mz disconnected)))
          else continue
      end
  end.

(** Reachability in the neighbour graph. *)
Inductive reachable (graph : list (list nat)) (root : nat) : nat -> Prop :=
| reach_root : reachable graph root root
| reach_step (u v : nat) :
    reachable graph root u -> In v (nth u graph []) -> reachable graph root v.

(** Nodes of [nodes] not yet visited; the traversal's measure. *)
Definition unvisited (nodes visited : list nat) : nat :=
  length (filter (fun x => negb (mem_nat x visited)) nodes).

(** The invariant of the traversal. *)
Definition bfs_invariant (graph : list (list nat)) (root : nat)
           (queue visited : list nat) : Prop :=
  In root visited /\
  (forall x, In x visited -> reachable graph root x) /\
  (forall x, In x queue -> In x visited) /\
  (forall x, In x visited ->
             In x queue \/ forall y, In y (nth x graph []) -> In y visited).

(** A graph over [n] nodes with every neighbour in range. *)
Definition graph_in_range (n : nat) (graph : list (list nat)) : Prop :=
  length graph = n /\ forall u v, In v (nth u graph []) -> v < n.

(** Three zones, the third one far from the other two (scenario 6 of
    the specification). *)
Definition isolated_config : list (list (Z * Z)) :=
  [ [(0, 12); (90, 8); (45, 8); (-45, 8)];
    [(0, 8); (90, 8); (45, 8); (-45, 8)];
    [(0, 6); (90, 6); (45, 6); (-45, 6)] ]%Z.

Definition isolated_bounds : list Bounds :=
  [ {| b_x := 0; b_y := 0; b_w := 100; b_h := 100 |};
    {| b_x := 100; b_y := 0; b_w := 100; b_h := 100 |};
    {| b_x := 500; b_y := 500; b_w := 100; b_h := 100 |} ]%Q.

Definition isolated_mz : MultiZoneOptimizer :=
  {| zones_config := isolated_config;
     zone_totals := [36; 32; 24]%Z;
     root_index := 0;
     zone_neighbors := [[1]; [0]; []] |}.

(** ** Dictionaries, randomness and list helpers of the drop-off engine *)

Section Dict.

Variable V : Type.

Fixpoint dict_get (d : list (Z * V)) (k : Z) : option V :=
  match d with
  | [] => None
  | (k', v) :: rest => if (k' =? k)%Z then Some v else dict_get rest k
  end.

(** [d.get(k, default)] *)
Definition dict_get_default (d : list (Z * V)) (k : Z) (default : V) : V :=
  match dict_get d k with
  | Some v => v
  | None => default
  end.

(** [d[k] = v]: in place for a known key, at the end for a new one. *)
Fixpoint dict_set (d : list (Z * V)) (k : Z) (v : V) : list (Z * V) :=
  match d with
  | [] => [(k, v)]
  | (k', v') :: rest =>
      if (k' =? k)%Z then (k, v) :: rest else (k', v') :: dict_set rest k v
  end.

(** [del d[k]] *)
Fixpoint dict_del (d : list (Z * V)) (k : Z) : list (Z * V) :=
  match d with
  | [] => []
  | (k', v') :: rest =>
      if (k' =? k)%Z then rest else (k', v') :: dict_del rest k
  end.

Definition dict_keys (d : list (Z * V)) : list Z := map fst d.
Definition dict_values (d : list (Z * V)) : list V := map snd d.

Definition dict_mem (d : list (Z * V)) (k : Z) : bool :=
  match dict_get d k with
  | Some _ => true
  | None => false
  end.

End Dict.

(** [collections.Counter(sequence)] *)
Definition Counter (sequence : list Z) : list (Z * Z) :=
  fold_left (fun c x => dict_set c x (dict_get_default c x 0 + 1)%Z) sequence [].

Definition Zsum (l : list Z) : Z := fold_left Z.add l 0%Z.

(** Insertion into an ascending list; [sorted] is the insertion sort. *)
Fixpoint insert_nat (x : nat) (l : list nat) : list nat :=
  match l with
  | [] => [x]
  | y :: rest => if x <=? y then x :: l else y :: insert_nat x rest
  end.

Definition sorted_nat (l : list nat) : list nat := fold_right insert_nat [] l.

Fixpoint insert_Z (x : Z) (l : list Z) : list Z :=
  match l with
  | [] => [x]
  | y :: rest => if (x <=? y)%Z then x :: l else y :: insert_Z x rest
  end.

Definition sorted_Z (l : list Z) : list Z := fold_right insert_Z [] l.

(** [any(l[i + 1] - l[i] == 1 for i in range(len(l) - 1))] *)
Fixpoint has_consecutive (l : list nat) : bool :=
  match l with
  | a :: ((b :: _) as tl) => (b - a =? 1) || has_consecutive tl
  | _ => false
  end.

(** [[x for i, x in enumerate(l) if i not in drops]], counting from [i]. *)
Fixpoint remove_indices_from (A : Type) (l : list A) (drops : list nat) (i : nat)
  : list A :=
  match l with
  | [] => []
  | x :: rest =>
      if mem_nat i drops then remove_indices_from rest drops (S i)
      else x :: remove_indices_from rest drops (S i)
  end.

Definition remove_indices (A : Type) (l : list A) (drops : list nat) : list A :=
  remove_indices_from l drops 0.

(** [l.pop(i)], keeping the list. *)
Fixpoint pop_at (A : Type) (i : nat) (l : list A) : list A :=
  match l, i with
  | [], _ => []
  | _ :: rest, O => rest
  | x :: rest, S i' => x :: pop_at i' rest
  end.

(** [l[i] = x] *)
Fixpoint set_at (A : Type) (i : nat) (x : A) (l : list A) : list A :=
  match l, i with
  | [], _ => []
  | _ :: rest, O => x :: rest
  | y :: rest, S i' => y :: set_at i' x rest
  end.

(** [l[i], l[j] = l[j], l[i]] *)
Definition swap_at (l : list Z) (i j : nat) : list Z :=
  set_at j (nth i l 0%Z) (set_at i (nth j l 0%Z) l).

(** *** The random tape *)

Definition Tape : Type := list nat.

Definition draw (t : Tape) : nat * Tape :=
  match t with
  | [] => (0, [])
  | x :: t' => (x, t')
  end.

(** [random.random() < 0.70] *)
Definition random_lt_070 (t : Tape) : bool * Tape :=
  let '(x, t') := draw t in (x mod 100 <? 70, t').

(** [random.choice(l)], for a non-empty [l]. *)
Definition random_choice (l : list nat) (t : Tape) : nat * Tape :=
  let '(x, t') := draw t in (nth (x mod length l) l 0, t').

(** [random.sample(l, k)], for [k <= len(l)]. *)
Fixpoint random_sample (l : list nat) (k : nat) (t : Tape) : list nat * Tape :=
  match k with
  | O => ([], t)
  | S k' =>
      match l with
      | [] => ([], t)
      | _ =>
          let '(x, t1) := draw t in
          let i := x mod length l in
          let '(rest, t2) := random_sample (pop_at i l) k' t1 in
          (nth i l 0 :: rest, t2)
      end
  end.

(** [random.shuffle] of [range(n)] *)
Definition random_shuffle_range (n : nat) (t : Tape) : list nat * Tape :=
  random_sample (seq 0 n) n t.

(** *** [_fix_adjacent_0_90] *)

Definition pair_violates (s : list Z) (i : nat) : bool :=
  is_0_90_pair (nth i s 0%Z) (nth (i + 1) s 0%Z).

(** The inner [for j in candidates] loop: the first [j] whose swap with
    position [i + 1] leaves the three pairs around it clean. *)
Fixpoint try_swaps (s : list Z) (i : nat) (candidates : list nat) : option (list Z) :=
  match candidates with
  | [] => None
  | j :: rest =>
      if (j =? i) || (j =? i + 1) then try_swaps s i rest
      else
        let s' := swap_at s (i + 1) j in
        let ok := true in
        let ok := if i + 1 <? length s' then negb (pair_violates s' i) else ok in
        let ok := if ok && (0 <? j) then negb (pair_violates s' (j - 1)) else ok in
        let ok := if ok && (j <? length s' - 1) then negb (pair_violates s' j) else ok in
        if ok then Some s' else try_swaps s i rest
  end.

(** The [for i in range(len(seq) - 1)] scan of one attempt: the first
    violating pair that can be repaired, if any. *)
Fixpoint repair_scan (s : list Z) (positions : list nat) (t : Tape)
  : option (list Z) * Tape :=
  match positions with
  | [] => (None, t)
  | i :: rest =>
      if pair_violates s i then
        let '(candidates, t') := random_shuffle_range (length s) t in
        match try_swaps s i candidates with
        | Some s' => (Some s', t')
        | None => repair_scan s rest t'
        end
      else repair_scan s rest t
  end.

Fixpoint repair_loop (attempts : nat) (s : list Z) (t : Tape) : list Z * Tape :=
  match attempts with
  | O => (s, t)
  | S attempts' =>
      match repair_scan s (seq 0 (length s - 1)) t with
      | (Some s', t') => repair_loop attempts' s' t'
      | (None, t') => (s, t')
      end
  end.

Definition _fix_adjacent_0_90 (s : list Z) (t : Tape) : list Z * Tape :=
  repair_loop (length s * 3) s t.

(** ** The drop-off engine: [optimize_drop_with_angle_targets] *)

(** Computations that draw from the tape and may raise. *)
Definition Search (A : Type) : Type := Tape -> result (A * Tape).

Definition sret (A : Type) (a : A) : Search A := fun t => Ok (a, t).

Definition sbind (A B : Type) (m : Search A) (k : A -> Search B) : Search B :=
  fun t => match m t with
           | Ok (a, t') => k a t'
           | Raise e => Raise e
           end.

(** A call that may raise but draws nothing. *)
Definition lift_result (A : Type) (r : result A) : Search A :=
  fun t => match r with
           | Ok a => Ok (a, t)
           | Raise e => Raise e
           end.

(** A draw that cannot raise. *)
Definition lift_draw (A : Type) (f : Tape -> A * Tape) : Search A :=
  fun t => Ok (f t).

Notation "'let*' x ':=' c 'in' k" := (sbind c (fun x => k))
  (at level 10, x pattern, c at level 100, k at level 200).

Definition msg_target_exceeds (angle target_count current : Z) : string :=
  ("Angle " ++ str_of_Z angle ++ "°: hedef " ++ str_of_Z target_count
   ++ " ama mevcut sadece " ++ str_of_Z current ++ " katman var")%string.

Definition msg_target_negative (angle : Z) : string :=
  ("Angle " ++ str_of_Z angle ++ "°: hedef sayı negatif olamaz")%string.

(** Step 1: the validation loop over [target_ply_counts.items()]. *)
Fixpoint validate_targets (current_counts target_ply_counts : list (Z * Z))
  : result unit :=
  match target_ply_counts with
  | [] => Ok tt
  | (angle, target_count) :: rest =>
      let current := dict_get_default current_counts angle 0%Z in
      if (current <? target_count)%Z then
        Raise (ValueError (msg_target_exceeds angle target_count current))
      else if (target_count <? 0)%Z then
        Raise (ValueError (msg_target_negative angle))
      else validate_targets current_counts rest
  end.

(** Step 2: how many plies to drop per angle. *)
Definition initial_drops_needed (current_counts target_ply_counts : list (Z * Z))
  : list (Z * Z) :=
  fold_left
    (fun drops_needed '(angle, target_count) =>
       let current := dict_get_default current_counts angle 0%Z in
       if (target_count <? current)%Z
       then dict_set drops_needed angle (current - target_count)%Z
       else drops_needed)
    target_ply_counts [].

(** [d[k] -= 1], and [del d[k]] when it reaches 0. *)
Definition dec_or_del (d : list (Z * Z)) (k : Z) : list (Z * Z) :=
  let v := (dict_get_default d k 0 - 1)%Z in
  if (v =? 0)%Z then dict_del d k else dict_set d k v.

Definition opt_Z_eqb (a : option Z) (b : Z) : bool :=
  match a with
  | Some x => (x =? b)%Z
  | None => false
  end.

(** What step 3 decides before the search. *)
Record DropPlan : Type := {
  drops_needed : list (Z * Z);
  drop_middle : bool;
  break_pair_for_middle : bool;
  break_pair_angle : option Z;
  single_ply_drops : list (Z * Z)
}.

Definition plan_drops (master_sequence : list Z) (target_ply_counts : list (Z * Z))
           (drops_needed0 : list (Z * Z)) : DropPlan :=
  let n := length master_sequence in
  let half := n / 2 in
  let master_is_odd := n mod 2 =? 1 in
  let middle_angle :=
    if master_is_odd then Some (nth half master_sequence 0%Z) else None in
  let target_total := Zsum (dict_values target_ply_counts) in
  let target_is_odd := (target_total mod 2 =? 1)%Z in
  let '(dn, drop_mid, break_pair, break_angle) :=
    if master_is_odd && negb target_is_odd then
      match middle_angle with
      | Some ma =>
          if dict_mem drops_needed0 ma
          then (dec_or_del drops_needed0 ma, true, false, None)
          else (drops_needed0, true, false, None)
      | None => (drops_needed0, true, false, None)
      end
    else if negb master_is_odd && target_is_odd then
      match find (fun '(_, cnt) => (cnt mod 2 =? 1)%Z) drops_needed0 with
      | Some (angle, _) => (dec_or_del drops_needed0 angle, false, true, Some angle)
      | None =>
          match drops_needed0 with
          | (angle, _) :: _ => (drops_needed0, false, true, Some angle)
          | [] => (drops_needed0, false, true, None)
          end
      end
    else (drops_needed0, false, false, None) in
  let '(dn, drop_mid, singles) :=
    fold_left
      (fun '(dn, drop_mid, singles) angle =>
         if negb (dict_get_default dn angle 0 mod 2 =? 0)%Z then
           if master_is_odd && opt_Z_eqb middle_angle angle && negb drop_mid
           then (dec_or_del dn angle, true, singles)
           else (dec_or_del dn angle, drop_mid, dict_set singles angle 1%Z)
         else (dn, drop_mid, singles))
      (dict_keys dn) (dn, drop_mid, []) in
  {| drops_needed := dn; drop_middle := drop_mid;
     break_pair_for_middle := break_pair; break_pair_angle := break_angle;
     single_ply_drops := singles |}.

(** Left-half positions of [angle], outer two plies protected. *)
Definition left_positions (master_sequence : list Z) (angle : Z) : list nat :=
  let half := length master_sequence / 2 in
  filter (fun p => (nth p master_sequence 0 =? angle)%Z && (1 <? p)) (seq 0 half).

(** Those of them with an equal neighbour. *)
Definition grouped_positions (master_sequence : list Z) (angle : Z) : list nat :=
  let n := length master_sequence in
  filter
    (fun p =>
       ((0 <? p) && (nth (p - 1) master_sequence 0 =? angle)%Z)
       || ((p <? n - 1) && (nth (p + 1) master_sequence 0 =? angle)%Z))
    (left_positions master_sequence angle).

(** Positions of [angle] anywhere but the outer two plies of each side. *)
Definition all_positions (master_sequence : list Z) (angle : Z) : list nat :=
  let n := length master_sequence in
  filter (fun p => (nth p master_sequence 0 =? angle)%Z && (1 <? p) && (p <? n - 2))
         (seq 0 n).

(** The keys of [angle_positions_left]: the angles still in
    [drops_needed], and [break_pair_angle] when it is truthy. *)
Definition angles_to_check (plan : DropPlan) : list Z :=
  dict_keys (drops_needed plan)
  ++ match break_pair_angle plan with
     | Some a => if (a =? 0)%Z then [] else [a]
     | None => []
     end.

Definition angle_positions_left (master_sequence : list Z) (plan : DropPlan)
           (angle : Z) : list nat :=
  if existsb (Z.eqb angle) (angles_to_check plan)
  then left_positions master_sequence angle else [].

Definition angle_grouped_left (master_sequence : list Z) (plan : DropPlan)
           (angle : Z) : list nat :=
  if existsb (Z.eqb angle) (angles_to_check plan)
  then grouped_positions master_sequence angle else [].

Definition angle_positions_all (master_sequence : list Z) (plan : DropPlan)
           (angle : Z) : list nat :=
  if dict_mem (single_ply_drops plan) angle
  then all_positions master_sequence angle else [].

(** The choice of left positions for one angle. *)
Definition select_positions (prefer_grouped : bool) (available grouped : list nat)
           (pairs_needed : nat) (t : Tape) : list nat * Tape :=
  match prefer_grouped, grouped with
  | true, _ :: _ =>
      let ungrouped := filter (fun p => negb (mem_nat p grouped)) available in
      let '(selected, t') :=
        if pairs_needed <=? length grouped then random_sample grouped pairs_needed t
        else
          let remaining := pairs_needed - length grouped in
          if remaining <=? length ungrouped then
            let '(more, t') := random_sample ungrouped remaining t in
            (grouped ++ more, t')
          else (grouped ++ ungrouped, t) in
      (firstn pairs_needed selected, t')
  | _, _ => random_sample available pairs_needed t
  end.

(** The loop over [drops_needed.items()]; [None] when an angle has too
    few positions ([valid = False]). *)
Fixpoint select_left_drops (master_sequence : list Z) (plan : DropPlan)
         (prefer_grouped : bool) (items : list (Z * Z))
         (left_drops_by_angle : list (Z * list nat)) (t : Tape)
  : option (list (Z * list nat)) * Tape :=
  match items with
  | [] => (Some left_drops_by_angle, t)
  | (angle, drop_count) :: rest =>
      let pairs_needed := Z.to_nat (drop_count / 2) in
      let available := angle_positions_left master_sequence plan angle in
      let grouped := angle_grouped_left master_sequence plan angle in
      if length available <? pairs_needed then (None, t)
      else
        let '(selected, t') :=
          select_positions prefer_grouped available grouped pairs_needed t in
        select_left_drops master_sequence plan prefer_grouped rest
          (dict_set left_drops_by_angle angle (sorted_nat selected)) t'
  end.

(** [d[k].extend(xs)], creating the entry when it is missing. *)
Definition dict_extend (d : list (Z * list nat)) (k : Z) (xs : list nat)
  : list (Z * list nat) :=
  dict_set d k (dict_get_default d k [] ++ xs).

(** The single-ply loop; [None] when an angle has no free position. *)
Fixpoint add_single_drops (master_sequence : list Z) (plan : DropPlan)
         (angles : list Z) (all_drops : list nat)
         (dropped_by_angle : list (Z * list nat)) (t : Tape)
  : option (list nat * list (Z * list nat)) * Tape :=
  match angles with
  | [] => (Some (all_drops, dropped_by_angle), t)
  | s_angle :: rest =>
      let available_for_single :=
        filter (fun p => negb (mem_nat p all_drops))
               (angle_positions_all master_sequence plan s_angle) in
      match available_for_single with
      | [] => (None, t)
      | _ =>
          let '(single_pos, t') := random_choice available_for_single t in
          add_single_drops master_sequence plan rest (all_drops ++ [single_pos])
            (dict_extend dropped_by_angle s_angle [single_pos]) t'
      end
  end.

(** One attempt up to the candidate: the drop set and its record, or
    [None] where the attempt is abandoned before a candidate exists. *)
Definition draw_candidate (master_sequence : list Z) (plan : DropPlan) (t : Tape)
  : option (list Z * list (Z * list nat)) * Tape :=
  let n := length master_sequence in
  let middle_idx := n / 2 in
  let '(prefer_grouped, t) := random_lt_070 t in
  match select_left_drops master_sequence plan prefer_grouped
          (drops_needed plan) [] t with
  | (None, t) => (None, t)
  | (Some left_drops_by_angle, t) =>
      let all_left_drops := sorted_nat (concat (dict_values left_drops_by_angle)) in
      if (1 <? length all_left_drops) && has_consecutive all_left_drops
      then (None, t)
      else
        let all_drop_angles :=
          dict_keys (drops_needed plan)
          ++ filter (fun a => negb (dict_mem (drops_needed plan) a))
                    (dict_keys (single_ply_drops plan)) in
        let dropped_by_angle := map (fun a => (a, @nil nat)) all_drop_angles in
        let '(all_drops, dropped_by_angle) :=
          fold_left
            (fun '(all_drops, dropped_by_angle) '(angle, left_positions) =>
               fold_left
                 (fun '(all_drops, dropped_by_angle) idx =>
                    let mirror_idx := n - 1 - idx in
                    (all_drops ++ [idx; mirror_idx],
                     dict_extend dropped_by_angle angle [idx; mirror_idx]))
                 left_positions (all_drops, dropped_by_angle))
            left_drops_by_angle ([], dropped_by_angle) in
        let '(all_drops, dropped_by_angle) :=
          if drop_middle plan then
            (all_drops ++ [middle_idx],
             dict_extend dropped_by_angle (nth middle_idx master_sequence 0%Z)
                         [middle_idx])
          else (all_drops, dropped_by_angle) in
        let '(all_drops, dropped_by_angle, t) :=
          match break_pair_for_middle plan, break_pair_angle plan with
          | true, Some bpa =>
              let used_positions := dict_get_default left_drops_by_angle bpa [] in
              let available_for_break :=
                filter (fun p => negb (mem_nat p used_positions))
                       (angle_positions_left master_sequence plan bpa) in
              match available_for_break with
              | [] => (all_drops, dropped_by_angle, t)
              | _ =>
                  let '(break_pair_idx, t) := random_choice available_for_break t in
                  let mirror_idx := n - 1 - break_pair_idx in
                  (all_drops ++ [mirror_idx],
                   dict_extend dropped_by_angle bpa [mirror_idx], t)
              end
          | _, _ => (all_drops, dropped_by_angle, t)
          end in
        match add_single_drops master_sequence plan
                (dict_keys (single_ply_drops plan)) all_drops dropped_by_angle t with
        | (None, t) => (None, t)
        | (Some (all_drops, dropped_by_angle), t) =>
            let temp_seq := remove_indices master_sequence (sorted_nat all_drops) in
            let '(temp_seq, t) :=
              match single_ply_drops plan with
              | [] => (temp_seq, t)
              | _ => _fix_adjacent_0_90 temp_seq t
              end in
            (Some (temp_seq, dropped_by_angle), t)
        end
  end.

(** The running best of the randomized search. *)
Record BestSoFar : Type := {
  best_candidate : option (list Z);
  best_score : Q;
  _best_g3 : nat;
  best_dropped_by_angle : list (Z * list nat)
}.

Definition no_best : BestSoFar :=
  {| best_candidate := None; best_score := (-1)%Q; _best_g3 := 999;
     best_dropped_by_angle := [] |}.

(** [all(temp_counts.get(angle, 0) == target ...)] *)
Definition matches_target (temp_seq : list Z) (target_ply_counts : list (Z * Z)) : bool :=
  forallb (fun '(angle, orig_target) =>
             (Z.of_nat (count temp_seq angle) =? orig_target)%Z)
          target_ply_counts.

(** [(g3, -score) < (bg3, -bscore)] on tuples. *)
Definition key_lt (g3 : nat) (sc : Q) (bg3 : nat) (bsc : Q) : bool :=
  (g3 <? bg3) || ((g3 =? bg3) && Qltb (- sc) (- bsc)).

(** The checks of one attempt after the candidate is scored, and the
    update of the running best. *)
Definition consider_candidate (target_ply_counts : list (Z * Z))
           (temp_seq : list Z) (dropped_by_angle : list (Z * list nat))
           (sc : Q) (best : BestSoFar) : BestSoFar :=
  if Qleb sc 0 then best
  else if negb (matches_target temp_seq target_ply_counts) then best
  else
    let groups_of_4 := _find_groups_of_size temp_seq 4 in
    let groups_of_5 := _find_groups_of_size temp_seq 5 in
    if 0 <? groups_of_4 + groups_of_5 then best
    else
      let groups_of_3 := _find_groups_of_size temp_seq 3 in
      if 4 <? groups_of_3 then best
      else
        let '(bg3, bsc) :=
          if Qltb (best_score best) 0 then (999, 0%Q)
          else (_best_g3 best, best_score best) in
        match best_candidate best with
        | Some _ =>
            if key_lt groups_of_3 sc bg3 bsc then
              {| best_candidate := Some temp_seq; best_score := sc;
                 _best_g3 := groups_of_3;
                 best_dropped_by_angle :=
                   map (fun '(a, ps) => (a, sorted_nat ps)) dropped_by_angle |}
            else best
        | None =>
            {| best_candidate := Some temp_seq; best_score := sc;
               _best_g3 := groups_of_3;
               best_dropped_by_angle :=
                 map (fun '(a, ps) => (a, sorted_nat ps)) dropped_by_angle |}
        end.

Section DropOff.

Variable fl : FloatOps.
Variable W : Weights.

(** [score, _ = self.base_opt.calculate_fitness(s)] *)
Definition fitness_of (s : list Z) : result Q :=
  r <- calculate_fitness fl W s ;; Ok (fst r).

(** Step 4: the randomized search, [attempts] candidates long. *)
Fixpoint search_loop (attempts : nat) (master_sequence : list Z) (plan : DropPlan)
         (target_ply_counts : list (Z * Z)) (best : BestSoFar)
  : Search BestSoFar :=
  match attempts with
  | O => sret best
  | S attempts' =>
      let* cand := lift_draw (draw_candidate master_sequence plan) in
      match cand with
      | None => search_loop attempts' master_sequence plan target_ply_counts best
      | Some (temp_seq, dropped_by_angle) =>
          let* sc := lift_result (fitness_of temp_seq) in
          search_loop attempts' master_sequence plan target_ply_counts
            (consider_candidate target_ply_counts temp_seq dropped_by_angle sc best)
      end
  end.

(** *** The deterministic fallbacks *)

(** What a fallback returns: sequence, score, record. *)
Definition DropResult : Type := list Z * Q * list (Z * list nat).

(** [itertools.product] of the lists *)
Fixpoint product (lists : list (list nat)) : list (list nat) :=
  match lists with
  | [] => [[]]
  | l :: rest =>
      flat_map (fun x => map (cons x) (product rest)) l
  end.

Fixpoint has_duplicate (l : list nat) : bool :=
  match l with
  | [] => false
  | x :: rest => mem_nat x rest || has_duplicate rest
  end.

(** Phase 2 of both fallbacks: one single-ply drop per odd-delta angle,
    on the current sequence [s] with its map [pos_map] to parent
    indices.  [None] is the Python [return None]. *)
Definition single_drops_phase (s : list Z) (pos_map : list nat)
           (dropped : list (Z * list nat)) (single_angles : list Z)
  : Search (option (list Z * list nat * list (Z * list nat))) :=
  let n := length s in
  match single_angles with
  | [] => sret (Some (s, pos_map, dropped))
  | [ang] =>
      let* best :=
        lift_result
          (fold_left
             (fun acc i =>
                '(best_pos, best_sc) <- acc ;;
                if negb (nth i s 0 =? ang)%Z then Ok (best_pos, best_sc)
                else
                  sc <- fitness_of (pop_at i s) ;;
                  if Qltb best_sc sc then Ok (Some i, sc) else Ok (best_pos, best_sc))
             (seq 2 (n - 2 - 2)) (Ok (None, (-1)%Q))) in
      match best with
      | (Some best_pos, best_sc) =>
          if Qleb best_sc 0 then sret None
          else
            sret (Some (pop_at best_pos s, pop_at best_pos pos_map,
                        dict_extend dropped ang [nth best_pos pos_map 0]))
      | (None, _) => sret None
      end
  | _ =>
      let pos_lists :=
        map (fun ang => filter (fun i => (nth i s 0 =? ang)%Z) (seq 2 (n - 2 - 2)))
            single_angles in
      let* best :=
        fold_left
          (fun acc combo =>
             let* (best_combo, best_combo_score) := acc in
             if has_duplicate combo then sret (best_combo, best_combo_score)
             else
               let* temp := lift_draw (_fix_adjacent_0_90 (remove_indices s combo)) in
               let* sc := lift_result (fitness_of temp) in
               if Qltb best_combo_score sc then sret (Some combo, sc)
               else sret (best_combo, best_combo_score))
          (product pos_lists) (sret (None, (-1)%Q)) in
      match best with
      | (Some best_combo, best_combo_score) =>
          if Qleb best_combo_score 0 then sret None
          else
            let dropped :=
              fold_left
                (fun dropped '(ang, pos) =>
                   dict_extend dropped ang [nth pos pos_map 0])
                (combine single_angles best_combo) dropped in
            let* s' := lift_draw (_fix_adjacent_0_90 (remove_indices s best_combo)) in
            sret (Some (s', remove_indices pos_map best_combo, dropped))
      | (None, _) => sret None
      end
  end.

(** The final validation shared by both fallbacks. *)
Definition final_validation (s : list Z) (dropped : list (Z * list nat))
  : Search (option DropResult) :=
  let* final_score := lift_result (fitness_of s) in
  if Qleb final_score 0 then sret None
  else sret (Some (s, final_score,
                   map (fun '(a, v) => (a, sorted_nat v)) dropped)).

(** A state of the beam. *)
Record BeamState : Type := {
  bs_score : Q;
  bs_seq : list Z;
  bs_pos_map : list nat;
  bs_pairs_left : list (Z * Z);
  bs_dropped : list (Z * list nat)
}.

(** The per-angle scan of [_beam_search_angle_target_drop]: the deltas
    split into pairs and single drops; [None] for an infeasible target. *)
Fixpoint beam_requirements (current0 : list (Z * Z)) (items : list (Z * Z))
         (pairs_needed : list (Z * Z)) (beam_single_angles : list Z)
  : option (list (Z * Z) * list Z) :=
  match items with
  | [] => Some (pairs_needed, beam_single_angles)
  | (ang, tgt) :: rest =>
      let cur := dict_get_default current0 ang 0%Z in
      if (cur <? tgt)%Z then None
      else
        let delta := (cur - tgt)%Z in
        let odd := negb (delta mod 2 =? 0)%Z in
        let pair_delta := if odd then (delta - 1)%Z else delta in
        beam_requirements current0 rest
          (if (0 <? pair_delta)%Z then dict_set pairs_needed ang (pair_delta / 2)%Z
           else pairs_needed)
          (if odd then beam_single_angles ++ [ang] else beam_single_angles)
  end.

(** All one-pair successors of a beam state, in loop order. *)
Definition expand_state (protect_left_min_idx : nat) (st : BeamState)
  : result (list BeamState) :=
  let s := bs_seq st in
  let n := length s in
  let half := n / 2 in
  let angles :=
    sorted_Z (map fst (filter (fun '(_, k) => (0 <? k)%Z) (bs_pairs_left st))) in
  fold_left
    (fun acc '(ang, left_idx) =>
       next_states <- acc ;;
       let right_idx := n - 1 - left_idx in
       if negb (nth left_idx s 0 =? ang)%Z then Ok next_states
       else if right_idx =? left_idx then Ok next_states
       else if negb (nth right_idx s 0 =? ang)%Z then Ok next_states
       else
         let temp_seq := pop_at left_idx (pop_at right_idx s) in
         let temp_pos := pop_at left_idx (pop_at right_idx (bs_pos_map st)) in
         let orig_left := nth left_idx (bs_pos_map st) 0 in
         let orig_right := nth right_idx (bs_pos_map st) 0 in
         sc <- fitness_of temp_seq ;;
         if Qleb sc 0 then Ok next_states
         else
           let k := (dict_get_default (bs_pairs_left st) ang 0 - 1)%Z in
           let new_pairs_left :=
             if (k <=? 0)%Z then dict_del (bs_pairs_left st) ang
             else dict_set (bs_pairs_left st) ang k in
           Ok (next_states ++
               [{| bs_score := sc; bs_seq := temp_seq; bs_pos_map := temp_pos;
                   bs_pairs_left := new_pairs_left;
                   bs_dropped :=
                     dict_extend (bs_dropped st) ang [orig_left; orig_right] |}]))
    (flat_map (fun ang => map (pair ang)
                            (seq protect_left_min_idx (half - protect_left_min_idx)))
              angles)
    (Ok []).

(** Insertion for the stable descending sort on the score. *)
Fixpoint insert_by_score (x : BeamState) (l : list BeamState) : list BeamState :=
  match l with
  | [] => [x]
  | y :: rest =>
      if Qltb (bs_score x) (bs_score y) then y :: insert_by_score x rest
      else x :: l
  end.

Definition sort_by_score_desc (l : list BeamState) : list BeamState :=
  fold_right insert_by_score [] l.

Definition seq_eqb (a b : list Z) : bool :=
  if list_eq_dec Z.eq_dec a b then true else false.

(** Keep the first state of every distinct sequence, [beam_width] at most. *)
Fixpoint dedupe_beam (beam_width : nat) (l : list BeamState) (seen : list (list Z))
  : list BeamState :=
  match beam_width, l with
  | O, _ => []
  | _, [] => []
  | S w, st :: rest =>
      if existsb (seq_eqb (bs_seq st)) seen then dedupe_beam beam_width rest seen
      else st :: dedupe_beam w rest (bs_seq st :: seen)
  end.

(** The [for _step in range(total_pairs)] loop; [None] when a step has
    no successor. *)
Fixpoint beam_steps (steps : nat) (protect_left_min_idx beam_width : nat)
         (beam : list BeamState) : result (option (list BeamState)) :=
  match steps with
  | O => Ok (Some beam)
  | S steps' =>
      next_states <-
        fold_left
          (fun acc st =>
             states <- acc ;;
             more <- expand_state protect_left_min_idx st ;;
             Ok (states ++ more))
          beam (Ok []) ;;
      match next_states with
      | [] => Ok None
      | _ =>
          beam_steps steps' protect_left_min_idx beam_width
            (dedupe_beam beam_width (sort_by_score_desc next_states) [])
      end
  end.

(** [max(beam, key=lambda x: x[0])]: the first state of largest score. *)
Fixpoint max_by_score (best : BeamState) (l : list BeamState) : BeamState :=
  match l with
  | [] => best
  | st :: rest =>
      if Qltb (bs_score best) (bs_score st) then max_by_score st rest
      else max_by_score best rest
  end.

Definition _beam_search_angle_target_drop (seq_in : list Z)
           (target_counts_in : list (Z * Z))
           (protect_left_min_idx beam_width : nat) : Search (option DropResult) :=
  let beam_width := if beam_width <? 1 then 1 else beam_width in
  let seq0 := seq_in in
  let pos0 := seq 0 (length seq0) in
  match beam_requirements (Counter seq0) target_counts_in [] [] with
  | None => sret None
  | Some (pairs_needed, beam_single_angles) =>
      let total_pairs := Zsum (dict_values pairs_needed) in
      if (total_pairs =? 0)%Z && match beam_single_angles with [] => true | _ => false end
      then
        let* sc := lift_result (fitness_of seq0) in
        if Qleb sc 0 then sret None else sret (Some (seq0, sc, []))
      else
        let* sc0 := lift_result (fitness_of seq0) in
        if Qleb sc0 0 then sret None
        else
          let start :=
            {| bs_score := sc0; bs_seq := seq0; bs_pos_map := pos0;
               bs_pairs_left := pairs_needed; bs_dropped := [] |} in
          let* best :=
            if (0 <? total_pairs)%Z then
              let* beam :=
                lift_result (beam_steps (Z.to_nat total_pairs) protect_left_min_idx
                                        beam_width [start]) in
              match beam with
              | None => sret None
              | Some [] => sret None
              | Some (st :: rest) => sret (Some (max_by_score st rest))
              end
            else
              sret (Some {| bs_score := sc0; bs_seq := seq0; bs_pos_map := pos0;
                            bs_pairs_left := []; bs_dropped := [] |}) in
          match best with
          | None => sret None
          | Some best =>
              let* after :=
                single_drops_phase (bs_seq best) (bs_pos_map best)
                                   (bs_dropped best) beam_single_angles in
              match after with
              | None => sret None
              | Some (best_seq, _, best_dropped) =>
                  final_validation best_seq best_dropped
              end
          end
  end.

(** The per-angle scan of [_greedy_angle_target_drop]. *)
Fixpoint greedy_requirements (current : list (Z * Z)) (items : list (Z * Z))
         (greedy_pair_targets : list (Z * Z)) (greedy_single_angles : list Z)
  : option (list (Z * Z) * list Z) :=
  match items with
  | [] => Some (greedy_pair_targets, greedy_single_angles)
  | (ang, tgt) :: rest =>
      let cur := dict_get_default current ang 0%Z in
      if (cur <? tgt)%Z then None
      else
        let delta := (cur - tgt)%Z in
        if negb (delta mod 2 =? 0)%Z then
          greedy_requirements current rest
            (dict_set greedy_pair_targets ang (tgt + 1)%Z)
            (greedy_single_angles ++ [ang])
        else
          greedy_requirements current rest
            (dict_set greedy_pair_targets ang tgt) greedy_single_angles
  end.

(** The best-scoring pair removal of one greedy step, [(score, left)]. *)
Definition greedy_best_pair (protect_left_min_idx : nat) (s : list Z)
           (greedy_pair_targets : list (Z * Z)) : result (option (Q * nat)) :=
  let n := length s in
  let half := n / 2 in
  let current := Counter s in
  fold_left
    (fun acc '(ang, left_idx) =>
       best <- acc ;;
       let right_idx := n - 1 - left_idx in
       if left_idx <? protect_left_min_idx then Ok best
       else if negb (nth left_idx s 0 =? ang)%Z then Ok best
       else if right_idx =? left_idx then Ok best
       else if negb (nth right_idx s 0 =? ang)%Z then Ok best
       else
         sc <- fitness_of (remove_indices s [left_idx; right_idx]) ;;
         if Qleb sc 0 then Ok best
         else match best with
              | None => Ok (Some (sc, left_idx))
              | Some (bsc, _) =>
                  if Qltb bsc sc then Ok (Some (sc, left_idx)) else Ok best
              end)
    (flat_map
       (fun '(ang, tgt) =>
          if (dict_get_default current ang 0 - tgt <? 2)%Z then []
          else map (pair ang) (seq 0 half))
       greedy_pair_targets)
    (Ok None).

(** Phase 1 of the greedy fallback; the fuel is [safety_iter]'s bound. *)
Fixpoint greedy_pairs (safety : nat) (protect_left_min_idx : nat)
         (greedy_pair_targets : list (Z * Z))
         (s : list Z) (pos_map : list nat) (dropped : list (Z * list nat))
  : result (option (list Z * list nat * list (Z * list nat))) :=
  match safety with
  | O => Ok None
  | S safety' =>
      let current := Counter s in
      if forallb (fun '(ang, tgt) => (dict_get_default current ang 0 <=? tgt)%Z)
                 greedy_pair_targets
      then Ok (Some (s, pos_map, dropped))
      else
        best <- greedy_best_pair protect_left_min_idx s greedy_pair_targets ;;
        match best with
        | None => Ok None
        | Some (_, left_idx) =>
            let right_idx := length s - 1 - left_idx in
            let ang := nth left_idx s 0%Z in
            greedy_pairs safety' protect_left_min_idx greedy_pair_targets
              (pop_at left_idx (pop_at right_idx s))
              (pop_at left_idx (pop_at right_idx pos_map))
              (dict_extend dropped ang
                 [nth left_idx pos_map 0; nth right_idx pos_map 0])
        end
  end.

Definition _greedy_angle_target_drop (seq_in : list Z)
           (target_counts_in : list (Z * Z)) (protect_left_min_idx : nat)
  : Search (option DropResult) :=
  match greedy_requirements (Counter seq_in) target_counts_in [] [] with
  | None => sret None
  | Some (greedy_pair_targets, greedy_single_angles) =>
      let* paired :=
        lift_result (greedy_pairs 5000 protect_left_min_idx greedy_pair_targets
                                  seq_in (seq 0 (length seq_in)) []) in
      match paired with
      | None => sret None
      | Some (s, pos_map, dropped) =>
          let* after := single_drops_phase s pos_map dropped greedy_single_angles in
          match after with
          | None => sret None
          | Some (s', _, dropped') => final_validation s' dropped'
          end
      end
  end.

(** The [for protect in (2, 1, 0)] loop of the fallback. *)
Fixpoint fallback_search (master_sequence : list Z) (full_targets : list (Z * Z))
         (protects : list nat) : Search (option DropResult) :=
  match protects with
  | [] => sret None
  | protect :: rest =>
      let* r := _beam_search_angle_target_drop master_sequence full_targets protect 16 in
      let* r :=
        match r with
        | Some _ => sret r
        | None => _greedy_angle_target_drop master_sequence full_targets protect
        end in
      match r with
      | Some _ => sret r
      | None => fallback_search master_sequence full_targets rest
      end
  end.

Definition optimize_drop_with_angle_targets (master_sequence : list Z)
           (target_ply_counts : list (Z * Z)) : Search DropResult :=
  (* 1. validation *)
  let current_counts := Counter master_sequence in
  let* _ := lift_result (validate_targets current_counts target_ply_counts) in
  (* 2. drops per angle *)
  let drops_needed0 := initial_drops_needed current_counts target_ply_counts in
  let total_drops := Zsum (dict_values drops_needed0) in
  if (total_drops =? 0)%Z then
    let* sc := lift_result (fitness_of master_sequence) in
    sret (master_sequence, sc, [])
  else
    (* 3. parity plan and position tables *)
    let plan := plan_drops master_sequence target_ply_counts drops_needed0 in
    (* 4. randomized search *)
    let* best :=
      search_loop ANGLE_TARGET_DROP_ATTEMPTS master_sequence plan
                  target_ply_counts no_best in
    match best_candidate best with
    | Some cand => sret (cand, best_score best, best_dropped_by_angle best)
    | None =>
        let full_targets :=
          fold_left (fun ft '(a, t) => dict_set ft a t) target_ply_counts
                    (Counter master_sequence) in
        let* fallback_res := fallback_search master_sequence full_targets [2; 1; 0] in
        match fallback_res with
        | Some res => sret res
        | None =>
            let* sc := lift_result (fitness_of master_sequence) in
            sret (master_sequence, sc, [])
        end
    end.

End DropOff.

(** ** Specification-side predicates of the drop-off engine *)

(** Every entry before the first offending one is a feasible target. *)
Definition feasible_entry (parent : list Z) (entry : Z * Z) : Prop :=
  (0 <= snd entry <= Z.of_nat (count parent (fst entry)))%Z.

(** The first entry of the target map that fails validation asks for
    more plies of [angle] than the parent has. *)
Definition first_invalid_exceeds (parent : list Z) (targets : list (Z * Z))
           (angle target : Z) : Prop :=
  exists pre post,
    targets = pre ++ (angle, target) :: post /\
    Forall (feasible_entry parent) pre /\
    (Z.of_nat (count parent angle) < target)%Z.

(** A computation that raises nothing but [IndexError]. *)
Definition only_index_error (A : Type) (m : Search A) : Prop :=
  forall t e, m t = Raise e -> e = IndexError.

Fixpoint last_char (s : string) : option Ascii.ascii :=
  match s with
  | EmptyString => None
  | String c EmptyString => Some c
  | String _ rest => last_char rest
  end.

(** A call that raises nothing but [IndexError]. *)
Definition result_only_index (A : Type) (r : result A) : Prop :=
  forall e, r = Raise e -> e = IndexError.

(** A target entry that asks for exactly the parent's count. *)
Definition own_count_entry (parent : list Z) (entry : Z * Z) : Prop :=
  snd entry = Z.of_nat (count parent (fst entry)).

(** A parent with a run of six 0 plies, and what is left of it when its
    two 90 plies are dropped. *)
Definition six_run_parent : list Z :=
  [45; -45; 90; 45; 0; 0; 0; 0; 0; 0; 45; 90; -45; 45]%Z.

Definition six_run_child : list Z :=
  [45; -45; 45; 0; 0; 0; 0; 0; 0; 45; -45; 45]%Z.

Definition six_run_plan : DropPlan :=
  {| drops_needed := [(90, 2)]%Z; drop_middle := false;
     break_pair_for_middle := false; break_pair_angle := None;
     single_ply_drops := [] |}.

(** The score of the child, 66.26, as the evaluator computes it. *)
Definition six_run_score : Q :=
  Eval vm_compute in
    match fitness_of approx_float WEIGHTS six_run_child with
    | Ok sc => sc
    | Raise _ => 0%Q
    end.

Definition six_run_best : BestSoFar :=
  {| best_candidate := Some six_run_child; best_score := six_run_score;
     _best_g3 := 0; best_dropped_by_angle := [(90%Z, [2; 11])] |}.

Definition indicator (b : bool) : nat := if b then 1 else 0.

(** Two sequences with the same length and the same plies per angle. *)
Definition same_plies (s s' : list Z) : Prop :=
  length s' = length s /\ forall a, count s' a = count s a.

(** All parent indices named by a removal record. *)
Definition removed_indices (record : list (Z * list nat)) : list nat :=
  concat (dict_values record).

(** [child] is [parent] without the plies at [removed], possibly
    reordered by the adjacency-repair pass. *)
Definition derived_by_removal (parent child : list Z) (removed : list nat) : Prop :=
  child = remove_indices parent removed \/
  exists t, child = fst (_fix_adjacent_0_90 (remove_indices parent removed) t).

(** The child counts every targeted angle as the target map says. *)
Definition meets_targets (child : list Z) (targets : list (Z * Z)) : Prop :=
  Forall (fun e => Z.of_nat (count child (fst e)) = snd e) targets.

(** The drop list and the record of an attempt name the same indices. *)
Definition record_agrees (st : list nat * list (Z * list nat)) : Prop :=
  Permutation (fst st) (removed_indices (snd st)).

(** What the randomized search keeps as its best: a scored candidate
    that meets the targets and derives from the parent by removal. *)
Definition accepted_best (fl : FloatOps) (W : Weights) (master : list Z)
           (targets : list (Z * Z)) (best : BestSoFar) : Prop :=
  match best_candidate best with
  | None => True
  | Some cand =>
      fitness_of fl W cand = Ok (best_score best) /\
      (0 < best_score best)%Q /\
      matches_target cand targets = true /\
      derived_by_removal master cand (removed_indices (best_dropped_by_angle best))
  end.

Definition not_removed (removed : list nat) (j : nat) : bool :=
  negb (mem_nat j removed).

(** The bookkeeping of the fallbacks: [pos_map] lists, in order, the
    parent indices not in [removed], and [s] holds the parent's plies at
    those indices. *)
Definition tracks (parent s : list Z) (pos_map removed : list nat) : Prop :=
  pos_map = filter (not_removed removed) (seq 0 (length parent)) /\
  s = map (fun j => nth j parent 0%Z) pos_map /\
  NoDup removed /\ Forall (fun i => i < length parent) removed.

(** After the single-ply phase the sequence is the tracked one,
    possibly reordered by the repair pass. *)
Definition derived_state (parent s : list Z) (pos_map : list nat)
           (dropped : list (Z * list nat)) : Prop :=
  exists s_mid,
    tracks parent s_mid pos_map (removed_indices dropped) /\
    (s = s_mid \/ exists t, s = fst (_fix_adjacent_0_90 s_mid t)).

(** A result of the drop-off engine that does what is asked of it. *)
Definition valid_drop (fl : FloatOps) (W : Weights) (parent : list Z)
           (targets : list (Z * Z)) (r : list Z * Q * list (Z * list nat)) : Prop :=
  let '(child, score, record) := r in
  fitness_of fl W child = Ok score /\
  (0 < score)%Q /\
  meets_targets child targets /\
  derived_by_removal parent child (removed_indices record).

(** Every count of a pair table is at least one. *)
Definition positive_values (d : list (Z * Z)) : Prop :=
  Forall (fun e => (1 <= snd e)%Z) d.

(** The invariant of the beam: the bookkeeping is right, and every angle
    has lost twice the pairs already taken from [pairs_needed]. *)
Definition beam_inv (parent : list Z) (pairs_needed : list (Z * Z))
           (st : BeamState) : Prop :=
  tracks parent (bs_seq st) (bs_pos_map st) (removed_indices (bs_dropped st)) /\
  NoDup (dict_keys (bs_pairs_left st)) /\
  positive_values (bs_pairs_left st) /\
  forall a,
    (Z.of_nat (count (bs_seq st) a)
     = Z.of_nat (count parent a)
       - 2 * (dict_get_default pairs_needed a 0
              - dict_get_default (bs_pairs_left st) a 0))%Z.

(** A pair target of the greedy fallback lies an even number of plies
    below the count of its angle in [s]. *)
Definition even_gap (s : list Z) (e : Z * Z) : Prop :=
  exists k, (0 <= k)%Z /\ (Z.of_nat (count s (fst e)) - snd e = 2 * k)%Z.

(** A parent of four plies that is asked to lose one of its two -45
    plies. *)
Definition stuck_parent : list Z := [45; -45; -45; 45]%Z.

Definition stuck_targets : list (Z * Z) := [(45, 2); (-45, 1)]%Z.

(** Some ply of the parent is to stay: an angle of the parent that is
    not targeted, or whose target is 1 at least. *)
Definition keeps_a_ply (parent : list Z) (targets : list (Z * Z)) : Prop :=
  exists a, 1 <= count parent a /\ forall t, In (a, t) targets -> (1 <= t)%Z.

(** Every target is the parent's own count: there is nothing to drop. *)
Definition no_drop_needed (parent : list Z) (targets : list (Z * Z)) : Prop :=
  Forall (own_count_entry parent) targets.

(** The randomized search ends without a candidate, and so does every
    round of the beam and greedy fallbacks. *)
Definition search_found_nothing (fl : FloatOps) (W : Weights) (parent : list Z)
           (targets : list (Z * Z)) (tape : Tape) : Prop :=
  exists best t1 t2,
    search_loop fl W ANGLE_TARGET_DROP_ATTEMPTS parent
                (plan_drops parent targets
                            (initial_drops_needed (Counter parent) targets))
                targets no_best tape = Ok (best, t1) /\
    best_candidate best = None /\
    fallback_search fl W parent
                    (fold_left (fun ft '(a, t) => dict_set ft a t) targets
                               (Counter parent))
                    [2; 1; 0] t1 = Ok (None, t2).

(** What a call on a feasible target map returns: a scored child that
    is either a valid removal or, when nothing was to drop or nothing
    was found, the parent itself. *)
Definition drop_classified (fl : FloatOps) (W : Weights) (parent : list Z)
           (targets : list (Z * Z)) (tape : Tape)
           (child : list Z) (score : Q) (record : list (Z * list nat)) : Prop :=
  fitness_of fl W child = Ok score /\
  (((0 < score)%Q /\ ~ violates_hard child /\
    meets_targets child targets /\
    derived_by_removal parent child (removed_indices record)) \/
   (child = parent /\ record = [] /\
    (no_drop_needed parent targets \/
     search_found_nothing fl W parent targets tape))).

(** ** Specification-side view of runs *)

(** A run-length description of a sequence: the angle and the length of
    each maximal run, in order. *)
Definition decode_runs (runs : list (Z * nat)) : list Z :=
  flat_map (fun r => repeat (fst r) (snd r)) runs.

(** Runs are non-empty and neighbouring runs have different angles. *)
Fixpoint valid_runs (runs : list (Z * nat)) : Prop :=
  match runs with
  | [] => True
  | (a, k) :: rest =>
      1 <= k /\
      match rest with
      | [] => True
      | (b, _) :: _ => a <> b
      end /\
      valid_runs rest
  end.

Definition runs_of_length (k : nat) (runs : list (Z * nat)) : nat :=
  length (filter (fun r => snd r =? k) runs).

Definition runs_at_least (k : nat) (runs : list (Z * nat)) : nat :=
  length (filter (fun r => k <=? snd r) runs).

Definition longest_run (runs : list (Z * nat)) : nat :=
  fold_right (fun r m => Nat.max (snd r) m) 0 runs.

(** The run-length description of a sequence. *)
Fixpoint encode_runs (s : list Z) : list (Z * nat) :=
  match s with
  | [] => []
  | x :: rest =>
      match encode_runs rest with
      | (a, k) :: runs => if (x =? a)%Z then (a, S k) :: runs
                          else (x, 1) :: (a, k) :: runs
      | [] => [(x, 1)]
      end
  end.

(** ** The mutation operators of the genetic search *)

(** [random.randint(a, b)], for [a <= b]. *)
Definition random_randint (a b : nat) (t : Tape) : nat * Tape :=
  let '(x, t') := draw t in (a + x mod (b - a + 1), t').

(** [random.choice] on a non-empty list of index pairs. *)
Definition random_choice_pair (l : list (nat * nat)) (t : Tape)
  : (nat * nat) * Tape :=
  let '(x, t') := draw t in (nth (x mod length l) l (0, 0), t').

(** The two assignments every operator makes: swap [i] and [j], then
    swap their mirror positions. *)
Definition mirrored_swap (sequence : list Z) (i j : nat) : list Z :=
  let n := length sequence in
  let s1 := swap_at sequence i j in
  swap_at s1 (n - 1 - i) (n - 1 - j).

(** [_symmetry_preserving_swap]; the list is mutated in place, the model
    returns it. *)
Definition _symmetry_preserving_swap (sequence : list Z) (t : Tape)
  : list Z * Tape :=
  let n := length sequence in
  let half := n / 2 in
  let min_idx := 2 in
  if half <=? min_idx then (sequence, t)
  else
    let '(i, t1) := random_randint min_idx (half - 1) t in
    let '(j, t2) := random_randint min_idx (half - 1) t1 in
    if i =? j then (sequence, t2)
    else
      let swapped := mirrored_swap sequence i j in
      if _has_adjacent_0_90 swapped then (mirrored_swap swapped i j, t2)
      else (swapped, t2).

(** [_grouping_aware_mutation]: the mutated list and the returned flag. *)
Definition _grouping_aware_mutation (sequence : list Z) (t : Tape)
  : (list Z * bool) * Tape :=
  let n := length sequence in
  let half := n / 2 in
  let min_idx := 2 in
  if half <=? min_idx then ((sequence, false), t)
  else
    let current_groupings := _count_groupings sequence in
    let good_swaps :=
      flat_map
        (fun i =>
           flat_map
             (fun j =>
                let candidate := mirrored_swap sequence i j in
                let candidate_groupings := _count_groupings candidate in
                if (candidate_groupings <? current_groupings)
                   && negb (_has_adjacent_0_90 candidate)
                then [(i, j)] else [])
             (seq (i + 1) (half - (i + 1))))
        (seq min_idx (half - min_idx)) in
    match good_swaps with
    | [] => ((sequence, false), t)
    | _ :: _ =>
        let '((i, j), t') := random_choice_pair good_swaps t in
        ((mirrored_swap sequence i j, true), t')
    end.

(** [_balance_aware_mutation] *)
Definition _balance_aware_mutation (sequence : list Z) (t : Tape)
  : list Z * Tape :=
  let n := length sequence in
  let half := n / 2 in
  let min_idx := 2 in
  let pos_45_left :=
    filter (fun i => (nth i sequence 0 =? 45)%Z) (seq min_idx (half - min_idx)) in
  let neg_45_left :=
    filter (fun i => (nth i sequence 0 =? -45)%Z) (seq min_idx (half - min_idx)) in
  match pos_45_left, neg_45_left with
  | _ :: _, _ :: _ =>
      let '(i1, t1) := random_choice pos_45_left t in
      let '(i2, t2) := random_choice neg_45_left t1 in
      let swapped := mirrored_swap sequence i1 i2 in
      if _has_adjacent_0_90 swapped then (mirrored_swap swapped i1 i2, t2)
      else (swapped, t2)
  | _, _ => (sequence, t)
  end.

(** What a mutation may do to a stacking: reorder it, without touching
    the two outer plies of either face, breaking its symmetry or
    creating a 0/90 neighbour pair. *)
Definition safe_mutation (s s' : list Z) : Prop :=
  Permutation s' s /\
  (forall k, k < 2 \/ length s - 2 <= k -> nth k s' 0%Z = nth k s 0%Z) /\
  (_is_symmetric s = true -> _is_symmetric s' = true) /\
  (_has_adjacent_0_90 s = false -> _has_adjacent_0_90 s' = false).

(** The rectangle of zone [i], as [_compute_geometry] reads it. *)
Definition zone_rect (bounds : list Bounds) (i : nat) : Q * Q * Q * Q :=
  rect_of (nth i bounds {| b_x := 0; b_y := 0; b_w := 0; b_h := 0 |}).

(** The pairs [i < j < n] in the order of the two loops. *)
Definition zone_pairs (n : nat) : list (nat * nat) :=
  flat_map (fun i => map (pair i) (seq (S i) (n - S i))) (seq 0 n).

(** One step of the neighbour loops: an adjacent pair is recorded on
    both sides. *)
Definition neighbour_step (adj : nat -> nat -> bool) (g : list (list nat))
           (p : nat * nat) : list (list nat) :=
  let '(i, j) := p in
  if adj i j then append_at j i (append_at i j g) else g.

(** Two zones side by side, and the optimizer built for them. *)
Definition paired_config : list (list (Z * Z)) :=
  [[(0, 4); (45, 4)]; [(0, 2); (45, 4)]]%Z.

Definition paired_bounds : list Bounds :=
  [ {| b_x := 0; b_y := 0; b_w := 100; b_h := 100 |};
    {| b_x := 100; b_y := 0; b_w := 100; b_h := 100 |} ]%Q.

Definition paired_mz : MultiZoneOptimizer :=
  {| zones_config := paired_config; zone_totals := [8; 6]%Z; root_index := 0;
     zone_neighbors := [[1]; [0]] |}.

(** The three zones of [isolated_config] with no usable geometry. *)
Definition isolated_mz_no_geometry : MultiZoneOptimizer :=
  {| zones_config := isolated_config; zone_totals := [36; 32; 24]%Z;
     root_index := 0; zone_neighbors := [] |}.

(** ** [optimize_drop]: the drop to a total ply count *)

(** What a call may raise: an exception of an index read or of the
    evaluator, or a rule missing from the breakdown. *)
Inductive py_exn : Type :=
| Raised (e : exn)
| KeyError (key : string).

(** A call that draws from the tape: its value and the tape left, or
    the exception. *)
Inductive outcome (A : Type) : Type :=
| Returns (a : A) (t : list nat)
| Raises (e : py_exn).

Arguments Returns {A} a t.
Arguments Raises {A} e.

(** The two attributes [optimize_drop] reads. *)
Record DropOffOptimizer : Type := {
  master_sequence : list Z;
  total_plies : Z
}.

(** [DropOffOptimizer.__init__] *)
Definition dropoff_init (sequence : list Z) : DropOffOptimizer :=
  {| master_sequence := sequence; total_plies := Z.of_nat (length sequence) |}.

(** [range(a, b)] *)
Definition range_Z (a b : Z) : list Z :=
  map (fun k => (a + Z.of_nat k)%Z) (seq 0 (Z.to_nat (b - a))).

(** [random.choice(l)], for a non-empty [l]. *)
Definition random_choice_Z (l : list Z) (t : Tape) : Z * Tape :=
  let '(x, t') := draw t in (nth (x mod length l) l 0%Z, t').

(** [random.sample(l, k)], for [k <= len(l)]. *)
Fixpoint random_sample_Z (l : list Z) (k : nat) (t : Tape) : list Z * Tape :=
  match k with
  | O => ([], t)
  | S k' =>
      match l with
      | [] => ([], t)
      | _ =>
          let '(x, t1) := draw t in
          let i := x mod length l in
          let '(rest, t2) := random_sample_Z (pop_at i l) k' t1 in
          (nth i l 0%Z :: rest, t2)
      end
  end.

(** [any(l[i + 1] - l[i] == 1 for i in range(len(l) - 1))] *)
Fixpoint has_consecutive_Z (l : list Z) : bool :=
  match l with
  | a :: ((b :: _) as tl) => (b - a =? 1)%Z || has_consecutive_Z tl
  | _ => false
  end.

(** [[l[i + 1] - l[i] for i in range(len(l) - 1)]] *)
Fixpoint spacings_of (l : list Z) : list Z :=
  match l with
  | a :: ((b :: _) as tl) => (b - a)%Z :: spacings_of tl
  | _ => []
  end.

(** [[ang for i, ang in enumerate(l) if i not in drops]] *)
Definition remove_positions (l : list Z) (drops : list Z) : list Z :=
  map snd
      (filter (fun p => negb (existsb (Z.eqb (Z.of_nat (fst p))) drops))
              (combine (seq 0 (length l)) l)).

(** [[l[i] for i in idxs]] *)
Fixpoint getitems (l : list Z) (idxs : list Z) : result (list Z) :=
  match idxs with
  | [] => Ok []
  | i :: rest =>
      x <- py_getitem l i ;;
      xs <- getitems l rest ;;
      Ok (x :: xs)
  end.

(** [len(set(l))] *)
Definition count_distinct (l : list Z) : nat := length (nodup Z.eq_dec l).

(** [rules.get(name)] *)
Fixpoint rules_get (rs : list (string * RuleEntry)) (name : string)
  : option RuleEntry :=
  match rs with
  | [] => None
  | (k, e) :: rest => if String.eqb k name then Some e else rules_get rest name
  end.

(** The minimum score ratios of check 6. *)
Definition min_scores : list (string * Q) :=
  [ ("R1", 85 # 100); ("R2", 80 # 100); ("R3", 80 # 100); ("R4", 75 # 100);
    ("R5", 70 # 100); ("R6", 75 # 100); ("R7", 75 # 100); ("R8", 85 # 100)
  ]%string%Q.

(** The number of rules whose score ratio is under its minimum. *)
Definition count_rule_violations (rs : list (string * RuleEntry)) : nat :=
  fold_left
    (fun rule_violations '(rule_name, min_ratio) =>
       match rules_get rs rule_name with
       | Some e =>
           let rule_ratio :=
             if Qltb 0 (weight e) then (score e / weight e)%Q else 0%Q in
           if Qltb rule_ratio min_ratio then S rule_violations
           else rule_violations
       | None => rule_violations
       end)
    min_scores 0.

(** [key < best_key] on tuples of numbers. *)
Fixpoint key_ltb (key best_key : list Q) : bool :=
  match key, best_key with
  | [], [] => false
  | [], _ :: _ => true
  | _ :: _, [] => false
  | x :: key', y :: best_key' =>
      if Qltb x y then true
      else if Qltb y x then false
      else key_ltb key' best_key'
  end.

(** The outcome of one attempt of the search. *)
Inductive Attempt : Type :=
| Rejected
| Candidate (key : list Q) (temp_seq : list Z) (all_drops : list Z)
| Aborted (e : py_exn).

(** The random part of an attempt: the pair to break and the left
    drops; [None] stands for [continue]. *)
Definition select_drops (search_indices : list Z) (break_pair_for_middle : bool)
           (pairs_to_remove : Z) (t : Tape)
  : option (option Z * list Z) * Tape :=
  let '(proceed, break_pair_idx, t1) :=
    if break_pair_for_middle then
      match search_indices with
      | [] => (false, None, t)
      | _ :: _ =>
          let '(b, t1) := random_choice_Z search_indices t in (true, Some b, t1)
      end
    else (true, None, t) in
  if negb proceed then (None, t1)
  else
    let '(left_drops, t2) :=
      if (0 <? pairs_to_remove)%Z && (0 <? length search_indices) then
        let available_indices :=
          filter (fun i => match break_pair_idx with
                           | Some b => negb (i =? b)%Z
                           | None => true
                           end) search_indices in
        let sample_size :=
          Z.min pairs_to_remove (Z.of_nat (length available_indices)) in
        if (0 <? sample_size)%Z then
          let '(sample, t2) :=
            random_sample_Z available_indices (Z.to_nat sample_size) t1 in
          (sorted_Z sample, t2)
        else ([], t1)
      else ([], t1) in
    (Some (break_pair_idx, left_drops), t2).

(** [all_drops], sorted. *)
Definition all_drops_of (total : Z) (drop_middle : bool) (middle_idx : option Z)
           (break_pair_for_middle : bool) (break_pair_idx : option Z)
           (left_drops : list Z) : list Z :=
  let all_drops := flat_map (fun idx => [idx; (total - 1 - idx)%Z]) left_drops in
  let all_drops :=
    match drop_middle, middle_idx with
    | true, Some m => all_drops ++ [m]
    | _, _ => all_drops
    end in
  let all_drops :=
    match break_pair_for_middle, break_pair_idx with
    | true, Some b => all_drops ++ [(total - 1 - b)%Z]
    | _, _ => all_drops
    end in
  sorted_Z all_drops.

Section OptimizeDrop.

Variable fl : FloatOps.
Variable W : Weights.

(** Checks 5 to 7 of an attempt, once the candidate is scored. *)
Definition judge_candidate (temp_seq all_drops : list Z) (spacing_std : Q)
           (dropped_angles_left : list Z) (total_score : Q) (details : Breakdown)
  : Attempt :=
  let unique_angles_dropped := count_distinct dropped_angles_left in
  let count_45 := count dropped_angles_left 45 in
  let count_minus45 := count dropped_angles_left (-45) in
  let count_0 := count dropped_angles_left 0 in
  let count_90 := count dropped_angles_left 90 in
  if Qleb total_score 0 then Rejected
  else
    let rs := rules details in
    let groups_of_3 := _find_groups_of_size temp_seq 3 in
    let groups_of_4 := _find_groups_of_size temp_seq 4 in
    let groups_of_5 := _find_groups_of_size temp_seq 5 in
    let groups_of_4_or_more := groups_of_4 + groups_of_5 in
    if 0 <? groups_of_4_or_more then Rejected
    else if 3 <? groups_of_3 then Rejected
    else
      let rule_violations := count_rule_violations rs in
      if 2 <? rule_violations then Rejected
      else
        let dist_score := spacing_std in
        let angle_diversity := unique_angles_dropped in
        let balance_score :=
          if (0 <? count_45) || (0 <? count_minus45)
          then Z.abs (Z.of_nat count_45 - Z.of_nat count_minus45)
          else 0%Z in
        let r6_penalty :=
          match rules_get rs "R6" with
          | Some e => penalty e
          | None => 0%Q
          end in
        let total_penalty := Qsum (map (fun r => penalty (snd r)) rs) in
        let has_0_drop := if 0 <? count_0 then 1%Z else 0%Z in
        let ninety_drop_penalty := (Qofnat count_90 * (1 # 2))%Q in
        let has_45_drop_bonus :=
          if (0 <? count_45) || (0 <? count_minus45) then (-1)%Z else 0%Z in
        match rules_get rs "R1" with
        | None => Aborted (KeyError "R1")
        | Some r1 =>
            match rules_get rs "R8" with
            | None => Aborted (KeyError "R8")
            | Some r8 =>
                Candidate
                  [ Qofnat rule_violations;
                    Qofnat groups_of_3;
                    Qofnat groups_of_4_or_more;
                    r6_penalty;
                    ninety_drop_penalty;
                    (penalty r1 + penalty r8)%Q;
                    dist_score;
                    inject_Z balance_score;
                    (- Qofnat angle_diversity)%Q;
                    inject_Z has_45_drop_bonus;
                    inject_Z (- has_0_drop);
                    total_penalty;
                    (- total_score)%Q ]
                  temp_seq all_drops
            end
        end.

(** An attempt after its random part: checks 1 to 4, the evaluation and
    the selection key. *)
Definition evaluate_drops (opt : DropOffOptimizer) (drop_middle : bool)
           (middle_idx : option Z) (break_pair_for_middle : bool)
           (break_pair_idx : option Z) (left_drops : list Z) : Attempt :=
  let master := master_sequence opt in
  let total := total_plies opt in
  (* 1. no grouped drops *)
  if (1 <? length left_drops) && has_consecutive_Z left_drops then Rejected
  else
    (* 2. uniform distribution *)
    let spacings := map inject_Z (spacings_of left_drops) in
    let spacing_std :=
      if 2 <? length left_drops then np_std fl spacings else 0%Q in
    if (2 <? length left_drops)
       && Qltb (np_mean spacings * (7 # 10)) (np_std fl spacings)
    then Rejected
    else
      let all_drops :=
        all_drops_of total drop_middle middle_idx break_pair_for_middle
                     break_pair_idx left_drops in
      let temp_seq := remove_positions master all_drops in
      (* 3. the dropped angles *)
      let extra_idx :=
        match drop_middle, middle_idx with
        | true, Some m => [m]
        | _, _ => []
        end
        ++ match break_pair_for_middle, break_pair_idx with
           | true, Some b => [(total - 1 - b)%Z]
           | _, _ => []
           end in
      match getitems master (left_drops ++ extra_idx) with
      | Raise e => Aborted (Raised e)
      | Ok dropped_angles_left =>
          let unique_angles_dropped := count_distinct dropped_angles_left in
          if (unique_angles_dropped =? 1) && (2 <? length dropped_angles_left)
          then Rejected
          else
            (* 4. balance of the dropped angles *)
            let count_45 := count dropped_angles_left 45 in
            let count_minus45 := count dropped_angles_left (-45) in
            let count_90 := count dropped_angles_left 90 in
            if 3 <? count_90 then Rejected
            else
              let total_drops := length dropped_angles_left in
              if (4 <=? total_drops) && (count_45 =? 0) && (count_minus45 =? 0)
              then Rejected
              else if
                if (0 <? count_45) || (0 <? count_minus45) then
                  if (0 <? count_45) && (0 <? count_minus45) then
                    (2 <? Z.abs (Z.of_nat count_45 - Z.of_nat count_minus45))%Z
                  else
                    ((2 <? count_45) && (count_minus45 =? 0))
                    || ((2 <? count_minus45) && (count_45 =? 0))
                else false
              then Rejected
              else
                match calculate_fitness fl W temp_seq with
                | Raise e => Aborted (Raised e)
                | Ok (total_score, details) =>
                    judge_candidate temp_seq all_drops spacing_std
                                    dropped_angles_left total_score details
                end
      end.

(** The running best: [(best_key, best_candidate, best_dropped)]. *)
Definition DropBest : Type := option (list Q * list Z * list Z).

(** The [for _ in range(attempts)] loop. *)
Fixpoint drop_loop (attempts : nat) (opt : DropOffOptimizer) (drop_middle : bool)
         (middle_idx : option Z) (break_pair_for_middle : bool)
         (pairs_to_remove : Z) (search_indices : list Z)
         (best : DropBest) (t : Tape) : outcome DropBest :=
  match attempts with
  | O => Returns best t
  | S attempts' =>
      let next best t :=
        drop_loop attempts' opt drop_middle middle_idx break_pair_for_middle
                  pairs_to_remove search_indices best t in
      match select_drops search_indices break_pair_for_middle pairs_to_remove t with
      | (None, t1) => next best t1
      | (Some (break_pair_idx, left_drops), t1) =>
          match evaluate_drops opt drop_middle middle_idx break_pair_for_middle
                               break_pair_idx left_drops with
          | Rejected => next best t1
          | Aborted e => Raises e
          | Candidate key temp_seq all_drops =>
              match best with
              | None => next (Some (key, temp_seq, all_drops)) t1
              | Some (best_key, _, _) =>
                  if key_ltb key best_key
                  then next (Some (key, temp_seq, all_drops)) t1
                  else next best t1
              end
          end
      end
  end.

(** [DropOffOptimizer.optimize_drop] *)
Definition optimize_drop (opt : DropOffOptimizer) (target_ply : Z) (t : Tape)
  : outcome (list Z * Q * list Z) :=
  let remove_cnt := (total_plies opt - target_ply)%Z in
  if (remove_cnt <=? 0)%Z then Returns (master_sequence opt, 0%Q, []) t
  else
    let master_is_odd := (total_plies opt mod 2 =? 1)%Z in
    let target_is_odd := (target_ply mod 2 =? 1)%Z in
    let half_len := (total_plies opt / 2)%Z in
    let middle_idx := if master_is_odd then Some half_len else None in
    let '(drop_middle, break_pair_for_middle, pairs_to_remove) :=
      if master_is_odd && negb target_is_odd then
        (true, false, ((remove_cnt - 1) / 2)%Z)
      else if negb master_is_odd && target_is_odd then
        (false, true, ((remove_cnt - 1) / 2)%Z)
      else
        let remove_cnt :=
          if negb (remove_cnt mod 2 =? 0)%Z then (remove_cnt + 1)%Z
          else remove_cnt in
        (false, false, (remove_cnt / 2)%Z) in
    let search_indices := range_Z 2 half_len in
    match drop_loop DROP_OFF_ATTEMPTS opt drop_middle middle_idx
                    break_pair_for_middle pairs_to_remove search_indices None t with
    | Raises e => Raises e
    | Returns None t' => Returns (master_sequence opt, 0%Q, []) t'
    | Returns (Some (best_key, best_candidate, best_dropped)) t' =>
        Returns (best_candidate, (nth 10 best_key 0 * (-1))%Q, best_dropped) t'
    end.

End OptimizeDrop.

(** A list of indices in ascending order. *)
Fixpoint ascending (l : list Z) : Prop :=
  match l with
  | a :: ((b :: _) as tl) => (a <= b)%Z /\ ascending tl
  | _ => True
  end.

(** What the search of [optimize_drop] keeps as its best: a scored
    candidate that is the master without the recorded drops, passes the
    grouping filter, and whose drops come from the search positions. *)
Definition good_drop_best (fl : FloatOps) (W : Weights) (opt : DropOffOptimizer)
           (drop_middle : bool) (middle_idx : option Z)
           (break_pair_for_middle : bool) (search_indices : list Z)
           (best : DropBest) : Prop :=
  match best with
  | None => True
  | Some (key, cand, dropped) =>
      (nth 10 key 0%Q = inject_Z 0 \/ nth 10 key 0%Q = inject_Z (-1)) /\
      cand = remove_positions (master_sequence opt) dropped /\
      (exists sc bd, calculate_fitness fl W cand = Ok (sc, bd) /\ (0 < sc)%Q) /\
      _find_groups_of_size cand 4 + _find_groups_of_size cand 5 = 0 /\
      _find_groups_of_size cand 3 <= 3 /\
      exists break_pair_idx left_drops,
        (forall i, In i left_drops -> In i search_indices) /\
        (forall b, break_pair_idx = Some b -> In b search_indices) /\
        dropped = all_drops_of (total_plies opt) drop_middle middle_idx
                               break_pair_for_middle break_pair_idx left_drops
  end.

(** ** Binary64 arithmetic

    The evaluator's [float]s are IEEE 754 binary64 numbers.  A finite
    double is read as the rational it denotes; [b64 x] is the double
    nearest to [x], ties to the even significand (53 bits, least
    exponent -1074), so the four operations below are the float
    operations of the source, correctly rounded.  Overflow is left out:
    no number of the evaluator comes near 2^1024. *)

Definition pow2 (k : Z) : Q :=
  if (0 <=? k)%Z then inject_Z (2 ^ k) else 1 # Z.to_pos (2 ^ (- k)).

(** The exponent of the last bit of the double nearest to [x]. *)
Definition b64_exponent (x : Q) : Z :=
  let k0 := (Z.log2 (Z.abs (Qnum x)) - Z.log2 (Zpos (Qden x)))%Z in
  let k := if Qltb (Qabs x) (pow2 k0) then (k0 - 1)%Z else k0 in
  Z.max (k - 52) (-1074).

Definition b64 (x : Q) : Q :=
  let e := b64_exponent x in
  Qred (inject_Z (round_half_even (x / pow2 e)) * pow2 e).

Definition fadd (x y : Q) : Q := b64 (x + y).
Definition fsub (x y : Q) : Q := b64 (x - y).
Definition fmul (x y : Q) : Q := b64 (x * y).
Definition fdiv (x y : Q) : Q := b64 (x / y).

(** [_check_grouping] with its float operations rounded as the
    interpreter rounds them; the literals 0.35, 0.3 and 0.50 are the
    doubles nearest to them, the weight is a double. *)
Definition _check_grouping_b64 (W : Weights) (sequence : list Z) (max_group : nat) : Q :=
  let max_penalty := R6 W in
  let init := {| gl_curr := 1; gl_total_adjacent_pairs := 0;
                 gl_adjacent_pairs_0_90 := 0; gl_max_group_found := 1 |} in
  let st := match sequence with
            | [] => init
            | x :: rest => grouping_loop x rest init
            end in
  let penalty := 0%Q in
  let penalty :=
    if max_group <? gl_max_group_found st then
      let excess := gl_max_group_found st - max_group in
      fadd penalty (fmul (Qofnat excess) (fmul max_penalty (b64 (35 # 100))))
    else penalty in
  let groups_of_3 := _find_groups_of_size sequence 3 in
  let penalty := fadd penalty (fmul (Qofnat groups_of_3) 2) in
  let penalty :=
    fadd penalty (fmul (Qofnat (gl_adjacent_pairs_0_90 st)) (b64 (3 # 10))) in
  let n := length sequence in
  let penalty :=
    if 1 <? n then
      let adjacent_ratio :=
        fdiv (Qofnat (gl_total_adjacent_pairs st)) (Qofnat (n - 1)) in
      let adjacent_penalty :=
        fmul adjacent_ratio (fmul max_penalty (b64 (50 # 100))) in
      fadd penalty adjacent_penalty
    else penalty in
  Qmin penalty max_penalty.

(** An entry of [rules_result] as [calculate_fitness] builds it for
    R1..R3 and R5..R8 from the float penalty [p] of the rule:
    [score = max(0, w - p)] is a float subtraction, and the two figures
    are then rounded one by one.  [round(x, 2)] of a double [x] is the
    hundredth nearest to the number [x] denotes (the entry stores the
    double that prints as that hundredth). *)
Definition soft_entry_b64 (w p : Q) (rsn : string) : RuleEntry :=
  soft_entry w p (Qmax 0 (fsub w p)) rsn.

(** The entry of R4, built from the float score [s] of the rule:
    [penalty_r4 = WEIGHTS["R4"] - score_r4]. *)
Definition external_entry_b64 (w s : Q) (rsn : string) : RuleEntry :=
  soft_entry w (fsub w s) s rsn.

(** The R6 entry of [calculate_fitness], in binary64 arithmetic. *)
Definition grouping_entry_b64 (W : Weights) (sequence : list Z) : RuleEntry :=
  let penalty_r6 := _check_grouping_b64 W sequence 3 in
  let gstats := _grouping_stats sequence in
  soft_entry_b64 (R6 W) penalty_r6
    ("2'li grup: " ++ str_of_nat (groups_len_2 gstats)
     ++ ", 3'lü grup: " ++ str_of_nat (groups_len_3 gstats)
     ++ ", 4+ grup: " ++ str_of_nat (groups_len_ge4 gstats))%string.

(** * Verification *)

Unset Implicit Arguments.

(** ** Facts about the hard constraints *)

Lemma py_getitem_nat (A : Type) (l : list A) (i : nat) (d : A) :
  i < length l -> py_getitem l (Z.of_nat i) = Ok (nth i l d).
Proof.
  intros Hi. unfold py_getitem.
  destruct (Z.ltb_spec (Z.of_nat i) 0) as [H|_]; [lia|].
  destruct (Z.ltb_spec (Z.of_nat i) 0) as [H|_]; [lia|].
  destruct (Z.leb_spec (Z.of_nat (length l)) (Z.of_nat i)) as [H|_]; [lia|].
  cbn [orb]. rewrite Nat2Z.id.
  rewrite (nth_error_nth' l d Hi). reflexivity.
Qed.

Lemma py_getitem_neg (A : Type) (l : list A) (k : nat) (d : A) :
  0 < k <= length l ->
  py_getitem l (- Z.of_nat k) = Ok (nth (length l - k) l d).
Proof.
  intros Hk. unfold py_getitem.
  destruct (Z.ltb_spec (- Z.of_nat k) 0) as [_|H]; [|lia].
  destruct (Z.ltb_spec (- Z.of_nat k + Z.of_nat (length l)) 0) as [H|_]; [lia|].
  destruct (Z.leb_spec (Z.of_nat (length l))
              (- Z.of_nat k + Z.of_nat (length l))) as [H|_]; [lia|].
  cbn [orb].
  replace (Z.to_nat (- Z.of_nat k + Z.of_nat (length l))) with (length l - k) by lia.
  assert (Hlt : length l - k < length l) by lia.
  rewrite (nth_error_nth' l d Hlt). reflexivity.
Qed.

Lemma py_getitem_nil (A : Type) (i : Z) : py_getitem (@nil A) i = Raise IndexError.
Proof.
  unfold py_getitem. cbn [length Z.of_nat].
  destruct (Z.ltb_spec i 0); cbn zeta.
  - destruct (Z.ltb_spec (i + 0) 0); [reflexivity|lia].
  - destruct (Z.ltb_spec i 0); [lia|].
    destruct (Z.leb_spec 0 i); [reflexivity|lia].
Qed.

Lemma is_0_90_pair_spec (a b : Z) :
  is_0_90_pair a b = true <-> ((a = 0 /\ b = 90) \/ (a = 90 /\ b = 0))%Z.
Proof. unfold is_0_90_pair. lia. Qed.

Lemma first_adj_0_90_some (sequence : list Z) (i j : nat) :
  first_adj_0_90 sequence i = Some j ->
  i <= j /\ adjacent_0_90_at sequence (j - i).
Proof.
  revert i. induction sequence as [|a tl IH]; intros i H; [discriminate|].
  destruct tl as [|b tl']; [discriminate|].
  cbn [first_adj_0_90] in H.
  destruct (is_0_90_pair a b) eqn:Hp.
  - injection H as <-. split; [lia|].
    rewrite Nat.sub_diag. split; [cbn; lia|].
    cbn. now apply is_0_90_pair_spec.
  - apply IH in H. destruct H as [Hle [Hlen Hat]].
    split; [lia|].
    replace (j - i) with (S (j - S i)) by lia.
    split; [cbn [length] in *; lia|].
    cbn [Nat.add]. cbn [nth]. exact Hat.
Qed.

Lemma first_adj_0_90_none (sequence : list Z) (i : nat) :
  first_adj_0_90 sequence i = None ->
  forall k, ~ adjacent_0_90_at sequence k.
Proof.
  revert i. induction sequence as [|a tl IH]; intros i H k [Hlen Hat].
  - cbn in Hlen. lia.
  - destruct tl as [|b tl']; [cbn in Hlen; lia|].
    cbn [first_adj_0_90] in H.
    destruct (is_0_90_pair a b) eqn:Hp; [discriminate|].
    destruct k as [|k].
    + cbn in Hat. apply is_0_90_pair_spec in Hat. congruence.
    + apply (IH _ H k). split; [cbn [length] in *; lia|].
      cbn [Nat.add] in Hat. cbn [nth] in Hat. exact Hat.
Qed.

Lemma first_non_45_four (a b c d : Z) :
  match first_non_45 [a; b; c; d] 0 with
  | Some (idx, ply) =>
      (Z.abs a <> 45 \/ Z.abs b <> 45 \/ Z.abs c <> 45 \/ Z.abs d <> 45)%Z
  | None => (Z.abs a = 45 /\ Z.abs b = 45 /\ Z.abs c = 45 /\ Z.abs d = 45)%Z
  end.
Proof.
  cbn [first_non_45].
  destruct (Z.eqb_spec (Z.abs a) 45); cbn [negb]; [|tauto].
  destruct (Z.eqb_spec (Z.abs b) 45); cbn [negb]; [|tauto].
  destruct (Z.eqb_spec (Z.abs c) 45); cbn [negb]; [|tauto].
  destruct (Z.eqb_spec (Z.abs d) 45); cbn [negb]; tauto.
Qed.

(** The two ways out of [calculate_fitness] on a non-empty sequence. *)
Lemma calculate_fitness_cases (fl : FloatOps) (W : Weights) (sequence : list Z) :
  sequence <> [] ->
  (violates_hard sequence /\
   exists name rsn, forall fl' W',
       calculate_fitness fl' W' sequence = Ok (hard_fail name rsn)) \/
  (~ violates_hard sequence /\
   calculate_fitness fl W sequence = Ok (soft_result fl W sequence)).
Proof.
  intros Hne.
  assert (Hlen : 0 < length sequence) by (destruct sequence; [congruence|cbn; lia]).
  unfold calculate_fitness.
  rewrite (py_getitem_nat Z sequence 0 0%Z Hlen : py_getitem sequence 0 = _).
  rewrite (py_getitem_neg Z sequence 1 0%Z ltac:(lia)
           : py_getitem sequence (-1) = _).
  cbn [bind].
  destruct ((nth 0 sequence 0 =? 0) || (nth (length sequence - 1) sequence 0 =? 0))%Z
    eqn:H1.
  { left. split; [unfold violates_hard; lia|].
    do 2 eexists. intros fl' W'.
    destruct sequence as [|x xs]; [congruence|reflexivity]. }
  destruct (first_adj_0_90 sequence 0) as [i|] eqn:H2.
  { left. split.
    - apply first_adj_0_90_some in H2. right; right; left.
      exists (i - 0). apply H2.
    - do 2 eexists. intros fl' W'.
      destruct sequence as [|x xs]; [congruence|reflexivity]. }
  destruct (Nat.leb_spec 4 (length sequence)) as [H4|H4].
  - rewrite (py_getitem_nat Z sequence 1 0%Z ltac:(lia)
             : py_getitem sequence 1 = _).
    rewrite (py_getitem_neg Z sequence 2 0%Z ltac:(lia)
             : py_getitem sequence (-2) = _).
    cbn [bind].
    pose proof (first_non_45_four (nth 0 sequence 0%Z) (nth 1 sequence 0%Z)
                  (nth (length sequence - 2) sequence 0%Z)
                  (nth (length sequence - 1) sequence 0%Z)) as H3.
    destruct (first_non_45 _ 0) as [[idx ply]|] eqn:E3.
    + left. split; [unfold violates_hard; tauto|].
      do 2 eexists. intros fl' W'. reflexivity.
    + right. split; [|reflexivity].
      unfold violates_hard. intros [V|[V|[[k V]|[_ V]]]].
      * lia.
      * lia.
      * eapply first_adj_0_90_none; eauto.
      * lia.
  - cbn [bind]. right. split; [|reflexivity].
    unfold violates_hard. intros [V|[V|[[k V]|[V _]]]].
    + lia.
    + lia.
    + eapply first_adj_0_90_none; eauto.
    + lia.
Qed.

(** ** Rounding to the nearest integer, ties to even *)

Lemma inject_Z_succ (z : Z) : (inject_Z (z + 1) == inject_Z z + 1)%Q.
Proof. rewrite inject_Z_plus. reflexivity. Qed.

Lemma round_half_even_nearest (x : Q) : nearest_even x (round_half_even x).
Proof.
  unfold round_half_even, nearest_even.
  pose proof (Qfloor_le x) as Hlo.
  pose proof (Qlt_floor x) as Hhi.
  rewrite inject_Z_succ in Hhi.
  destruct (Qcompare_spec (x - inject_Z (Qfloor x)) (1 # 2)) as [He|Hl|Hg].
  - destruct (Z.even (Qfloor x)) eqn:Hev.
    + right. split; [left; exact He|exact Hev].
    + right. rewrite inject_Z_succ. split; [right; lra|].
      rewrite Z.even_add, Hev. reflexivity.
  - left. lra.
  - left. rewrite inject_Z_succ. lra.
Qed.

Lemma inject_Z_lt_inv (a b : Z) : (inject_Z a < inject_Z b)%Q -> (a < b)%Z.
Proof. intros H. rewrite Zlt_Qlt. exact H. Qed.

Lemma inject_Z_eq_inv (a b : Z) : (inject_Z a == inject_Z b)%Q -> a = b.
Proof. intros H. now apply inject_Z_injective. Qed.

Lemma nearest_even_unique (x : Q) (z1 z2 : Z) :
  nearest_even x z1 -> nearest_even x z2 -> z1 = z2.
Proof.
  intros H1 H2.
  assert (Hclose : (z1 - z2 = 0 \/ z1 - z2 = 1 \/ z1 - z2 = -1)%Z).
  { assert (Hlt : (inject_Z (z1 - z2) < inject_Z 2)%Q).
    { unfold Zminus. rewrite inject_Z_plus, inject_Z_opp.
      change (inject_Z 2) with 2%Q.
      destruct H1 as [[? ?]|[[?|?] _]], H2 as [[? ?]|[[?|?] _]]; lra. }
    assert (Hgt : (inject_Z (-2) < inject_Z (z1 - z2))%Q).
    { unfold Zminus. rewrite inject_Z_plus, inject_Z_opp.
      change (inject_Z (-2)) with (-2)%Q.
      destruct H1 as [[? ?]|[[?|?] _]], H2 as [[? ?]|[[?|?] _]]; lra. }
    apply inject_Z_lt_inv in Hlt, Hgt. lia. }
  destruct Hclose as [H0|[Hp|Hm]]; [lia| |].
  - exfalso.
    assert (E : (inject_Z z1 == inject_Z z2 + 1)%Q).
    { replace z1 with (z2 + 1)%Z by lia. apply inject_Z_succ. }
    assert (Hev1 : Z.even z1 = true /\ Z.even z2 = true).
    { destruct H1 as [[? ?]|[[?|?] ?]], H2 as [[? ?]|[[?|?] ?]];
        try (exfalso; lra); tauto. }
    destruct Hev1 as [Ha Hb].
    replace z1 with (z2 + 1)%Z in Ha by lia.
    rewrite Z.even_add, Hb in Ha. discriminate.
  - exfalso.
    assert (E : (inject_Z z2 == inject_Z z1 + 1)%Q).
    { replace z2 with (z1 + 1)%Z by lia. apply inject_Z_succ. }
    assert (Hev1 : Z.even z1 = true /\ Z.even z2 = true).
    { destruct H1 as [[? ?]|[[?|?] ?]], H2 as [[? ?]|[[?|?] ?]];
        try (exfalso; lra); tauto. }
    destruct Hev1 as [Ha Hb].
    replace z2 with (z1 + 1)%Z in Hb by lia.
    rewrite Z.even_add, Ha in Hb. discriminate.
Qed.

Lemma nearest_even_compat (x y : Q) (z : Z) :
  (x == y)%Q -> nearest_even x z -> nearest_even y z.
Proof.
  unfold nearest_even. intros E [[? ?]|[[?|?] ?]].
  - left. lra.
  - right. split; [left; lra|assumption].
  - right. split; [right; lra|assumption].
Qed.

Lemma round_half_even_compat (x y : Q) :
  (x == y)%Q -> round_half_even x = round_half_even y.
Proof.
  intros E. apply (nearest_even_unique y).
  - apply (nearest_even_compat x y _ E), round_half_even_nearest.
  - apply round_half_even_nearest.
Qed.

Lemma round_half_even_Z (k : Z) : round_half_even (inject_Z k) = k.
Proof.
  apply (nearest_even_unique (inject_Z k)).
  - apply round_half_even_nearest.
  - left. lra.
Qed.

Lemma round_half_even_mono (x y : Q) :
  (x <= y)%Q -> (round_half_even x <= round_half_even y)%Z.
Proof.
  intros Hxy.
  pose proof (round_half_even_nearest x) as Hx.
  pose proof (round_half_even_nearest y) as Hy.
  set (a := round_half_even x) in *. set (b := round_half_even y) in *.
  destruct (Z_le_gt_dec a b) as [|Hgt]; [assumption|exfalso].
  assert (Hab : (inject_Z b + 1 <= inject_Z a)%Q).
  { rewrite <- inject_Z_succ. rewrite <- Zle_Qle. lia. }
  unfold nearest_even in *.
  assert (Hties : (x - inject_Z a == -(1#2))%Q /\ (y - inject_Z b == 1#2)%Q /\
                  (inject_Z a == inject_Z b + 1)%Q).
  { destruct Hx as [[? ?]|[[?|?] ?]], Hy as [[? ?]|[[?|?] ?]];
      try (exfalso; lra); repeat split; lra. }
  destruct Hties as [Ta [Tb Eab]].
  assert (Ea : Z.even a = true).
  { destruct Hx as [[? ?]|[_ ?]]; [exfalso; lra|assumption]. }
  assert (Eb : Z.even b = true).
  { destruct Hy as [[? ?]|[_ ?]]; [exfalso; lra|assumption]. }
  rewrite <- inject_Z_succ in Eab. apply inject_Z_eq_inv in Eab.
  rewrite Eab, Z.even_add, Eb in Ea. discriminate.
Qed.

(** *** [round(x, 2)] *)

Lemma Qmake_100 (z : Z) : (z # 100 == inject_Z z / 100)%Q.
Proof. unfold Qeq, Qdiv, Qmult, Qinv, inject_Z. cbn. lia. Qed.

Lemma round2_compat (x y : Q) : (x == y)%Q -> (round2 x == round2 y)%Q.
Proof.
  intros E. unfold round2.
  rewrite (round_half_even_compat (x * 100)%Q (y * 100)%Q); [reflexivity|].
  rewrite E. reflexivity.
Qed.

(** Hundredths are fixed by [round2]. *)
Lemma round2_hundredth (k : Z) : (round2 (k # 100) == k # 100)%Q.
Proof.
  unfold round2.
  rewrite (round_half_even_compat ((k # 100) * 100)%Q (inject_Z k)).
  - rewrite round_half_even_Z. reflexivity.
  - rewrite Qmake_100. field.
Qed.

Lemma round2_mono (x y : Q) : (x <= y)%Q -> (round2 x <= round2 y)%Q.
Proof.
  intros H. unfold round2.
  assert (Hm : (round_half_even (x * 100) <= round_half_even (y * 100))%Z).
  { apply round_half_even_mono. lra. }
  unfold Qle. cbn. lia.
Qed.

Lemma round2_between (k : Z) (x : Q) :
  (0 <= x <= k # 100)%Q -> (0 <= round2 x <= k # 100)%Q.
Proof.
  intros [H0 Hk]. split.
  - assert (E : (0 == round2 (0 # 100))%Q) by (rewrite round2_hundredth; reflexivity).
    rewrite E. apply round2_mono. unfold Qle in *. cbn in *. lia.
  - rewrite <- (round2_hundredth k). apply round2_mono. exact Hk.
Qed.

(** ** Bounds of the eight rules *)

Lemma fold_left_invariant (A B : Type) (P : A -> Prop) (f : A -> B -> A)
      (l : list B) (a : A) :
  P a -> (forall a x, P a -> P (f a x)) -> P (fold_left f l a).
Proof.
  intros Ha Hstep. revert a Ha.
  induction l as [|x l IH]; intros a Ha; cbn; [assumption|].
  apply IH, Hstep, Ha.
Qed.

Lemma Qdiv_nonneg (a b : Q) : (0 <= a -> 0 < b -> 0 <= a / b)%Q.
Proof. intros Ha Hb. apply Qle_shift_div_l; [assumption|lra]. Qed.

Lemma Qscale_unit (w m : Q) : (0 <= w -> 0 <= m <= 1 -> 0 <= w * m <= w)%Q.
Proof. intros Hw [H0 H1]. split; nra. Qed.

Lemma Qofnat_nonneg (n : nat) : (0 <= Qofnat n)%Q.
Proof. unfold Qofnat, Qle. cbn. lia. Qed.

Lemma Qofnat_pos (n : nat) : 0 < n -> (0 < Qofnat n)%Q.
Proof. intros H. unfold Qofnat, Qlt. cbn. lia. Qed.

Lemma Qmin_between (a b : Q) : (0 <= a -> 0 <= b -> 0 <= Qmin a b <= b)%Q.
Proof.
  intros Ha Hb. split; [apply Q.min_glb; assumption|apply Q.le_min_r].
Qed.

Lemma Qltb_true (x y : Q) : Qltb x y = true -> (x < y)%Q.
Proof.
  unfold Qltb. destruct (Qle_bool y x) eqn:E; [discriminate|]. intros _.
  apply Qnot_le_lt. intros H. apply Qle_bool_iff in H. congruence.
Qed.

Lemma dist_from_mid_nonneg (n i : nat) : (0 <= dist_from_mid n i)%Q.
Proof.
  unfold dist_from_mid. apply Qdiv_nonneg; [apply Qabs_nonneg|].
  apply Qlt_le_trans with 1%Q; [reflexivity|apply Q.le_max_l].
Qed.

Section RuleBounds.

Variable fl : FloatOps.
Variable W : Weights.
Hypothesis Hfl : nonneg_float fl.
Hypothesis HW : nonneg_weights W.

Lemma check_symmetry_bounds (s : list Z) :
  (0 <= _check_symmetry_distance_weighted W s <= R1 W)%Q.
Proof.
  unfold _check_symmetry_distance_weighted.
  apply Qmin_between; [|apply HW].
  apply fold_left_invariant; [lra|].
  intros a i Ha. destruct (negb _); [|assumption].
  pose proof (dist_from_mid_nonneg (length s) i) as Hd.
  assert (0 <= R1 W * dist_from_mid (length s) i)%Q
    by (apply Qmult_le_0_compat; [apply HW|assumption]).
  lra.
Qed.

Lemma check_balance_bounds (s : list Z) :
  (0 <= _check_balance_45 W s <= R2 W)%Q.
Proof.
  unfold _check_balance_45.
  destruct (0 <? count s 45 + count s (-45)); [|split; [lra|apply HW]].
  set (d := (inject_Z _ / inject_Z _)%Q).
  assert (Hd : (0 <= d)%Q).
  { apply Qdiv_nonneg.
    - unfold Qle; cbn; lia.
    - unfold Qlt; cbn; lia. }
  assert (Hm : (0 <= Qmin 1 d <= 1)%Q).
  { split; [apply Q.min_glb; lra|apply Q.le_min_l]. }
  apply Qscale_unit; [apply HW|exact Hm].
Qed.

Lemma check_percentage_bounds (s : list Z) :
  (0 <= _check_percentage_rule W s <= R3 W)%Q.
Proof.
  unfold _check_percentage_rule.
  apply Qmin_between; [|apply HW].
  assert (H3 : (0 <= R3 W)%Q) by apply HW.
  apply fold_left_invariant; [lra|].
  intros a x Ha. destruct (_ || _); [|assumption].
  assert (0 <= R3 W / 4)%Q by (apply Qdiv_nonneg; lra).
  lra.
Qed.

Lemma check_external_bounds (s : list Z) :
  (0 <= _check_external_plies W s <= R4 W)%Q.
Proof.
  unfold _check_external_plies.
  assert (H4 : (0 <= R4 W)%Q) by apply HW.
  destruct (length s <? 2); [lra|].
  set (c1 := (2 <=? length s) && _). set (c2 := (2 <=? length s) && _).
  assert (Hp : (0 <= R4 W * (15 # 100))%Q) by (apply Qmult_le_0_compat; lra).
  split; [apply Q.le_max_l|].
  apply Q.max_lub; [assumption|].
  destruct c1, c2; lra.
Qed.

Lemma distribution_of_angle_nonneg (s : list Z) (angle : Z) :
  (0 <= distribution_of_angle fl W s angle)%Q.
Proof.
  unfold distribution_of_angle.
  assert (H5 : (0 <= R5 W / 4)%Q) by (apply Qdiv_nonneg; [apply HW|lra]).
  destruct (1 <? length _); [|lra].
  set (p1 := if 0 <? length _ then _ else _).
  set (p2 := if Qltb _ _ then _ else _).
  assert (Hp1 : (0 <= p1)%Q).
  { subst p1. destruct (0 <? length _); [|lra].
    set (r := (np_std fl _ / Qmax _ 1)%Q).
    assert (Hr : (0 <= r)%Q).
    { apply Qdiv_nonneg; [apply Hfl|].
      apply Qlt_le_trans with 1%Q; [reflexivity|apply Q.le_max_r]. }
    assert (Hm : (0 <= Qmin 1 r)%Q) by (apply Q.min_glb; lra).
    apply Qmult_le_0_compat; [apply Qmult_le_0_compat; assumption|lra]. }
  assert (Hp2 : (0 <= p2)%Q).
  { subst p2. destruct (Qltb _ _) eqn:E; [|lra].
    apply Qltb_true in E.
    apply Qmult_le_0_compat; [apply Qmult_le_0_compat; [|assumption]|lra].
    apply Qdiv_nonneg; lra. }
  lra.
Qed.

Lemma check_distribution_bounds (s : list Z) :
  (0 <= _check_distribution_variance fl W s <= R5 W)%Q.
Proof.
  unfold _check_distribution_variance.
  apply Qmin_between; [|apply HW].
  apply fold_left_invariant; [lra|].
  intros a x Ha. pose proof (distribution_of_angle_nonneg s x). lra.
Qed.

Lemma check_grouping_bounds (s : list Z) (max_group : nat) :
  (0 <= _check_grouping W s max_group <= R6 W)%Q.
Proof.
  unfold _check_grouping.
  assert (H6 : (0 <= R6 W)%Q) by apply HW.
  apply Qmin_between; [|assumption].
  set (st := match s with [] => _ | _ => _ end).
  set (t1 := if max_group <? _ then _ else _).
  assert (Ht1 : (0 <= t1)%Q).
  { subst t1. destruct (max_group <? _); [|lra].
    assert (0 <= Qofnat (gl_max_group_found st - max_group) * (R6 W * (35 # 100)))%Q.
    { apply Qmult_le_0_compat; [apply Qofnat_nonneg|].
      apply Qmult_le_0_compat; lra. }
    lra. }
  assert (Ht2 : (0 <= Qofnat (_find_groups_of_size s 3) * 2)%Q).
  { apply Qmult_le_0_compat; [apply Qofnat_nonneg|lra]. }
  assert (Ht3 : (0 <= Qofnat (gl_adjacent_pairs_0_90 st) * (3 # 10))%Q).
  { apply Qmult_le_0_compat; [apply Qofnat_nonneg|lra]. }
  destruct (Nat.ltb_spec 1 (length s)) as [Hn|Hn]; [|lra].
  assert (0 <= Qofnat (gl_total_adjacent_pairs st) / Qofnat (length s - 1)
               * (R6 W * (50 # 100)))%Q.
  { apply Qmult_le_0_compat.
    - apply Qdiv_nonneg; [apply Qofnat_nonneg|apply Qofnat_pos; lia].
    - apply Qmult_le_0_compat; lra. }
  lra.
Qed.

Lemma check_buckling_bounds (s : list Z) :
  (0 <= _check_buckling fl W s <= R7 W)%Q.
Proof.
  unfold _check_buckling.
  assert (H7 : (0 <= R7 W)%Q) by apply HW.
  destruct (indices_where _ s) as [|p ps] eqn:E; [lra|].
  apply Qmin_between; [|assumption].
  set (psum := fold_left _ _ _).
  assert (Hs : (0 <= psum)%Q).
  { subst psum. apply fold_left_invariant; [lra|].
    intros a x Ha. destruct (Qltb _ _); [|assumption].
    match goal with
    | |- (0 <= a + ?t)%Q =>
        assert (0 <= t)%Q by (apply Qmult_le_0_compat; [apply Hfl|lra])
    end.
    lra. }
  destruct (Nat.ltb_spec 0 (length (p :: ps))) as [Hn|Hn]; [|lra].
  apply Qmult_le_0_compat; [|assumption].
  apply Qdiv_nonneg; [assumption|apply Qofnat_pos; assumption].
Qed.

Lemma check_lateral_bounds (s : list Z) :
  (0 <= _check_lateral_bending fl W s <= R8 W)%Q.
Proof.
  unfold _check_lateral_bending.
  assert (H8 : (0 <= R8 W)%Q) by apply HW.
  destruct (indices_where _ s) as [|p ps] eqn:E; [lra|].
  set (st := fold_left _ _ _).
  assert (Hs : (0 <= fst st)%Q).
  { subst st. apply fold_left_invariant; [cbn; lra|].
    intros [a c] x Ha. cbn [fst] in Ha.
    destruct (Qltb _ LATERAL_BENDING_THRESHOLD); [|assumption].
    cbn [fst].
    match goal with
    | |- (0 <= a + ?t)%Q =>
        assert (0 <= t)%Q by (apply Qmult_le_0_compat; [apply Hfl|lra])
    end.
    lra. }
  destruct st as [psum hits]. cbn [fst] in Hs.
  apply Qmin_between; [|assumption].
  set (np := if 0 <? _ then _ else _).
  assert (Hnp : (0 <= np)%Q).
  { subst np. destruct (Nat.ltb_spec 0 (length (p :: ps))) as [Hn|Hn]; [|lra].
    apply Qmult_le_0_compat; [|assumption].
    apply Qdiv_nonneg; [assumption|apply Qofnat_pos; assumption]. }
  destruct (2 <=? hits); [|destruct (hits =? 1)].
  - apply Qle_trans with np; [assumption|apply Q.le_max_l].
  - apply Qle_trans with np; [assumption|apply Q.le_max_l].
  - assumption.
Qed.

End RuleBounds.

(** ** Invariants of the fitness result *)

Lemma soft_entry_bounded (k : Z) (w p s : Q) (rsn : string) :
  (w == k # 100)%Q -> (0 <= p <= w)%Q -> (0 <= s <= w)%Q ->
  entry_bounded (soft_entry w p s rsn).
Proof.
  intros Hw Hp Hs. unfold entry_bounded, soft_entry. cbn.
  split; rewrite Hw; apply round2_between; rewrite <- Hw; assumption.
Qed.

Lemma Qmax_0_sub (w p : Q) : (p <= w)%Q -> (Qmax 0 (w - p) == w - p)%Q.
Proof. intros H. apply Q.max_r. lra. Qed.

Lemma default_weights_nonneg : nonneg_weights WEIGHTS.
Proof. unfold nonneg_weights, WEIGHTS. cbn. repeat split; lra. Qed.

Lemma soft_rules_bounded (fl : FloatOps) (s : list Z) :
  nonneg_float fl ->
  Forall (fun r => entry_bounded (snd r)) (soft_rules fl WEIGHTS s).
Proof.
  intros Hfl. pose proof default_weights_nonneg as HW.
  pose proof (check_symmetry_bounds _ HW s) as B1.
  pose proof (check_balance_bounds _ HW s) as B2.
  pose proof (check_percentage_bounds _ HW s) as B3.
  pose proof (check_external_bounds _ HW s) as B4.
  pose proof (check_distribution_bounds _ _ Hfl HW s) as B5.
  pose proof (check_grouping_bounds _ HW s 3) as B6.
  pose proof (check_buckling_bounds _ _ Hfl HW s) as B7.
  pose proof (check_lateral_bounds _ _ Hfl HW s) as B8.
  unfold soft_rules. cbn [R1 R2 R3 R4 R5 R6 R7 R8 WEIGHTS] in *.
  repeat apply Forall_cons; [ .. | apply Forall_nil]; cbn [snd].
  - apply (soft_entry_bounded 1800); [reflexivity|assumption|].
    rewrite (Qmax_0_sub _ _ (proj2 B1)). lra.
  - apply (soft_entry_bounded 1200); [reflexivity|assumption|].
    rewrite (Qmax_0_sub _ _ (proj2 B2)). lra.
  - apply (soft_entry_bounded 1300); [reflexivity|assumption|].
    rewrite (Qmax_0_sub _ _ (proj2 B3)). lra.
  - apply (soft_entry_bounded 1200); [reflexivity|lra|assumption].
  - apply (soft_entry_bounded 1400); [reflexivity|assumption|].
    rewrite (Qmax_0_sub _ _ (proj2 B5)). lra.
  - apply (soft_entry_bounded 2050); [reflexivity|assumption|].
    rewrite (Qmax_0_sub _ _ (proj2 B6)). lra.
  - apply (soft_entry_bounded 350); [reflexivity|assumption|].
    rewrite (Qmax_0_sub _ _ (proj2 B7)). lra.
  - apply (soft_entry_bounded 700); [reflexivity|assumption|].
    rewrite (Qmax_0_sub _ _ (proj2 B8)). lra.
Qed.

Lemma soft_rules_names (fl : FloatOps) (W : Weights) (s : list Z) :
  map fst (soft_rules fl W s) = rule_names /\
  map (fun r => weight (snd r)) (soft_rules fl W s) = weights_list W.
Proof. split; reflexivity. Qed.

Lemma soft_total_bounds (fl : FloatOps) (s : list Z) :
  nonneg_float fl ->
  (0 <= fst (soft_result fl WEIGHTS s) <= 100)%Q.
Proof.
  intros Hfl. pose proof (soft_rules_bounded fl s Hfl) as H.
  unfold soft_result. cbn [fst].
  remember (soft_rules fl WEIGHTS s) as rs eqn:Ers.
  pose proof (soft_rules_names fl WEIGHTS s) as [_ Hw]. rewrite <- Ers in Hw.
  unfold entry_bounded in H.
  do 8 (destruct rs as [|[? ?] rs]; [discriminate Hw|]).
  destruct rs; [|discriminate Hw].
  cbn [map snd weights_list WEIGHTS R1 R2 R3 R4 R5 R6 R7 R8] in Hw.
  injection Hw as W1 W2 W3 W4 W5 W6 W7 W8.
  repeat match goal with
         | H : Forall _ (_ :: _) |- _ =>
             let a := fresh "A" in
             apply Forall_cons_iff in H; destruct H as [[a _] H]; cbn [snd] in a
         end.
  rewrite W1 in A. rewrite W2 in A0. rewrite W3 in A1. rewrite W4 in A2.
  rewrite W5 in A3. rewrite W6 in A4. rewrite W7 in A5. rewrite W8 in A6.
  unfold Qsum. cbn [map snd fold_left]. lra.
Qed.

(** ** The hard constraints are decidable *)

Lemma has_adjacent_0_90_spec (s : list Z) :
  _has_adjacent_0_90 s = true <-> exists i, adjacent_0_90_at s i.
Proof.
  unfold _has_adjacent_0_90.
  destruct (first_adj_0_90 s 0) as [j|] eqn:E.
  - split; [intros _|reflexivity].
    apply first_adj_0_90_some in E. exists (j - 0). apply E.
  - split; [discriminate|]. intros [i Hi].
    exfalso. eapply first_adj_0_90_none; eauto.
Qed.

Lemma violates_hard_reflect (s : list Z) :
  violates_hard s <-> violates_hard_b s = true.
Proof.
  unfold violates_hard, violates_hard_b. cbn [forallb].
  rewrite !orb_true_iff, andb_true_iff, negb_true_iff.
  rewrite has_adjacent_0_90_spec.
  rewrite !andb_false_iff, Nat.leb_le.
  rewrite !Z.eqb_eq, !Z.eqb_neq. intuition (try discriminate).
Qed.

Lemma passes_hard_reflect (s : list Z) :
  violates_hard_b s = false -> ~ violates_hard s.
Proof. intros H V. apply violates_hard_reflect in V. congruence. Qed.

(** ** The computable float environment is non-negative *)

Lemma root_bisect_nonneg (fuel k : nat) (n lo hi : Z) :
  (0 <= lo)%Z -> (0 <= root_bisect fuel k n lo hi)%Z.
Proof.
  revert lo hi. induction fuel as [|fuel IH]; intros lo hi Hlo; cbn; [assumption|].
  destruct (Z.leb_spec (hi - lo) 1); [assumption|].
  destruct (_ <=? n)%Z; apply IH; [|assumption].
  apply Z.div_pos; lia.
Qed.

Lemma approx_pow_nonneg (x y : Q) : (0 <= approx_pow x y)%Q.
Proof.
  unfold approx_pow. destruct (Qle_bool x 0); [apply Qle_refl|].
  unfold Qle. cbn [Qnum Qden]. rewrite Z.mul_1_r. cbn [Z.mul].
  apply root_bisect_nonneg. lia.
Qed.

Lemma approx_float_nonneg : nonneg_float approx_float.
Proof. split; intros; apply approx_pow_nonneg. Qed.

(** ** Properties of the rule evaluator *)

(** C1. On a non-empty sequence [calculate_fitness] returns total 0 with
    a one-entry breakdown exactly when a hard constraint is violated
    (an end ply is 0, a 0/90 pair is adjacent, or one of the four outer
    plies of a sequence of length >= 4 is not +-45); the hard exits do
    not depend on the weights or the float environment, so no soft rule
    is consulted. *)
Theorem calculate_fitness_hard_fail_iff
        (fl : FloatOps) (W : Weights) (sequence : list Z) :
  sequence <> [] ->
  ((exists total bd, calculate_fitness fl W sequence = Ok (total, bd) /\
                     (total == 0)%Q /\ length (rules bd) = 1)
   <-> violates_hard sequence) /\
  (violates_hard sequence ->
   exists name rsn, forall fl' W',
       calculate_fitness fl' W' sequence = Ok (hard_fail name rsn)).
Proof.
  intros Hne.
  destruct (calculate_fitness_cases fl W sequence Hne) as [[V [name [rsn H]]]|[V H]].
  - split.
    + split; [intros _; exact V|]. intros _.
      exists (fst (hard_fail name rsn)), (snd (hard_fail name rsn)).
      rewrite (H fl W). cbn. repeat split; reflexivity.
    + intros _. exists name, rsn. exact H.
  - split; [|tauto].
    split; [|tauto].
    intros [total [bd [E [_ Hlen]]]]. exfalso.
    rewrite H in E. injection E as _ <-. cbn in Hlen. discriminate.
Qed.

Lemma calculate_fitness_hard_fail_iff_witness :
  [0; 45; -45; 45]%Z <> [] /\
  ((exists total bd,
       calculate_fitness approx_float WEIGHTS [0; 45; -45; 45]%Z = Ok (total, bd) /\
       (total == 0)%Q /\ length (rules bd) = 1)
   <-> violates_hard [0; 45; -45; 45]%Z) /\
  (violates_hard [0; 45; -45; 45]%Z ->
   exists name rsn, forall fl' W',
       calculate_fitness fl' W' [0; 45; -45; 45]%Z = Ok (hard_fail name rsn)).
Proof.
  split; [discriminate|].
  apply (calculate_fitness_hard_fail_iff approx_float WEIGHTS [0; 45; -45; 45]%Z).
  discriminate.
Defined.

(** ** Binary64 rounding *)

Lemma pow2_pos (k : Z) : (0 < pow2 k)%Q.
Proof.
  unfold pow2. destruct (Z.leb_spec 0 k).
  - change 0%Q with (inject_Z 0). rewrite <- Zlt_Qlt. apply Z.pow_pos_nonneg; lia.
  - reflexivity.
Qed.

Lemma pow2_small (k : Z) : (k <= -45)%Z -> (pow2 k <= 1 # 35184372088832)%Q.
Proof.
  intros H. unfold pow2. destruct (Z.leb_spec 0 k); [lia|].
  unfold Qle. cbn [Qnum Qden].
  assert (Hp : (2 ^ 45 <= 2 ^ (- k))%Z) by (apply Z.pow_le_mono_r; lia).
  rewrite Z2Pos.id by (apply Z.pow_pos_nonneg; lia).
  change (2 ^ 45)%Z with 35184372088832%Z in Hp. lia.
Qed.

(** Up to 128 the last bit of a double weighs 2^-45 at most. *)
Lemma b64_exponent_small (x : Q) :
  (0 <= x <= 128)%Q -> (b64_exponent x <= -45)%Z.
Proof.
  intros [H0 H1]. unfold b64_exponent. cbv zeta.
  assert (Hk0 : (Z.log2 (Z.abs (Qnum x)) - Z.log2 (Zpos (Qden x)) <= 7)%Z).
  { unfold Qle in H0, H1. cbn [Qnum Qden] in H0, H1.
    rewrite Z.abs_eq by lia.
    assert (Hle : (Qnum x <= Zpos (Qden x) * 2 ^ 7)%Z) by lia.
    apply Z.log2_le_mono in Hle.
    rewrite Z.log2_mul_pow2 in Hle by lia. lia. }
  destruct (Qltb _ _); lia.
Qed.

Lemma round_half_even_error (z : Q) :
  (- (1 # 2) <= inject_Z (round_half_even z) - z <= 1 # 2)%Q.
Proof.
  destruct (round_half_even_nearest z) as [[H1 H2]|[[H|H] _]]; lra.
Qed.

(** A float operation with a result in [0, 128] is off by 2^-46 at
    most. *)
Lemma b64_error (x : Q) :
  (0 <= x <= 128)%Q -> (Qabs (b64 x - x) <= 1 # 70368744177664)%Q.
Proof.
  intros Hx. unfold b64. cbv zeta. rewrite Qred_correct.
  pose proof (b64_exponent_small x Hx) as He.
  pose proof (pow2_small _ He) as Hs.
  pose proof (pow2_pos (b64_exponent x)) as Hp.
  set (q := pow2 (b64_exponent x)) in *.
  pose proof (round_half_even_error (x / q)) as Hr.
  set (r := inject_Z (round_half_even (x / q))) in *.
  assert (E : (r * q - x == (r - x / q) * q)%Q) by (field; lra).
  set (z := (x / q)%Q) in *.
  rewrite E.
  apply Qabs_Qle_condition. split.
  - assert (H : (- (1 # 2) * q <= (r - z) * q)%Q)
      by (apply Qmult_le_compat_r; lra).
    lra.
  - assert (H : ((r - z) * q <= (1 # 2) * q)%Q)
      by (apply Qmult_le_compat_r; lra).
    lra.
Qed.

(** Two figures rounded one by one miss a weight of whole hundredths by
    one hundredth at most. *)
Lemma rounded_pair_within (k : Z) (x y : Q) :
  (- (1 # 200) <= x + y - (k # 100) <= 1 # 200)%Q ->
  (Qabs ((k # 100) - round2 x - round2 y) <= 1 # 100)%Q.
Proof.
  intros Hxy.
  pose proof (round_half_even_error (x * 100)) as Hx.
  pose proof (round_half_even_error (y * 100)) as Hy.
  unfold round2.
  set (a := round_half_even (x * 100)) in *.
  set (b := round_half_even (y * 100)) in *.
  assert (Hk : (k # 100 == inject_Z k / 100)%Q) by apply Qmake_100.
  assert (E0 : (inject_Z (k - a - b) == inject_Z k - inject_Z a - inject_Z b)%Q).
  { unfold Z.sub. rewrite !inject_Z_plus, !inject_Z_opp. ring. }
  assert (HN : (-1 <= k - a - b <= 1)%Z).
  { rewrite Hk in Hxy. destruct Hxy as [Hlo Hhi].
    assert (Hm1 : (- (1 # 200) * 100 <= (x + y - inject_Z k / 100) * 100)%Q)
      by (apply Qmult_le_compat_r; lra).
    assert (Hm2 : ((x + y - inject_Z k / 100) * 100 <= (1 # 200) * 100)%Q)
      by (apply Qmult_le_compat_r; lra).
    setoid_replace ((x + y - inject_Z k / 100) * 100)%Q
      with ((x + y) * 100 - inject_Z k)%Q in Hm1 by field.
    setoid_replace ((x + y - inject_Z k / 100) * 100)%Q
      with ((x + y) * 100 - inject_Z k)%Q in Hm2 by field.
    assert (H1 : (inject_Z (k - a - b) < inject_Z 2)%Q).
    { rewrite E0. change (inject_Z 2) with 2%Q. lra. }
    assert (H2 : (inject_Z (-2) < inject_Z (k - a - b))%Q).
    { rewrite E0. change (inject_Z (-2)) with (-2)%Q. lra. }
    apply inject_Z_lt_inv in H1, H2. lia. }
  apply Qabs_Qle_condition.
  unfold Qle, Qminus, Qplus, Qopp. cbn [Qnum Qden]. lia.
Qed.

Lemma soft_entry_b64_within (k : Z) (w p : Q) (rsn : string) :
  (w == k # 100)%Q -> (0 <= p <= w)%Q -> (w <= 128)%Q ->
  within_hundredth (soft_entry_b64 w p rsn).
Proof.
  intros Hw Hp H128. unfold within_hundredth, soft_entry_b64, soft_entry, fsub.
  cbn [weight score penalty].
  assert (He := b64_error (w - p) ltac:(lra)).
  apply Qabs_Qle_condition in He.
  assert (G : (Qabs ((k # 100) - round2 (Qmax 0 (b64 (w - p))) - round2 p)
               <= 1 # 100)%Q).
  { apply rounded_pair_within. rewrite <- Hw.
    destruct (Q.max_spec 0 (b64 (w - p))) as [[L E]|[L E]]; rewrite E; lra. }
  set (a := round2 (Qmax 0 (b64 (w - p)))) in *.
  set (b := round2 p) in *.
  rewrite Hw. exact G.
Qed.

Lemma external_entry_b64_within (k : Z) (w s : Q) (rsn : string) :
  (w == k # 100)%Q -> (0 <= s <= w)%Q -> (w <= 128)%Q ->
  within_hundredth (external_entry_b64 w s rsn).
Proof.
  intros Hw Hs H128. unfold within_hundredth, external_entry_b64, soft_entry, fsub.
  cbn [weight score penalty].
  assert (He := b64_error (w - s) ltac:(lra)).
  apply Qabs_Qle_condition in He.
  assert (G : (Qabs ((k # 100) - round2 s - round2 (b64 (w - s))) <= 1 # 100)%Q).
  { apply rounded_pair_within. rewrite <- Hw. lra. }
  set (a := round2 s) in *.
  set (b := round2 (b64 (w - s))) in *.
  rewrite Hw. exact G.
Qed.

Lemma default_weights_hundredths (w : Q) :
  In w (weights_list WEIGHTS) -> exists k, (w == k # 100)%Q /\ (w <= 128)%Q.
Proof.
  unfold weights_list, WEIGHTS. cbn [R1 R2 R3 R4 R5 R6 R7 R8 In].
  intros [<-|[<-|[<-|[<-|[<-|[<-|[<-|[<-|[]]]]]]]]].
  - exists 1800%Z. split; [reflexivity|lra].
  - exists 1200%Z. split; [reflexivity|lra].
  - exists 1300%Z. split; [reflexivity|lra].
  - exists 1200%Z. split; [reflexivity|lra].
  - exists 1400%Z. split; [reflexivity|lra].
  - exists 2050%Z. split; [reflexivity|lra].
  - exists 350%Z. split; [reflexivity|lra].
  - exists 700%Z. split; [reflexivity|lra].
Qed.

(** C3, as stated, fails: the reported penalty is not the weight minus
    the reported score.  On [45, 90, 90], which passes the hard
    constraints, the float penalty of R6 is 0.3 + 5.125, the double just
    below 5.425, and [20.5 - penalty] is the double just below 15.075;
    [round(., 2)] reports penalty 5.42 and score 15.07 under weight
    20.5. *)
Lemma calculate_fitness_penalty_not_weight_minus_score :
  ~ violates_hard [45; 90; 90]%Z /\
  (_check_grouping_b64 WEIGHTS [45; 90; 90]%Z 3
   == 6108006994621235 # 1125899906842624)%Q /\
  (weight (grouping_entry_b64 WEIGHTS [45; 90; 90]%Z) == 41 # 2)%Q /\
  (score (grouping_entry_b64 WEIGHTS [45; 90; 90]%Z) == 1507 # 100)%Q /\
  (penalty (grouping_entry_b64 WEIGHTS [45; 90; 90]%Z) == 542 # 100)%Q /\
  ~ (penalty (grouping_entry_b64 WEIGHTS [45; 90; 90]%Z)
     == weight (grouping_entry_b64 WEIGHTS [45; 90; 90]%Z)
        - score (grouping_entry_b64 WEIGHTS [45; 90; 90]%Z))%Q.
Proof.
  split; [apply passes_hard_reflect; reflexivity|].
  split; [vm_compute; reflexivity|].
  split; [vm_compute; reflexivity|].
  split; [vm_compute; reflexivity|].
  split; [vm_compute; reflexivity|].
  vm_compute. discriminate.
Qed.

(** C3, amended. For a sequence that passes the hard constraints, under
    the default weights: the total lies in [0, 100], it is the sum of the
    eight per-rule scores, and every rule R1..R8 reports its weight, a
    score between 0 and the weight and a penalty between 0 and the
    weight.  The score and the penalty of an entry are rounded one by
    one, so the penalty is the weight minus the score only up to one
    hundredth: this holds for the entry built in binary64 arithmetic
    from any float penalty (for R4, from any float score) between 0 and
    the weight. *)
Theorem calculate_fitness_rounded_invariants (fl : FloatOps) (sequence : list Z) :
  nonneg_float fl -> sequence <> [] -> ~ violates_hard sequence ->
  (exists total bd,
      calculate_fitness fl WEIGHTS sequence = Ok (total, bd) /\
      (0 <= total <= 100)%Q /\
      (total == sum_of_scores bd)%Q /\
      map fst (rules bd) = rule_names /\
      map (fun r => weight (snd r)) (rules bd) = weights_list WEIGHTS /\
      Forall (fun r => entry_bounded (snd r)) (rules bd)) /\
  (forall w raw rsn,
      In w (weights_list WEIGHTS) -> (0 <= raw <= w)%Q ->
      within_hundredth (soft_entry_b64 w raw rsn) /\
      within_hundredth (external_entry_b64 w raw rsn)).
Proof.
  intros Hfl Hne Hok. split.
  - destruct (calculate_fitness_cases fl WEIGHTS sequence Hne) as [[V _]|[_ H]];
      [contradiction|].
    exists (fst (soft_result fl WEIGHTS sequence)),
           (snd (soft_result fl WEIGHTS sequence)).
    split; [rewrite H; destruct (soft_result fl WEIGHTS sequence); reflexivity|].
    split; [apply soft_total_bounds; assumption|].
    split; [reflexivity|].
    split; [reflexivity|].
    split; [reflexivity|].
    apply soft_rules_bounded. assumption.
  - intros w raw rsn Hw Hraw.
    destruct (default_weights_hundredths w Hw) as [k [Hk H128]].
    split.
    + now apply (soft_entry_b64_within k).
    + now apply (external_entry_b64_within k).
Qed.

Lemma calculate_fitness_rounded_invariants_witness :
  nonneg_float approx_float /\
  [45; 90; 90]%Z <> [] /\
  ~ violates_hard [45; 90; 90]%Z /\
  (exists total bd,
      calculate_fitness approx_float WEIGHTS [45; 90; 90]%Z = Ok (total, bd) /\
      (0 <= total <= 100)%Q /\
      (total == sum_of_scores bd)%Q /\
      map fst (rules bd) = rule_names /\
      map (fun r => weight (snd r)) (rules bd) = weights_list WEIGHTS /\
      Forall (fun r => entry_bounded (snd r)) (rules bd)) /\
  (forall w raw rsn,
      In w (weights_list WEIGHTS) -> (0 <= raw <= w)%Q ->
      within_hundredth (soft_entry_b64 w raw rsn) /\
      within_hundredth (external_entry_b64 w raw rsn)).
Proof.
  split; [exact approx_float_nonneg|].
  split; [discriminate|].
  split; [apply passes_hard_reflect; reflexivity|].
  apply (calculate_fitness_rounded_invariants approx_float [45; 90; 90]%Z).
  - exact approx_float_nonneg.
  - discriminate.
  - apply passes_hard_reflect. reflexivity.
Defined.

(** C6, as stated, fails: with two +45 plies and one -45 ply the code
    divides by [3 // 2 = 1] and charges the full weight 12, where the
    exact half 1.5 would give 8. *)
Lemma check_balance_45_not_exact_half :
  (_check_balance_45 WEIGHTS [45; 45; -45]%Z == 12)%Q /\
  (balance_penalty_exact_half WEIGHTS [45; 45; -45]%Z == 8)%Q /\
  ~ (_check_balance_45 WEIGHTS [45; 45; -45]%Z
     == balance_penalty_exact_half WEIGHTS [45; 45; -45]%Z)%Q.
Proof.
  repeat split; try reflexivity.
  vm_compute. discriminate.
Qed.

(** C6, amended. The Rule 2 penalty is
    weight * min(1, d / max(1, floor((count(+45) + count(-45)) / 2)))
    with d = |count(+45) - count(-45)|: the half is an integer (floor)
    division. *)
Theorem check_balance_45_floor_half (W : Weights) (sequence : list Z) :
  (_check_balance_45 W sequence == balance_penalty_floor_half W sequence)%Q.
Proof.
  unfold _check_balance_45, balance_penalty_floor_half.
  set (c45 := count sequence 45). set (cm45 := count sequence (-45)).
  assert (Hmax : forall z : Z,
             (Qmax 1 (inject_Z z) == inject_Z (Z.max 1 z))%Q).
  { intros z. destruct (Z.max_spec 1 z) as [[Hlt ->]|[Hle ->]].
    - apply Q.max_r. change 1%Q with (inject_Z 1). rewrite <- Zle_Qle. lia.
    - apply Q.max_l. change 1%Q with (inject_Z 1). rewrite <- Zle_Qle. lia. }
  rewrite Hmax.
  replace ((Z.of_nat c45 + Z.of_nat cm45) / 2)%Z with (Z.of_nat ((c45 + cm45) / 2))
    by (rewrite Nat2Z.inj_div, Nat2Z.inj_add; reflexivity).
  destruct (Nat.ltb_spec 0 (c45 + cm45)) as [Hpos|Hzero]; [reflexivity|].
  assert (c45 = 0 /\ cm45 = 0) as [-> ->] by lia.
  change (Z.abs (Z.of_nat 0 - Z.of_nat 0)) with 0%Z.
  change ((0 + 0) / 2) with 0.
  assert (E : (Qmin 1 (inject_Z 0 / inject_Z (Z.max 1 (Z.of_nat 0))) == 0)%Q)
    by reflexivity.
  rewrite E. ring.
Qed.

(** C9, as stated, fails: on [45, -45, 0, 0, 0, -45, 45] the returned
    total is 90.11, the sum of the already rounded rule scores, while
    the un-rounded sum is 811/9 = 90.111... *)
Lemma calculate_fitness_total_not_exact :
  exists total bd,
    calculate_fitness approx_float WEIGHTS [45; -45; 0; 0; 0; -45; 45]%Z
      = Ok (total, bd) /\
    (total == 9011 # 100)%Q /\
    (exact_total approx_float WEIGHTS [45; -45; 0; 0; 0; -45; 45]%Z == 811 # 9)%Q /\
    ~ (total == exact_total approx_float WEIGHTS [45; -45; 0; 0; 0; -45; 45]%Z)%Q.
Proof.
  eexists. eexists. split; [reflexivity|].
  split; [vm_compute; reflexivity|].
  split; [vm_compute; reflexivity|].
  vm_compute. discriminate.
Qed.

(** C9, amended. For a sequence that passes the hard constraints the
    returned total is the sum of the eight rule scores
    max(0, wk - penalty_k) after each has been rounded to two decimals;
    the breakdown reports those rounded scores, and its total figure is
    the returned total rounded once more. *)
Theorem calculate_fitness_total_of_rounded
        (fl : FloatOps) (W : Weights) (sequence : list Z) :
  sequence <> [] -> ~ violates_hard sequence ->
  exists total bd,
    calculate_fitness fl W sequence = Ok (total, bd) /\
    total = Qsum (map round2 (rule_scores fl W sequence)) /\
    map (fun r => score (snd r)) (rules bd) = map round2 (rule_scores fl W sequence) /\
    total_score bd = round2 total.
Proof.
  intros Hne Hok.
  destruct (calculate_fitness_cases fl W sequence Hne) as [[V _]|[_ H]]; [contradiction|].
  do 2 eexists. split; [exact H|].
  repeat split; reflexivity.
Qed.

Lemma calculate_fitness_total_of_rounded_witness :
  [45; -45; 0; 0; 0; -45; 45]%Z <> [] /\
  ~ violates_hard [45; -45; 0; 0; 0; -45; 45]%Z /\
  exists total bd,
    calculate_fitness approx_float WEIGHTS [45; -45; 0; 0; 0; -45; 45]%Z
      = Ok (total, bd) /\
    total = Qsum (map round2
                    (rule_scores approx_float WEIGHTS [45; -45; 0; 0; 0; -45; 45]%Z)) /\
    map (fun r => score (snd r)) (rules bd)
      = map round2 (rule_scores approx_float WEIGHTS [45; -45; 0; 0; 0; -45; 45]%Z) /\
    total_score bd = round2 total.
Proof.
  split; [discriminate|].
  split; [apply passes_hard_reflect; reflexivity|].
  apply (calculate_fitness_total_of_rounded approx_float WEIGHTS
           [45; -45; 0; 0; 0; -45; 45]%Z).
  - discriminate.
  - apply passes_hard_reflect. reflexivity.
Defined.

(** C10, as stated, fails: on the empty sequence the first hard check
    reads [sequence[0]] and raises [IndexError]. *)
Lemma calculate_fitness_empty_raises :
  calculate_fitness approx_float WEIGHTS [] = Raise IndexError.
Proof. reflexivity. Qed.

(** C10, amended. [calculate_fitness] returns a (total, breakdown)
    result on every non-empty sequence, those of length 1, 2 and 3
    included; it raises on no such input. *)
Theorem calculate_fitness_total_on_nonempty
        (fl : FloatOps) (W : Weights) (sequence : list Z) :
  sequence <> [] ->
  exists total bd, calculate_fitness fl W sequence = Ok (total, bd).
Proof.
  intros Hne.
  destruct (calculate_fitness_cases fl W sequence Hne) as [[_ [name [rsn H]]]|[_ H]].
  - exists (fst (hard_fail name rsn)), (snd (hard_fail name rsn)). apply H.
  - rewrite H. destruct (soft_result fl W sequence) as [t bd]. now exists t, bd.
Qed.

Lemma calculate_fitness_total_on_nonempty_witness :
  [45]%Z <> [] /\
  exists total bd, calculate_fitness approx_float WEIGHTS [45]%Z = Ok (total, bd).
Proof.
  split; [discriminate|].
  apply (calculate_fitness_total_on_nonempty approx_float WEIGHTS [45]%Z).
  discriminate.
Defined.

(** ** Breadth-first traversal of the zone graph *)

Lemma mem_nat_In (x : nat) (l : list nat) : mem_nat x l = true <-> In x l.
Proof.
  unfold mem_nat. rewrite existsb_exists. split.
  - intros [y [Hy E]]. apply Nat.eqb_eq in E. now subst.
  - intros H. exists x. split; [assumption|apply Nat.eqb_refl].
Qed.

Lemma mem_nat_not_In (x : nat) (l : list nat) : mem_nat x l = false <-> ~ In x l.
Proof.
  rewrite <- mem_nat_In. destruct (mem_nat x l); split; congruence.
Qed.

Lemma filter_length_lt (A : Type) (p q : A -> bool) (a : A) (l : list A) :
  (forall x, p x = true -> q x = true) ->
  In a l -> q a = true -> p a = false ->
  length (filter p l) < length (filter q l).
Proof.
  intros Hpq Ha Hqa Hpa.
  assert (Hle : forall l', length (filter p l') <= length (filter q l')).
  { induction l' as [|x l' IH]; cbn; [lia|].
    destruct (p x) eqn:Ep.
    - rewrite (Hpq _ Ep). cbn. lia.
    - destruct (q x); cbn; lia. }
  induction l as [|x l IH]; [contradiction|].
  destruct Ha as [->|Ha]; cbn.
  - rewrite Hpa, Hqa. cbn. specialize (Hle l). lia.
  - specialize (IH Ha). destruct (p x) eqn:Ep.
    + rewrite (Hpq _ Ep). cbn. lia.
    + destruct (q x); cbn; lia.
Qed.

Lemma unvisited_cons (nodes visited : list nat) (x : nat) :
  In x nodes -> ~ In x visited ->
  unvisited nodes (x :: visited) < unvisited nodes visited.
Proof.
  intros Hx Hnv. unfold unvisited.
  apply filter_length_lt with (a := x).
  - intros y Hy. apply negb_true_iff in Hy. apply negb_true_iff.
    apply mem_nat_not_In. apply mem_nat_not_In in Hy.
    intros H. apply Hy. now right.
  - assumption.
  - apply negb_true_iff, mem_nat_not_In. assumption.
  - apply negb_false_iff, mem_nat_In. now left.
Qed.

(** What one pass over a neighbour list does to the queue and the
    visited set. *)
Lemma visit_neighbors_spec (nodes neighbors queue visited : list nat) :
  incl neighbors nodes ->
  let '(queue2, visited2) := visit_neighbors neighbors queue visited in
  (forall x, In x visited2 <-> In x visited \/ In x neighbors) /\
  (forall x, In x queue2 <-> In x queue \/ (In x neighbors /\ ~ In x visited)) /\
  2 * unvisited nodes visited2 + length queue2
    <= 2 * unvisited nodes visited + length queue.
Proof.
  unfold visit_neighbors.
  revert queue visited.
  induction neighbors as [|nb rest IH]; intros queue visited Hincl; cbn [fold_left].
  - repeat split; cbn [In]; try tauto; try lia.
  - assert (Hrest : incl rest nodes) by (intros y Hy; apply Hincl; now right).
    assert (Hnb : In nb nodes) by (apply Hincl; now left).
    destruct (mem_nat nb visited) eqn:E.
    + apply mem_nat_In in E.
      specialize (IH queue visited Hrest).
      destruct (fold_left _ rest (queue, visited)) as [q2 v2].
      destruct IH as [Hv [Hq Hm]].
      repeat split.
      * intros H. apply Hv in H. cbn [In]. tauto.
      * intros [H|[H|H]]; apply Hv; subst; tauto.
      * intros H. apply Hq in H. cbn [In]. tauto.
      * intros [H|[[H|H] Hn]]; apply Hq; subst; tauto.
      * assumption.
    + apply mem_nat_not_In in E.
      specialize (IH (queue ++ [nb]) (nb :: visited) Hrest).
      destruct (fold_left _ rest (queue ++ [nb], nb :: visited)) as [q2 v2].
      destruct IH as [Hv [Hq Hm]].
      pose proof (unvisited_cons nodes visited nb Hnb E) as Hlt.
      rewrite length_app in Hm. cbn [length] in Hm.
      repeat split.
      * intros H. apply Hv in H. cbn [In] in *. tauto.
      * intros H. apply Hv. cbn [In] in *. tauto.
      * intros H. apply Hq in H. rewrite in_app_iff in H. cbn [In] in *.
        destruct H as [[H|[H|[]]]|[H Hn]]; try tauto.
        subst. tauto.
      * intros H. apply Hq. rewrite in_app_iff. cbn [In] in *.
        destruct H as [H|[[H|H] Hn]]; try tauto.
        destruct (Nat.eq_dec nb x); [tauto|]. tauto.
      * lia.
Qed.

Lemma nth_error_incl_concat (graph : list (list nat)) (u : nat) (l : list nat) :
  nth_error graph u = Some l -> incl l (concat graph).
Proof.
  intros H x Hx. apply in_concat. exists l. split; [|assumption].
  eapply nth_error_In; eauto.
Qed.

(** The traversal never runs out of the fuel [_check_connectivity]
    gives it. *)
Lemma bfs_loop_fuel (graph : list (list nat)) (root fuel : nat) (queue visited : list nat) :
  2 * unvisited (graph_nodes graph root) visited + length queue < fuel ->
  bfs_loop fuel graph queue visited <> None.
Proof.
  revert queue visited.
  induction fuel as [|fuel IH]; intros queue visited Hm; [lia|].
  cbn [bfs_loop]. destruct queue as [|current queue']; [discriminate|].
  destruct (nth_error graph current) as [neighbors|] eqn:E; [|discriminate].
  assert (Hincl : incl neighbors (graph_nodes graph root)).
  { intros x Hx. right. eapply nth_error_incl_concat; eauto. }
  pose proof (visit_neighbors_spec _ neighbors queue' visited Hincl) as H.
  destruct (visit_neighbors neighbors queue' visited) as [q2 v2].
  destruct H as [_ [_ Hle]].
  apply IH. cbn [length] in Hm. lia.
Qed.

Lemma nth_error_nth_nil (graph : list (list nat)) (u : nat) (l : list nat) :
  nth_error graph u = Some l -> nth u graph [] = l.
Proof. intros H. now apply nth_error_nth. Qed.

(** When the traversal ends normally, it has visited exactly the nodes
    reachable from the root. *)
Lemma bfs_loop_reachable (graph : list (list nat)) (root fuel : nat)
      (queue visited result : list nat) :
  bfs_invariant graph root queue visited ->
  bfs_loop fuel graph queue visited = Some (Ok result) ->
  forall x, In x result <-> reachable graph root x.
Proof.
  revert queue visited.
  induction fuel as [|fuel IH]; intros queue visited Hinv Hrun; [discriminate|].
  cbn [bfs_loop] in Hrun. destruct queue as [|current queue'].
  - injection Hrun as <-. destruct Hinv as [Hroot [Hsound [_ Hclosed]]].
    intros x. split; [apply Hsound|].
    induction 1 as [|u v _ IHu Hv]; [assumption|].
    destruct (Hclosed u IHu) as [[]|Hall]. now apply Hall.
  - destruct (nth_error graph current) as [neighbors|] eqn:E; [|discriminate].
    pose proof (visit_neighbors_spec neighbors neighbors queue' visited
                  (incl_refl _)) as H.
    destruct (visit_neighbors neighbors queue' visited) as [q2 v2].
    destruct H as [Hv [Hq _]].
    apply (IH q2 v2); [|assumption].
    destruct Hinv as [Hroot [Hsound [Hqv Hclosed]]].
    apply nth_error_nth_nil in E.
    repeat split.
    + apply Hv. now left.
    + intros x Hx. apply Hv in Hx. destruct Hx as [Hx|Hx]; [now apply Hsound|].
      apply reach_step with current; [|rewrite E; assumption].
      apply Hsound, Hqv. now left.
    + intros x Hx. apply Hv. apply Hq in Hx.
      destruct Hx as [Hx|[Hx _]]; [left; apply Hqv; now right|now right].
    + intros x Hx. apply Hv in Hx.
      destruct (in_dec Nat.eq_dec x visited) as [Hold|Hnew].
      * destruct (Hclosed x Hold) as [[->|Hin]|Hall].
        -- right. intros y Hy. apply Hv. right. rewrite <- E. assumption.
        -- left. apply Hq. now left.
        -- right. intros y Hy. apply Hv. left. now apply Hall.
      * left. apply Hq. right. tauto.
Qed.

(** An in-range graph never makes the traversal raise. *)
Lemma bfs_loop_no_raise (graph : list (list nat)) (fuel : nat)
      (queue visited : list nat) (e : exn) :
  (forall u v, In v (nth u graph []) -> v < length graph) ->
  (forall x, In x queue -> x < length graph) ->
  bfs_loop fuel graph queue visited <> Some (Raise e).
Proof.
  intros Hrange. revert queue visited.
  induction fuel as [|fuel IH]; intros queue visited Hq; [discriminate|].
  cbn [bfs_loop]. destruct queue as [|current queue']; [discriminate|].
  destruct (nth_error graph current) as [neighbors|] eqn:E.
  - pose proof (visit_neighbors_spec neighbors neighbors queue' visited
                  (incl_refl _)) as H.
    destruct (visit_neighbors neighbors queue' visited) as [q2 v2].
    destruct H as [_ [Hq2 _]].
    apply IH. intros x Hx. apply Hq2 in Hx.
    destruct Hx as [Hx|[Hx _]]; [apply Hq; now right|].
    apply (Hrange current). apply nth_error_nth_nil in E. now rewrite E.
  - exfalso. apply nth_error_None in E.
    specialize (Hq current (or_introl eq_refl)). lia.
Qed.

(** ** The neighbour graph built from the rectangles is in range *)

Lemma fold_left_invariant_in (A B : Type) (P : A -> Prop) (f : A -> B -> A)
      (l : list B) (a : A) :
  P a -> (forall a x, In x l -> P a -> P (f a x)) -> P (fold_left f l a).
Proof.
  revert a. induction l as [|x l IH]; intros a Ha Hstep; cbn; [assumption|].
  apply IH.
  - apply Hstep; [now left|assumption].
  - intros a' y Hy. apply Hstep. now right.
Qed.

Lemma append_at_length (i x : nat) (lists : list (list nat)) :
  length (append_at i x lists) = length lists.
Proof.
  revert i. induction lists as [|l rest IH]; intros [|i]; cbn; auto.
Qed.

Lemma append_at_In (i x u v : nat) (lists : list (list nat)) :
  In v (nth u (append_at i x lists) []) ->
  In v (nth u lists []) \/ v = x.
Proof.
  revert i u. induction lists as [|l rest IH]; intros i u H.
  - destruct i; cbn in H; destruct u; contradiction.
  - destruct i as [|i], u as [|u]; cbn in *.
    + apply in_app_iff in H. cbn in H. intuition.
    + now left.
    + now left.
    + apply (IH i u H).
Qed.

Lemma compute_neighbors_in_range (bounds : list Bounds) :
  graph_in_range (length bounds) (compute_neighbors bounds).
Proof.
  unfold compute_neighbors. set (n := length bounds).
  apply fold_left_invariant_in.
  - split; [apply repeat_length|].
    intros u v H. exfalso.
    assert (E : nth u (repeat (@nil nat) n) [] = []).
    { destruct (Nat.lt_ge_cases u n) as [Hu|Hu].
      - apply nth_repeat_lt. assumption.
      - apply nth_overflow. rewrite repeat_length. assumption. }
    rewrite E in H. contradiction.
  - intros g i Hi Hg. apply in_seq in Hi.
    apply fold_left_invariant_in; [assumption|].
    intros g' j Hj [Hlen Hr]. apply in_seq in Hj.
    destruct (_rects_adjacent _ _ _); [|split; assumption].
    split; [now rewrite !append_at_length|].
    intros u v H.
    apply append_at_In in H. destruct H as [H| ->]; [|lia].
    apply append_at_In in H. destruct H as [H| ->]; [|lia].
    apply (Hr u v H).
Qed.

Lemma index_of_max_range (l : list Z) (i best_i : nat) (best : Z) :
  best_i < i -> index_of_max l i best_i best < i + length l.
Proof.
  revert i best_i best. induction l as [|x l IH]; intros i best_i best H; cbn.
  - lia.
  - destruct (best <? x)%Z.
    + specialize (IH (S i) i x). lia.
    + specialize (IH (S i) best_i best). lia.
Qed.

(** What [mz_init] builds when every zone has a rectangle. *)
Lemma mz_init_geometry (config : list (list (Z * Z))) (bounds : list Bounds)
      (mz : MultiZoneOptimizer) :
  mz_init config (Some bounds) = Ok mz ->
  bounds <> [] -> length bounds = length config ->
  zones_config mz = config /\
  root_index mz < length config /\
  zone_neighbors mz = compute_neighbors bounds /\
  zone_neighbors mz <> [].
Proof.
  intros Hinit Hne Hlen. unfold mz_init in Hinit.
  destruct config as [|z config']; [discriminate|].
  cbn [map] in Hinit. injection Hinit as <-.
  cbn [zones_config root_index zone_neighbors].
  destruct bounds as [|b bounds']; [congruence|].
  rewrite Hlen, Nat.eqb_refl.
  repeat split.
  - pose proof (index_of_max_range
                  (map (fun z0 => fold_left Z.add (map snd z0) 0%Z) config')
                  1 0
                  (fold_left Z.add (map snd z) 0%Z) ltac:(lia)) as H.
    rewrite length_map in H. cbn [length]. lia.
  - intros E.
    pose proof (compute_neighbors_in_range (b :: bounds')) as [Hl _].
    rewrite E in Hl. discriminate.
Qed.

Lemma unvisited_le (nodes visited : list nat) :
  unvisited nodes visited <= length nodes.
Proof. unfold unvisited. apply filter_length_le. Qed.

(** The connectivity check on an in-range graph: it ends, does not
    raise, and reports the unreachable zones in ascending order. *)
Lemma check_connectivity_spec (mz : MultiZoneOptimizer) :
  zone_neighbors mz <> [] ->
  graph_in_range (length (zones_config mz)) (zone_neighbors mz) ->
  root_index mz < length (zones_config mz) ->
  exists disconnected,
    _check_connectivity mz = Some (Ok (length disconnected =? 0, disconnected)) /\
    NoDup disconnected /\
    forall i, In i disconnected <->
              i < length (zones_config mz) /\
              ~ reachable (zone_neighbors mz) (root_index mz) i.
Proof.
  intros Hne [Hlen Hrange] Hroot.
  unfold _check_connectivity.
  destruct (zone_neighbors mz) as [|l0 g0] eqn:Eg; [congruence|].
  rewrite <- Eg in *. clear Hne.
  set (g := zone_neighbors mz) in *. set (root := root_index mz) in *.
  destruct (bfs_loop (bfs_fuel g root) g [root] [root]) as [[visited|e]|] eqn:Erun.
  - assert (Hinv : bfs_invariant g root [root] [root]).
    { repeat split.
      - now left.
      - intros x [<-|[]]. constructor.
      - auto.
      - intros x Hx. now left. }
    pose proof (bfs_loop_reachable _ _ _ _ _ _ Hinv Erun) as Hreach.
    eexists. split; [reflexivity|].
    split; [apply NoDup_filter, seq_NoDup|].
    intros i. rewrite filter_In, in_seq, negb_true_iff, mem_nat_not_In.
    rewrite Hreach. intuition lia.
  - exfalso. revert Erun. apply bfs_loop_no_raise.
    + rewrite Hlen. exact Hrange.
    + intros x [<-|[]]. rewrite Hlen. exact Hroot.
  - exfalso. apply (bfs_loop_fuel g root (bfs_fuel g root) [root] [root]); [|exact Erun].
    unfold bfs_fuel. pose proof (unvisited_le (graph_nodes g root) [root]).
    cbn [length]. lia.
Qed.

(** ** Claim about the orchestrator *)

(** C5. For a multi-zone input with geometry, when some zone is not
    reachable from the root in the neighbour graph, [optimize_all]
    returns [success = false], an empty [zones] list and, as
    [disconnected_zones], exactly the unreachable zone indices; the
    answer is the same for every retry loop, so neither the root
    optimization nor a drop-off is run. *)
Theorem optimize_all_reports_disconnected
        (config : list (list (Z * Z))) (bounds : list Bounds)
        (mz : MultiZoneOptimizer) :
  mz_init config (Some bounds) = Ok mz ->
  bounds <> [] -> length bounds = length config ->
  (exists i, i < length config /\
             ~ reachable (zone_neighbors mz) (root_index mz) i) ->
  exists report,
    (forall (R : Type) (retry_loop : MultiZoneOptimizer -> result R),
        optimize_all mz retry_loop = Some (Ok (Disconnected report))) /\
    cf_success report = false /\
    cf_zones report = [] /\
    NoDup (cf_disconnected_zones report) /\
    forall i, In i (cf_disconnected_zones report) <->
              i < length config /\
              ~ reachable (zone_neighbors mz) (root_index mz) i.
Proof.
  intros Hinit Hne Hlen [i0 [Hi0 Hunreach]].
  destruct (mz_init_geometry _ _ _ Hinit Hne Hlen) as [Hcfg [Hroot [Hg Hgne]]].
  assert (Hrange : graph_in_range (length (zones_config mz)) (zone_neighbors mz)).
  { rewrite Hcfg, Hg, <- Hlen. apply compute_neighbors_in_range. }
  rewrite <- Hcfg in Hroot.
  destruct (check_connectivity_spec mz Hgne Hrange Hroot) as [disc [Hcheck [Hnd Hin]]].
  rewrite Hcfg in Hin.
  assert (Hdisc : (length disc =? 0) = false).
  { apply Nat.eqb_neq. intros E. apply length_zero_iff_nil in E. subst disc.
    apply (proj2 (Hin i0)). split; assumption. }
  exists (disconnected_report mz disc). split; [|split; [|split; [|split]]].
  - intros R retry_loop. unfold optimize_all.
    destruct (zone_neighbors mz) as [|l0 g0] eqn:Eg; [congruence|].
    rewrite Hcheck, Hdisc. cbn [negb]. reflexivity.
  - reflexivity.
  - reflexivity.
  - exact Hnd.
  - exact Hin.
Qed.

Lemma isolated_zone_unreachable :
  ~ reachable (zone_neighbors isolated_mz) (root_index isolated_mz) 2.
Proof.
  assert (H : forall v, reachable (zone_neighbors isolated_mz)
                                  (root_index isolated_mz) v -> v = 0 \/ v = 1).
  { induction 1 as [|u v _ IH Hv]; [now left|].
    destruct IH as [-> | ->]; cbn in Hv; intuition. }
  intros Hr. apply H in Hr. lia.
Qed.

Lemma optimize_all_reports_disconnected_witness :
  mz_init isolated_config (Some isolated_bounds) = Ok isolated_mz /\
  isolated_bounds <> [] /\
  length isolated_bounds = length isolated_config /\
  (exists i, i < length isolated_config /\
             ~ reachable (zone_neighbors isolated_mz) (root_index isolated_mz) i) /\
  exists report,
    (forall (R : Type) (retry_loop : MultiZoneOptimizer -> result R),
        optimize_all isolated_mz retry_loop = Some (Ok (Disconnected report))) /\
    cf_success report = false /\
    cf_zones report = [] /\
    NoDup (cf_disconnected_zones report) /\
    forall i, In i (cf_disconnected_zones report) <->
              i < length isolated_config /\
              ~ reachable (zone_neighbors isolated_mz) (root_index isolated_mz) i.
Proof.
  assert (Hinit : mz_init isolated_config (Some isolated_bounds) = Ok isolated_mz)
    by (vm_compute; reflexivity).
  assert (Hun : exists i, i < length isolated_config /\
                  ~ reachable (zone_neighbors isolated_mz) (root_index isolated_mz) i).
  { exists 2. split; [cbn; lia|exact isolated_zone_unreachable]. }
  split; [exact Hinit|].
  split; [discriminate|].
  split; [reflexivity|].
  split; [exact Hun|].
  apply (optimize_all_reports_disconnected isolated_config isolated_bounds isolated_mz).
  - exact Hinit.
  - discriminate.
  - reflexivity.
  - exact Hun.
Defined.

(** ** Dictionaries and counters *)

Lemma dict_get_set (V : Type) (d : list (Z * V)) (k a : Z) (v : V) :
  dict_get (dict_set d k v) a = if (k =? a)%Z then Some v else dict_get d a.
Proof.
  induction d as [|[k' v'] d IH]; cbn.
  - reflexivity.
  - destruct (Z.eqb_spec k' k) as [->|Hne]; cbn.
    + destruct (Z.eqb_spec k a); reflexivity.
    + rewrite IH. destruct (Z.eqb_spec k' a) as [->|]; [|reflexivity].
      destruct (Z.eqb_spec k a); [congruence|reflexivity].
Qed.

Lemma dict_get_default_set (V : Type) (d : list (Z * V)) (k a : Z) (v dflt : V) :
  dict_get_default (dict_set d k v) a dflt
  = if (k =? a)%Z then v else dict_get_default d a dflt.
Proof.
  unfold dict_get_default. rewrite dict_get_set.
  destruct (k =? a)%Z; reflexivity.
Qed.

Lemma count_cons (x a : Z) (s : list Z) :
  count (x :: s) a = if (x =? a)%Z then S (count s a) else count s a.
Proof.
  unfold count. cbn. destruct (Z.eq_dec x a) as [->|Hne].
  - now rewrite Z.eqb_refl.
  - destruct (Z.eqb_spec x a); [congruence|reflexivity].
Qed.

Lemma Counter_fold_get (s : list Z) (c : list (Z * Z)) (a : Z) :
  dict_get_default
    (fold_left (fun c x => dict_set c x (dict_get_default c x 0 + 1)%Z) s c) a 0%Z
  = (dict_get_default c a 0 + Z.of_nat (count s a))%Z.
Proof.
  revert c. induction s as [|x s IH]; intros c; cbn [fold_left].
  - cbn. lia.
  - rewrite IH, dict_get_default_set, count_cons.
    destruct (Z.eqb_spec x a) as [->|]; lia.
Qed.

(** [Counter(s).get(a, 0)] is the number of occurrences of [a]. *)
Lemma Counter_get (s : list Z) (a : Z) :
  dict_get_default (Counter s) a 0%Z = Z.of_nat (count s a).
Proof. unfold Counter. rewrite Counter_fold_get. reflexivity. Qed.

(** ** The validation of the targets *)

Lemma validate_targets_ok (parent : list Z) (targets : list (Z * Z)) :
  validate_targets (Counter parent) targets = Ok tt <->
  Forall (feasible_entry parent) targets.
Proof.
  induction targets as [|[a t] rest IH]; cbn [validate_targets].
  - split; [constructor|reflexivity].
  - rewrite Counter_get.
    destruct (Z.ltb_spec (Z.of_nat (count parent a)) t) as [Hgt|Hle].
    + split; [discriminate|]. intros H. inversion H as [|? ? [_ Hf] _]. cbn in Hf. lia.
    + destruct (Z.ltb_spec t 0) as [Hneg|Hpos].
      * split; [discriminate|]. intros H. inversion H as [|? ? [Hf _] _]. cbn in Hf. lia.
      * rewrite IH. split.
        -- intros H. constructor; [split; cbn; lia|assumption].
        -- intros H. now inversion H.
Qed.

(** The error of the validation is that of the first infeasible entry. *)
Lemma validate_targets_raise (parent : list Z) (targets : list (Z * Z)) (e : exn) :
  validate_targets (Counter parent) targets = Raise e <->
  exists pre a t post,
    targets = pre ++ (a, t) :: post /\
    Forall (feasible_entry parent) pre /\
    (((Z.of_nat (count parent a) < t)%Z /\
      e = ValueError (msg_target_exceeds a t (Z.of_nat (count parent a)))) \/
     ((t <= Z.of_nat (count parent a))%Z /\ (t < 0)%Z /\
      e = ValueError (msg_target_negative a))).
Proof.
  induction targets as [|[a t] rest IH]; cbn [validate_targets].
  - split; [discriminate|]. intros [pre [a [t [post [E _]]]]].
    destruct pre; discriminate.
  - rewrite Counter_get.
    destruct (Z.ltb_spec (Z.of_nat (count parent a)) t) as [Hgt|Hle];
      [|destruct (Z.ltb_spec t 0) as [Hneg|Hpos]].
    + split.
      * intros [= <-]. exists [], a, t, rest. repeat split; auto.
      * intros [pre [a' [t' [post [E [Hpre Hcase]]]]]].
        destruct pre as [|p pre]; cbn in E.
        -- injection E as <- <- <-. destruct Hcase as [[_ ->]|[? _]]; [reflexivity|lia].
        -- injection E as <- _. inversion Hpre as [|? ? [_ Hf] _]. cbn in Hf. lia.
    + split.
      * intros [= <-]. exists [], a, t, rest. repeat split; auto.
      * intros [pre [a' [t' [post [E [Hpre Hcase]]]]]].
        destruct pre as [|p pre]; cbn in E.
        -- injection E as <- <- <-. destruct Hcase as [[? _]|[_ [_ ->]]]; [lia|reflexivity].
        -- injection E as <- _. inversion Hpre as [|? ? [Hf _] _]. cbn in Hf. lia.
    + rewrite IH. split.
      * intros [pre [a' [t' [post [E [Hpre Hcase]]]]]].
        exists ((a, t) :: pre), a', t', post. rewrite E. repeat split; auto.
        constructor; [split; cbn; lia|assumption].
      * intros [pre [a' [t' [post [E [Hpre Hcase]]]]]].
        destruct pre as [|p pre]; cbn in E.
        -- injection E as <- <- <-. destruct Hcase as [[? _]|[_ [? _]]]; lia.
        -- injection E as <- ->. exists pre, a', t', post.
           repeat split; auto. now inversion Hpre.
Qed.

(** ** The two validation messages differ *)

Lemma append_nonempty (s s' : string) : s' <> ""%string -> (s ++ s')%string <> ""%string.
Proof. destruct s; cbn; [auto|discriminate]. Qed.

Lemma last_char_app (s s' : string) :
  s' <> ""%string -> last_char (s ++ s') = last_char s'.
Proof.
  intros Hne. induction s as [|x s IH]; [reflexivity|].
  cbn [append]. cbn [last_char].
  destruct (s ++ s')%string eqn:E.
  - exfalso. revert E. now apply append_nonempty.
  - exact IH.
Qed.

Lemma msg_target_exceeds_last (a t c : Z) :
  last_char (msg_target_exceeds a t c) = Some "r"%char.
Proof.
  unfold msg_target_exceeds.
  repeat (rewrite last_char_app; [|repeat apply append_nonempty; discriminate]).
  reflexivity.
Qed.

Lemma msg_target_negative_last (a : Z) :
  last_char (msg_target_negative a) = Some "z"%char.
Proof.
  unfold msg_target_negative.
  repeat (rewrite last_char_app; [|repeat apply append_nonempty; discriminate]).
  reflexivity.
Qed.

Lemma msg_exceeds_not_negative (a t c b : Z) :
  msg_target_exceeds a t c <> msg_target_negative b.
Proof.
  intros E. apply (f_equal last_char) in E.
  rewrite msg_target_exceeds_last, msg_target_negative_last in E. discriminate.
Qed.

(** ** Past the validation only [IndexError] can be raised *)

Lemma calculate_fitness_raise (fl : FloatOps) (W : Weights) (s : list Z) (e : exn) :
  calculate_fitness fl W s = Raise e -> s = [] /\ e = IndexError.
Proof.
  intros H. destruct s as [|x s].
  - split; [reflexivity|]. cbn in H. congruence.
  - exfalso.
    destruct (calculate_fitness_cases fl W (x :: s) ltac:(discriminate))
      as [[_ [name [rsn E]]]|[_ E]].
    + rewrite E in H. discriminate.
    + rewrite E in H. discriminate.
Qed.

Lemma fitness_of_raise (fl : FloatOps) (W : Weights) (s : list Z) (e : exn) :
  fitness_of fl W s = Raise e -> s = [] /\ e = IndexError.
Proof.
  unfold fitness_of, bind. intros H.
  destruct (calculate_fitness fl W s) eqn:E; [discriminate|].
  injection H as <-. eapply calculate_fitness_raise; eauto.
Qed.

Lemma fitness_of_only_index (fl : FloatOps) (W : Weights) (s : list Z) :
  result_only_index (fitness_of fl W s).
Proof. intros e H. now apply fitness_of_raise in H. Qed.

Lemma result_only_index_ok (A : Type) (a : A) : result_only_index (Ok a).
Proof. intros e H. discriminate. Qed.

Lemma result_only_index_bind (A B : Type) (r : result A) (k : A -> result B) :
  result_only_index r -> (forall a, result_only_index (k a)) ->
  result_only_index (bind r k).
Proof.
  intros Hr Hk e H. unfold bind in H. destruct r as [a|e'].
  - eapply Hk; eauto.
  - injection H as <-. now apply Hr.
Qed.

Lemma only_index_sret (A : Type) (a : A) : only_index_error (sret a).
Proof. intros t e H. discriminate. Qed.

Lemma only_index_sbind (A B : Type) (m : Search A) (k : A -> Search B) :
  only_index_error m -> (forall a, only_index_error (k a)) ->
  only_index_error (sbind m k).
Proof.
  intros Hm Hk t e H. unfold sbind in H.
  destruct (m t) as [[a t']|e'] eqn:E.
  - eapply Hk; eauto.
  - injection H as <-. eapply Hm; eauto.
Qed.

Lemma only_index_lift_result (A : Type) (r : result A) :
  result_only_index r -> only_index_error (lift_result r).
Proof.
  intros Hr t e H. unfold lift_result in H. destruct r; [discriminate|].
  injection H as <-. now apply Hr.
Qed.

Lemma only_index_lift_draw (A : Type) (f : Tape -> A * Tape) :
  only_index_error (lift_draw f).
Proof. intros t e H. discriminate. Qed.

Create HintDb oie.

#[local] Hint Resolve only_index_sret only_index_lift_draw only_index_lift_result
  fitness_of_only_index result_only_index_ok : oie.

Ltac oie :=
  repeat first
    [ progress auto with oie
    | apply only_index_sbind; [|intros ?]
    | apply result_only_index_bind; [|intros ?]
    | match goal with
      | |- only_index_error (match ?x with _ => _ end) => destruct x
      | |- result_only_index (match ?x with _ => _ end) => destruct x
      | |- only_index_error (if ?x then _ else _) => destruct x
      | |- result_only_index (if ?x then _ else _) => destruct x
      | |- only_index_error (let '(_, _) := ?x in _) => destruct x
      | |- result_only_index (let '(_, _) := ?x in _) => destruct x
      end ].

Section OnlyIndexError.

Variable fl : FloatOps.
Variable W : Weights.

Lemma search_loop_only_index (attempts : nat) (master : list Z) (plan : DropPlan)
      (targets : list (Z * Z)) (best : BestSoFar) :
  only_index_error (search_loop fl W attempts master plan targets best).
Proof.
  revert best. induction attempts as [|k IH]; intros best; cbn [search_loop].
  - oie.
  - apply only_index_sbind; [oie|]. intros [[temp dba]|]; [|apply IH].
    apply only_index_sbind; [oie|]. intros sc. apply IH.
Qed.

Lemma single_drops_phase_only_index (s : list Z) (pos_map : list nat)
      (dropped : list (Z * list nat)) (angles : list Z) :
  only_index_error (single_drops_phase fl W s pos_map dropped angles).
Proof.
  unfold single_drops_phase.
  destruct angles as [|a [|b rest]].
  - oie.
  - apply only_index_sbind.
    + apply only_index_lift_result.
      apply fold_left_invariant; [oie|].
      intros acc i Hacc. apply result_only_index_bind; [assumption|].
      intros [bp bs]. oie.
    + intros [[bp|] bs]; oie.
  - apply only_index_sbind.
    + apply fold_left_invariant; [oie|].
      intros acc combo Hacc. apply only_index_sbind; [assumption|].
      intros [bc bs]. oie.
    + intros [[bc|] bs]; oie.
Qed.

Lemma final_validation_only_index (s : list Z) (dropped : list (Z * list nat)) :
  only_index_error (final_validation fl W s dropped).
Proof. unfold final_validation. oie. Qed.

Lemma expand_state_only_index (protect : nat) (st : BeamState) :
  result_only_index (expand_state fl W protect st).
Proof.
  unfold expand_state. apply fold_left_invariant; [oie|].
  intros acc [ang left_idx] Hacc.
  apply result_only_index_bind; [assumption|]. intros next. oie.
Qed.

Lemma beam_steps_only_index (steps protect width : nat) (beam : list BeamState) :
  result_only_index (beam_steps fl W steps protect width beam).
Proof.
  revert beam. induction steps as [|k IH]; intros beam; cbn [beam_steps]; [oie|].
  apply result_only_index_bind.
  - apply fold_left_invariant; [oie|].
    intros acc st Hacc. apply result_only_index_bind; [assumption|]. intros states.
    apply result_only_index_bind; [apply expand_state_only_index|]. intros more. oie.
  - intros [|st next]; [oie|apply IH].
Qed.

Lemma beam_search_only_index (seq_in : list Z) (targets : list (Z * Z))
      (protect width : nat) :
  only_index_error (_beam_search_angle_target_drop fl W seq_in targets protect width).
Proof.
  unfold _beam_search_angle_target_drop.
  destruct (beam_requirements _ _ _ _) as [[pairs singles]|]; [|oie].
  destruct (_ && _); [oie|].
  apply only_index_sbind; [oie|]. intros sc0.
  destruct (Qleb sc0 0); [oie|].
  apply only_index_sbind.
  - destruct (0 <? _)%Z; [|oie].
    apply only_index_sbind; [apply only_index_lift_result, beam_steps_only_index|].
    intros [[|st rest]|]; oie.
  - intros [best|]; [|oie].
    apply only_index_sbind; [apply single_drops_phase_only_index|].
    intros [[[bs bp] bd]|]; [apply final_validation_only_index|oie].
Qed.

Lemma greedy_best_pair_only_index (protect : nat) (s : list Z) (targets : list (Z * Z)) :
  result_only_index (greedy_best_pair fl W protect s targets).
Proof.
  unfold greedy_best_pair. apply fold_left_invariant; [oie|].
  intros acc [ang left_idx] Hacc.
  apply result_only_index_bind; [assumption|]. intros best. oie.
Qed.

Lemma greedy_pairs_only_index (safety protect : nat) (targets : list (Z * Z))
      (s : list Z) (pos_map : list nat) (dropped : list (Z * list nat)) :
  result_only_index (greedy_pairs fl W safety protect targets s pos_map dropped).
Proof.
  revert s pos_map dropped.
  induction safety as [|k IH]; intros s pos_map dropped; cbn [greedy_pairs]; [oie|].
  destruct (forallb _ _); [oie|].
  apply result_only_index_bind; [apply greedy_best_pair_only_index|].
  intros [[sc left_idx]|]; [apply IH|oie].
Qed.

Lemma greedy_only_index (seq_in : list Z) (targets : list (Z * Z)) (protect : nat) :
  only_index_error (_greedy_angle_target_drop fl W seq_in targets protect).
Proof.
  unfold _greedy_angle_target_drop.
  destruct (greedy_requirements _ _ _ _) as [[pairs singles]|]; [|oie].
  apply only_index_sbind; [apply only_index_lift_result, greedy_pairs_only_index|].
  intros [[[s pm] d]|]; [|oie].
  apply only_index_sbind; [apply single_drops_phase_only_index|].
  intros [[[s' pm'] d']|]; [apply final_validation_only_index|oie].
Qed.

Lemma fallback_search_only_index (master : list Z) (full_targets : list (Z * Z))
      (protects : list nat) :
  only_index_error (fallback_search fl W master full_targets protects).
Proof.
  induction protects as [|p rest IH]; cbn [fallback_search]; [oie|].
  apply only_index_sbind; [apply beam_search_only_index|]. intros r.
  apply only_index_sbind.
  - destruct r; [oie|apply greedy_only_index].
  - intros [res|]; [oie|apply IH].
Qed.

End OnlyIndexError.

(** ** Validation and the no-op drop *)

Lemma optimize_raise_after_validation (fl : FloatOps) (W : Weights)
      (parent : list Z) (targets : list (Z * Z)) (t : Tape) (e : exn) :
  validate_targets (Counter parent) targets = Ok tt ->
  optimize_drop_with_angle_targets fl W parent targets t = Raise e ->
  e = IndexError.
Proof.
  intros Hv. unfold optimize_drop_with_angle_targets.
  unfold sbind at 1. unfold lift_result at 1. rewrite Hv.
  revert t e. change (only_index_error ?m) with (forall t e, m t = Raise e -> e = IndexError).
  match goal with |- forall t e, ?m t = Raise e -> e = IndexError =>
    change (only_index_error m) end.
  destruct (_ =? 0)%Z; [oie|].
  apply only_index_sbind; [apply search_loop_only_index|]. intros best.
  destruct (best_candidate best); [oie|].
  apply only_index_sbind; [apply fallback_search_only_index|].
  intros [res|]; oie.
Qed.

Lemma optimize_raise_in_validation (fl : FloatOps) (W : Weights)
      (parent : list Z) (targets : list (Z * Z)) (t : Tape) (e : exn) :
  validate_targets (Counter parent) targets = Raise e ->
  optimize_drop_with_angle_targets fl W parent targets t = Raise e.
Proof.
  intros Hv. unfold optimize_drop_with_angle_targets.
  unfold sbind at 1. unfold lift_result at 1. rewrite Hv. reflexivity.
Qed.

(** C4, as stated, fails: with targets {0: -1, 45: 5} on the parent
    [45, -45, -45, 45] the target of 45 exceeds the parent's two plies,
    but the loop meets the negative target of 0 first and raises the
    other message. *)
Lemma target_exceeds_masked_by_negative :
  (Z.of_nat (count [45; -45; -45; 45]%Z 45) < 5)%Z /\
  optimize_drop_with_angle_targets approx_float WEIGHTS
    [45; -45; -45; 45]%Z [(0, -1); (45, 5)]%Z []
  = Raise (ValueError (msg_target_negative 0)) /\
  forall X Y Z, msg_target_negative 0 <> msg_target_exceeds X Y Z.
Proof.
  split; [cbn; lia|]. split; [reflexivity|].
  intros X Y Z E. symmetry in E. revert E. apply msg_exceeds_not_negative.
Qed.

(** C4, amended. [optimize_drop_with_angle_targets] raises the error
    "Angle X: hedef Y ama mevcut sadece Z katman var" if and only if
    the first entry of the target map that fails validation (in the
    map's own order, every earlier entry being between 0 and the
    parent's count) asks for more plies than the parent has; X, Y, Z are
    that angle, its target and the parent's count.  The error does not
    depend on the weights, the float environment or the random draws:
    it is raised before any search. *)
Theorem optimize_drop_target_exceeds_iff
        (fl : FloatOps) (W : Weights) (parent : list Z) (targets : list (Z * Z))
        (tape : Tape) :
  ((exists X Y Z,
       optimize_drop_with_angle_targets fl W parent targets tape
       = Raise (ValueError (msg_target_exceeds X Y Z)))
   <-> exists angle target, first_invalid_exceeds parent targets angle target) /\
  (forall angle target,
      first_invalid_exceeds parent targets angle target ->
      forall fl' W' tape',
        optimize_drop_with_angle_targets fl' W' parent targets tape'
        = Raise (ValueError (msg_target_exceeds angle target
                               (Z.of_nat (count parent angle))))).
Proof.
  assert (Hraise : forall angle target,
             first_invalid_exceeds parent targets angle target ->
             forall fl' W' tape',
               optimize_drop_with_angle_targets fl' W' parent targets tape'
               = Raise (ValueError (msg_target_exceeds angle target
                                      (Z.of_nat (count parent angle))))).
  { intros angle target [pre [post [E [Hpre Hgt]]]] fl' W' tape'.
    apply optimize_raise_in_validation.
    apply validate_targets_raise. exists pre, angle, target, post.
    repeat split; auto. }
  split; [|exact Hraise].
  split.
  - intros [X [Y [Z0 H]]].
    destruct (validate_targets (Counter parent) targets) as [[]|e] eqn:Hv.
    + apply (optimize_raise_after_validation _ _ _ _ _ _ Hv) in H. discriminate.
    + rewrite (optimize_raise_in_validation fl W _ _ tape _ Hv) in H.
      injection H as ->.
      apply validate_targets_raise in Hv.
      destruct Hv as [pre [a [t [post [E [Hpre [[Hgt _]|[_ [_ Hmsg]]]]]]]]].
      * exists a, t, pre, post. auto.
      * apply (f_equal (fun e => match e with
                                 | ValueError m => m
                                 | IndexError => ""%string
                                 end)) in Hmsg.
        cbv beta iota in Hmsg.
        exfalso. revert Hmsg. apply msg_exceeds_not_negative.
  - intros [angle [target H]]. do 3 eexists. apply (Hraise _ _ H).
Qed.

Lemma initial_drops_needed_none (parent : list Z) (targets acc : list (Z * Z)) :
  Forall (own_count_entry parent) targets ->
  fold_left
    (fun drops_needed '(angle, target_count) =>
       let current := dict_get_default (Counter parent) angle 0%Z in
       if (target_count <? current)%Z
       then dict_set drops_needed angle (current - target_count)%Z
       else drops_needed)
    targets acc = acc.
Proof.
  revert acc. induction targets as [|[a t] rest IH]; intros acc H; cbn [fold_left].
  - reflexivity.
  - inversion H as [|? ? Ha Hrest]; subst. unfold own_count_entry in Ha. cbn in Ha.
    cbv zeta. rewrite Counter_get.
    destruct (Z.ltb_spec t (Z.of_nat (count parent a))); [lia|].
    apply IH. assumption.
Qed.

(** [Counter(parent)] is a target map of this kind. *)
Lemma Counter_own_counts (parent : list Z) :
  Forall (own_count_entry parent) (Counter parent).
Proof.
  apply Forall_forall. intros [a t] Hin. unfold own_count_entry. cbn.
  rewrite <- Counter_get.
  assert (Hnd : forall d : list (Z * Z),
             NoDup (map fst d) -> In (a, t) d -> dict_get_default d a 0%Z = t).
  { induction d as [|[k v] d IHd]; intros Hd Hi; [contradiction|].
    cbn in Hd. inversion Hd as [|? ? Hnotin Hd']; subst.
    unfold dict_get_default. cbn.
    destruct Hi as [Hi|Hi].
    - injection Hi as -> ->. now rewrite Z.eqb_refl.
    - destruct (Z.eqb_spec k a) as [->|Hne].
      + exfalso. apply Hnotin. apply in_map_iff. exists (a, t). auto.
      + apply (IHd Hd' Hi). }
  symmetry. apply Hnd; [|assumption].
  unfold Counter. clear Hin Hnd.
  assert (Hfold : forall s (c : list (Z * Z)),
             NoDup (map fst c) ->
             NoDup (map fst (fold_left
                               (fun c x => dict_set c x (dict_get_default c x 0 + 1)%Z)
                               s c))).
  { assert (Hset : forall (c : list (Z * Z)) k v,
               NoDup (map fst c) -> NoDup (map fst (dict_set c k v)) /\
               forall x, In x (map fst (dict_set c k v)) -> x = k \/ In x (map fst c)).
    { induction c as [|[k' v'] c IHc]; intros k v Hc; cbn.
      - split; [repeat constructor; auto|]. intros x [<-|[]]. now left.
      - inversion Hc as [|? ? Hn Hc']; subst.
        destruct (Z.eqb_spec k' k) as [->|Hne]; cbn.
        + split; [constructor; assumption|]. intros x [<-|Hx]; auto.
        + destruct (IHc k v Hc') as [Hnd Hin].
          split.
          * constructor; [|assumption]. intros Hx. apply Hin in Hx.
            destruct Hx as [->|Hx]; [congruence|contradiction].
          * intros x [<-|Hx]; [auto|]. apply Hin in Hx. tauto. }
    induction s as [|x s IHs]; intros c Hc; cbn [fold_left]; [assumption|].
    apply IHs. apply Hset. assumption. }
  apply Hfold. constructor.
Qed.

(** C7, as stated, fails: the empty parent has the empty target map as
    its own counts, and the call raises [IndexError] when it asks for
    the fitness of the parent. *)
Lemma optimize_drop_identity_empty_raises :
  optimize_drop_with_angle_targets approx_float WEIGHTS [] (Counter []) []
  = Raise IndexError.
Proof. reflexivity. Qed.

(** C7, amended. For every non-empty parent, a target map whose
    entries equal the parent's own per-angle counts returns the parent
    unchanged, the score [calculate_fitness] reports for the parent, and
    an empty removal map; no random draw is made. *)
Theorem optimize_drop_identity
        (fl : FloatOps) (W : Weights) (parent : list Z) (targets : list (Z * Z))
        (tape : Tape) :
  parent <> [] -> Forall (own_count_entry parent) targets ->
  exists total bd,
    calculate_fitness fl W parent = Ok (total, bd) /\
    optimize_drop_with_angle_targets fl W parent targets tape
    = Ok ((parent, total, []), tape).
Proof.
  intros Hne Hown.
  destruct (calculate_fitness_total_on_nonempty fl W parent Hne) as [total [bd Hfit]].
  exists total, bd. split; [assumption|].
  unfold optimize_drop_with_angle_targets.
  assert (Hv : validate_targets (Counter parent) targets = Ok tt).
  { apply validate_targets_ok. eapply Forall_impl; [|exact Hown].
    intros [a t] Ha. unfold own_count_entry, feasible_entry in *. cbn in *. lia. }
  unfold sbind at 1. unfold lift_result at 1. rewrite Hv.
  unfold initial_drops_needed. rewrite (initial_drops_needed_none _ _ _ Hown).
  cbn [dict_values map Zsum fold_left Z.eqb].
  unfold sbind, lift_result, fitness_of, bind, sret. rewrite Hfit. reflexivity.
Qed.

Lemma optimize_drop_identity_witness :
  [45; -45; 0; 0; 0; -45; 45]%Z <> [] /\
  Forall (own_count_entry [45; -45; 0; 0; 0; -45; 45]%Z)
         (Counter [45; -45; 0; 0; 0; -45; 45]%Z) /\
  exists total bd,
    calculate_fitness approx_float WEIGHTS [45; -45; 0; 0; 0; -45; 45]%Z
    = Ok (total, bd) /\
    optimize_drop_with_angle_targets approx_float WEIGHTS
      [45; -45; 0; 0; 0; -45; 45]%Z (Counter [45; -45; 0; 0; 0; -45; 45]%Z) [3; 1; 4]
    = Ok (([45; -45; 0; 0; 0; -45; 45]%Z, total, []), [3; 1; 4]).
Proof.
  split; [discriminate|].
  split; [vm_compute; repeat constructor|].
  apply (optimize_drop_identity approx_float WEIGHTS [45; -45; 0; 0; 0; -45; 45]%Z
           (Counter [45; -45; 0; 0; 0; -45; 45]%Z) [3; 1; 4]).
  - discriminate.
  - apply Counter_own_counts.
Defined.

(** ** The grouping filter of the randomized search *)

Lemma six_run_candidate (t : Tape) :
  draw_candidate six_run_parent six_run_plan t
  = (Some (six_run_child, [(90%Z, [2; 11])]), snd (draw (snd (draw t)))).
Proof.
  unfold draw_candidate, random_lt_070.
  destruct (draw t) as [x t1]. cbn [snd].
  destruct (x mod 100 <? 70);
    (unfold six_run_plan; cbn [drops_needed select_left_drops];
     change (angle_positions_left six_run_parent _ 90%Z) with [2];
     change (angle_grouped_left six_run_parent _ 90%Z) with (@nil nat);
     change (Z.to_nat (2 / 2)) with 1;
     cbn [length Nat.ltb Nat.leb select_positions random_sample];
     destruct (draw t1) as [y t2]; cbn [snd length];
     rewrite Nat.mod_1_r; reflexivity).
Qed.

Lemma six_run_fitness :
  fitness_of approx_float WEIGHTS six_run_child = Ok six_run_score.
Proof. vm_compute. reflexivity. Qed.

Lemma six_run_search (attempts : nat) (best : BestSoFar) (t : Tape) :
  best = no_best \/ best = six_run_best ->
  exists t',
    search_loop approx_float WEIGHTS attempts six_run_parent six_run_plan
                [(90, 0)]%Z best t
    = Ok (match attempts with O => best | S _ => six_run_best end, t').
Proof.
  revert best t. induction attempts as [|k IH]; intros best t Hbest.
  - exists t. reflexivity.
  - cbn [search_loop]. unfold sbind at 1. unfold lift_draw at 1.
    rewrite six_run_candidate.
    unfold sbind at 1. unfold lift_result at 1. rewrite six_run_fitness.
    assert (Hnext : consider_candidate [(90, 0)]%Z six_run_child [(90%Z, [2; 11])]
                                       six_run_score best = six_run_best).
    { destruct Hbest as [-> | ->]; vm_compute; reflexivity. }
    rewrite Hnext.
    destruct (IH six_run_best (snd (draw (snd (draw t)))) (or_intror eq_refl))
      as [t' Ht'].
    exists t'. rewrite Ht'. destruct k; reflexivity.
Qed.

(** C8: the code breaks the claim.  Dropping the two 90 plies of
    [six_run_parent] yields, whatever the random draws, a child with a
    run of six 0 plies; the filter counts only runs of exactly 4 and
    exactly 5, so the child is accepted as the best candidate and
    returned. *)
Theorem drop_search_accepts_run_of_six (tape : Tape) :
  exists tape',
    optimize_drop_with_angle_targets approx_float WEIGHTS six_run_parent
                                     [(90, 0)]%Z tape
    = Ok ((six_run_child, six_run_score, [(90%Z, [2; 11])]), tape') /\
    (six_run_score == 3313 # 50)%Q /\
    max_run (_grouping_stats six_run_child) = 6 /\
    _find_groups_of_size six_run_child 4 + _find_groups_of_size six_run_child 5 = 0.
Proof.
  destruct (six_run_search ANGLE_TARGET_DROP_ATTEMPTS no_best tape (or_introl eq_refl))
    as [t' Ht'].
  exists t'. split; [|split; [|split]; reflexivity].
  unfold optimize_drop_with_angle_targets.
  unfold sbind at 1. unfold lift_result at 1.
  change (validate_targets (Counter six_run_parent) [(90, 0)]%Z) with (Ok tt).
  change (initial_drops_needed (Counter six_run_parent) [(90, 0)]%Z)
    with [(90, 2)]%Z.
  change (Zsum (dict_values [(90, 2)]%Z) =? 0)%Z with false.
  change (plan_drops six_run_parent [(90, 0)]%Z [(90, 2)]%Z) with six_run_plan.
  cbv iota. unfold sbind at 1. rewrite Ht'. reflexivity.
Qed.

(** ** A positive fitness certifies the hard constraints *)

Lemma fitness_of_positive (fl : FloatOps) (W : Weights) (s : list Z) (sc : Q) :
  fitness_of fl W s = Ok sc -> (0 < sc)%Q -> ~ violates_hard s /\ s <> [].
Proof.
  intros Hfit Hpos.
  destruct s as [|x s]; [discriminate|].
  split; [|discriminate].
  destruct (calculate_fitness_cases fl W (x :: s) ltac:(discriminate))
    as [[_ [name [rsn E]]]|[Hok _]]; [|assumption].
  exfalso. unfold fitness_of in Hfit. rewrite (E fl W) in Hfit.
  cbn in Hfit. injection Hfit as <-. revert Hpos. apply Qlt_irrefl.
Qed.

(** ** The repair pass permutes the sequence *)

Lemma set_at_length (A : Type) (i : nat) (x : A) (l : list A) :
  length (set_at i x l) = length l.
Proof. revert i. induction l as [|y l IH]; intros [|i]; cbn; auto. Qed.

Lemma nth_set_at_same (i : nat) (x d : Z) (l : list Z) :
  i < length l -> nth i (set_at i x l) d = x.
Proof.
  revert i. induction l as [|y l IH]; intros [|i] H; cbn in *; try lia; auto.
  apply IH. lia.
Qed.

Lemma nth_set_at_other (i j : nat) (x d : Z) (l : list Z) :
  i <> j -> nth j (set_at i x l) d = nth j l d.
Proof.
  revert i j. induction l as [|y l IH]; intros [|i] [|j] H; cbn; auto; try lia.
Qed.

Lemma count_set_at (i : nat) (x a : Z) (l : list Z) :
  i < length l ->
  count (set_at i x l) a + indicator (nth i l 0 =? a)%Z
  = count l a + indicator (x =? a)%Z.
Proof.
  revert i. induction l as [|y l IH]; intros [|i] H; cbn [length] in H; try lia.
  - cbn [set_at nth]. rewrite !count_cons.
    destruct (x =? a)%Z, (y =? a)%Z; cbn; lia.
  - cbn [set_at nth]. rewrite !count_cons.
    specialize (IH i ltac:(lia)).
    destruct (y =? a)%Z; lia.
Qed.

Lemma count_swap_at (l : list Z) (i j : nat) (a : Z) :
  i < length l -> j < length l -> count (swap_at l i j) a = count l a.
Proof.
  intros Hi Hj. unfold swap_at.
  pose proof (count_set_at i (nth j l 0%Z) a l Hi) as H1.
  pose proof (count_set_at j (nth i l 0%Z) a (set_at i (nth j l 0%Z) l)
                ltac:(rewrite set_at_length; assumption)) as H2.
  destruct (Nat.eq_dec i j) as [->|Hne].
  - rewrite nth_set_at_same in H2 by assumption. lia.
  - rewrite nth_set_at_other in H2 by assumption. lia.
Qed.

Lemma swap_at_length (l : list Z) (i j : nat) : length (swap_at l i j) = length l.
Proof. unfold swap_at. now rewrite !set_at_length. Qed.

Lemma same_plies_refl (s : list Z) : same_plies s s.
Proof. split; auto. Qed.

Lemma same_plies_trans (s1 s2 s3 : list Z) :
  same_plies s1 s2 -> same_plies s2 s3 -> same_plies s1 s3.
Proof.
  intros [L1 C1] [L2 C2]. split; [congruence|].
  intros a. rewrite C2. apply C1.
Qed.

Lemma try_swaps_same_plies (s : list Z) (i : nat) (candidates : list nat) (s' : list Z) :
  i + 1 < length s -> Forall (fun j => j < length s) candidates ->
  try_swaps s i candidates = Some s' -> same_plies s s'.
Proof.
  intros Hi Hc. induction candidates as [|j rest IH]; cbn [try_swaps]; [discriminate|].
  inversion Hc as [|? ? Hj Hrest]; subst.
  destruct ((j =? i) || (j =? i + 1)); [apply IH; assumption|].
  match goal with |- (if ?c then _ else _) = _ -> _ => destruct c end.
  - intros [= <-]. split; [apply swap_at_length|].
    intros a. apply count_swap_at; assumption.
  - apply IH. assumption.
Qed.

Lemma pop_at_length_le (A : Type) (i : nat) (l : list A) :
  length (pop_at i l) <= length l.
Proof. revert i. induction l as [|y l IH]; intros [|i]; cbn; auto. specialize (IH i). lia. Qed.

Lemma random_sample_incl (l : list nat) (k : nat) (t : Tape) (x : nat) :
  In x (fst (random_sample l k t)) -> In x l.
Proof.
  revert l t. induction k as [|k IH]; intros l t; cbn [random_sample]; [intros []|].
  destruct l as [|y l]; [intros []|].
  destruct (draw t) as [r t1].
  set (i := r mod length (y :: l)).
  assert (Hi : i < length (y :: l)) by (apply Nat.mod_upper_bound; discriminate).
  destruct (random_sample (pop_at i (y :: l)) k t1) as [rest t2] eqn:E.
  cbn [fst]. intros [<-|Hx].
  - apply nth_In. assumption.
  - assert (Hpop : forall (m : list nat) j z, In z (pop_at j m) -> In z m).
    { induction m as [|w m IHm]; intros [|j] z Hz; cbn in *; auto.
      destruct Hz as [->|Hz]; [now left|right; eapply IHm; eauto]. }
    apply (Hpop _ i). apply (IH _ t1). rewrite E. exact Hx.
Qed.

Lemma repair_scan_same_plies (s : list Z) (positions : list nat) (t : Tape)
      (s' : list Z) (t' : Tape) :
  Forall (fun i => i + 1 < length s) positions ->
  repair_scan s positions t = (Some s', t') -> same_plies s s'.
Proof.
  intros Hpos. revert t. induction positions as [|i rest IH]; intros t;
    cbn [repair_scan]; [discriminate|].
  inversion Hpos as [|? ? Hi Hrest]; subst.
  destruct (pair_violates s i); [|apply IH; assumption].
  destruct (random_shuffle_range (length s) t) as [candidates t1] eqn:E.
  destruct (try_swaps s i candidates) as [s1|] eqn:Et.
  - intros [= <- <-]. apply (try_swaps_same_plies s i candidates); try assumption.
    apply Forall_forall. intros j Hj.
    assert (Hin : In j (seq 0 (length s))).
    { apply (random_sample_incl _ (length s) t). unfold random_shuffle_range in E.
      rewrite E. exact Hj. }
    apply in_seq in Hin. lia.
  - apply IH. assumption.
Qed.

Lemma repair_loop_same_plies (attempts : nat) (s : list Z) (t : Tape) :
  same_plies s (fst (repair_loop attempts s t)).
Proof.
  revert s t. induction attempts as [|k IH]; intros s t; cbn [repair_loop].
  - apply same_plies_refl.
  - destruct (repair_scan s (seq 0 (length s - 1)) t) as [[s1|] t1] eqn:E.
    + apply same_plies_trans with s1; [|apply IH].
      apply (repair_scan_same_plies s (seq 0 (length s - 1)) t s1 t1); [|assumption].
      apply Forall_forall. intros i Hi. apply in_seq in Hi. lia.
    + apply same_plies_refl.
Qed.

(** [_fix_adjacent_0_90] only reorders: length and per-angle counts stay. *)
Lemma fix_adjacent_same_plies (s : list Z) (t : Tape) :
  same_plies s (fst (_fix_adjacent_0_90 s t)).
Proof. apply repair_loop_same_plies. Qed.

Lemma fix_adjacent_permutation (s : list Z) (t : Tape) :
  Permutation (fst (_fix_adjacent_0_90 s t)) s.
Proof.
  apply (Permutation_count_occ Z.eq_dec). intros a.
  apply (proj2 (fix_adjacent_same_plies s t) a).
Qed.

(** ** Removing plies by index *)

Lemma mem_nat_ext (x : nat) (l l' : list nat) :
  (forall j, In j l <-> In j l') -> mem_nat x l = mem_nat x l'.
Proof.
  intros H. destruct (mem_nat x l') eqn:E.
  - apply mem_nat_In. apply H. now apply mem_nat_In.
  - apply mem_nat_not_In. intros Hx. apply H in Hx.
    apply mem_nat_In in Hx. congruence.
Qed.

Lemma remove_indices_from_ext (A : Type) (l : list A) (drops drops' : list nat) (i : nat) :
  (forall j, In j drops <-> In j drops') ->
  remove_indices_from l drops i = remove_indices_from l drops' i.
Proof.
  intros H. revert i. induction l as [|x l IH]; intros i; cbn; [reflexivity|].
  rewrite (mem_nat_ext i drops drops' H), IH. reflexivity.
Qed.

Lemma remove_indices_ext (A : Type) (l : list A) (drops drops' : list nat) :
  (forall j, In j drops <-> In j drops') ->
  remove_indices l drops = remove_indices l drops'.
Proof. apply remove_indices_from_ext. Qed.

Lemma remove_indices_perm (A : Type) (l : list A) (drops drops' : list nat) :
  Permutation drops drops' -> remove_indices l drops = remove_indices l drops'.
Proof.
  intros H. apply remove_indices_ext. intros j. split; apply Permutation_in.
  - assumption.
  - now apply Permutation_sym.
Qed.

Lemma insert_nat_perm (x : nat) (l : list nat) : Permutation (insert_nat x l) (x :: l).
Proof.
  induction l as [|y l IH]; cbn; [reflexivity|].
  destruct (x <=? y); [reflexivity|].
  rewrite IH. apply perm_swap.
Qed.

Lemma sorted_nat_perm (l : list nat) : Permutation (sorted_nat l) l.
Proof.
  induction l as [|x l IH]; cbn; [reflexivity|].
  rewrite insert_nat_perm. now constructor.
Qed.

(** ** Removal records *)

Lemma dict_extend_perm (d : list (Z * list nat)) (k : Z) (xs : list nat) :
  Permutation (removed_indices (dict_extend d k xs)) (removed_indices d ++ xs).
Proof.
  unfold removed_indices, dict_extend, dict_values.
  induction d as [|[k' v'] d IH].
  - cbn. rewrite app_nil_r. reflexivity.
  - unfold dict_get_default in *. cbn [dict_get dict_set].
    destruct (Z.eqb_spec k' k) as [->|Hne]; cbn [map snd concat].
    + rewrite <- !app_assoc. apply Permutation_app_head. apply Permutation_app_comm.
    + rewrite IH. rewrite app_assoc. reflexivity.
Qed.

Lemma removed_indices_empty (angles : list Z) :
  removed_indices (map (fun a => (a, @nil nat)) angles) = [].
Proof. unfold removed_indices, dict_values. induction angles; cbn; auto. Qed.

Lemma removed_indices_sorted (d : list (Z * list nat)) :
  Permutation (removed_indices (map (fun '(a, ps) => (a, sorted_nat ps)) d))
              (removed_indices d).
Proof.
  unfold removed_indices, dict_values.
  induction d as [|[a ps] d IH]; cbn; [reflexivity|].
  apply Permutation_app; [apply sorted_nat_perm|exact IH].
Qed.

Lemma record_agrees_extend (all_drops : list nat) (dba : list (Z * list nat))
      (k : Z) (xs : list nat) :
  record_agrees (all_drops, dba) ->
  record_agrees (all_drops ++ xs, dict_extend dba k xs).
Proof.
  unfold record_agrees. cbn [fst snd]. intros H.
  rewrite dict_extend_perm. apply Permutation_app_tail. exact H.
Qed.

Lemma add_single_drops_agrees (master : list Z) (plan : DropPlan) (angles : list Z)
      (all_drops : list nat) (dba : list (Z * list nat)) (t : Tape)
      (res : list nat * list (Z * list nat)) (t' : Tape) :
  record_agrees (all_drops, dba) ->
  add_single_drops master plan angles all_drops dba t = (Some res, t') ->
  record_agrees res.
Proof.
  revert all_drops dba t. induction angles as [|a rest IH]; intros all_drops dba t Hag;
    cbn [add_single_drops].
  - intros [= <- <-]. exact Hag.
  - destruct (filter _ _) as [|p ps] eqn:E; [discriminate|].
    destruct (random_choice (p :: ps) t) as [single_pos t1].
    apply IH. now apply record_agrees_extend.
Qed.

(** What an attempt hands to the evaluator: the parent without the
    recorded indices, repaired when single plies were dropped. *)
Lemma draw_candidate_derived (master : list Z) (plan : DropPlan) (t : Tape)
      (temp_seq : list Z) (dba : list (Z * list nat)) (t' : Tape) :
  draw_candidate master plan t = (Some (temp_seq, dba), t') ->
  derived_by_removal master temp_seq (removed_indices dba).
Proof.
  unfold draw_candidate.
  destruct (random_lt_070 t) as [prefer t1].
  destruct (select_left_drops master plan prefer (drops_needed plan) [] t1)
    as [[left_drops|] t2]; [|discriminate].
  destruct (_ && _); [discriminate|].
  set (init := map (fun a => (a, @nil nat)) _).
  set (stA := fold_left _ left_drops ([], init)).
  assert (HA : record_agrees stA).
  { subst stA. apply fold_left_invariant.
    - unfold record_agrees. cbn [fst snd]. subst init.
      rewrite removed_indices_empty. reflexivity.
    - intros [ad db] [angle lefts] Hst.
      apply fold_left_invariant; [assumption|].
      intros [ad' db'] idx Hst'. now apply record_agrees_extend. }
  destruct stA as [adA dbA].
  set (stB := if drop_middle plan then _ else _).
  assert (HB : record_agrees stB).
  { subst stB. destruct (drop_middle plan); [|assumption].
    now apply record_agrees_extend. }
  destruct stB as [adB dbB].
  set (stC := match break_pair_for_middle plan, break_pair_angle plan with
              | true, Some _ => _
              | _, _ => _
              end).
  assert (HC : record_agrees (fst (fst stC), snd (fst stC))).
  { subst stC. destruct (break_pair_for_middle plan); [|cbn [fst snd]; assumption].
    destruct (break_pair_angle plan) as [bpa|]; [|cbn [fst snd]; assumption].
    match goal with
    | |- context [match ?f with [] => (adB, dbB, t2) | _ :: _ => _ end] =>
        destruct f as [|p ps]
    end; [cbn [fst snd]; assumption|].
    destruct (random_choice (p :: ps) t2) as [bp t3]. cbn [fst snd].
    now apply record_agrees_extend. }
  destruct stC as [[adC dbC] tC]. cbn [fst snd] in HC.
  destruct (add_single_drops master plan _ adC dbC tC) as [[[adD dbD]|] tD] eqn:ED;
    [|discriminate].
  pose proof (add_single_drops_agrees _ _ _ _ _ _ _ _ HC ED) as HD.
  unfold record_agrees in HD. cbn [fst snd] in HD.
  assert (Hrem : remove_indices master (sorted_nat adD)
                 = remove_indices master (removed_indices dbD)).
  { apply remove_indices_perm. rewrite sorted_nat_perm. exact HD. }
  destruct (single_ply_drops plan) as [|sp sps].
  - intros [= <- <- <-]. left. exact Hrem.
  - destruct (_fix_adjacent_0_90 _ tD) as [fixed tE] eqn:EF.
    intros [= <- <- <-]. right. exists tD. rewrite <- Hrem, EF. reflexivity.
Qed.

(** ** The randomized search keeps only valid children *)

Lemma derived_by_removal_perm (parent child : list Z) (removed removed' : list nat) :
  Permutation removed removed' ->
  derived_by_removal parent child removed ->
  derived_by_removal parent child removed'.
Proof.
  intros Hp [H|[t H]].
  - left. rewrite H. now apply remove_indices_perm.
  - right. exists t. rewrite H.
    rewrite (remove_indices_perm Z parent _ _ Hp). reflexivity.
Qed.

Lemma Qleb_false (x y : Q) : Qleb x y = false -> (y < x)%Q.
Proof.
  unfold Qleb. intros H. apply Qnot_le_lt. intros Hle.
  apply Qle_bool_iff in Hle. congruence.
Qed.

Lemma consider_candidate_accepted (fl : FloatOps) (W : Weights) (master : list Z)
      (targets : list (Z * Z)) (temp_seq : list Z) (dba : list (Z * list nat))
      (sc : Q) (best : BestSoFar) :
  fitness_of fl W temp_seq = Ok sc ->
  derived_by_removal master temp_seq (removed_indices dba) ->
  accepted_best fl W master targets best ->
  accepted_best fl W master targets (consider_candidate targets temp_seq dba sc best).
Proof.
  intros Hfit Hder Hbest. unfold consider_candidate.
  destruct (Qleb sc 0) eqn:Hsc; [assumption|]. apply Qleb_false in Hsc.
  destruct (matches_target temp_seq targets) eqn:Hm; cbn [negb]; [|assumption].
  destruct (0 <? _); [assumption|].
  destruct (4 <? _); [assumption|].
  assert (Hnew : accepted_best fl W master targets
                   {| best_candidate := Some temp_seq; best_score := sc;
                      _best_g3 := _find_groups_of_size temp_seq 3;
                      best_dropped_by_angle :=
                        map (fun '(a, ps) => (a, sorted_nat ps)) dba |}).
  { unfold accepted_best. cbn. repeat split; try assumption.
    eapply derived_by_removal_perm; [|exact Hder].
    symmetry. apply removed_indices_sorted. }
  destruct (if Qltb (best_score best) 0 then _ else _) as [bg3 bsc].
  destruct (best_candidate best) eqn:Eb; [|exact Hnew].
  destruct (key_lt _ _ _ _); [exact Hnew|exact Hbest].
Qed.

Lemma search_loop_accepted (fl : FloatOps) (W : Weights) (attempts : nat)
      (master : list Z) (plan : DropPlan) (targets : list (Z * Z))
      (best best' : BestSoFar) (t t' : Tape) :
  accepted_best fl W master targets best ->
  search_loop fl W attempts master plan targets best t = Ok (best', t') ->
  accepted_best fl W master targets best'.
Proof.
  revert best t. induction attempts as [|k IH]; intros best t Hbest; cbn [search_loop].
  - unfold sret. intros [= <- <-]. assumption.
  - unfold sbind at 1. unfold lift_draw at 1.
    destruct (draw_candidate master plan t) as [[[temp dba]|] t1] eqn:Ed.
    + unfold sbind at 1. unfold lift_result at 1.
      destruct (fitness_of fl W temp) as [sc|e] eqn:Ef; [|discriminate].
      apply IH. apply consider_candidate_accepted; try assumption.
      eapply draw_candidate_derived; eauto.
    + apply IH. assumption.
Qed.

Lemma matches_target_meets (child : list Z) (targets : list (Z * Z)) :
  matches_target child targets = true -> meets_targets child targets.
Proof.
  unfold matches_target, meets_targets. intros H.
  apply Forall_forall. intros [a t] Hin.
  rewrite forallb_forall in H. specialize (H _ Hin). cbn in *.
  now apply Z.eqb_eq.
Qed.

(** ** Index bookkeeping of the fallbacks *)

Lemma remove_indices_from_as_map (l : list Z) (removed : list nat) (k : nat) :
  remove_indices_from l removed k
  = map (fun j => nth (j - k) l 0%Z)
        (filter (not_removed removed) (seq k (length l))).
Proof.
  revert k. induction l as [|x l IH]; intros k; [reflexivity|].
  cbn [remove_indices_from length seq filter]. unfold not_removed at 1.
  assert (Htail : map (fun j => nth (j - k) (x :: l) 0%Z)
                      (filter (not_removed removed) (seq (S k) (length l)))
                  = map (fun j => nth (j - S k) l 0%Z)
                        (filter (not_removed removed) (seq (S k) (length l)))).
  { apply map_ext_in. intros j Hj. apply filter_In in Hj. destruct Hj as [Hj _].
    apply in_seq in Hj. replace (j - k) with (S (j - S k)) by lia. reflexivity. }
  destruct (mem_nat k removed); cbn [negb map].
  - rewrite Htail. apply IH.
  - rewrite Htail, <- IH, Nat.sub_diag. reflexivity.
Qed.

Lemma remove_indices_as_map (l : list Z) (removed : list nat) :
  remove_indices l removed
  = map (fun j => nth j l 0%Z) (filter (not_removed removed) (seq 0 (length l))).
Proof.
  unfold remove_indices. rewrite remove_indices_from_as_map.
  apply map_ext. intros j. now rewrite Nat.sub_0_r.
Qed.

Lemma tracks_removal (parent s : list Z) (pos_map removed : list nat) :
  tracks parent s pos_map removed -> s = remove_indices parent removed.
Proof. intros [Hp [Hs _]]. rewrite remove_indices_as_map, <- Hp. exact Hs. Qed.

Lemma tracks_start (parent : list Z) :
  tracks parent parent (seq 0 (length parent)) [].
Proof.
  repeat split.
  - symmetry. apply forallb_filter_id. apply forallb_forall. reflexivity.
  - apply nth_ext with (d := 0%Z) (d' := (fun j => nth j parent 0%Z) 0).
    + now rewrite length_map, length_seq.
    + intros i Hi.
      rewrite (map_nth (fun j => nth j parent 0%Z) (seq 0 (length parent)) 0 i).
      now rewrite seq_nth.
  - constructor.
  - constructor.
Qed.

Lemma remove_indices_from_none (A : Type) (l : list A) (drops : list nat) (k : nat) :
  Forall (fun c => c < k) drops -> remove_indices_from l drops k = l.
Proof.
  intros H. revert k H. induction l as [|x l IH]; intros k H; cbn; [reflexivity|].
  destruct (mem_nat k drops) eqn:E.
  - apply mem_nat_In in E. rewrite Forall_forall in H. specialize (H _ E). lia.
  - rewrite IH; [reflexivity|]. eapply Forall_impl; [|exact H]. cbn. lia.
Qed.

Lemma pop_at_remove_from (A : Type) (l : list A) (i k : nat) :
  pop_at i l = remove_indices_from l [i + k] k.
Proof.
  revert i k. induction l as [|x l IH]; intros i k; [destruct i; reflexivity|].
  destruct i as [|i]; cbn [pop_at remove_indices_from mem_nat existsb].
  - cbn [Nat.add]. rewrite Nat.eqb_refl. cbn [orb].
    symmetry. apply remove_indices_from_none. repeat constructor.
  - destruct (Nat.eqb_spec k (S i + k)); [lia|]. cbn [orb].
    rewrite (IH i (S k)). replace (i + S k) with (S i + k) by lia. reflexivity.
Qed.

Lemma pop_at_remove (A : Type) (l : list A) (i : nat) :
  pop_at i l = remove_indices l [i].
Proof. unfold remove_indices. rewrite (pop_at_remove_from A l i 0). now rewrite Nat.add_0_r. Qed.

Lemma remove_indices_from_map (A B : Type) (f : A -> B) (l : list A)
      (drops : list nat) (k : nat) :
  remove_indices_from (map f l) drops k = map f (remove_indices_from l drops k).
Proof.
  revert k. induction l as [|x l IH]; intros k; cbn; [reflexivity|].
  destruct (mem_nat k drops); cbn; now rewrite IH.
Qed.

(** On a duplicate-free list, removing by position is filtering by value. *)
Lemma remove_indices_from_NoDup (pre suf : list nat) (drops : list nat) :
  NoDup (pre ++ suf) ->
  Forall (fun c => c < length (pre ++ suf)) drops ->
  remove_indices_from suf drops (length pre)
  = filter (not_removed (map (fun c => nth c (pre ++ suf) 0) drops)) suf.
Proof.
  revert pre. induction suf as [|x suf IH]; intros pre Hnd Hr; [reflexivity|].
  cbn [remove_indices_from filter]. unfold not_removed at 1.
  assert (Hx : nth (length pre) (pre ++ x :: suf) 0 = x)
    by (rewrite app_nth2, Nat.sub_diag by lia; reflexivity).
  assert (Hmem : mem_nat (length pre) drops
                 = mem_nat x (map (fun c => nth c (pre ++ x :: suf) 0) drops)).
  { destruct (mem_nat x _) eqn:E.
    - apply mem_nat_In in E. apply in_map_iff in E. destruct E as [c [Hc Hin]].
      apply mem_nat_In.
      assert (c = length pre); [|subst; assumption].
      rewrite Forall_forall in Hr. specialize (Hr _ Hin).
      apply (proj1 (NoDup_nth (pre ++ x :: suf) 0) Hnd); try assumption.
      + rewrite length_app. cbn. lia.
      + congruence.
    - apply mem_nat_not_In. intros Hin. apply mem_nat_not_In in E. apply E.
      apply in_map_iff. exists (length pre). auto. }
  rewrite Hmem.
  assert (Hassoc : pre ++ x :: suf = (pre ++ [x]) ++ suf)
    by (rewrite <- app_assoc; reflexivity).
  assert (Hrec : remove_indices_from suf drops (S (length pre))
                 = filter (not_removed (map (fun c => nth c (pre ++ x :: suf) 0) drops))
                          suf).
  { rewrite Hassoc. replace (S (length pre)) with (length (pre ++ [x]))
      by (rewrite length_app; cbn; lia).
    apply IH; rewrite <- Hassoc; assumption. }
  rewrite Hrec. destruct (mem_nat x _); reflexivity.
Qed.

Lemma filter_filter_and (A : Type) (f g : A -> bool) (l : list A) :
  filter f (filter g l) = filter (fun x => g x && f x) l.
Proof.
  induction l as [|x l IH]; cbn; [reflexivity|].
  destruct (g x); cbn; [destruct (f x)|]; now rewrite IH.
Qed.

Lemma not_removed_app (r1 r2 : list nat) (j : nat) :
  not_removed (r1 ++ r2) j = not_removed r1 j && not_removed r2 j.
Proof.
  unfold not_removed, mem_nat. rewrite existsb_app, negb_orb. reflexivity.
Qed.

(** Removing the positions [drops] of the current sequence removes the
    parent indices they map to. *)
Lemma tracks_remove (parent s : list Z) (pos_map removed drops : list nat) :
  tracks parent s pos_map removed ->
  NoDup drops -> Forall (fun c => c < length pos_map) drops ->
  tracks parent (remove_indices s drops) (remove_indices pos_map drops)
         (removed ++ map (fun c => nth c pos_map 0) drops).
Proof.
  intros [Hp [Hs [Hnd Hr]]] Hnd' Hr'.
  assert (Hpnd : NoDup pos_map) by (rewrite Hp; apply NoDup_filter, seq_NoDup).
  assert (Hpm : remove_indices pos_map drops
                = filter (not_removed (map (fun c => nth c pos_map 0) drops)) pos_map).
  { apply (remove_indices_from_NoDup [] pos_map drops); assumption. }
  assert (Hin : forall c, In c drops -> In (nth c pos_map 0) pos_map).
  { intros c Hc. apply nth_In. rewrite Forall_forall in Hr'. now apply Hr'. }
  assert (Hsub : forall y, In y pos_map -> y < length parent /\ ~ In y removed).
  { intros y Hy. rewrite Hp in Hy. apply filter_In in Hy. destruct Hy as [Hy Hnr].
    apply in_seq in Hy. unfold not_removed in Hnr.
    apply negb_true_iff, mem_nat_not_In in Hnr. split; [lia|assumption]. }
  repeat split.
  - rewrite Hpm.
    transitivity (filter (not_removed (map (fun c => nth c pos_map 0) drops))
                         (filter (not_removed removed) (seq 0 (length parent)))).
    + f_equal. exact Hp.
    + rewrite filter_filter_and.
      apply filter_ext. intros j. now rewrite not_removed_app.
  - rewrite Hs. unfold remove_indices. apply remove_indices_from_map.
  - apply NoDup_app; [assumption| |].
    + apply (proj2 (NoDup_nth _ 0)). intros i j Hi Hj E.
      rewrite length_map in Hi, Hj.
      rewrite (nth_indep _ 0 (nth 0 pos_map 0)) in E by now rewrite length_map.
      rewrite (nth_indep (map _ drops) 0 (nth 0 pos_map 0)) in E by now rewrite length_map.
      rewrite !(map_nth (fun c => nth c pos_map 0)) in E.
      apply (proj1 (NoDup_nth pos_map 0) Hpnd) in E.
      * apply (proj1 (NoDup_nth drops 0) Hnd') in E; assumption.
      * rewrite Forall_forall in Hr'. apply Hr'. now apply nth_In.
      * rewrite Forall_forall in Hr'. apply Hr'. now apply nth_In.
    + intros x Hx Hx'. apply in_map_iff in Hx'. destruct Hx' as [c [Ec Hc]].
      specialize (Hin c Hc). rewrite Ec in Hin.
      exact (proj2 (Hsub x Hin) Hx).
  - apply Forall_app. split; [assumption|].
    apply Forall_forall. intros x Hx. apply in_map_iff in Hx.
    destruct Hx as [c [Ec Hc]]. specialize (Hin c Hc). rewrite Ec in Hin.
    exact (proj1 (Hsub x Hin)).
Qed.

(** ** Counting plies across a removal *)

Lemma count_perm (l l' : list Z) (a : Z) : Permutation l l' -> count l a = count l' a.
Proof. intros H. unfold count. now apply Permutation_count_occ. Qed.

Lemma count_app (l l' : list Z) (a : Z) : count (l ++ l') a = count l a + count l' a.
Proof. unfold count. apply count_occ_app. Qed.

Lemma filter_split_perm (A : Type) (p : A -> bool) (l : list A) :
  Permutation l (filter p l ++ filter (fun x => negb (p x)) l).
Proof.
  induction l as [|x l IH]; cbn; [reflexivity|].
  destruct (p x); cbn.
  - now constructor.
  - rewrite <- Permutation_middle. now constructor.
Qed.

Lemma map_nth_seq (s : list Z) :
  s = map (fun j => nth j s 0%Z) (seq 0 (length s)).
Proof. exact (proj1 (proj2 (tracks_start s))). Qed.

Lemma count_remove_indices (s : list Z) (drops : list nat) (a : Z) :
  NoDup drops -> Forall (fun c => c < length s) drops ->
  count (remove_indices s drops) a + count (map (fun c => nth c s 0%Z) drops) a
  = count s a.
Proof.
  intros Hnd Hr.
  set (f := fun j => nth j s 0%Z).
  assert (Hin : Permutation (filter (fun j => mem_nat j drops) (seq 0 (length s))) drops).
  { apply NoDup_Permutation; [apply NoDup_filter, seq_NoDup|assumption|].
    intros j. rewrite filter_In, in_seq, mem_nat_In. rewrite Forall_forall in Hr.
    split; [tauto|]. intros Hj. specialize (Hr j Hj). split; [lia|assumption]. }
  assert (Hs : count (map f (seq 0 (length s))) a = count s a)
    by (unfold f; rewrite <- map_nth_seq; reflexivity).
  rewrite <- Hs.
  rewrite (count_perm _ _ a
             (Permutation_map f (filter_split_perm nat (fun j => mem_nat j drops)
                                                   (seq 0 (length s))))).
  rewrite map_app, count_app.
  rewrite (count_perm _ _ a (Permutation_map f Hin)).
  rewrite remove_indices_as_map. fold f. unfold not_removed. lia.
Qed.

Lemma count_single (x a : Z) : count [x] a = indicator (x =? a)%Z.
Proof. rewrite count_cons. destruct (x =? a)%Z; reflexivity. Qed.

Lemma count_pop_at (s : list Z) (i : nat) (a : Z) :
  i < length s ->
  count (pop_at i s) a + indicator (nth i s 0 =? a)%Z = count s a.
Proof.
  intros Hi. rewrite pop_at_remove.
  rewrite <- (count_remove_indices s [i] a).
  - cbn [map]. now rewrite count_single.
  - repeat constructor. intros [].
  - repeat constructor. assumption.
Qed.

Lemma pop_at_length (A : Type) (i : nat) (l : list A) :
  i < length l -> S (length (pop_at i l)) = length l.
Proof.
  revert i. induction l as [|x l IH]; intros [|i] H; cbn in *; try lia.
  rewrite IH; lia.
Qed.

Lemma nth_pop_at_lt (i j : nat) (l : list nat) :
  i < j -> nth i (pop_at j l) 0 = nth i l 0.
Proof.
  revert i j. induction l as [|x l IH]; intros i j H.
  - destruct j; reflexivity.
  - destruct j as [|j]; [lia|]. destruct i as [|i]; cbn; [reflexivity|].
    apply IH. lia.
Qed.

Lemma nth_pop_at_lt_Z (i j : nat) (l : list Z) :
  i < j -> nth i (pop_at j l) 0%Z = nth i l 0%Z.
Proof.
  revert i j. induction l as [|x l IH]; intros i j H.
  - destruct j; reflexivity.
  - destruct j as [|j]; [lia|]. destruct i as [|i]; cbn; [reflexivity|].
    apply IH. lia.
Qed.

Lemma tracks_perm (parent s : list Z) (pos_map removed removed' : list nat) :
  Permutation removed removed' ->
  tracks parent s pos_map removed -> tracks parent s pos_map removed'.
Proof.
  intros Hp [H1 [H2 [H3 H4]]]. repeat split.
  - rewrite H1. apply filter_ext. intros j. unfold not_removed. f_equal.
    apply mem_nat_ext. intros k. split; apply Permutation_in; [|symmetry]; assumption.
  - assumption.
  - eapply Permutation_NoDup; eauto.
  - eapply Permutation_Forall; eauto.
Qed.

Lemma tracks_length (parent s : list Z) (pos_map removed : list nat) :
  tracks parent s pos_map removed -> length pos_map = length s.
Proof. intros [_ [-> _]]. now rewrite length_map. Qed.

(** One pop, as the fallbacks record it. *)
Lemma tracks_pop (parent s : list Z) (pos_map : list nat)
      (dropped : list (Z * list nat)) (i : nat) (k : Z) :
  tracks parent s pos_map (removed_indices dropped) ->
  i < length s ->
  tracks parent (pop_at i s) (pop_at i pos_map)
         (removed_indices (dict_extend dropped k [nth i pos_map 0])).
Proof.
  intros Ht Hi.
  apply (tracks_perm parent _ _ (removed_indices dropped ++ [nth i pos_map 0]));
    [symmetry; apply dict_extend_perm|].
  rewrite !pop_at_remove.
  apply (tracks_remove parent s pos_map (removed_indices dropped) [i] Ht).
  - repeat constructor. intros [].
  - repeat constructor. now rewrite (tracks_length _ _ _ _ Ht).
Qed.

(** The symmetric pair pop of the beam and greedy searches. *)
Lemma tracks_pop_pair (parent s : list Z) (pos_map : list nat)
      (dropped : list (Z * list nat)) (left_idx right_idx : nat) (k : Z) :
  tracks parent s pos_map (removed_indices dropped) ->
  left_idx < right_idx -> right_idx < length s ->
  tracks parent (pop_at left_idx (pop_at right_idx s))
         (pop_at left_idx (pop_at right_idx pos_map))
         (removed_indices
            (dict_extend dropped k [nth left_idx pos_map 0; nth right_idx pos_map 0])).
Proof.
  intros Ht Hlr Hr.
  pose proof (tracks_pop parent s pos_map dropped right_idx k Ht Hr) as H1.
  assert (Hl : left_idx < length (pop_at right_idx s)).
  { pose proof (pop_at_length Z right_idx s Hr). lia. }
  pose proof (tracks_pop parent _ _ _ left_idx k H1 Hl) as H2.
  rewrite (nth_pop_at_lt left_idx right_idx pos_map Hlr) in H2.
  eapply tracks_perm; [|exact H2].
  rewrite !dict_extend_perm. rewrite <- app_assoc. apply Permutation_app_head.
  apply perm_swap.
Qed.

Lemma count_pop_pair (s : list Z) (left_idx right_idx : nat) (ang a : Z) :
  left_idx < right_idx -> right_idx < length s ->
  nth left_idx s 0%Z = ang -> nth right_idx s 0%Z = ang ->
  (Z.of_nat (count (pop_at left_idx (pop_at right_idx s)) a)
   = Z.of_nat (count s a) - (if (ang =? a)%Z then 2 else 0))%Z.
Proof.
  intros Hlr Hr El Er.
  pose proof (count_pop_at s right_idx a Hr) as H1.
  assert (Hl : left_idx < length (pop_at right_idx s)).
  { pose proof (pop_at_length Z right_idx s Hr). lia. }
  pose proof (count_pop_at (pop_at right_idx s) left_idx a Hl) as H2.
  rewrite (nth_pop_at_lt_Z left_idx right_idx s Hlr) in H2.
  rewrite El in H2. rewrite Er in H1.
  destruct (ang =? a)%Z; cbn [indicator] in *; lia.
Qed.

(** ** The single-ply phase of the fallbacks *)

Lemma in_product (c : list nat) (lists : list (list nat)) :
  In c (product lists) -> Forall2 (fun x l => In x l) c lists.
Proof.
  revert c. induction lists as [|l rest IH]; intros c H; cbn [product] in H.
  - destruct H as [<-|[]]. constructor.
  - apply in_flat_map in H. destruct H as [x [Hx Hc]].
    apply in_map_iff in Hc. destruct Hc as [c' [<- Hc']].
    constructor; [assumption|now apply IH].
Qed.

Lemma has_duplicate_NoDup (l : list nat) : has_duplicate l = false -> NoDup l.
Proof.
  induction l as [|x l IH]; cbn; [constructor|].
  intros H. apply orb_false_iff in H. destruct H as [Hx Hl].
  constructor; [now apply mem_nat_not_In|now apply IH].
Qed.

Lemma combo_record_perm (pos_map : list nat) (angles : list Z) (combo : list nat)
      (dropped : list (Z * list nat)) :
  length combo = length angles ->
  Permutation
    (removed_indices
       (fold_left (fun dropped '(ang, pos) => dict_extend dropped ang [nth pos pos_map 0])
                  (combine angles combo) dropped))
    (removed_indices dropped ++ map (fun c => nth c pos_map 0) combo).
Proof.
  revert combo dropped. induction angles as [|a angles IH]; intros combo dropped Hlen.
  - destruct combo; [|discriminate]. cbn. now rewrite app_nil_r.
  - destruct combo as [|c combo]; [discriminate|]. cbn [combine fold_left map].
    rewrite IH by (cbn in Hlen; lia).
    rewrite dict_extend_perm. rewrite <- app_assoc. reflexivity.
Qed.

Lemma count_nil (a : Z) : count [] a = 0.
Proof. reflexivity. Qed.

Section SinglePhase.

Variable fl : FloatOps.
Variable W : Weights.
Variable parent : list Z.

Lemma single_drops_phase_spec (s : list Z) (pos_map : list nat)
      (dropped : list (Z * list nat)) (angles : list Z) (t : Tape)
      (s' : list Z) (pos_map' : list nat) (dropped' : list (Z * list nat)) (t' : Tape) :
  tracks parent s pos_map (removed_indices dropped) ->
  single_drops_phase fl W s pos_map dropped angles t
  = Ok (Some (s', pos_map', dropped'), t') ->
  derived_state parent s' pos_map' dropped' /\
  forall a, count s' a + count angles a = count s a.
Proof.
  intros Ht. unfold single_drops_phase.
  destruct angles as [|ang [|ang2 rest]].
  - (* no single drop *)
    unfold sret. intros [= <- <- <- <-]. split.
    + exists s. split; [assumption|now left].
    + intros a. rewrite count_nil. lia.
  - (* one single drop *)
    set (scan := fold_left _ (seq 2 (length s - 2 - 2)) (Ok (None, (-1)%Q))).
    assert (Hscan : forall bp bs, scan = Ok (bp, bs) ->
                      match bp with
                      | Some i => i < length s /\ nth i s 0%Z = ang
                      | None => True
                      end).
    { subst scan. apply fold_left_invariant_in.
      - intros bp bs [= <- <-]. exact I.
      - intros acc i Hi Hacc bp bs. unfold bind.
        destruct acc as [[bp0 bs0]|e]; [|discriminate].
        specialize (Hacc bp0 bs0 eq_refl).
        destruct (Z.eqb_spec (nth i s 0%Z) ang) as [E|E]; cbn [negb].
        + destruct (fitness_of fl W (pop_at i s)) as [sc|e]; [|discriminate].
          destruct (Qltb bs0 sc).
          * intros [= <- <-]. apply in_seq in Hi. split; [lia|assumption].
          * intros [= <- <-]. assumption.
        + intros [= <- <-]. assumption. }
    unfold sbind, lift_result.
    destruct scan as [[bp bs]|e]; [|discriminate].
    specialize (Hscan bp bs eq_refl).
    destruct bp as [best_pos|]; [|discriminate].
    destruct (Qleb bs 0); [discriminate|].
    unfold sret. intros [= <- <- <- <-].
    destruct Hscan as [Hlt Hang]. split.
    + exists (pop_at best_pos s). split; [|now left].
      now apply tracks_pop.
    + intros a. rewrite count_single.
      rewrite <- (count_pop_at s best_pos a Hlt). now rewrite Hang.
  - (* several single drops *)
    set (angles := ang :: ang2 :: rest).
    set (pos_lists := map _ angles).
    set (scan := fold_left _ (product pos_lists) (sret (None, (-1)%Q))).
    assert (Hscan : forall t0 bc bs t1, scan t0 = Ok ((bc, bs), t1) ->
                      match bc with
                      | Some c => In c (product pos_lists) /\ has_duplicate c = false
                      | None => True
                      end).
    { subst scan. apply fold_left_invariant_in.
      - intros t0 bc bs t1 [= <- <- <-]. exact I.
      - intros acc combo Hin Hacc t0 bc bs t1. unfold sbind at 1.
        destruct (acc t0) as [[[bc0 bs0] t2]|e] eqn:Eacc; [|discriminate].
        specialize (Hacc _ _ _ _ Eacc).
        destruct (has_duplicate combo) eqn:Hd.
        + intros [= <- <- <-]. assumption.
        + unfold sbind, lift_draw, lift_result.
          destruct (_fix_adjacent_0_90 _ t2) as [temp t3].
          destruct (fitness_of fl W temp) as [sc|e]; [|discriminate].
          destruct (Qltb bs0 sc); intros [= <- <- <-]; [split|]; assumption. }
    unfold sbind at 1.
    destruct (scan t) as [[[bc bs] t1]|e] eqn:Escan; [|discriminate].
    specialize (Hscan _ _ _ _ Escan).
    destruct bc as [combo|]; [|discriminate].
    destruct (Qleb bs 0); [discriminate|].
    unfold sbind, lift_draw, sret.
    destruct (_fix_adjacent_0_90 (remove_indices s combo) t1) as [fixed t2] eqn:Efix.
    intros [= <- <- <- <-].
    destruct Hscan as [Hprod Hdup].
    apply in_product in Hprod. apply has_duplicate_NoDup in Hdup.
    assert (Hlen : length combo = length angles).
    { apply Forall2_length in Hprod. subst pos_lists. now rewrite length_map in Hprod. }
    assert (Hpos : Forall2 (fun c a => c < length s /\ nth c s 0%Z = a) combo angles).
    { subst pos_lists. clear - Hprod. revert Hprod. generalize angles. clear angles.
      induction combo as [|c combo IH]; intros angles H; destruct angles as [|a angles];
        cbn [map] in H; inversion H; subst; constructor.
      - match goal with Hc : In c (filter _ _) |- _ =>
          apply filter_In in Hc; destruct Hc as [Hc' He];
          apply in_seq in Hc'; apply Z.eqb_eq in He; split; [lia|assumption] end.
      - now apply IH. }
    assert (Hrange : Forall (fun c => c < length s) combo).
    { clear - Hpos. induction Hpos; constructor; tauto. }
    assert (Hmap : map (fun c => nth c s 0%Z) combo = angles).
    { clear - Hpos. induction Hpos as [|c a cs as_ [_ E] _ IH]; cbn; [reflexivity|].
      now rewrite E, IH. }
    split.
    + exists (remove_indices s combo). split.
      * eapply tracks_perm;
          [symmetry; exact (combo_record_perm pos_map angles combo dropped Hlen)|].
        apply tracks_remove; try assumption.
        now rewrite (tracks_length _ _ _ _ Ht).
      * right. exists t1. now rewrite Efix.
    + intros a.
      pose proof (proj2 (fix_adjacent_same_plies (remove_indices s combo) t1) a) as Hc.
      rewrite Efix in Hc. cbn [fst] in Hc. rewrite Hc.
      rewrite <- (count_remove_indices s combo a Hdup Hrange). now rewrite Hmap.
Qed.

End SinglePhase.

(** ** More on dictionaries *)

Lemma fold_add_acc (l : list Z) (acc : Z) :
  fold_left Z.add l acc = (acc + fold_left Z.add l 0)%Z.
Proof.
  revert acc. induction l as [|y l IH]; intros acc; cbn [fold_left]; [lia|].
  rewrite (IH (acc + y)%Z), (IH (0 + y)%Z). lia.
Qed.

Lemma Zsum_cons (x : Z) (l : list Z) : Zsum (x :: l) = (x + Zsum l)%Z.
Proof. unfold Zsum. cbn [fold_left]. rewrite fold_add_acc. lia. Qed.

Section DictFacts.

Variable V : Type.

Lemma dict_get_In (d : list (Z * V)) (k : Z) (v : V) :
  dict_get d k = Some v -> In (k, v) d.
Proof.
  induction d as [|[k' v'] d IH]; cbn [dict_get]; [discriminate|].
  destruct (Z.eqb_spec k' k) as [->|_].
  - intros [= ->]. now left.
  - intros H. right. now apply IH.
Qed.

Lemma dict_get_None (d : list (Z * V)) (k : Z) :
  dict_get d k = None <-> ~ In k (dict_keys d).
Proof.
  induction d as [|[k' v'] d IH]; cbn [dict_get dict_keys map fst].
  - split; [intros _ []|reflexivity].
  - destruct (Z.eqb_spec k' k) as [->|Hne].
    + split; [discriminate|]. intros H. exfalso. apply H. now left.
    + rewrite IH. unfold dict_keys. split.
      * intros H [E|Hin]; [now apply Hne|now apply H].
      * intros H Hin. apply H. now right.
Qed.

Lemma In_dict_get (d : list (Z * V)) (k : Z) (v : V) :
  NoDup (dict_keys d) -> In (k, v) d -> dict_get d k = Some v.
Proof.
  induction d as [|[k' v'] d IH]; cbn [dict_get dict_keys map fst]; [intros _ []|].
  intros Hnd [E|Hin].
  - injection E as -> ->. now rewrite Z.eqb_refl.
  - inversion Hnd as [|? ? Hnot Hnd']; subst.
    destruct (Z.eqb_spec k' k) as [->|_].
    + exfalso. apply Hnot. change k with (fst (k, v)). now apply in_map.
    + now apply IH.
Qed.

Lemma dict_set_keys (d : list (Z * V)) (k : Z) (v : V) (a : Z) :
  In a (dict_keys (dict_set d k v)) <-> a = k \/ In a (dict_keys d).
Proof.
  induction d as [|[k' v'] d IH]; cbn [dict_set dict_keys map fst].
  - cbn [In]. intuition congruence.
  - destruct (Z.eqb_spec k' k) as [->|Hne]; cbn [map fst In].
    + intuition congruence.
    + unfold dict_keys in IH. rewrite IH. intuition congruence.
Qed.

Lemma dict_set_NoDup (d : list (Z * V)) (k : Z) (v : V) :
  NoDup (dict_keys d) -> NoDup (dict_keys (dict_set d k v)).
Proof.
  induction d as [|[k' v'] d IH]; cbn [dict_set dict_keys map fst].
  - intros _. constructor; [intros []|constructor].
  - intros Hnd. inversion Hnd as [|? ? Hnot Hnd']; subst.
    destruct (Z.eqb_spec k' k) as [->|Hne]; cbn [map fst].
    + now constructor.
    + constructor; [|now apply IH].
      intros Hin. apply (dict_set_keys d k v k') in Hin.
      destruct Hin as [E|Hin]; [now apply Hne|now apply Hnot].
Qed.

Lemma dict_del_keys (d : list (Z * V)) (k a : Z) :
  In a (dict_keys (dict_del d k)) -> In a (dict_keys d).
Proof.
  induction d as [|[k' v'] d IH]; cbn [dict_del dict_keys map fst]; [intros []|].
  destruct (Z.eqb_spec k' k) as [->|Hne]; cbn [map fst In].
  - intros H. now right.
  - intros [E|H]; [now left|right; now apply IH].
Qed.

Lemma dict_del_NoDup (d : list (Z * V)) (k : Z) :
  NoDup (dict_keys d) -> NoDup (dict_keys (dict_del d k)).
Proof.
  induction d as [|[k' v'] d IH]; cbn [dict_del dict_keys map fst]; [constructor|].
  intros Hnd. inversion Hnd as [|? ? Hnot Hnd']; subst.
  destruct (Z.eqb_spec k' k) as [->|Hne]; cbn [map fst]; [assumption|].
  constructor; [|now apply IH].
  intros Hin. apply Hnot. now apply (dict_del_keys d k k').
Qed.

Lemma dict_get_del (d : list (Z * V)) (k a : Z) :
  NoDup (dict_keys d) ->
  dict_get (dict_del d k) a = if (k =? a)%Z then None else dict_get d a.
Proof.
  induction d as [|[k' v'] d IH]; cbn [dict_del dict_get dict_keys map fst].
  - intros _. now destruct (k =? a)%Z.
  - intros Hnd. inversion Hnd as [|? ? Hnot Hnd']; subst.
    destruct (Z.eqb_spec k' k) as [->|Hne].
    + destruct (Z.eqb_spec k a) as [->|Hka]; [|reflexivity].
      now apply dict_get_None.
    + cbn [dict_get]. destruct (Z.eqb_spec k' a) as [->|Hk'a].
      * destruct (Z.eqb_spec k a) as [->|_]; [now contradiction Hne|reflexivity].
      * now apply IH.
Qed.

Lemma dict_set_Forall (P : Z * V -> Prop) (d : list (Z * V)) (k : Z) (v : V) :
  Forall P d -> P (k, v) -> Forall P (dict_set d k v).
Proof.
  intros Hd Hkv. induction Hd as [|[k' v'] d Hx Hd IH]; cbn [dict_set].
  - now constructor.
  - destruct (k' =? k)%Z; now constructor.
Qed.

Lemma dict_del_Forall (P : Z * V -> Prop) (d : list (Z * V)) (k : Z) :
  Forall P d -> Forall P (dict_del d k).
Proof.
  intros Hd. induction Hd as [|[k' v'] d Hx Hd IH]; cbn [dict_del].
  - constructor.
  - destruct (k' =? k)%Z; [assumption|now constructor].
Qed.

Lemma fold_dict_set_other (l : list (Z * V)) (d : list (Z * V)) (a : Z) :
  ~ In a (map fst l) ->
  dict_get (fold_left (fun ft '(k, v) => dict_set ft k v) l d) a = dict_get d a.
Proof.
  revert d. induction l as [|[k v] l IH]; intros d Hnot; cbn [fold_left]; [reflexivity|].
  rewrite IH by (intros H; apply Hnot; now right).
  rewrite dict_get_set. destruct (Z.eqb_spec k a) as [->|_]; [|reflexivity].
  exfalso. apply Hnot. now left.
Qed.

Lemma fold_dict_set_get (l : list (Z * V)) (d : list (Z * V)) (a : Z) (v : V) :
  NoDup (map fst l) -> In (a, v) l ->
  dict_get (fold_left (fun ft '(k, v) => dict_set ft k v) l d) a = Some v.
Proof.
  revert d. induction l as [|[k w] l IH]; intros d Hnd Hin; [destruct Hin|].
  cbn [map fst] in Hnd. inversion Hnd as [|? ? Hnot Hnd']; subst.
  cbn [fold_left]. destruct Hin as [E|Hin].
  - injection E as -> ->. rewrite fold_dict_set_other by assumption.
    rewrite dict_get_set. now rewrite Z.eqb_refl.
  - now apply IH.
Qed.

Lemma fold_dict_set_NoDup (l : list (Z * V)) (d : list (Z * V)) :
  NoDup (dict_keys d) ->
  NoDup (dict_keys (fold_left (fun ft '(k, v) => dict_set ft k v) l d)).
Proof.
  revert d. induction l as [|[k v] l IH]; intros d Hd; cbn [fold_left]; [assumption|].
  apply IH. now apply dict_set_NoDup.
Qed.

End DictFacts.

Lemma Zsum_dict_set (d : list (Z * Z)) (k v : Z) :
  Zsum (dict_values (dict_set d k v))
  = (Zsum (dict_values d) - dict_get_default d k 0 + v)%Z.
Proof.
  unfold dict_get_default.
  induction d as [|[k' v'] d IH]; cbn [dict_set dict_values map snd dict_get].
  - rewrite Zsum_cons. unfold Zsum. cbn. lia.
  - destruct (Z.eqb_spec k' k) as [->|_]; cbn [map snd].
    + rewrite !Zsum_cons. lia.
    + unfold dict_values in IH. rewrite !Zsum_cons, IH. lia.
Qed.

Lemma Zsum_dict_del (d : list (Z * Z)) (k : Z) :
  Zsum (dict_values (dict_del d k))
  = (Zsum (dict_values d) - dict_get_default d k 0)%Z.
Proof.
  unfold dict_get_default.
  induction d as [|[k' v'] d IH]; cbn [dict_del dict_values map snd dict_get].
  - unfold Zsum. cbn. lia.
  - destruct (Z.eqb_spec k' k) as [->|_]; cbn [map snd].
    + rewrite !Zsum_cons. lia.
    + unfold dict_values in IH. rewrite !Zsum_cons, IH. lia.
Qed.

Lemma positive_values_sum (d : list (Z * Z)) :
  positive_values d -> (0 <= Zsum (dict_values d))%Z.
Proof.
  intros H. induction H as [|[k v] d Hv _ IH]; [unfold Zsum; cbn; lia|].
  cbn [dict_values map snd]. rewrite Zsum_cons. unfold dict_values in IH.
  cbn [snd] in Hv. lia.
Qed.

Lemma positive_values_zero (d : list (Z * Z)) :
  positive_values d -> (Zsum (dict_values d) <= 0)%Z -> d = [].
Proof.
  intros H. destruct H as [|[k v] d Hv Hd]; [reflexivity|].
  cbn [dict_values map snd]. rewrite Zsum_cons.
  pose proof (positive_values_sum d Hd) as Hs. unfold dict_values in Hs.
  cbn [snd] in Hv. lia.
Qed.

Lemma Counter_NoDup (s : list Z) : NoDup (dict_keys (Counter s)).
Proof.
  unfold Counter. apply fold_left_invariant_in.
  - constructor.
  - intros c x _ Hc. now apply dict_set_NoDup.
Qed.

Lemma insert_Z_In (x y : Z) (l : list Z) :
  In y (insert_Z x l) <-> y = x \/ In y l.
Proof.
  induction l as [|z l IH]; cbn [insert_Z].
  - cbn. intuition congruence.
  - destruct (x <=? z)%Z; cbn [In]; [intuition congruence|].
    rewrite IH. cbn [In]. intuition congruence.
Qed.

Lemma sorted_Z_In (y : Z) (l : list Z) : In y (sorted_Z l) <-> In y l.
Proof.
  induction l as [|x l IH]; cbn [sorted_Z fold_right]; [reflexivity|].
  fold (sorted_Z l). rewrite insert_Z_In, IH. cbn [In]. intuition congruence.
Qed.

(** ** The final validation of the fallbacks *)

Lemma sorted_record_perm (dropped : list (Z * list nat)) :
  Permutation (removed_indices (map (fun '(a, v) => (a, sorted_nat v)) dropped))
              (removed_indices dropped).
Proof.
  unfold removed_indices, dict_values.
  induction dropped as [|[a v] d IH]; cbn [map snd concat]; [reflexivity|].
  apply Permutation_app; [apply sorted_nat_perm|exact IH].
Qed.

Lemma derived_state_removal (parent s : list Z) (pos_map : list nat)
      (dropped : list (Z * list nat)) :
  derived_state parent s pos_map dropped ->
  derived_by_removal parent s (removed_indices dropped).
Proof.
  intros [s_mid [[Hp [Hs _]] H]].
  assert (E : s_mid = remove_indices parent (removed_indices dropped)).
  { rewrite remove_indices_as_map, Hs, Hp. reflexivity. }
  unfold derived_by_removal. rewrite <- E.
  destruct H as [->|[t ->]]; [now left|right; now exists t].
Qed.

Lemma final_validation_spec (fl : FloatOps) (W : Weights) (parent : list Z)
      (targets : list (Z * Z)) (s : list Z) (pos_map : list nat)
      (dropped : list (Z * list nat)) (t t' : Tape)
      (r : list Z * Q * list (Z * list nat)) :
  derived_state parent s pos_map dropped ->
  meets_targets s targets ->
  final_validation fl W s dropped t = Ok (Some r, t') ->
  valid_drop fl W parent targets r.
Proof.
  intros Hd Hm. unfold final_validation, sbind, lift_result.
  destruct (fitness_of fl W s) as [sc|e] eqn:Ef; [|discriminate].
  destruct (Qleb sc 0) eqn:Eq; [discriminate|].
  unfold sret. intros [= <- <-]. unfold valid_drop.
  repeat split; try assumption.
  - now apply Qleb_false.
  - eapply derived_by_removal_perm; [symmetry; apply sorted_record_perm|].
    now apply (derived_state_removal parent s pos_map dropped).
Qed.

(** ** The beam-search fallback *)

Lemma remove_indices_nil (A : Type) (l : list A) : remove_indices l [] = l.
Proof. unfold remove_indices. apply remove_indices_from_none. constructor. Qed.

Lemma beam_requirements_spec (s : list Z) (items pn : list (Z * Z)) (sg : list Z)
      (pn' : list (Z * Z)) (sg' : list Z) :
  beam_requirements (Counter s) items pn sg = Some (pn', sg') ->
  NoDup (map fst items) ->
  NoDup (dict_keys pn) -> positive_values pn ->
  (forall a, In a (map fst items) -> dict_get pn a = None /\ count sg a = 0) ->
  NoDup (dict_keys pn') /\ positive_values pn' /\
  (forall a tgt, In (a, tgt) items ->
     (Z.of_nat (count s a) - tgt
      = 2 * dict_get_default pn' a 0 + Z.of_nat (count sg' a))%Z) /\
  (forall a, ~ In a (map fst items) ->
     dict_get pn' a = dict_get pn a /\ count sg' a = count sg a).
Proof.
  revert pn sg.
  induction items as [|[ang tgt] rest IH]; intros pn sg; cbn [beam_requirements].
  - intros [= <- <-] _ Hnd Hpos _. repeat split; try assumption. intros a tgt [].
  - rewrite Counter_get.
    destruct (Z.ltb_spec (Z.of_nat (count s ang)) tgt) as [|Hge]; [discriminate|].
    remember (Z.of_nat (count s ang) - tgt)%Z as delta eqn:Hdelta.
    remember (negb (delta mod 2 =? 0)%Z) as odd eqn:Hodd.
    remember (if odd then (delta - 1)%Z else delta) as pair_delta eqn:Hpd.
    assert (Harith : (0 <= pair_delta)%Z /\
                     (delta = 2 * (pair_delta / 2) + (if odd then 1 else 0))%Z /\
                     ((0 < pair_delta)%Z -> (1 <= pair_delta / 2)%Z)).
    { subst pair_delta odd.
      destruct (Z.eqb_spec (delta mod 2) 0) as [E|E]; cbn [negb];
        revert E; Z.div_mod_to_equations; lia. }
    destruct Harith as [Hpd0 [Hsplit Hhalf]].
    remember (if (0 <? pair_delta)%Z then dict_set pn ang (pair_delta / 2)%Z else pn)
      as pn1 eqn:Hpn1.
    remember (if odd then sg ++ [ang] else sg) as sg1 eqn:Hsg1.
    intros Hreq Hnd Hpn Hpos Hfresh.
    cbn [map fst] in Hnd. inversion Hnd as [|? ? Hnot Hnd']; subst x l.
    destruct (Hfresh ang (or_introl eq_refl)) as [Hg0 Hc0].
    assert (Hpn1nd : NoDup (dict_keys pn1)).
    { subst pn1. destruct (0 <? pair_delta)%Z; [apply dict_set_NoDup|]; assumption. }
    assert (Hpn1pos : positive_values pn1).
    { subst pn1. destruct (Z.ltb_spec 0 pair_delta); [|assumption].
      apply dict_set_Forall; [assumption|]. cbn [snd]. now apply Hhalf. }
    assert (Hother : forall a, a <> ang ->
                       dict_get pn1 a = dict_get pn a /\ count sg1 a = count sg a).
    { intros a Hne. split.
      - subst pn1. destruct (0 <? pair_delta)%Z; [|reflexivity].
        rewrite dict_get_set. destruct (Z.eqb_spec ang a); [congruence|reflexivity].
      - subst sg1. destruct odd; [|reflexivity].
        rewrite count_app, count_single.
        destruct (Z.eqb_spec ang a); [congruence|]. cbn [indicator]. lia. }
    assert (Hfresh1 : forall a, In a (map fst rest) ->
                        dict_get pn1 a = None /\ count sg1 a = 0).
    { intros a Ha. destruct (Hfresh a (or_intror Ha)) as [Hg Hc].
      assert (Hne : a <> ang) by (intros ->; contradiction).
      destruct (Hother a Hne) as [-> ->]. now split. }
    destruct (IH pn1 sg1 Hreq Hnd' Hpn1nd Hpn1pos Hfresh1) as [H1 [H2 [H3 H4]]].
    split; [assumption|]. split; [assumption|]. split.
    + intros a tgt' [E|Hin]; [|now apply H3].
      injection E as <- <-. destruct (H4 ang Hnot) as [Hg Hc].
      unfold dict_get_default. rewrite Hg, Hc, <- Hdelta. subst pn1 sg1.
      destruct (Z.ltb_spec 0 pair_delta) as [Hlt|Hle].
      * rewrite dict_get_set, Z.eqb_refl.
        destruct odd.
        -- rewrite count_app, count_single, Z.eqb_refl, Hc0. cbn [indicator]. lia.
        -- rewrite Hc0. lia.
      * rewrite Hg0. assert (pair_delta = 0%Z) as E0 by lia.
        rewrite E0 in Hsplit. cbn in Hsplit.
        destruct odd.
        -- rewrite count_app, count_single, Z.eqb_refl, Hc0. cbn [indicator]. lia.
        -- rewrite Hc0. lia.
    + intros a Hna.
      assert (Hne : a <> ang) by (intros ->; apply Hna; now left).
      destruct (H4 a (fun H => Hna (or_intror H))) as [-> ->].
      now apply Hother.
Qed.

Lemma insert_by_score_Forall (P : BeamState -> Prop) (x : BeamState)
      (l : list BeamState) :
  P x -> Forall P l -> Forall P (insert_by_score x l).
Proof.
  intros Hx Hl. induction Hl as [|y l Hy Hl IH]; cbn [insert_by_score].
  - now constructor.
  - destruct (Qltb (bs_score x) (bs_score y)); repeat constructor; assumption.
Qed.

Lemma sort_by_score_Forall (P : BeamState -> Prop) (l : list BeamState) :
  Forall P l -> Forall P (sort_by_score_desc l).
Proof.
  intros Hl. induction Hl as [|y l Hy Hl IH]; cbn; [constructor|].
  now apply insert_by_score_Forall.
Qed.

Lemma dedupe_beam_Forall (P : BeamState -> Prop) (w : nat) (l : list BeamState)
      (seen : list (list Z)) :
  Forall P l -> Forall P (dedupe_beam w l seen).
Proof.
  intros Hl. revert w seen.
  induction Hl as [|y l Hy Hl IH]; intros w seen; destruct w as [|w];
    cbn [dedupe_beam]; try constructor.
  destruct (existsb (seq_eqb (bs_seq y)) seen); [apply IH|].
  constructor; [assumption|apply IH].
Qed.

Lemma max_by_score_Forall (P : BeamState -> Prop) (best : BeamState)
      (l : list BeamState) :
  P best -> Forall P l -> P (max_by_score best l).
Proof.
  intros Hb Hl. revert best Hb.
  induction Hl as [|y l Hy Hl IH]; intros best Hb; cbn [max_by_score]; [assumption|].
  destruct (Qltb (bs_score best) (bs_score y)); now apply IH.
Qed.

Section Beam.

Variable fl : FloatOps.
Variable W : Weights.
Variable parent : list Z.
Variable pairs_needed : list (Z * Z).

Lemma expand_state_inv (protect : nat) (st : BeamState) (l : list BeamState) :
  beam_inv parent pairs_needed st ->
  expand_state fl W protect st = Ok l ->
  Forall (fun st' =>
            beam_inv parent pairs_needed st' /\
            Zsum (dict_values (bs_pairs_left st'))
            = (Zsum (dict_values (bs_pairs_left st)) - 1)%Z) l.
Proof.
  intros [Ht [Hnd [Hpos Hcnt]]]. unfold expand_state. cbv zeta.
  revert l. apply fold_left_invariant_in.
  - intros l [= <-]. constructor.
  - intros acc [ang left_idx] Hin Hacc l. unfold bind at 1.
    destruct acc as [next|e]; [|discriminate].
    specialize (Hacc next eq_refl).
    destruct (Z.eqb_spec (nth left_idx (bs_seq st) 0%Z) ang) as [Hl|_]; cbn [negb];
      [|intros [= <-]; assumption].
    destruct (Nat.eqb_spec (length (bs_seq st) - 1 - left_idx) left_idx) as [|Hne];
      [intros [= <-]; assumption|].
    destruct (Z.eqb_spec (nth (length (bs_seq st) - 1 - left_idx) (bs_seq st) 0%Z) ang)
      as [Hr|_]; cbn [negb]; [|intros [= <-]; assumption].
    unfold bind.
    destruct (fitness_of fl W _) as [sc|e]; [|discriminate].
    destruct (Qleb sc 0); [intros [= <-]; assumption|].
    intros [= <-]. apply Forall_app. split; [assumption|].
    constructor; [|constructor].
    cbn [bs_seq bs_pos_map bs_pairs_left bs_dropped].
    apply in_flat_map in Hin. destruct Hin as [ang' [Hang Hin]].
    apply in_map_iff in Hin. destruct Hin as [li [E Hli]].
    injection E as -> ->. apply in_seq in Hli.
    apply (proj1 (sorted_Z_In _ _)) in Hang. apply in_map_iff in Hang.
    destruct Hang as [[a k] [Ea Hf]]. cbn [fst] in Ea. subst a.
    apply filter_In in Hf. destruct Hf as [Hink Hk]. apply Z.ltb_lt in Hk.
    pose proof (In_dict_get Z (bs_pairs_left st) ang k Hnd Hink) as Hget.
    assert (Hgd : dict_get_default (bs_pairs_left st) ang 0%Z = k)
      by (unfold dict_get_default; now rewrite Hget).
    rewrite Hgd.
    pose proof (Nat.div_mod_eq (length (bs_seq st)) 2) as Hdm.
    pose proof (Nat.mod_upper_bound (length (bs_seq st)) 2 ltac:(lia)) as Hmu.
    assert (Hlr : left_idx < length (bs_seq st) - 1 - left_idx) by lia.
    assert (Hrn : length (bs_seq st) - 1 - left_idx < length (bs_seq st)) by lia.
    assert (Hnew : forall a,
               dict_get_default
                 (if (k - 1 <=? 0)%Z then dict_del (bs_pairs_left st) ang
                  else dict_set (bs_pairs_left st) ang (k - 1)%Z) a 0%Z
               = (dict_get_default (bs_pairs_left st) a 0
                  - (if (ang =? a)%Z then 1 else 0))%Z).
    { intros a. destruct (Z.leb_spec (k - 1) 0).
      - unfold dict_get_default. rewrite dict_get_del by assumption.
        destruct (Z.eqb_spec ang a) as [<-|_]; [rewrite Hget|]; lia.
      - rewrite dict_get_default_set.
        destruct (Z.eqb_spec ang a) as [<-|_]; [rewrite Hgd|]; lia. }
    unfold beam_inv. cbn [bs_seq bs_pos_map bs_pairs_left bs_dropped].
    split; [split; [|split; [|split]]|].
    + now apply tracks_pop_pair.
    + destruct (k - 1 <=? 0)%Z; [apply dict_del_NoDup|apply dict_set_NoDup]; assumption.
    + unfold positive_values.
      destruct (Z.leb_spec (k - 1) 0);
        [apply dict_del_Forall|apply dict_set_Forall; [|cbn [snd]; lia]]; assumption.
    + intros a. rewrite Hnew.
      rewrite (count_pop_pair (bs_seq st) left_idx _ ang a Hlr Hrn Hl Hr).
      rewrite Hcnt. destruct (ang =? a)%Z; lia.
    + destruct (Z.leb_spec (k - 1) 0).
      * rewrite Zsum_dict_del, Hgd. lia.
      * rewrite Zsum_dict_set, Hgd. lia.
Qed.

Lemma beam_steps_inv (steps protect width : nat) (beam beam' : list BeamState) :
  Forall (fun st => beam_inv parent pairs_needed st /\
                    Zsum (dict_values (bs_pairs_left st)) = Z.of_nat steps) beam ->
  beam_steps fl W steps protect width beam = Ok (Some beam') ->
  Forall (fun st => beam_inv parent pairs_needed st /\
                    Zsum (dict_values (bs_pairs_left st)) = 0%Z) beam'.
Proof.
  revert beam. induction steps as [|k IH]; intros beam Hbeam; cbn [beam_steps].
  - intros [= <-]. exact Hbeam.
  - set (expanded := fold_left _ beam (Ok [])).
    assert (Hexp : forall l, expanded = Ok l ->
                     Forall (fun st => beam_inv parent pairs_needed st /\
                                       Zsum (dict_values (bs_pairs_left st))
                                       = Z.of_nat k) l).
    { subst expanded. apply fold_left_invariant_in.
      - intros l [= <-]. constructor.
      - intros acc st Hin Hacc l. unfold bind.
        destruct acc as [states|e]; [|discriminate].
        destruct (expand_state fl W protect st) as [more|e] eqn:Ex; [|discriminate].
        intros [= <-]. apply Forall_app. split; [now apply Hacc|].
        rewrite Forall_forall in Hbeam. destruct (Hbeam st Hin) as [Hinv Hsum].
        eapply Forall_impl; [|apply (expand_state_inv protect st more Hinv Ex)].
        cbv beta. intros st' [Hinv' Hsum']. split; [assumption|]. lia. }
    unfold bind. destruct expanded as [next|e]; [|discriminate].
    specialize (Hexp next eq_refl).
    destruct next as [|x xs]; [discriminate|].
    apply IH. now apply dedupe_beam_Forall, sort_by_score_Forall.
Qed.

End Beam.

Lemma beam_search_spec (fl : FloatOps) (W : Weights) (parent : list Z)
      (targets : list (Z * Z)) (protect width : nat) (t t' : Tape)
      (r : list Z * Q * list (Z * list nat)) :
  NoDup (dict_keys targets) ->
  _beam_search_angle_target_drop fl W parent targets protect width t
  = Ok (Some r, t') ->
  valid_drop fl W parent targets r.
Proof.
  intros Hnd. unfold _beam_search_angle_target_drop. cbv zeta.
  destruct (beam_requirements (Counter parent) targets [] []) as [[pn sg]|] eqn:Ereq;
    [|discriminate].
  destruct (beam_requirements_spec parent targets [] [] pn sg Ereq Hnd
              (NoDup_nil Z) (Forall_nil _) (fun a _ => conj eq_refl eq_refl))
    as [Hpn [Hpos [Hreq _]]].
  destruct ((Zsum (dict_values pn) =? 0)%Z &&
            match sg with [] => true | _ :: _ => false end) eqn:Ecase.
  - apply andb_true_iff in Ecase. destruct Ecase as [Ez Esg].
    destruct sg; [|discriminate]. apply Z.eqb_eq in Ez.
    assert (pn = []) as -> by (apply positive_values_zero; [assumption|lia]).
    unfold sbind, lift_result.
    destruct (fitness_of fl W parent) as [sc|e] eqn:Ef; [|discriminate].
    destruct (Qleb sc 0) eqn:Eq; [discriminate|].
    unfold sret. intros [= <- <-]. unfold valid_drop.
    split; [assumption|]. split; [now apply Qleb_false|]. split.
    + apply Forall_forall. intros [a tgt] Hin. cbn [fst snd].
      specialize (Hreq a tgt Hin). cbn in Hreq. lia.
    + left. cbn. now rewrite remove_indices_nil.
  - unfold sbind at 1. unfold lift_result at 1.
    destruct (fitness_of fl W parent) as [sc0|e] eqn:Ef0; [|discriminate].
    destruct (Qleb sc0 0) eqn:Eq0; [discriminate|].
    match goal with
    | |- sbind ?c _ _ = _ -> _ => set (choose := c)
    end.
    assert (Hchoose : forall b t1, choose t = Ok (Some b, t1) ->
                        beam_inv parent pn b /\ bs_pairs_left b = []).
    { intros b t1. subst choose.
      destruct (Z.ltb_spec 0 (Zsum (dict_values pn))) as [Hlt|Hle].
      - unfold sbind, lift_result.
        destruct (beam_steps fl W _ protect _ _) as [[beam|]|e] eqn:Ebs;
          try discriminate.
        destruct beam as [|st rest]; [discriminate|].
        unfold sret. intros [= <- <-].
        apply (beam_steps_inv fl W parent pn) in Ebs.
        + apply (max_by_score_Forall
                   (fun b => beam_inv parent pn b /\ bs_pairs_left b = [])).
          * inversion Ebs as [|? ? [Hinv Hs] _]; subst. split; [assumption|].
            apply positive_values_zero; [apply Hinv|lia].
          * inversion Ebs as [|? ? _ Hrest]; subst.
            eapply Forall_impl; [|exact Hrest]. cbv beta.
            intros st' [Hinv Hs]. split; [assumption|].
            apply positive_values_zero; [apply Hinv|lia].
        + constructor; [|constructor]. split.
          * split; [apply tracks_start|]. split; [assumption|]. split; [assumption|].
            intros a. cbn [bs_seq bs_pairs_left]. lia.
          * cbn [bs_pairs_left]. rewrite Z2Nat.id; lia.
      - unfold sret. intros [= <- <-]. split; [|reflexivity].
        assert (pn = []) as -> by (now apply positive_values_zero).
        split; [apply tracks_start|]. split; [constructor|]. split; [constructor|].
        intros a. cbn [bs_seq bs_pairs_left]. unfold dict_get_default. cbn [dict_get]. lia. }
    unfold sbind at 1.
    destruct (choose t) as [[[b|] t1]|e] eqn:Eb; try discriminate.
    destruct (Hchoose b t1 eq_refl) as [[Htr [_ [_ Hcnt]]] Hleft].
    unfold sbind at 1.
    destruct (single_drops_phase fl W _ _ _ sg t1) as [[[[[s' pm'] d']|] t2]|e] eqn:Es;
      try discriminate.
    intros Hfv.
    destruct (single_drops_phase_spec fl W parent _ _ _ sg t1 s' pm' d' t2 Htr Es)
      as [Hder Hsg].
    apply (final_validation_spec fl W parent targets s' pm' d' t2 t' r Hder);
      [|exact Hfv].
    apply Forall_forall. intros [a tgt] Hin. cbn [fst snd].
    specialize (Hreq a tgt Hin). specialize (Hsg a). specialize (Hcnt a).
    rewrite Hleft in Hcnt. change (dict_get_default [] a 0%Z) with 0%Z in Hcnt. lia.
Qed.

(** ** The greedy fallback *)

Lemma greedy_requirements_spec (s : list Z) (items gpt : list (Z * Z)) (sg : list Z)
      (gpt' : list (Z * Z)) (sg' : list Z) :
  greedy_requirements (Counter s) items gpt sg = Some (gpt', sg') ->
  NoDup (map fst items) ->
  NoDup (dict_keys gpt) -> Forall (even_gap s) gpt ->
  (forall a, In a (map fst items) -> dict_get gpt a = None /\ count sg a = 0) ->
  NoDup (dict_keys gpt') /\ Forall (even_gap s) gpt' /\
  (forall a tgt, In (a, tgt) items ->
     dict_get gpt' a = Some (tgt + Z.of_nat (count sg' a))%Z) /\
  (forall a, ~ In a (map fst items) ->
     dict_get gpt' a = dict_get gpt a /\ count sg' a = count sg a).
Proof.
  revert gpt sg.
  induction items as [|[ang tgt] rest IH]; intros gpt sg; cbn [greedy_requirements].
  - intros [= <- <-] _ Hnd Hgap _. repeat split; try assumption. intros a tgt [].
  - rewrite Counter_get.
    destruct (Z.ltb_spec (Z.of_nat (count s ang)) tgt) as [|Hge]; [discriminate|].
    remember (Z.of_nat (count s ang) - tgt)%Z as delta eqn:Hdelta.
    remember (negb (delta mod 2 =? 0)%Z) as odd eqn:Hodd.
    intros Hreq Hnd Hgpt Hgap Hfresh.
    assert (Hreq' : greedy_requirements (Counter s) rest
                      (dict_set gpt ang (tgt + (if odd then 1 else 0))%Z)
                      (if odd then sg ++ [ang] else sg) = Some (gpt', sg')).
    { destruct odd; [exact Hreq|]. now rewrite Z.add_0_r. }
    clear Hreq.
    assert (Harith : exists k, (0 <= k)%Z /\
                       (delta - (if odd then 1 else 0) = 2 * k)%Z).
    { exists ((delta - (if odd then 1 else 0)) / 2)%Z. subst odd.
      destruct (Z.eqb_spec (delta mod 2) 0) as [E|E]; cbn [negb];
        revert E; Z.div_mod_to_equations; lia. }
    cbn [map fst] in Hnd. inversion Hnd as [|? ? Hnot Hnd']; subst x l.
    destruct (Hfresh ang (or_introl eq_refl)) as [Hg0 Hc0].
    remember (dict_set gpt ang (tgt + (if odd then 1 else 0))%Z) as gpt1 eqn:Hgpt1.
    remember (if odd then sg ++ [ang] else sg) as sg1 eqn:Hsg1.
    assert (Hsg1c : forall a, count sg1 a
                              = count sg a + (if odd then indicator (ang =? a)%Z else 0)).
    { intros a. subst sg1. destruct odd; [|lia].
      now rewrite count_app, count_single. }
    assert (Hgpt1nd : NoDup (dict_keys gpt1)) by (subst gpt1; now apply dict_set_NoDup).
    assert (Hgpt1gap : Forall (even_gap s) gpt1).
    { subst gpt1. apply dict_set_Forall; [assumption|].
      destruct Harith as [k [Hk Ek]]. exists k. cbn [fst snd]. split; [assumption|lia]. }
    assert (Hfresh1 : forall a, In a (map fst rest) ->
                        dict_get gpt1 a = None /\ count sg1 a = 0).
    { intros a Ha. destruct (Hfresh a (or_intror Ha)) as [Hg Hc].
      assert (Hne : ang <> a) by (intros ->; contradiction).
      split.
      - subst gpt1. rewrite dict_get_set.
        destruct (Z.eqb_spec ang a); [congruence|assumption].
      - rewrite Hsg1c, Hc. destruct odd; [|reflexivity].
        destruct (Z.eqb_spec ang a); [congruence|reflexivity]. }
    destruct (IH gpt1 sg1 Hreq' Hnd' Hgpt1nd Hgpt1gap Hfresh1) as [H1 [H2 [H3 H4]]].
    split; [assumption|]. split; [assumption|]. split.
    + intros a tgt' [E|Hin]; [|now apply H3].
      injection E as <- <-. destruct (H4 ang Hnot) as [Hg Hc].
      rewrite Hg, Hc, Hsg1c, Hc0. subst gpt1.
      rewrite dict_get_set, !Z.eqb_refl. f_equal.
      destruct odd; cbn [indicator]; lia.
    + intros a Hna.
      assert (Hne : ang <> a) by (intros ->; apply Hna; now left).
      destruct (H4 a (fun H => Hna (or_intror H))) as [-> ->]. split.
      * subst gpt1. rewrite dict_get_set.
        destruct (Z.eqb_spec ang a); [congruence|reflexivity].
      * rewrite Hsg1c. destruct odd; [|lia].
        destruct (Z.eqb_spec ang a); [congruence|cbn [indicator]; lia].
Qed.

Section Greedy.

Variable fl : FloatOps.
Variable W : Weights.
Variable parent : list Z.

Lemma greedy_best_pair_spec (protect : nat) (s : list Z) (gpt : list (Z * Z))
      (sc : Q) (left_idx : nat) :
  greedy_best_pair fl W protect s gpt = Ok (Some (sc, left_idx)) ->
  exists tgt,
    In (nth left_idx s 0%Z, tgt) gpt /\
    (2 <= Z.of_nat (count s (nth left_idx s 0%Z)) - tgt)%Z /\
    left_idx < length s - 1 - left_idx /\
    length s - 1 - left_idx < length s /\
    nth (length s - 1 - left_idx) s 0%Z = nth left_idx s 0%Z.
Proof.
  unfold greedy_best_pair. cbv zeta. revert sc left_idx.
  apply fold_left_invariant_in.
  - intros sc left_idx [=].
  - intros acc [ang li] Hin Hacc sc left_idx. unfold bind at 1.
    destruct acc as [best|e]; [|discriminate].
    assert (Hold : Ok best = Ok (Some (sc, left_idx)) -> _)
      by (intros E; exact (Hacc sc left_idx E)).
    destruct (li <? protect); [exact Hold|].
    destruct (Z.eqb_spec (nth li s 0%Z) ang) as [Hl|_]; cbn [negb]; [|exact Hold].
    destruct (Nat.eqb_spec (length s - 1 - li) li) as [|Hne]; [exact Hold|].
    destruct (Z.eqb_spec (nth (length s - 1 - li) s 0%Z) ang) as [Hr|_]; cbn [negb];
      [|exact Hold].
    unfold bind.
    destruct (fitness_of fl W _) as [sc'|e]; [|discriminate].
    destruct (Qleb sc' 0); [exact Hold|].
    assert (Hnew : Ok (Some (sc', li)) = Ok (Some (sc, left_idx)) ->
                   exists tgt,
                     In (nth left_idx s 0%Z, tgt) gpt /\
                     (2 <= Z.of_nat (count s (nth left_idx s 0%Z)) - tgt)%Z /\
                     left_idx < length s - 1 - left_idx /\
                     length s - 1 - left_idx < length s /\
                     nth (length s - 1 - left_idx) s 0%Z = nth left_idx s 0%Z).
    { intros [= <- <-].
      apply in_flat_map in Hin. destruct Hin as [[ang' tgt] [Hgpt Hin]].
      rewrite Counter_get in Hin.
      destruct (Z.ltb_spec (Z.of_nat (count s ang') - tgt) 2) as [|Hge];
        [destruct Hin|].
      apply in_map_iff in Hin. destruct Hin as [j [E Hj]].
      injection E as -> ->. apply in_seq in Hj.
      pose proof (Nat.div_mod_eq (length s) 2) as Hdm.
      pose proof (Nat.mod_upper_bound (length s) 2 ltac:(lia)) as Hmu.
      exists tgt. rewrite Hl. repeat split; try assumption; lia. }
    destruct best as [[bsc bl]|]; [|exact Hnew].
    destruct (Qltb bsc sc'); [exact Hnew|exact Hold].
Qed.

Lemma greedy_pairs_spec (safety protect : nat) (gpt : list (Z * Z))
      (s : list Z) (pos_map : list nat) (dropped : list (Z * list nat))
      (s' : list Z) (pos_map' : list nat) (dropped' : list (Z * list nat)) :
  NoDup (dict_keys gpt) ->
  tracks parent s pos_map (removed_indices dropped) ->
  Forall (even_gap s) gpt ->
  greedy_pairs fl W safety protect gpt s pos_map dropped
  = Ok (Some (s', pos_map', dropped')) ->
  tracks parent s' pos_map' (removed_indices dropped') /\
  Forall (fun e => Z.of_nat (count s' (fst e)) = snd e) gpt.
Proof.
  intros Hnd. revert s pos_map dropped.
  induction safety as [|k IH]; intros s pos_map dropped Ht Hgap;
    cbn [greedy_pairs]; [discriminate|].
  cbv zeta.
  destruct (forallb _ gpt) eqn:Edone.
  - intros [= <- <- <-]. split; [assumption|].
    rewrite forallb_forall in Edone. rewrite Forall_forall in Hgap.
    apply Forall_forall. intros [a pt] Hin. cbn [fst snd].
    specialize (Edone _ Hin). cbn beta iota in Edone.
    rewrite Counter_get in Edone. apply Z.leb_le in Edone.
    destruct (Hgap _ Hin) as [j [Hj Ej]]. cbn [fst snd] in Ej. lia.
  - unfold bind.
    destruct (greedy_best_pair fl W protect s gpt) as [[[sc left_idx]|]|e] eqn:Eb;
      try discriminate.
    destruct (greedy_best_pair_spec protect s gpt sc left_idx Eb)
      as [tgt [Hin [Hge [Hlr [Hrn Hr]]]]].
    apply IH.
    + now apply tracks_pop_pair.
    + rewrite Forall_forall in Hgap. apply Forall_forall. intros [a pt] Ha.
      destruct (Hgap _ Ha) as [j [Hj Ej]]. cbn [fst snd] in Ej.
      unfold even_gap. cbn [fst snd].
      rewrite (count_pop_pair s left_idx _ (nth left_idx s 0%Z) a Hlr Hrn eq_refl Hr).
      destruct (Z.eqb_spec (nth left_idx s 0%Z) a) as [E|_].
      * rewrite E in Hin, Hge.
        pose proof (In_dict_get Z gpt a pt Hnd Ha) as G1.
        pose proof (In_dict_get Z gpt a tgt Hnd Hin) as G2.
        assert (pt = tgt) by congruence. subst pt.
        exists (j - 1)%Z. split; lia.
      * exists j. split; lia.
Qed.

End Greedy.

Lemma greedy_search_spec (fl : FloatOps) (W : Weights) (parent : list Z)
      (targets : list (Z * Z)) (protect : nat) (t t' : Tape)
      (r : list Z * Q * list (Z * list nat)) :
  NoDup (dict_keys targets) ->
  _greedy_angle_target_drop fl W parent targets protect t = Ok (Some r, t') ->
  valid_drop fl W parent targets r.
Proof.
  intros Hnd. unfold _greedy_angle_target_drop.
  destruct (greedy_requirements (Counter parent) targets [] []) as [[gpt sg]|] eqn:Ereq;
    [|discriminate].
  destruct (greedy_requirements_spec parent targets [] [] gpt sg Ereq Hnd
              (NoDup_nil Z) (Forall_nil _) (fun a _ => conj eq_refl eq_refl))
    as [Hgnd [Hgap [Hreq _]]].
  unfold sbind at 1. unfold lift_result at 1.
  destruct (greedy_pairs fl W 5000 protect gpt parent _ [])
    as [[[[s pm] dr]|]|e] eqn:Ep; try discriminate.
  destruct (greedy_pairs_spec fl W parent 5000 protect gpt parent _ [] s pm dr
              Hgnd (tracks_start parent) Hgap Ep) as [Htr Hcnt].
  unfold sbind at 1.
  destruct (single_drops_phase fl W s pm dr sg t) as [[[[[s' pm'] d']|] t2]|e] eqn:Es;
    try discriminate.
  intros Hfv.
  destruct (single_drops_phase_spec fl W parent s pm dr sg t s' pm' d' t2 Htr Es)
    as [Hder Hsg].
  apply (final_validation_spec fl W parent targets s' pm' d' t2 t' r Hder);
    [|exact Hfv].
  apply Forall_forall. intros [a tgt] Hin. cbn [fst snd].
  pose proof (dict_get_In Z gpt a _ (Hreq a tgt Hin)) as Hg.
  rewrite Forall_forall in Hcnt. specialize (Hcnt _ Hg). cbn [fst snd] in Hcnt.
  specialize (Hsg a). lia.
Qed.

Lemma fallback_search_spec (fl : FloatOps) (W : Weights) (parent : list Z)
      (targets : list (Z * Z)) (protects : list nat) (t t' : Tape)
      (r : list Z * Q * list (Z * list nat)) :
  NoDup (dict_keys targets) ->
  fallback_search fl W parent targets protects t = Ok (Some r, t') ->
  valid_drop fl W parent targets r.
Proof.
  intros Hnd. revert t.
  induction protects as [|protect rest IH]; intros t; cbn [fallback_search];
    [discriminate|].
  unfold sbind at 1.
  destruct (_beam_search_angle_target_drop fl W parent targets protect 16 t)
    as [[[rb|] t1]|e] eqn:Eb; try discriminate.
  - unfold sbind, sret. intros [= <- <-].
    now apply (beam_search_spec fl W parent targets protect 16 t t1).
  - unfold sbind at 1.
    destruct (_greedy_angle_target_drop fl W parent targets protect t1)
      as [[[rg|] t2]|e] eqn:Eg; try discriminate.
    + unfold sret. intros [= <- <-].
      now apply (greedy_search_spec fl W parent targets protect t1 t2).
    + apply IH.
Qed.

(** ** What a returned child is *)

Lemma full_targets_meets (parent child : list Z) (targets : list (Z * Z)) :
  NoDup (dict_keys targets) ->
  meets_targets child
    (fold_left (fun ft '(a, t) => dict_set ft a t) targets (Counter parent)) ->
  meets_targets child targets.
Proof.
  intros Hnd Hfull. unfold meets_targets in *.
  rewrite Forall_forall in Hfull. apply Forall_forall. intros [a tgt] Hin.
  apply (Hfull (a, tgt)). apply dict_get_In.
  now apply fold_dict_set_get.
Qed.

(** C2, as stated, fails: asked to drop one of the two -45 plies of
    [45, -45, -45, 45], a feasible target, the randomized search and
    both fallbacks find nothing and the call returns the parent itself
    with an empty removal record; the child still has two -45 plies. *)
Lemma optimize_drop_returns_parent_unchanged :
  Forall (feasible_entry stuck_parent) stuck_targets /\
  (exists score tape',
     optimize_drop_with_angle_targets approx_float WEIGHTS
       stuck_parent stuck_targets []
     = Ok ((stuck_parent, score, []), tape')) /\
  ~ meets_targets stuck_parent stuck_targets.
Proof.
  split; [|split].
  - repeat constructor; cbn; lia.
  - eexists. eexists. vm_compute. reflexivity.
  - intros H. inversion H as [|? ? _ H']; subst.
    inversion H' as [|? ? Hc _]; subst. cbn in Hc. discriminate.
Qed.

(** The hypothesis that a ply stays is needed: asked to drop both plies
    of [45, 45], a feasible target, the last fallback scores the empty
    sequence and the call ends in an uncaught [IndexError]. *)
Lemma optimize_drop_all_plies_raises :
  Forall (feasible_entry [45; 45]%Z) [(45, 0)]%Z /\
  ~ keeps_a_ply [45; 45]%Z [(45, 0)]%Z /\
  optimize_drop_with_angle_targets approx_float WEIGHTS [45; 45]%Z [(45, 0)]%Z []
  = Raise IndexError.
Proof.
  split; [|split].
  - repeat constructor; cbn; lia.
  - intros [a [Ha Hta]].
    destruct (Z.eq_dec a 45) as [->|Hne].
    + specialize (Hta 0%Z (or_introl eq_refl)). lia.
    + rewrite !count_cons, count_nil in Ha.
      destruct (Z.eqb_spec 45 a); [congruence|lia].
  - vm_compute. reflexivity.
Qed.

Lemma random_choice_In (l : list nat) (t : Tape) :
  l <> [] -> In (fst (random_choice l t)) l.
Proof.
  intros Hl. unfold random_choice. destruct (draw t) as [x t']. cbn [fst].
  apply nth_In. apply Nat.mod_upper_bound. destruct l; [congruence|cbn; lia].
Qed.

(** ** The drop-off engine returns *)

Lemma fitness_of_nonempty (fl : FloatOps) (W : Weights) (s : list Z) :
  s <> [] -> exists sc, fitness_of fl W s = Ok sc.
Proof.
  intros H. destruct (fitness_of fl W s) as [sc|e] eqn:E; [now exists sc|].
  apply fitness_of_raise in E. destruct E. contradiction.
Qed.

Lemma count_pos_nonempty (s : list Z) (a : Z) : 1 <= count s a -> s <> [].
Proof. intros H ->. rewrite count_nil in H. lia. Qed.

Lemma firstn_In_list (A : Type) (n : nat) (l : list A) (x : A) :
  In x (firstn n l) -> In x l.
Proof.
  revert l. induction n as [|n IH]; intros [|y l]; cbn; try tauto.
  intros [H|H]; auto.
Qed.

Lemma left_positions_range (master : list Z) (angle : Z) (p : nat) :
  In p (left_positions master angle) -> 1 < p < length master / 2.
Proof.
  unfold left_positions. intros H. apply filter_In in H. destruct H as [Hs Hp].
  apply in_seq in Hs. apply andb_true_iff in Hp. destruct Hp as [_ Hp].
  apply Nat.ltb_lt in Hp. lia.
Qed.

Lemma angle_positions_left_range (master : list Z) (plan : DropPlan) (angle : Z)
      (p : nat) :
  In p (angle_positions_left master plan angle) -> 1 < p < length master / 2.
Proof.
  unfold angle_positions_left. destruct (existsb _ _); [|intros []].
  apply left_positions_range.
Qed.

Lemma angle_grouped_left_range (master : list Z) (plan : DropPlan) (angle : Z)
      (p : nat) :
  In p (angle_grouped_left master plan angle) -> 1 < p < length master / 2.
Proof.
  unfold angle_grouped_left, grouped_positions. destruct (existsb _ _); [|intros []].
  intros H. apply filter_In in H. apply (left_positions_range master angle p), H.
Qed.

Lemma angle_positions_all_range (master : list Z) (plan : DropPlan) (angle : Z)
      (p : nat) :
  In p (angle_positions_all master plan angle) -> 1 < p.
Proof.
  unfold angle_positions_all, all_positions. destruct (dict_mem _ _); [|intros []].
  intros H. apply filter_In in H. destruct H as [_ Hp].
  apply andb_true_iff in Hp. destruct Hp as [Hp _].
  apply andb_true_iff in Hp. destruct Hp as [_ Hp]. now apply Nat.ltb_lt in Hp.
Qed.

Lemma select_positions_incl (prefer : bool) (available grouped : list nat)
      (k : nat) (t : Tape) (x : nat) :
  In x (fst (select_positions prefer available grouped k t)) ->
  In x available \/ In x grouped.
Proof.
  unfold select_positions.
  destruct prefer; [destruct grouped as [|g gs]|];
    try (intros H; left; exact (random_sample_incl available k t x H)).
  destruct (k <=? length (g :: gs)).
  - destruct (random_sample (g :: gs) k t) as [sel t1] eqn:E. cbn [fst].
    intros H. apply firstn_In_list in H. right.
    apply (random_sample_incl (g :: gs) k t). now rewrite E.
  - destruct (k - length (g :: gs) <=? length _).
    + destruct (random_sample _ (k - length (g :: gs)) t) as [more t1] eqn:E.
      cbn [fst]. intros H. apply firstn_In_list in H.
      apply in_app_or in H. destruct H as [H|H]; [now right|left].
      assert (Hm : In x (fst (random_sample
                                (filter (fun p => negb (mem_nat p (g :: gs))) available)
                                (k - length (g :: gs)) t)))
        by (rewrite E; exact H).
      apply random_sample_incl in Hm. apply filter_In in Hm. apply Hm.
    + cbn [fst]. intros H. apply firstn_In_list in H.
      apply in_app_or in H. destruct H as [H|H]; [now right|left].
      apply filter_In in H. apply H.
Qed.

Lemma dict_set_values_In (V : Type) (d : list (Z * V)) (k : Z) (v x : V) :
  In x (dict_values (dict_set d k v)) -> x = v \/ In x (dict_values d).
Proof.
  unfold dict_values. induction d as [|[k' v'] d IH]; cbn.
  - intros [H|[]]. now left.
  - destruct (k' =? k)%Z; cbn.
    + intros [H|H]; [now left|right; now right].
    + intros [H|H]; [right; now left|].
      destruct (IH H) as [E|E]; [now left|right; now right].
Qed.

Lemma select_left_drops_range (master : list Z) (plan : DropPlan) (prefer : bool)
      (items : list (Z * Z)) (acc : list (Z * list nat)) (t : Tape)
      (res : list (Z * list nat)) (t' : Tape) :
  (forall v, In v (dict_values acc) ->
             Forall (fun p => 1 < p < length master / 2) v) ->
  select_left_drops master plan prefer items acc t = (Some res, t') ->
  forall v, In v (dict_values res) ->
            Forall (fun p => 1 < p < length master / 2) v.
Proof.
  revert acc t. induction items as [|[angle drop_count] rest IH]; intros acc t Hacc;
    cbn [select_left_drops].
  - intros [= <- <-]. exact Hacc.
  - cbv zeta. destruct (_ <? _); [discriminate|].
    destruct (select_positions prefer _ _ _ t) as [selected t1] eqn:Es.
    apply IH. intros v Hv. apply dict_set_values_In in Hv.
    destruct Hv as [->|Hv]; [|now apply Hacc].
    apply Forall_forall. intros p Hp.
    apply (Permutation_in _ (sorted_nat_perm selected)) in Hp.
    assert (Hs : In p (fst (select_positions prefer
                              (angle_positions_left master plan angle)
                              (angle_grouped_left master plan angle)
                              (Z.to_nat (drop_count / 2)) t)))
      by (rewrite Es; exact Hp).
    apply select_positions_incl in Hs. destruct Hs as [Hs|Hs].
    + now apply (angle_positions_left_range master plan angle).
    + now apply (angle_grouped_left_range master plan angle).
Qed.

Lemma add_single_drops_range (master : list Z) (plan : DropPlan) (angles : list Z)
      (all_drops : list nat) (dba : list (Z * list nat)) (t : Tape)
      (res : list nat * list (Z * list nat)) (t' : Tape) :
  Forall (fun i => 1 <= i) all_drops ->
  add_single_drops master plan angles all_drops dba t = (Some res, t') ->
  Forall (fun i => 1 <= i) (fst res).
Proof.
  revert all_drops dba t. induction angles as [|a rest IH]; intros all_drops dba t Hall;
    cbn [add_single_drops].
  - intros [= <- <-]. exact Hall.
  - destruct (filter _ _) as [|p ps] eqn:E; [discriminate|].
    destruct (random_choice (p :: ps) t) as [single_pos t1] eqn:Ec.
    apply IH. apply Forall_app. split; [assumption|].
    constructor; [|constructor].
    pose proof (random_choice_In (p :: ps) t ltac:(discriminate)) as Hin.
    rewrite Ec in Hin. cbn [fst] in Hin.
    rewrite <- E in Hin. apply filter_In in Hin.
    pose proof (angle_positions_all_range master plan a single_pos (proj1 Hin)). lia.
Qed.

Lemma remove_indices_keeps_head (x : Z) (l : list Z) (drops : list nat) :
  ~ In 0 drops -> remove_indices (x :: l) drops <> [].
Proof.
  intros H. unfold remove_indices. cbn [remove_indices_from].
  rewrite (proj2 (mem_nat_not_In 0 drops) H). discriminate.
Qed.

(** With two plies or more, no attempt of the randomized search drops
    the first ply: the candidate it scores is not empty. *)
Lemma draw_candidate_nonempty (master : list Z) (plan : DropPlan) (t : Tape)
      (temp_seq : list Z) (dba : list (Z * list nat)) (t' : Tape) :
  2 <= length master ->
  draw_candidate master plan t = (Some (temp_seq, dba), t') ->
  temp_seq <> [].
Proof.
  intros Hn. unfold draw_candidate.
  pose proof (Nat.div_mod_eq (length master) 2) as Hdm.
  pose proof (Nat.mod_upper_bound (length master) 2 ltac:(lia)) as Hmu.
  destruct (random_lt_070 t) as [prefer t1].
  destruct (select_left_drops master plan prefer (drops_needed plan) [] t1)
    as [[left_drops|] t2] eqn:El; [|discriminate].
  pose proof (select_left_drops_range master plan prefer (drops_needed plan) []
                t1 left_drops t2 (fun v (H : In v []) => match H with end) El)
    as Hleft.
  destruct (_ && _); [discriminate|].
  set (init := map (fun a => (a, @nil nat)) _).
  set (stA := fold_left _ left_drops ([], init)).
  assert (HA : Forall (fun i => 1 <= i) (fst stA)).
  { subst stA. apply fold_left_invariant_in.
    - constructor.
    - intros [ad db] [angle lefts] Hin Hst.
      assert (Hl : Forall (fun p => 1 < p < length master / 2) lefts).
      { apply Hleft. unfold dict_values. apply in_map_iff.
        exists (angle, lefts). now split. }
      rewrite Forall_forall in Hl.
      apply fold_left_invariant_in; [assumption|].
      intros [ad' db'] idx Hidx Hst'. cbn [fst] in *.
      apply Forall_app. split; [assumption|].
      specialize (Hl idx Hidx).
      constructor; [lia|]. constructor; [lia|constructor]. }
  destruct stA as [adA dbA]. cbn [fst] in HA.
  set (stB := if drop_middle plan then _ else _).
  assert (HB : Forall (fun i => 1 <= i) (fst stB)).
  { subst stB. destruct (drop_middle plan); cbn [fst]; [|assumption].
    apply Forall_app. split; [assumption|]. constructor; [lia|constructor]. }
  destruct stB as [adB dbB]. cbn [fst] in HB.
  set (stC := match break_pair_for_middle plan, break_pair_angle plan with
              | true, Some _ => _
              | _, _ => _
              end).
  assert (HC : Forall (fun i => 1 <= i) (fst (fst stC))).
  { subst stC. destruct (break_pair_for_middle plan); [|cbn [fst]; assumption].
    destruct (break_pair_angle plan) as [bpa|]; [|cbn [fst]; assumption].
    match goal with
    | |- context [match ?f with [] => (adB, dbB, t2) | _ :: _ => _ end] =>
        destruct f as [|p ps] eqn:Ef
    end; [cbn [fst]; assumption|].
    destruct (random_choice (p :: ps) t2) as [bp t3] eqn:Ec. cbn [fst].
    apply Forall_app. split; [assumption|]. constructor; [|constructor].
    pose proof (random_choice_In (p :: ps) t2 ltac:(discriminate)) as Hin.
    rewrite Ec in Hin. cbn [fst] in Hin.
    rewrite <- Ef in Hin. apply filter_In in Hin.
    pose proof (angle_positions_left_range master plan bpa bp (proj1 Hin)). lia. }
  destruct stC as [[adC dbC] tC]. cbn [fst] in HC.
  destruct (add_single_drops master plan _ adC dbC tC) as [[[adD dbD]|] tD] eqn:ED;
    [|discriminate].
  pose proof (add_single_drops_range _ _ _ _ _ _ _ _ HC ED) as HD. cbn [fst] in HD.
  assert (Hrem : remove_indices master (sorted_nat adD) <> []).
  { destruct master as [|x rest]; [cbn in Hn; lia|].
    apply remove_indices_keeps_head. intros H0.
    apply (Permutation_in _ (sorted_nat_perm adD)) in H0.
    rewrite Forall_forall in HD. specialize (HD 0 H0). lia. }
  destruct (single_ply_drops plan) as [|sp sps].
  - intros [= <- _ _]. exact Hrem.
  - destruct (_fix_adjacent_0_90 _ tD) as [fixed tE] eqn:EF.
    intros [= <- _ _].
    pose proof (proj1 (fix_adjacent_same_plies
                         (remove_indices master (sorted_nat adD)) tD)) as Hlen.
    rewrite EF in Hlen. cbn [fst] in Hlen.
    intros ->. cbn [length] in Hlen.
    destruct (remove_indices master (sorted_nat adD)); [congruence|discriminate].
Qed.

Lemma search_loop_returns (fl : FloatOps) (W : Weights) (attempts : nat)
      (master : list Z) (plan : DropPlan) (targets : list (Z * Z))
      (best : BestSoFar) (t : Tape) :
  2 <= length master ->
  exists best' t', search_loop fl W attempts master plan targets best t = Ok (best', t').
Proof.
  intros Hn. revert best t. induction attempts as [|k IH]; intros best t.
  - cbn. unfold sret. now exists best, t.
  - cbn [search_loop]. unfold sbind at 1. unfold lift_draw.
    destruct (draw_candidate master plan t) as [[[temp_seq dba]|] t1] eqn:Ec.
    + unfold sbind, lift_result.
      destruct (fitness_of_nonempty fl W temp_seq
                  (draw_candidate_nonempty master plan t temp_seq dba t1 Hn Ec))
        as [sc Hsc].
      rewrite Hsc. apply IH.
    + apply IH.
Qed.

Lemma positive_values_get (d : list (Z * Z)) (a : Z) :
  positive_values d -> (0 <= dict_get_default d a 0)%Z.
Proof.
  intros H. unfold dict_get_default. destruct (dict_get d a) as [v|] eqn:E; [|lia].
  apply dict_get_In in E. unfold positive_values in H. rewrite Forall_forall in H.
  specialize (H _ E). cbn [snd] in H. lia.
Qed.

Lemma combo_positions (s : list Z) (angles : list Z) (combo : list nat) :
  Forall2 (fun x l => In x l) combo
          (map (fun ang => filter (fun i => (nth i s 0 =? ang)%Z)
                                  (seq 2 (length s - 2 - 2))) angles) ->
  Forall (fun c => 2 <= c < length s - 2) combo.
Proof.
  revert angles. induction combo as [|c combo IH]; intros angles H;
    destruct angles as [|a angles]; cbn [map] in H; inversion H; subst;
    constructor.
  - match goal with Hc : In c (filter _ _) |- _ =>
      apply filter_In in Hc; destruct Hc as [Hc _]; apply in_seq in Hc; lia end.
  - now apply (IH angles).
Qed.

Section Returns.

Variable fl : FloatOps.
Variable W : Weights.

Lemma single_drops_phase_returns (s : list Z) (pos_map : list nat)
      (dropped : list (Z * list nat)) (angles : list Z) (t : Tape) :
  exists r t', single_drops_phase fl W s pos_map dropped angles t = Ok (r, t').
Proof.
  unfold single_drops_phase.
  destruct angles as [|ang [|ang2 rest]].
  - unfold sret. eexists; eexists; reflexivity.
  - set (scan := fold_left _ (seq 2 (length s - 2 - 2)) (Ok (None, (-1)%Q))).
    assert (Hscan : exists b, scan = Ok b).
    { subst scan. apply fold_left_invariant_in.
      - eexists; reflexivity.
      - intros acc i Hi [[bp0 bs0] ->]. unfold bind at 1.
        destruct (negb _); [eexists; reflexivity|].
        apply in_seq in Hi.
        destruct (fitness_of_nonempty fl W (pop_at i s)) as [sc Hsc].
        { intros E. pose proof (pop_at_length Z i s ltac:(lia)) as Hl.
          rewrite E in Hl. cbn [length] in Hl. lia. }
        unfold bind. rewrite Hsc. destruct (Qltb bs0 sc); eexists; reflexivity. }
    destruct Hscan as [[bp bs] ->]. unfold sbind, lift_result.
    destruct bp as [best_pos|]; [|unfold sret; eexists; eexists; reflexivity].
    destruct (Qleb bs 0); unfold sret; eexists; eexists; reflexivity.
  - set (angles := ang :: ang2 :: rest).
    set (pos_lists := map _ angles).
    set (scan := fold_left _ (product pos_lists) (sret (None, (-1)%Q))).
    assert (Hscan : forall t0, exists b t1, scan t0 = Ok (b, t1)).
    { subst scan. apply fold_left_invariant_in.
      - intros t0. unfold sret. eexists; eexists; reflexivity.
      - intros acc combo Hin Hacc t0. unfold sbind at 1.
        destruct (Hacc t0) as [[bc0 bs0] [t2 ->]].
        destruct (has_duplicate combo); [unfold sret; eexists; eexists; reflexivity|].
        unfold sbind, lift_draw, lift_result.
        destruct (_fix_adjacent_0_90 (remove_indices s combo) t2) as [temp t3] eqn:Efix.
        destruct (fitness_of_nonempty fl W temp) as [sc Hsc].
        { apply in_product in Hin. subst pos_lists.
          pose proof (combo_positions s angles combo Hin) as Hpos.
          assert (Hc : exists c cs, combo = c :: cs).
          { subst angles. cbn [map] in Hin. inversion Hin; subst. eauto. }
          destruct Hc as [c [cs ->]].
          assert (Hn : 5 <= length s) by (inversion Hpos; subst; lia).
          assert (Hrem : remove_indices s (c :: cs) <> []).
          { destruct s as [|x s']; [cbn in Hn; lia|].
            apply remove_indices_keeps_head. intros H0.
            rewrite Forall_forall in Hpos. specialize (Hpos 0 H0). lia. }
          pose proof (proj1 (fix_adjacent_same_plies
                               (remove_indices s (c :: cs)) t2)) as Hlen.
          rewrite Efix in Hlen. cbn [fst] in Hlen. intros ->.
          destruct (remove_indices s (c :: cs)); [congruence|discriminate]. }
        rewrite Hsc. destruct (Qltb bs0 sc); unfold sret; eexists; eexists; reflexivity. }
    unfold sbind at 1. destruct (Hscan t) as [[bc bs] [t1 ->]].
    destruct bc as [combo|]; [|unfold sret; eexists; eexists; reflexivity].
    destruct (Qleb bs 0); [unfold sret; eexists; eexists; reflexivity|].
    unfold sbind, lift_draw, sret.
    destruct (_fix_adjacent_0_90 (remove_indices s combo) t1) as [fixed t2].
    eexists; eexists; reflexivity.
Qed.


Lemma final_validation_returns (s : list Z) (dropped : list (Z * list nat)) (t : Tape) :
  s <> [] -> exists r t', final_validation fl W s dropped t = Ok (r, t').
Proof.
  intros Hs. unfold final_validation, sbind, lift_result.
  destruct (fitness_of_nonempty fl W s Hs) as [sc ->].
  destruct (Qleb sc 0); unfold sret; eexists; eexists; reflexivity.
Qed.

Variable parent : list Z.
Variable kept : Z.

(** *** The beam search *)

Lemma expand_state_returns (pairs_needed : list (Z * Z)) (protect : nat)
      (st : BeamState) :
  (1 <= Z.of_nat (count parent kept) - 2 * dict_get_default pairs_needed kept 0)%Z ->
  beam_inv parent pairs_needed st ->
  exists l, expand_state fl W protect st = Ok l.
Proof.
  intros Hkept [Ht [Hnd [Hpos Hcnt]]]. unfold expand_state. cbv zeta.
  apply fold_left_invariant_in.
  - eexists; reflexivity.
  - intros acc [ang left_idx] Hin [next ->]. unfold bind at 1.
    destruct (Z.eqb_spec (nth left_idx (bs_seq st) 0%Z) ang) as [Hl|_]; cbn [negb];
      [|eexists; reflexivity].
    destruct (Nat.eqb_spec (length (bs_seq st) - 1 - left_idx) left_idx) as [|Hne];
      [eexists; reflexivity|].
    destruct (Z.eqb_spec (nth (length (bs_seq st) - 1 - left_idx) (bs_seq st) 0%Z) ang)
      as [Hr|_]; cbn [negb]; [|eexists; reflexivity].
    apply in_flat_map in Hin. destruct Hin as [ang' [Hang Hin]].
    apply in_map_iff in Hin. destruct Hin as [li [E Hli]].
    injection E as -> ->. apply in_seq in Hli.
    apply (proj1 (sorted_Z_In _ _)) in Hang. apply in_map_iff in Hang.
    destruct Hang as [[a k] [Ea Hf]]. cbn [fst] in Ea. subst a.
    apply filter_In in Hf. destruct Hf as [Hink Hk]. apply Z.ltb_lt in Hk.
    pose proof (In_dict_get Z (bs_pairs_left st) ang k Hnd Hink) as Hget.
    assert (Hgd : dict_get_default (bs_pairs_left st) ang 0%Z = k)
      by (unfold dict_get_default; now rewrite Hget).
    pose proof (Nat.div_mod_eq (length (bs_seq st)) 2) as Hdm.
    pose proof (Nat.mod_upper_bound (length (bs_seq st)) 2 ltac:(lia)) as Hmu.
    assert (Hlr : left_idx < length (bs_seq st) - 1 - left_idx) by lia.
    assert (Hrn : length (bs_seq st) - 1 - left_idx < length (bs_seq st)) by lia.
    destruct (fitness_of_nonempty fl W
                (pop_at left_idx (pop_at (length (bs_seq st) - 1 - left_idx) (bs_seq st))))
      as [sc Hsc].
    { apply (count_pos_nonempty _ kept).
      pose proof (count_pop_pair (bs_seq st) left_idx _ ang kept Hlr Hrn Hl Hr) as Hc.
      specialize (Hcnt kept).
      pose proof (positive_values_get (bs_pairs_left st) kept Hpos) as Hge.
      destruct (Z.eqb_spec ang kept) as [->|_]; lia. }
    unfold bind. rewrite Hsc. destruct (Qleb sc 0); eexists; reflexivity.
Qed.

Lemma beam_steps_returns (pairs_needed : list (Z * Z)) (steps protect width : nat)
      (beam : list BeamState) :
  (1 <= Z.of_nat (count parent kept) - 2 * dict_get_default pairs_needed kept 0)%Z ->
  Forall (beam_inv parent pairs_needed) beam ->
  exists r, beam_steps fl W steps protect width beam = Ok r.
Proof.
  intros Hkept. revert beam. induction steps as [|k IH]; intros beam Hbeam;
    cbn [beam_steps]; [eexists; reflexivity|].
  set (expanded := fold_left _ beam (Ok [])).
  assert (Hexp : exists l, expanded = Ok l /\ Forall (beam_inv parent pairs_needed) l).
  { subst expanded. apply fold_left_invariant_in.
    - exists []. split; [reflexivity|constructor].
    - intros acc st Hin [states [-> Hstates]]. unfold bind at 1.
      rewrite Forall_forall in Hbeam. pose proof (Hbeam st Hin) as Hinv.
      destruct (expand_state_returns pairs_needed protect st Hkept Hinv) as [more Hmore].
      unfold bind. rewrite Hmore. exists (states ++ more). split; [reflexivity|].
      apply Forall_app. split; [assumption|].
      eapply Forall_impl;
        [|apply (expand_state_inv fl W parent pairs_needed protect st more Hinv Hmore)].
      cbv beta. intros st' [Hinv' _]. exact Hinv'. }
  destruct Hexp as [next [-> Hnext]]. unfold bind.
  destruct next as [|x xs]; [eexists; reflexivity|].
  apply IH. now apply dedupe_beam_Forall, sort_by_score_Forall.
Qed.

Lemma beam_search_returns (targets : list (Z * Z)) (v : Z) (protect width : nat)
      (t : Tape) :
  NoDup (dict_keys targets) -> In (kept, v) targets -> (1 <= v)%Z ->
  exists r t',
    _beam_search_angle_target_drop fl W parent targets protect width t = Ok (r, t').
Proof.
  intros Hnd Hin Hv. unfold _beam_search_angle_target_drop. cbv zeta.
  destruct (beam_requirements (Counter parent) targets [] []) as [[pn sg]|] eqn:Ereq;
    [|unfold sret; eexists; eexists; reflexivity].
  destruct (beam_requirements_spec parent targets [] [] pn sg Ereq Hnd
              (NoDup_nil Z) (Forall_nil _) (fun a _ => conj eq_refl eq_refl))
    as [Hpn [Hpos [Hreq _]]].
  pose proof (Hreq kept v Hin) as Hk.
  assert (Hkept : (1 <= Z.of_nat (count parent kept) - 2 * dict_get_default pn kept 0)%Z)
    by lia.
  pose proof (positive_values_get pn kept Hpos) as Hpk.
  assert (Hne : parent <> []) by (apply (count_pos_nonempty _ kept); lia).
  destruct (fitness_of_nonempty fl W parent Hne) as [sc0 Hsc0].
  destruct ((Zsum (dict_values pn) =? 0)%Z &&
            match sg with [] => true | _ :: _ => false end) eqn:Ecase.
  - unfold sbind, lift_result. rewrite Hsc0.
    destruct (Qleb sc0 0); unfold sret; eexists; eexists; reflexivity.
  - unfold sbind at 1. unfold lift_result at 1. rewrite Hsc0.
    destruct (Qleb sc0 0); [unfold sret; eexists; eexists; reflexivity|].
    match goal with
    | |- exists r t', sbind ?c _ _ = _ => set (choose := c)
    end.
    assert (Hchoose : exists ob, choose t = Ok (ob, t) /\
                        match ob with
                        | Some b => beam_inv parent pn b /\ bs_pairs_left b = []
                        | None => True
                        end).
    { subst choose.
      assert (Hstart : beam_inv parent pn
                         {| bs_score := sc0; bs_seq := parent;
                            bs_pos_map := seq 0 (length parent);
                            bs_pairs_left := pn; bs_dropped := [] |}).
      { split; [apply tracks_start|]. split; [assumption|]. split; [assumption|].
        intros a. cbn [bs_seq bs_pairs_left]. lia. }
      destruct (Z.ltb_spec 0 (Zsum (dict_values pn))) as [Hlt|Hle].
      - unfold sbind, lift_result.
        destruct (beam_steps_returns pn (Z.to_nat (Zsum (dict_values pn))) protect
                    (if width <? 1 then 1 else width) [_]
                    Hkept (Forall_cons _ Hstart (Forall_nil _))) as [r Ebs].
        rewrite Ebs. destruct r as [beam|]; [|exists None; now split].
        destruct beam as [|st rest]; [exists None; now split|].
        unfold sret. exists (Some (max_by_score st rest)). split; [reflexivity|].
        apply (beam_steps_inv fl W parent pn) in Ebs.
        + apply (max_by_score_Forall
                   (fun b => beam_inv parent pn b /\ bs_pairs_left b = [])).
          * inversion Ebs as [|? ? [Hinv Hs] _]; subst. split; [assumption|].
            apply positive_values_zero; [apply Hinv|lia].
          * inversion Ebs as [|? ? _ Hrest]; subst.
            eapply Forall_impl; [|exact Hrest]. cbv beta.
            intros st' [Hinv Hs]. split; [assumption|].
            apply positive_values_zero; [apply Hinv|lia].
        + constructor; [|constructor]. split; [exact Hstart|].
          cbn [bs_pairs_left]. rewrite Z2Nat.id; lia.
      - unfold sret. eexists. split; [reflexivity|]. split; [|reflexivity].
        assert (pn = []) as E by (now apply positive_values_zero).
        subst pn.
        split; [apply tracks_start|]. split; [constructor|]. split; [constructor|].
        intros a. cbn [bs_seq bs_pairs_left]. unfold dict_get_default. cbn [dict_get]. lia. }
    destruct Hchoose as [ob [Ech Hob]]. unfold sbind at 1. rewrite Ech.
    destruct ob as [b|]; [|unfold sret; eexists; eexists; reflexivity].
    destruct Hob as [[Htr [Hbnd [Hbpos Hcnt]]] Hleft].
    unfold sbind at 1.
    destruct (single_drops_phase_returns (bs_seq b) (bs_pos_map b) (bs_dropped b) sg t)
      as [after [t2 Es]].
    rewrite Es. destruct after as [[[s' pm'] d']|];
      [|unfold sret; eexists; eexists; reflexivity].
    destruct (single_drops_phase_spec fl W parent _ _ _ sg t s' pm' d' t2 Htr Es)
      as [_ Hsg].
    apply final_validation_returns. apply (count_pos_nonempty _ kept).
    specialize (Hsg kept). specialize (Hcnt kept).
    rewrite Hleft in Hcnt. change (dict_get_default [] kept 0%Z) with 0%Z in Hcnt. lia.
Qed.

(** *** The greedy search *)

Lemma greedy_best_pair_returns (protect : nat) (s : list Z) (gpt : list (Z * Z))
      (v : Z) :
  NoDup (dict_keys gpt) -> In (kept, v) gpt -> (1 <= v)%Z -> 1 <= count s kept ->
  exists r, greedy_best_pair fl W protect s gpt = Ok r.
Proof.
  intros Hnd Hin Hv Hs. unfold greedy_best_pair. cbv zeta.
  apply fold_left_invariant_in.
  - eexists; reflexivity.
  - intros acc [ang li] Hc [best ->]. unfold bind at 1.
    destruct (li <? protect); [eexists; reflexivity|].
    destruct (Z.eqb_spec (nth li s 0%Z) ang) as [Hl|_]; cbn [negb];
      [|eexists; reflexivity].
    destruct (Nat.eqb_spec (length s - 1 - li) li) as [|Hne]; [eexists; reflexivity|].
    destruct (Z.eqb_spec (nth (length s - 1 - li) s 0%Z) ang) as [Hr|_]; cbn [negb];
      [|eexists; reflexivity].
    apply in_flat_map in Hc. destruct Hc as [[ang' tgt] [Hgpt Hc]].
    rewrite Counter_get in Hc.
    destruct (Z.ltb_spec (Z.of_nat (count s ang') - tgt) 2) as [|Hge]; [destruct Hc|].
    apply in_map_iff in Hc. destruct Hc as [j [E Hj]].
    injection E as -> ->. apply in_seq in Hj.
    pose proof (Nat.div_mod_eq (length s) 2) as Hdm.
    pose proof (Nat.mod_upper_bound (length s) 2 ltac:(lia)) as Hmu.
    destruct (fitness_of_nonempty fl W (remove_indices s [li; length s - 1 - li]))
      as [sc Hsc].
    { apply (count_pos_nonempty _ kept).
      assert (Hndp : NoDup [li; length s - 1 - li]).
      { constructor; [intros [H|[]]; lia|]. constructor; [intros []|constructor]. }
      assert (Hrg : Forall (fun c => c < length s) [li; length s - 1 - li]).
      { constructor; [lia|]. constructor; [lia|constructor]. }
      pose proof (count_remove_indices s [li; length s - 1 - li] kept Hndp Hrg) as Hcr.
      cbn [map] in Hcr. rewrite Hl, Hr in Hcr.
      rewrite !count_cons, count_nil in Hcr.
      destruct (Z.eqb_spec ang kept) as [->|_]; [|lia].
      pose proof (In_dict_get Z gpt kept v Hnd Hin) as G1.
      pose proof (In_dict_get Z gpt kept tgt Hnd Hgpt) as G2.
      assert (tgt = v) by congruence. lia. }
    unfold bind. rewrite Hsc.
    destruct (Qleb sc 0); [eexists; reflexivity|].
    destruct best as [[bsc bl]|]; [|eexists; reflexivity].
    destruct (Qltb bsc sc); eexists; reflexivity.
Qed.

Lemma greedy_pairs_returns (safety protect : nat) (gpt : list (Z * Z)) (v : Z)
      (s : list Z) (pos_map : list nat) (dropped : list (Z * list nat)) :
  NoDup (dict_keys gpt) -> In (kept, v) gpt -> (1 <= v)%Z -> 1 <= count s kept ->
  exists r, greedy_pairs fl W safety protect gpt s pos_map dropped = Ok r.
Proof.
  intros Hnd Hin Hv. revert s pos_map dropped.
  induction safety as [|k IH]; intros s pos_map dropped Hs; cbn [greedy_pairs];
    [eexists; reflexivity|].
  cbv zeta. destruct (forallb _ gpt); [eexists; reflexivity|].
  destruct (greedy_best_pair_returns protect s gpt v Hnd Hin Hv Hs) as [best Eb].
  unfold bind. rewrite Eb. destruct best as [[sc left_idx]|]; [|eexists; reflexivity].
  destruct (greedy_best_pair_spec fl W protect s gpt sc left_idx Eb)
    as [tgt [Hgpt [Hge [Hlr [Hrn Hr]]]]].
  apply IH.
  pose proof (count_pop_pair s left_idx _ (nth left_idx s 0%Z) kept Hlr Hrn eq_refl Hr)
    as Hc.
  destruct (Z.eqb_spec (nth left_idx s 0%Z) kept) as [E|_]; [|lia].
  rewrite E in Hgpt, Hge.
  pose proof (In_dict_get Z gpt kept v Hnd Hin) as G1.
  pose proof (In_dict_get Z gpt kept tgt Hnd Hgpt) as G2.
  assert (tgt = v) by congruence. lia.
Qed.

Lemma greedy_search_returns (targets : list (Z * Z)) (v : Z) (protect : nat)
      (t : Tape) :
  NoDup (dict_keys targets) -> In (kept, v) targets -> (1 <= v)%Z ->
  exists r t', _greedy_angle_target_drop fl W parent targets protect t = Ok (r, t').
Proof.
  intros Hnd Hin Hv. unfold _greedy_angle_target_drop.
  destruct (greedy_requirements (Counter parent) targets [] []) as [[gpt sg]|] eqn:Ereq;
    [|unfold sret; eexists; eexists; reflexivity].
  destruct (greedy_requirements_spec parent targets [] [] gpt sg Ereq Hnd
              (NoDup_nil Z) (Forall_nil _) (fun a _ => conj eq_refl eq_refl))
    as [Hgnd [Hgap [Hreq _]]].
  pose proof (dict_get_In Z gpt kept _ (Hreq kept v Hin)) as Hg.
  assert (Hv' : (1 <= v + Z.of_nat (count sg kept))%Z) by lia.
  assert (Hs : 1 <= count parent kept).
  { rewrite Forall_forall in Hgap. destruct (Hgap _ Hg) as [j [Hj Ej]].
    cbn [fst snd] in Ej. lia. }
  destruct (greedy_pairs_returns 5000 protect gpt _ parent (seq 0 (length parent)) []
              Hgnd Hg Hv' Hs) as [paired Ep].
  unfold sbind at 1. unfold lift_result at 1. rewrite Ep.
  destruct paired as [[[s pm] dr]|]; [|unfold sret; eexists; eexists; reflexivity].
  destruct (greedy_pairs_spec fl W parent 5000 protect gpt parent _ [] s pm dr
              Hgnd (tracks_start parent) Hgap Ep) as [Htr Hcnt].
  unfold sbind at 1.
  destruct (single_drops_phase_returns s pm dr sg t) as [after [t2 Es]].
  rewrite Es. destruct after as [[[s' pm'] d']|];
    [|unfold sret; eexists; eexists; reflexivity].
  destruct (single_drops_phase_spec fl W parent s pm dr sg t s' pm' d' t2 Htr Es)
    as [_ Hsg].
  apply final_validation_returns. apply (count_pos_nonempty _ kept).
  rewrite Forall_forall in Hcnt. specialize (Hcnt _ Hg). cbn [fst snd] in Hcnt.
  specialize (Hsg kept). lia.
Qed.

Lemma fallback_search_returns (targets : list (Z * Z)) (v : Z) (protects : list nat)
      (t : Tape) :
  NoDup (dict_keys targets) -> In (kept, v) targets -> (1 <= v)%Z ->
  exists r t', fallback_search fl W parent targets protects t = Ok (r, t').
Proof.
  intros Hnd Hin Hv. revert t.
  induction protects as [|protect rest IH]; intros t; cbn [fallback_search];
    [unfold sret; eexists; eexists; reflexivity|].
  unfold sbind at 1.
  destruct (beam_search_returns targets v protect 16 t Hnd Hin Hv) as [rb [t1 ->]].
  destruct rb as [rb|].
  - unfold sbind, sret. eexists; eexists; reflexivity.
  - unfold sbind at 1.
    destruct (greedy_search_returns targets v protect t1 Hnd Hin Hv) as [rg [t2 ->]].
    destruct rg as [rg|]; [unfold sret; eexists; eexists; reflexivity|].
    apply IH.
Qed.

End Returns.

Lemma count_le_length (s : list Z) (a : Z) : count s a <= length s.
Proof.
  induction s as [|x s IH]; [rewrite count_nil; lia|].
  rewrite count_cons. cbn [length]. destruct (x =? a)%Z; lia.
Qed.

Lemma count_two_le_length (s : list Z) (a b : Z) :
  a <> b -> count s a + count s b <= length s.
Proof.
  intros Hab. induction s as [|x s IH]; [rewrite !count_nil; lia|].
  rewrite !count_cons. cbn [length].
  destruct (Z.eqb_spec x a), (Z.eqb_spec x b); lia.
Qed.

(** The keys of [drops_needed] are the targeted angles that lose plies. *)
Lemma initial_drops_needed_keys (parent : list Z) (targets acc : list (Z * Z)) :
  positive_values acc ->
  positive_values
    (fold_left
       (fun drops_needed '(angle, target_count) =>
          let current := dict_get_default (Counter parent) angle 0%Z in
          if (target_count <? current)%Z
          then dict_set drops_needed angle (current - target_count)%Z
          else drops_needed)
       targets acc) /\
  forall a,
    In a (dict_keys
            (fold_left
               (fun drops_needed '(angle, target_count) =>
                  let current := dict_get_default (Counter parent) angle 0%Z in
                  if (target_count <? current)%Z
                  then dict_set drops_needed angle (current - target_count)%Z
                  else drops_needed)
               targets acc)) <->
    In a (dict_keys acc) \/
    exists t, In (a, t) targets /\ (t < Z.of_nat (count parent a))%Z.
Proof.
  revert acc. induction targets as [|[a0 t0] rest IH]; intros acc Hpos;
    cbn [fold_left].
  - split; [assumption|]. intros a. split; [now left|].
    intros [H|[t [[] _]]]. exact H.
  - cbv zeta. rewrite Counter_get.
    destruct (Z.ltb_spec t0 (Z.of_nat (count parent a0))) as [Hlt|Hge].
    + destruct (IH (dict_set acc a0 (Z.of_nat (count parent a0) - t0)%Z))
        as [Hp Hk].
      { apply dict_set_Forall; [assumption|]. cbn [snd]. lia. }
      split; [exact Hp|]. intros a. rewrite Hk, dict_set_keys. split.
      * intros [[->|H]|[t [Ht Hlt']]].
        -- right. exists t0. split; [now left|assumption].
        -- now left.
        -- right. exists t. split; [now right|assumption].
      * intros [H|[t [[E|Ht] Hlt']]].
        -- left. now right.
        -- injection E as -> ->. left. now left.
        -- right. exists t. now split.
    + destruct (IH acc Hpos) as [Hp Hk].
      split; [exact Hp|]. intros a. rewrite Hk. split.
      * intros [H|[t [Ht Hlt']]]; [now left|].
        right. exists t. split; [now right|assumption].
      * intros [H|[t [[E|Ht] Hlt']]]; [now left| |].
        -- injection E as -> ->. lia.
        -- right. exists t. now split.
Qed.

Lemma initial_drops_needed_spec (parent : list Z) (targets : list (Z * Z)) :
  positive_values (initial_drops_needed (Counter parent) targets) /\
  forall a,
    In a (dict_keys (initial_drops_needed (Counter parent) targets)) <->
    exists t, In (a, t) targets /\ (t < Z.of_nat (count parent a))%Z.
Proof.
  destruct (initial_drops_needed_keys parent targets [] (Forall_nil _)) as [Hp Hk].
  split; [exact Hp|]. intros a. split.
  - intros H. destruct (proj1 (Hk a) H) as [[]|Ht]. exact Ht.
  - intros Ht. apply (proj2 (Hk a)). now right.
Qed.

Lemma no_drops_own_counts (parent : list Z) (targets : list (Z * Z)) :
  Forall (feasible_entry parent) targets ->
  Zsum (dict_values (initial_drops_needed (Counter parent) targets)) = 0%Z ->
  no_drop_needed parent targets.
Proof.
  intros Hfeas Hz.
  destruct (initial_drops_needed_spec parent targets) as [Hp Hk].
  apply positive_values_zero in Hp; [|lia].
  rewrite Hp in Hk. unfold no_drop_needed. apply Forall_forall.
  intros [a t] Hin. unfold own_count_entry. cbn [fst snd].
  rewrite Forall_forall in Hfeas. specialize (Hfeas _ Hin).
  unfold feasible_entry in Hfeas. cbn [fst snd] in Hfeas.
  destruct (Z.eq_dec t (Z.of_nat (count parent a))) as [|Hne]; [assumption|].
  exfalso. apply (proj2 (Hk a)).
  exists t. split; [assumption|lia].
Qed.

Lemma drops_needed_two_plies (parent : list Z) (targets : list (Z * Z)) :
  Forall (feasible_entry parent) targets ->
  keeps_a_ply parent targets ->
  Zsum (dict_values (initial_drops_needed (Counter parent) targets)) <> 0%Z ->
  2 <= length parent.
Proof.
  intros Hfeas [a [Ha Hta]] Hz.
  destruct (initial_drops_needed_spec parent targets) as [_ Hk].
  destruct (initial_drops_needed (Counter parent) targets) as [|[b db] rest];
    [exfalso; apply Hz; reflexivity|].
  destruct (proj1 (Hk b) (or_introl eq_refl)) as [t [Ht Hlt]].
  rewrite Forall_forall in Hfeas. pose proof (Hfeas _ Ht) as Hft.
  unfold feasible_entry in Hft. cbn [fst snd] in Hft.
  destruct (Z.eq_dec a b) as [->|Hab].
  - specialize (Hta t Ht). pose proof (count_le_length parent b). lia.
  - pose proof (count_two_le_length parent a b Hab). lia.
Qed.

Lemma full_targets_kept (parent : list Z) (targets : list (Z * Z)) (a : Z) :
  NoDup (dict_keys targets) ->
  1 <= count parent a -> (forall t, In (a, t) targets -> (1 <= t)%Z) ->
  exists v,
    In (a, v) (fold_left (fun ft '(a, t) => dict_set ft a t) targets (Counter parent)) /\
    (1 <= v)%Z.
Proof.
  intros Hnd Ha Hta.
  destruct (in_dec Z.eq_dec a (map fst targets)) as [Hin|Hnin].
  - apply in_map_iff in Hin. destruct Hin as [[a' t] [E Hin]]. cbn [fst] in E. subst a'.
    exists t. split; [|now apply Hta].
    apply dict_get_In. now apply fold_dict_set_get.
  - exists (Z.of_nat (count parent a)). split; [|lia].
    apply dict_get_In. rewrite fold_dict_set_other by assumption.
    pose proof (Counter_get parent a) as Hc. unfold dict_get_default in Hc.
    destruct (dict_get (Counter parent) a) as [c|]; [now subst c|lia].
Qed.

(** C2, amended. For a target map with distinct angles and feasible
    entries (0 <= target <= the parent's count) that keeps a ply of the
    parent, the call returns: it yields (child, score, record) where
    [score] is the fitness of [child], and either the child has fitness
    > 0, passes the hard constraints, counts every targeted angle as the
    target says and is the parent without the plies at the recorded
    indices (possibly reordered by the adjacency-repair pass); or the
    child is the parent itself with an empty record, and then nothing
    was to drop, or the randomized search and all the beam and greedy
    fallbacks ended without a valid child. *)
Theorem optimize_drop_returns_child_or_parent
        (fl : FloatOps) (W : Weights) (parent : list Z) (targets : list (Z * Z))
        (tape : Tape) :
  NoDup (dict_keys targets) ->
  Forall (feasible_entry parent) targets ->
  keeps_a_ply parent targets ->
  exists child score record tape',
    optimize_drop_with_angle_targets fl W parent targets tape
    = Ok ((child, score, record), tape') /\
    drop_classified fl W parent targets tape child score record.
Proof.
  intros Hnd Hfeas Hkeep.
  assert (Hv : validate_targets (Counter parent) targets = Ok tt)
    by now apply validate_targets_ok.
  assert (Hne : parent <> []).
  { destruct Hkeep as [a [Ha _]]. now apply (count_pos_nonempty parent a). }
  destruct (fitness_of_nonempty fl W parent Hne) as [scp Hscp].
  assert (Hvalid : forall (r : DropResult) (tape' : Tape),
             valid_drop fl W parent targets r ->
             exists child score record tape'',
               Ok (r, tape') = Ok ((child, score, record), tape'') /\
               drop_classified fl W parent targets tape child score record).
  { intros [[child score] record] tape' [Hfit [Hpos [Hm Hd]]].
    exists child, score, record, tape'. split; [reflexivity|].
    split; [assumption|]. left.
    split; [assumption|]. split; [|now split].
    exact (proj1 (fitness_of_positive fl W child score Hfit Hpos)). }
  unfold optimize_drop_with_angle_targets.
  unfold sbind at 1. unfold lift_result at 1. rewrite Hv.
  destruct (Z.eqb_spec
              (Zsum (dict_values (initial_drops_needed (Counter parent) targets))) 0)
    as [Hz|Hnz].
  - unfold sbind, lift_result, sret. rewrite Hscp.
    exists parent, scp, [], tape. split; [reflexivity|].
    split; [assumption|]. right. split; [reflexivity|]. split; [reflexivity|].
    left. now apply no_drops_own_counts.
  - pose proof (drops_needed_two_plies parent targets Hfeas Hkeep Hnz) as Hn.
    destruct (search_loop_returns fl W ANGLE_TARGET_DROP_ATTEMPTS parent
                (plan_drops parent targets
                            (initial_drops_needed (Counter parent) targets))
                targets no_best tape Hn) as [best [t1 Es]].
    unfold sbind at 1. rewrite Es.
    assert (Hbest : accepted_best fl W parent targets best).
    { eapply (search_loop_accepted fl W ANGLE_TARGET_DROP_ATTEMPTS parent _ targets
                no_best best tape t1); [exact I|exact Es]. }
    unfold accepted_best in Hbest.
    destruct (best_candidate best) as [cand|] eqn:Ebc.
    + unfold sret. destruct Hbest as [Hfit [Hpos [Hm Hd]]].
      apply (Hvalid (cand, best_score best, best_dropped_by_angle best) t1).
      split; [assumption|]. split; [assumption|].
      split; [now apply matches_target_meets|assumption].
    + destruct Hkeep as [a [Ha Hta]].
      destruct (full_targets_kept parent targets a Hnd Ha Hta) as [v [Hin Hv1]].
      assert (Hfnd : NoDup (dict_keys
                              (fold_left (fun ft '(a, t) => dict_set ft a t) targets
                                         (Counter parent))))
        by apply fold_dict_set_NoDup, Counter_NoDup.
      destruct (fallback_search_returns fl W parent a _ v [2; 1; 0] t1 Hfnd Hin Hv1)
        as [res [t2 Ef]].
      unfold sbind at 1. rewrite Ef.
      destruct res as [res|].
      * unfold sret. apply Hvalid.
        apply fallback_search_spec in Ef; [|exact Hfnd].
        destruct res as [[child score] record].
        destruct Ef as [Hfit [Hpos [Hm Hd]]].
        split; [assumption|]. split; [assumption|].
        split; [now apply (full_targets_meets parent)|assumption].
      * unfold sbind, lift_result, sret. rewrite Hscp.
        exists parent, scp, [], t2. split; [reflexivity|].
        split; [assumption|]. right. split; [reflexivity|]. split; [reflexivity|].
        right. exists best, t1, t2. split; [exact Es|]. split; [exact Ebc|exact Ef].
Qed.

Lemma optimize_drop_returns_child_or_parent_witness :
  NoDup (dict_keys [(0, 0)]%Z) /\
  Forall (feasible_entry [45; -45; 0; 0; -45; 45]%Z) [(0, 0)]%Z /\
  keeps_a_ply [45; -45; 0; 0; -45; 45]%Z [(0, 0)]%Z /\
  exists child score record tape',
    optimize_drop_with_angle_targets approx_float WEIGHTS
      [45; -45; 0; 0; -45; 45]%Z [(0, 0)]%Z [2; 7; 1; 8]
    = Ok ((child, score, record), tape') /\
    drop_classified approx_float WEIGHTS [45; -45; 0; 0; -45; 45]%Z [(0, 0)]%Z
                    [2; 7; 1; 8] child score record.
Proof.
  assert (Hnd : NoDup (dict_keys [(0, 0)]%Z)).
  { constructor; [intros []|constructor]. }
  assert (Hfeas : Forall (feasible_entry [45; -45; 0; 0; -45; 45]%Z) [(0, 0)]%Z).
  { constructor; [|constructor]. unfold feasible_entry. cbn. lia. }
  assert (Hkeep : keeps_a_ply [45; -45; 0; 0; -45; 45]%Z [(0, 0)]%Z).
  { exists 45%Z. split; [cbn; lia|]. intros t [E|[]]. discriminate E. }
  split; [exact Hnd|]. split; [exact Hfeas|]. split; [exact Hkeep|].
  exact (optimize_drop_returns_child_or_parent approx_float WEIGHTS
           [45; -45; 0; 0; -45; 45]%Z [(0, 0)]%Z [2; 7; 1; 8] Hnd Hfeas Hkeep).
Defined.

(** * Further properties of the code *)

(** ** Symmetry *)

Lemma is_symmetric_mirror (s : list Z) :
  _is_symmetric s = true ->
  forall i, i < length s -> nth i s 0%Z = nth (length s - 1 - i) s 0%Z.
Proof.
  unfold _is_symmetric. cbv zeta. rewrite forallb_forall. intros H i Hi.
  pose proof (Nat.div_mod_eq (length s) 2) as Hdm.
  pose proof (Nat.mod_upper_bound (length s) 2 ltac:(lia)) as Hmu.
  destruct (Nat.lt_ge_cases i (length s / 2)) as [Hlt|Hge].
  - apply Z.eqb_eq. apply H. apply in_seq. lia.
  - destruct (Nat.lt_ge_cases (length s - 1 - i) (length s / 2)) as [Hlt'|Hge'].
    + specialize (H (length s - 1 - i)). rewrite in_seq in H.
      specialize (H ltac:(lia)). apply Z.eqb_eq in H.
      replace (length s - 1 - (length s - 1 - i)) with i in H by lia.
      now symmetry.
    + replace (length s - 1 - i) with i by lia. reflexivity.
Qed.

(** X1. [_is_symmetric] accepts exactly the sequences that read the same
    in both directions. *)
Theorem is_symmetric_iff_palindrome (s : list Z) :
  _is_symmetric s = true <-> rev s = s.
Proof.
  split.
  - intros H. apply (nth_ext _ _ 0%Z 0%Z); [apply length_rev|].
    rewrite length_rev. intros i Hi. rewrite rev_nth by assumption.
    rewrite (is_symmetric_mirror s H i Hi). f_equal. lia.
  - intros H. unfold _is_symmetric. cbv zeta. apply forallb_forall.
    intros i Hi. apply in_seq in Hi. apply Z.eqb_eq.
    pose proof (Nat.div_mod_eq (length s) 2) as Hdm.
    assert (Hlt : i < length s) by lia.
    rewrite <- H at 1. rewrite rev_nth by assumption. f_equal. lia.
Qed.

Lemma dist_from_mid_pos (n i : nat) : i < n / 2 -> (0 < dist_from_mid n i)%Q.
Proof.
  intros Hi. unfold dist_from_mid.
  assert (Hm : (Qofnat i < mid_plane n)%Q).
  { unfold Qofnat, mid_plane, Qlt. cbn.
    pose proof (Nat.div_mod_eq n 2). lia. }
  assert (Hd : (0 < Qmax 1 (mid_plane n))%Q)
    by (apply Qlt_le_trans with 1%Q; [reflexivity|apply Q.le_max_l]).
  apply Qlt_shift_div_l; [assumption|]. rewrite Qmult_0_l.
  rewrite Qabs_neg by lra. lra.
Qed.

Lemma symmetry_fold (W : Weights) (s : list Z) (l : list nat) (acc : Q) :
  (0 < R1 W)%Q -> (forall i, In i l -> i < length s / 2) ->
  let r :=
    fold_left
      (fun penalty i =>
         if negb (nth i s 0%Z =? nth (length s - 1 - i) s 0%Z)%Z
         then (penalty + R1 W * dist_from_mid (length s) i)%Q
         else penalty) l acc in
  (acc <= r)%Q /\
  (r == acc <->
   forallb (fun i => (nth i s 0%Z =? nth (length s - 1 - i) s 0%Z)%Z) l = true).
Proof.
  intros HW. revert acc. induction l as [|i l IH]; intros acc Hl; cbn [fold_left forallb].
  - split; [lra|]. split; [reflexivity|intros _; reflexivity].
  - assert (Hl' : forall j, In j l -> j < length s / 2)
      by (intros j Hj; apply Hl; now right).
    destruct (nth i s 0 =? nth (length s - 1 - i) s 0)%Z; cbn [negb andb].
    + apply IH, Hl'.
    + pose proof (dist_from_mid_pos (length s) i (Hl i (or_introl eq_refl))) as Hd.
      assert (Hp : (0 < R1 W * dist_from_mid (length s) i)%Q) by nra.
      destruct (IH (acc + R1 W * dist_from_mid (length s) i)%Q Hl') as [Hle _].
      cbv zeta in Hle. split; [lra|]. split; [intros E; lra|discriminate].
Qed.

(** X2. With a positive R1 weight, Rule 1 charges no penalty exactly on
    the symmetric sequences. *)
Theorem check_symmetry_zero_iff_symmetric (W : Weights) (s : list Z) :
  (0 < R1 W)%Q ->
  (_check_symmetry_distance_weighted W s == 0 <-> _is_symmetric s = true).
Proof.
  intros HW. unfold _check_symmetry_distance_weighted, _is_symmetric. cbv zeta.
  destruct (symmetry_fold W s (seq 0 (length s / 2)) 0 HW) as [Hle Hiff].
  { intros i Hi. apply in_seq in Hi. lia. }
  cbv zeta in Hle, Hiff. rewrite <- Hiff.
  set (p := fold_left _ _ 0%Q) in *.
  destruct (Q.min_spec p (R1 W)) as [[Hlt E]|[Hge E]]; rewrite E.
  - reflexivity.
  - split; intros H; lra.
Qed.

Lemma check_symmetry_zero_iff_symmetric_witness :
  (0 < R1 WEIGHTS)%Q /\
  (_check_symmetry_distance_weighted WEIGHTS [45; -45; 0; -45; 45]%Z == 0 <->
   _is_symmetric [45; -45; 0; -45; 45]%Z = true).
Proof.
  split; [reflexivity|].
  apply (check_symmetry_zero_iff_symmetric WEIGHTS [45; -45; 0; -45; 45]%Z).
  reflexivity.
Defined.

(** ** Runs of equal plies *)

Lemma encode_runs_valid (s : list Z) : valid_runs (encode_runs s).
Proof.
  induction s as [|x s IH]; cbn [encode_runs]; [exact I|].
  destruct (encode_runs s) as [|[a k] runs]; [cbn; auto|].
  destruct (Z.eqb_spec x a) as [->|Hne].
  - cbn [valid_runs] in *. destruct IH as [Hk [Hn Hv]]. repeat split; auto.
  - cbn [valid_runs] in *. repeat split; auto; apply IH.
Qed.

Lemma decode_encode_runs (s : list Z) : decode_runs (encode_runs s) = s.
Proof.
  induction s as [|x s IH]; cbn [encode_runs]; [reflexivity|].
  destruct (encode_runs s) as [|[a k] runs].
  - cbn in *. now rewrite <- IH.
  - destruct (Z.eqb_spec x a) as [->|Hne].
    + rewrite <- IH. reflexivity.
    + rewrite <- IH. reflexivity.
Qed.

Lemma decode_runs_cons (a : Z) (k : nat) (runs : list (Z * nat)) :
  decode_runs ((a, k) :: runs) = repeat a k ++ decode_runs runs.
Proof. reflexivity. Qed.

Lemma runs_of_length_cons (k : nat) (a : Z) (j : nat) (runs : list (Z * nat)) :
  runs_of_length k ((a, j) :: runs)
  = (if j =? k then 1 else 0) + runs_of_length k runs.
Proof. unfold runs_of_length. cbn. destruct (j =? k); reflexivity. Qed.

Lemma runs_at_least_cons (k : nat) (a : Z) (j : nat) (runs : list (Z * nat)) :
  runs_at_least k ((a, j) :: runs)
  = (if k <=? j then 1 else 0) + runs_at_least k runs.
Proof. unfold runs_at_least. cbn. destruct (k <=? j); reflexivity. Qed.

Lemma runs_of_length_bound (k : nat) (runs : list (Z * nat)) :
  0 < runs_of_length k runs -> k <= length (decode_runs runs).
Proof.
  induction runs as [|[a j] runs IH]; [cbn; lia|].
  rewrite runs_of_length_cons, decode_runs_cons, length_app, repeat_length.
  destruct (Nat.eqb_spec j k); [lia|]. intros H. specialize (IH H). lia.
Qed.

Lemma groups_loop_repeat (k : nat) (a : Z) (m : nat) (tl : list Z) (curr cnt : nat) :
  groups_loop k a (repeat a m ++ tl) curr cnt = groups_loop k a tl (curr + m) cnt.
Proof.
  revert curr. induction m as [|m IH]; intros curr; cbn [repeat app].
  - now rewrite Nat.add_0_r.
  - cbn [groups_loop]. rewrite Z.eqb_refl, IH. f_equal. lia.
Qed.

Lemma groups_loop_runs (k : nat) (runs : list (Z * nat)) :
  valid_runs runs ->
  forall (a : Z) (m curr cnt : nat),
    match runs with [] => True | (b, _) :: _ => a <> b end ->
    groups_loop k a (repeat a m ++ decode_runs runs) curr cnt
    = cnt + (if curr + m =? k then 1 else 0) + runs_of_length k runs.
Proof.
  induction runs as [|[b j] runs IH]; intros Hv a m curr cnt Hab.
  - rewrite groups_loop_repeat. cbn. destruct (curr + m =? k); lia.
  - cbn [valid_runs] in Hv. destruct Hv as [Hj [Hb Hv]].
    rewrite groups_loop_repeat, decode_runs_cons.
    destruct j as [|j]; [lia|]. cbn [repeat app groups_loop].
    destruct (Z.eqb_spec b a) as [E|_]; [now contradiction Hab|].
    rewrite (IH Hv b j 1 _ Hb), runs_of_length_cons.
    destruct (curr + m =? k); destruct (1 + j =? k) eqn:E1;
      change (1 + j) with (S j) in E1; rewrite E1; lia.
Qed.

Lemma find_groups_runs (runs : list (Z * nat)) (k : nat) :
  valid_runs runs ->
  _find_groups_of_size (decode_runs runs) k = runs_of_length k runs.
Proof.
  intros Hv. unfold _find_groups_of_size.
  destruct (Nat.ltb_spec (length (decode_runs runs)) k) as [Hlt|Hge].
  - destruct (runs_of_length k runs) eqn:E; [reflexivity|].
    pose proof (runs_of_length_bound k runs ltac:(lia)). lia.
  - destruct runs as [|[a j] runs]; [reflexivity|].
    cbn [valid_runs] in Hv. destruct Hv as [Hj [Hb Hv]].
    rewrite decode_runs_cons. destruct j as [|j]; [lia|]. cbn [repeat app].
    rewrite (groups_loop_runs k runs Hv a j 1 0 Hb), runs_of_length_cons.
    reflexivity.
Qed.

(** X3. [_find_groups_of_size] counts the maximal runs of equal plies
    whose length is exactly the asked size; longer runs do not count. *)
Theorem find_groups_counts_exact_runs (runs : list (Z * nat)) (k : nat) :
  valid_runs runs ->
  _find_groups_of_size (decode_runs runs) k = runs_of_length k runs.
Proof. apply find_groups_runs. Qed.

Lemma find_groups_counts_exact_runs_witness :
  valid_runs [(45%Z, 1); (0%Z, 4); ((-45)%Z, 1)] /\
  _find_groups_of_size (decode_runs [(45%Z, 1); (0%Z, 4); ((-45)%Z, 1)]) 3
  = runs_of_length 3 [(45%Z, 1); (0%Z, 4); ((-45)%Z, 1)].
Proof.
  assert (Hv : valid_runs [(45%Z, 1); (0%Z, 4); ((-45)%Z, 1)]).
  { cbn. repeat split; try lia; discriminate. }
  split; [exact Hv|].
  exact (find_groups_counts_exact_runs [(45%Z, 1); (0%Z, 4); ((-45)%Z, 1)] 3 Hv).
Defined.

Lemma valid_runs_positive (runs : list (Z * nat)) :
  valid_runs runs -> Forall (fun r => 1 <= snd r) runs.
Proof.
  induction runs as [|[a k] runs IH]; intros Hv; constructor.
  - apply Hv.
  - apply IH, Hv.
Qed.

Lemma stats_loop_repeat (a : Z) (m : nat) (tl : list Z) (curr : nat)
      (st : GroupingStats) :
  stats_loop a (repeat a m ++ tl) curr st = stats_loop a tl (curr + m) st.
Proof.
  revert curr. induction m as [|m IH]; intros curr; cbn [repeat app].
  - now rewrite Nat.add_0_r.
  - cbn [stats_loop]. rewrite Z.eqb_refl, IH. f_equal. lia.
Qed.

Lemma stats_loop_runs (runs : list (Z * nat)) :
  valid_runs runs ->
  forall (a : Z) (m curr : nat) (st : GroupingStats),
    match runs with [] => True | (b, _) :: _ => a <> b end ->
    stats_loop a (repeat a m ++ decode_runs runs) curr st
    = fold_left close_run (map snd runs) (close_run st (curr + m)).
Proof.
  induction runs as [|[b j] runs IH]; intros Hv a m curr st Hab.
  - rewrite stats_loop_repeat. reflexivity.
  - cbn [valid_runs] in Hv. destruct Hv as [Hj [Hb Hv]].
    rewrite stats_loop_repeat, decode_runs_cons.
    destruct j as [|j]; [lia|]. cbn [repeat app stats_loop].
    destruct (Z.eqb_spec b a) as [E|_]; [now contradiction Hab|].
    rewrite (IH Hv b j 1 _ Hb). reflexivity.
Qed.

Lemma close_run_fields (st : GroupingStats) (j : nat) :
  1 <= j ->
  adjacent_pairs (close_run st j) = adjacent_pairs st + (j - 1) /\
  group_runs (close_run st j) = group_runs st + (if 2 <=? j then 1 else 0) /\
  groups_len_2 (close_run st j) = groups_len_2 st + (if j =? 2 then 1 else 0) /\
  groups_len_3 (close_run st j) = groups_len_3 st + (if j =? 3 then 1 else 0) /\
  groups_len_ge4 (close_run st j) = groups_len_ge4 st + (if 4 <=? j then 1 else 0) /\
  max_run (close_run st j) = Nat.max (max_run st) j.
Proof.
  intros Hj. unfold close_run.
  destruct (Nat.leb_spec 2 j) as [H2|H2];
    cbn [adjacent_pairs group_runs groups_len_2 groups_len_3 groups_len_ge4 max_run];
    destruct (Nat.eqb_spec j 2), (Nat.eqb_spec j 3), (Nat.leb_spec 4 j);
    repeat split; lia.
Qed.

Lemma close_runs_fields (runs : list (Z * nat)) (st : GroupingStats) :
  Forall (fun r => 1 <= snd r) runs ->
  adjacent_pairs (fold_left close_run (map snd runs) st) + length runs
  = adjacent_pairs st + length (decode_runs runs) /\
  group_runs (fold_left close_run (map snd runs) st)
  = group_runs st + runs_at_least 2 runs /\
  groups_len_2 (fold_left close_run (map snd runs) st)
  = groups_len_2 st + runs_of_length 2 runs /\
  groups_len_3 (fold_left close_run (map snd runs) st)
  = groups_len_3 st + runs_of_length 3 runs /\
  groups_len_ge4 (fold_left close_run (map snd runs) st)
  = groups_len_ge4 st + runs_at_least 4 runs /\
  max_run (fold_left close_run (map snd runs) st)
  = Nat.max (max_run st) (longest_run runs).
Proof.
  intros Hpos. revert st.
  induction Hpos as [|[a j] runs Hj Hpos IH]; intros st.
  - cbn. repeat split; lia.
  - cbn [map snd fold_left]. cbn [snd] in Hj.
    destruct (IH (close_run st j)) as [I1 [I2 [I3 [I4 [I5 I6]]]]].
    destruct (close_run_fields st j Hj) as [C1 [C2 [C3 [C4 [C5 C6]]]]].
    rewrite I2, I3, I4, I5, I6, C2, C3, C4, C5, C6. rewrite C1 in I1.
    rewrite !runs_of_length_cons, !runs_at_least_cons, decode_runs_cons,
      length_app, repeat_length.
    cbn [length longest_run fold_right snd].
    repeat split; try lia. symmetry. apply Nat.max_assoc.
Qed.

Lemma grouping_stats_runs (runs : list (Z * nat)) :
  valid_runs runs ->
  adjacent_pairs (_grouping_stats (decode_runs runs)) + length runs
  = length (decode_runs runs) /\
  group_runs (_grouping_stats (decode_runs runs)) = runs_at_least 2 runs /\
  groups_len_2 (_grouping_stats (decode_runs runs)) = runs_of_length 2 runs /\
  groups_len_3 (_grouping_stats (decode_runs runs)) = runs_of_length 3 runs /\
  groups_len_ge4 (_grouping_stats (decode_runs runs)) = runs_at_least 4 runs /\
  max_run (_grouping_stats (decode_runs runs)) = longest_run runs.
Proof.
  intros Hv. destruct runs as [|[a j] runs]; [cbn; repeat split; reflexivity|].
  pose proof (valid_runs_positive _ Hv) as Hpos.
  cbn [valid_runs] in Hv. destruct Hv as [Hj [Hb Hv]].
  rewrite decode_runs_cons. destruct j as [|j]; [lia|].
  cbn [repeat app _grouping_stats].
  rewrite (stats_loop_runs runs Hv a j 1 _ Hb).
  change (fold_left close_run (map snd runs) (close_run ?st (1 + j)))
    with (fold_left close_run (map snd ((a, S j) :: runs)) st).
  set (init := {| adjacent_pairs := 0; group_runs := 0; groups_len_2 := 0;
                  groups_len_3 := 0; groups_len_ge4 := 0; max_run := 1 |}).
  destruct (close_runs_fields ((a, S j) :: runs) init Hpos)
    as [I1 [I2 [I3 [I4 [I5 I6]]]]].
  rewrite I2, I3, I4, I5, I6. rewrite decode_runs_cons in I1.
  cbn [repeat app] in I1. cbn [adjacent_pairs group_runs groups_len_2 groups_len_3
                                 groups_len_ge4 max_run init] in *.
  repeat split; try reflexivity; try lia.
  cbn [longest_run fold_right snd]. lia.
Qed.

(** X4. [_grouping_stats] describes the maximal runs of equal plies:
    the adjacent pairs are the plies beyond the first of each run, the
    counters count the runs of length >= 2, = 2, = 3 and >= 4, and
    [max_run] is the longest run (0 for the empty sequence). *)
Theorem grouping_stats_describes_runs (runs : list (Z * nat)) :
  valid_runs runs ->
  adjacent_pairs (_grouping_stats (decode_runs runs)) + length runs
  = length (decode_runs runs) /\
  group_runs (_grouping_stats (decode_runs runs)) = runs_at_least 2 runs /\
  groups_len_2 (_grouping_stats (decode_runs runs)) = runs_of_length 2 runs /\
  groups_len_3 (_grouping_stats (decode_runs runs)) = runs_of_length 3 runs /\
  groups_len_ge4 (_grouping_stats (decode_runs runs)) = runs_at_least 4 runs /\
  max_run (_grouping_stats (decode_runs runs)) = longest_run runs.
Proof. apply grouping_stats_runs. Qed.

Lemma grouping_stats_describes_runs_witness :
  valid_runs [(45%Z, 2); (0%Z, 5); (90%Z, 3)] /\
  adjacent_pairs (_grouping_stats (decode_runs [(45%Z, 2); (0%Z, 5); (90%Z, 3)])) + 3
  = 10 /\
  max_run (_grouping_stats (decode_runs [(45%Z, 2); (0%Z, 5); (90%Z, 3)])) = 5.
Proof.
  assert (Hv : valid_runs [(45%Z, 2); (0%Z, 5); (90%Z, 3)]).
  { cbn. repeat split; try lia; discriminate. }
  split; [exact Hv|].
  destruct (grouping_stats_describes_runs [(45%Z, 2); (0%Z, 5); (90%Z, 3)] Hv)
    as [H1 [_ [_ [_ [_ H6]]]]].
  split; [exact H1|exact H6].
Defined.

Lemma count_fold_shift (rest : list Z) (prev : Z) (c : nat) :
  fst (fold_left (fun '(cnt, prev) y => (if (y =? prev)%Z then S cnt else cnt, y))
                 rest (c, prev))
  = c + fst (fold_left (fun '(cnt, prev) y => (if (y =? prev)%Z then S cnt else cnt, y))
                       rest (0, prev)).
Proof.
  revert prev c. induction rest as [|x rest IH]; intros prev c; cbn [fold_left fst].
  - lia.
  - destruct (x =? prev)%Z.
    + rewrite (IH x (S c)), (IH x 1). lia.
    + apply IH.
Qed.

Lemma count_fold_repeat (a : Z) (m : nat) (tl : list Z) (c : nat) :
  fold_left (fun '(cnt, prev) y => (if (y =? prev)%Z then S cnt else cnt, y))
            (repeat a m ++ tl) (c, a)
  = fold_left (fun '(cnt, prev) y => (if (y =? prev)%Z then S cnt else cnt, y))
              tl (c + m, a).
Proof.
  revert c. induction m as [|m IH]; intros c; cbn [repeat app fold_left].
  - now rewrite Nat.add_0_r.
  - rewrite Z.eqb_refl, IH. do 2 f_equal. lia.
Qed.

Lemma count_fold_runs (runs : list (Z * nat)) :
  valid_runs runs ->
  forall (a : Z) (m c : nat),
    match runs with [] => True | (b, _) :: _ => a <> b end ->
    fst (fold_left (fun '(cnt, prev) y => (if (y =? prev)%Z then S cnt else cnt, y))
                   (repeat a m ++ decode_runs runs) (c, a)) + length runs
    = c + m + length (decode_runs runs).
Proof.
  induction runs as [|[b j] runs IH]; intros Hv a m c Hab.
  - rewrite count_fold_repeat. cbn. lia.
  - cbn [valid_runs] in Hv. destruct Hv as [Hj [Hb Hv]].
    rewrite count_fold_repeat, decode_runs_cons.
    destruct j as [|j]; [lia|]. cbn [repeat app fold_left].
    destruct (Z.eqb_spec b a) as [E|_]; [now contradiction Hab|].
    pose proof (IH Hv b j (c + m) Hb) as H.
    cbn [length]. rewrite length_app, repeat_length. lia.
Qed.

Lemma count_groupings_runs (runs : list (Z * nat)) :
  valid_runs runs ->
  _count_groupings (decode_runs runs) + length runs = length (decode_runs runs).
Proof.
  intros Hv. destruct runs as [|[a j] runs]; [reflexivity|].
  cbn [valid_runs] in Hv. destruct Hv as [Hj [Hb Hv]].
  rewrite decode_runs_cons. destruct j as [|j]; [lia|].
  cbn [repeat app _count_groupings].
  pose proof (count_fold_runs runs Hv a j 0 Hb) as H.
  cbn [length]. rewrite length_app, repeat_length. lia.
Qed.

Lemma runs_at_least_split (runs : list (Z * nat)) :
  runs_at_least 2 runs
  = runs_of_length 2 runs + runs_of_length 3 runs + runs_at_least 4 runs.
Proof.
  induction runs as [|[a j] runs IH]; [reflexivity|].
  rewrite !runs_at_least_cons, !runs_of_length_cons, IH.
  destruct (Nat.leb_spec 2 j), (Nat.eqb_spec j 2), (Nat.eqb_spec j 3),
    (Nat.leb_spec 4 j); lia.
Qed.

(** X5. The grouping functions agree on every sequence:
    [_count_groupings] is the [adjacent_pairs] of [_grouping_stats], its
    2- and 3-run counters are [_find_groups_of_size] at 2 and 3, and the
    runs of length >= 2 split into those of length 2, 3 and >= 4. *)
Theorem grouping_functions_agree (s : list Z) :
  _count_groupings s = adjacent_pairs (_grouping_stats s) /\
  groups_len_2 (_grouping_stats s) = _find_groups_of_size s 2 /\
  groups_len_3 (_grouping_stats s) = _find_groups_of_size s 3 /\
  group_runs (_grouping_stats s)
  = groups_len_2 (_grouping_stats s) + groups_len_3 (_grouping_stats s)
    + groups_len_ge4 (_grouping_stats s).
Proof.
  pose proof (encode_runs_valid s) as Hv.
  rewrite <- (decode_encode_runs s).
  destruct (grouping_stats_runs (encode_runs s) Hv) as [I1 [I2 [I3 [I4 [I5 I6]]]]].
  pose proof (count_groupings_runs (encode_runs s) Hv) as Hc.
  rewrite !(find_groups_runs _ _ Hv), I2, I3, I4, I5.
  repeat split; try reflexivity; [lia|apply runs_at_least_split].
Qed.

Lemma grouping_loop_facts (rest : list Z) (prev : Z) (st : GroupingLoop) :
  gl_total_adjacent_pairs (grouping_loop prev rest st)
  = gl_total_adjacent_pairs st
    + fst (fold_left (fun '(cnt, prev) y => (if (y =? prev)%Z then S cnt else cnt, y))
                     rest (0, prev)) /\
  (gl_total_adjacent_pairs (grouping_loop prev rest st) = gl_total_adjacent_pairs st ->
   gl_max_group_found (grouping_loop prev rest st) <= Nat.max (gl_max_group_found st) 1 /\
   gl_adjacent_pairs_0_90 (grouping_loop prev rest st) = gl_adjacent_pairs_0_90 st).
Proof.
  revert prev st. induction rest as [|x rest IH]; intros prev st.
  - cbn. split; lia.
  - cbn [grouping_loop fold_left].
    destruct (x =? prev)%Z;
      cbn [gl_curr gl_total_adjacent_pairs gl_adjacent_pairs_0_90 gl_max_group_found].
    + match goal with |- context [grouping_loop x rest ?s] =>
        destruct (IH x s) as [I1 I2] end.
      cbn [gl_total_adjacent_pairs] in I1, I2.
      rewrite (count_fold_shift rest x 1). split; lia.
    + match goal with |- context [grouping_loop x rest ?s] =>
        destruct (IH x s) as [I1 I2] end.
      cbn [gl_total_adjacent_pairs gl_adjacent_pairs_0_90 gl_max_group_found]
        in I1, I2.
      split; [exact I1|]. intros E. destruct (I2 E) as [Ia Ib].
      split; [|exact Ib]. eapply Nat.le_trans; [exact Ia|].
      apply Nat.max_lub; [apply Nat.le_refl|apply Nat.le_max_r].
Qed.

Lemma groups_loop_no_adjacent (k : nat) (rest : list Z) (prev : Z) (curr cnt : nat) :
  fst (fold_left (fun '(cnt, prev) y => (if (y =? prev)%Z then S cnt else cnt, y))
                 rest (0, prev)) = 0 ->
  k <> 1 -> curr <> k ->
  groups_loop k prev rest curr cnt = cnt.
Proof.
  revert prev curr. induction rest as [|x rest IH]; intros prev curr H Hk Hc;
    cbn [groups_loop].
  - destruct (Nat.eqb_spec curr k); [contradiction|reflexivity].
  - cbn [fold_left] in H. destruct (x =? prev)%Z.
    + rewrite (count_fold_shift rest x 1) in H. lia.
    + destruct (Nat.eqb_spec curr k); [contradiction|].
      apply IH; [assumption|assumption|lia].
Qed.

(** X6. With a positive R6 weight, Rule 6 charges no penalty exactly on
    the sequences in which no two neighbouring plies have the same
    angle. *)
Theorem check_grouping_zero_iff_no_adjacent (W : Weights) (s : list Z) :
  (0 < R6 W)%Q ->
  (_check_grouping W s 3 == 0 <-> _count_groupings s = 0).
Proof.
  intros HW. unfold _check_grouping. cbv zeta.
  set (init := {| gl_curr := 1; gl_total_adjacent_pairs := 0;
                  gl_adjacent_pairs_0_90 := 0; gl_max_group_found := 1 |}).
  destruct s as [|x rest].
  - cbn. destruct (Q.min_spec 0 (R6 W)) as [[_ E]|[Hge _]]; [|lra].
    split; [reflexivity|intros _].
    change (Qofnat 0) with 0%Q.
    match goal with |- Qmin ?p _ == 0 => assert (Hp : p == 0) by lra end.
    rewrite Hp. exact E.
  - destruct (grouping_loop_facts rest x init) as [Ht Hz].
    cbn [gl_total_adjacent_pairs gl_adjacent_pairs_0_90 gl_max_group_found init]
      in Ht, Hz.
    change (_count_groupings (x :: rest))
      with (fst (fold_left (fun '(cnt, prev) y =>
                              (if (y =? prev)%Z then S cnt else cnt, y))
                           rest (0, x))).
    set (c := fst (fold_left _ rest (0, x))) in *.
    set (st := grouping_loop x rest init) in *.
    set (g3 := _find_groups_of_size (x :: rest) 3).
    set (p1 := if 3 <? gl_max_group_found st then _ else _).
    assert (Hp1 : (0 <= p1)%Q).
    { subst p1. destruct (3 <? gl_max_group_found st); [|lra].
      pose proof (Qofnat_nonneg (gl_max_group_found st - 3)). nra. }
    pose proof (Qofnat_nonneg g3) as Hg3.
    pose proof (Qofnat_nonneg (gl_adjacent_pairs_0_90 st)) as Ha.
    set (base := (p1 + Qofnat g3 * 2 + Qofnat (gl_adjacent_pairs_0_90 st) * (3 # 10))%Q).
    assert (Hbase : (0 <= base)%Q) by (subst base; nra).
    set (p := if 1 <? length (x :: rest) then _ else base).
    split.
    + intros Hmin. destruct (Nat.eq_dec c 0) as [|Hc]; [assumption|exfalso].
      assert (Hn : 1 < length (x :: rest)).
      { destruct rest; [subst c; cbn in Hc; lia|cbn; lia]. }
      assert (Hp : (0 < p)%Q).
      { subst p. destruct (Nat.ltb_spec 1 (length (x :: rest))); [|lia].
        rewrite Ht. cbn [Nat.add].
        assert (Hc' : (0 < Qofnat c)%Q) by (apply Qofnat_pos; lia).
        assert (Hd : (0 < Qofnat (length (x :: rest) - 1))%Q)
          by (apply Qofnat_pos; lia).
        assert (Hr : (0 < Qofnat c / Qofnat (length (x :: rest) - 1))%Q).
        { apply Qlt_shift_div_l; [assumption|lra]. }
        fold base. nra. }
      destruct (Q.min_spec p (R6 W)) as [[_ E]|[_ E]]; rewrite E in Hmin; lra.
    + intros Hc. rewrite Hc, Nat.add_0_r in Ht. destruct (Hz Ht) as [Hmax H090].
      assert (Hg : g3 = 0).
      { subst g3. unfold _find_groups_of_size.
        destruct (length (x :: rest) <? 3); [reflexivity|].
        apply groups_loop_no_adjacent; [exact Hc|lia|lia]. }
      assert (Hp : p == 0).
      { subst p base p1.
        destruct (Nat.ltb_spec 3 (gl_max_group_found st)); [lia|].
        rewrite Hg, H090, Ht. change (Qofnat 0) with 0%Q.
        destruct (1 <? length (x :: rest)); [|lra].
        unfold Qdiv. lra. }
      rewrite Hp. destruct (Q.min_spec 0 (R6 W)) as [[_ E]|[Hge _]]; [exact E|lra].
Qed.

Lemma check_grouping_zero_iff_no_adjacent_witness :
  (0 < R6 WEIGHTS)%Q /\
  (_check_grouping WEIGHTS [45; -45; 0; 45; -45]%Z 3 == 0 <->
   _count_groupings [45; -45; 0; 45; -45]%Z = 0).
Proof.
  split; [reflexivity|].
  apply (check_grouping_zero_iff_no_adjacent WEIGHTS [45; -45; 0; 45; -45]%Z).
  reflexivity.
Defined.

(** ** Balance *)

(** X7. With a positive R2 weight, Rule 2 charges no penalty exactly
    when the sequence has as many +45 plies as -45 plies. *)
Theorem check_balance_zero_iff_balanced (W : Weights) (s : list Z) :
  (0 < R2 W)%Q ->
  (_check_balance_45 W s == 0 <-> count s 45 = count s (-45)).
Proof.
  intros HW. unfold _check_balance_45. cbv zeta.
  destruct (Nat.ltb_spec 0 (count s 45 + count s (-45))) as [Hpos|Hz].
  - set (diff := Z.abs (Z.of_nat (count s 45) - Z.of_nat (count s (-45)))).
    set (den := Z.max 1 (Z.of_nat ((count s 45 + count s (-45)) / 2))).
    assert (Hden : (0 < inject_Z den)%Q) by (unfold Qlt; cbn; lia).
    assert (Hdiff : (0 <= inject_Z diff)%Q) by (unfold Qle; cbn; lia).
    assert (Hq : (0 <= inject_Z diff / inject_Z den)%Q)
      by (apply Qdiv_nonneg; assumption).
    split.
    + intros H.
      assert (Hm : Qmin 1 (inject_Z diff / inject_Z den) == 0) by nra.
      destruct (Q.min_spec 1 (inject_Z diff / inject_Z den)) as [[_ E]|[_ E]];
        rewrite E in Hm; [lra|].
      assert (Hd : inject_Z diff == 0).
      { rewrite <- (Qmult_div_r (inject_Z diff) (inject_Z den)) by lra.
        rewrite Hm. lra. }
      unfold Qeq in Hd. cbn in Hd. subst diff. lia.
    + intros E. assert (Hd : diff = 0%Z) by (subst diff; lia).
      rewrite Hd. change (inject_Z 0) with 0%Q.
      assert (Hm : Qmin 1 (0 / inject_Z den) == 0).
      { assert (Hz : 0 / inject_Z den == 0) by (unfold Qdiv; lra).
        rewrite Hz. apply Q.min_r. lra. }
      rewrite Hm. lra.
  - split; [intros _; lia|reflexivity].
Qed.

Lemma check_balance_zero_iff_balanced_witness :
  (0 < R2 WEIGHTS)%Q /\
  (_check_balance_45 WEIGHTS [45; -45; 0; -45; 45]%Z == 0 <->
   count [45; -45; 0; -45; 45]%Z 45 = count [45; -45; 0; -45; 45]%Z (-45)).
Proof.
  split; [reflexivity|].
  apply (check_balance_zero_iff_balanced WEIGHTS [45; -45; 0; -45; 45]%Z).
  reflexivity.
Defined.

(** ** The adjacency repair pass *)

Lemma no_adjacent_no_violation (s : list Z) (i : nat) :
  _has_adjacent_0_90 s = false -> i + 1 < length s -> pair_violates s i = false.
Proof.
  intros H Hi. unfold pair_violates.
  destruct (is_0_90_pair (nth i s 0%Z) (nth (i + 1) s 0%Z)) eqn:E; [|reflexivity].
  apply is_0_90_pair_spec in E.
  assert (Hex : exists j, adjacent_0_90_at s j) by (exists i; split; assumption).
  apply has_adjacent_0_90_spec in Hex. congruence.
Qed.

Lemma repair_scan_clean (s : list Z) (positions : list nat) (t : Tape) :
  (forall i, In i positions -> pair_violates s i = false) ->
  repair_scan s positions t = (None, t).
Proof.
  induction positions as [|i rest IH]; intros H; cbn [repair_scan]; [reflexivity|].
  rewrite (H i (or_introl eq_refl)). apply IH. intros j Hj. apply H. now right.
Qed.

(** X8. [_fix_adjacent_0_90] leaves a sequence without a 0/90
    neighbour pair as it is, and draws no random number for it. *)
Theorem fix_adjacent_clean_is_identity (s : list Z) (t : Tape) :
  _has_adjacent_0_90 s = false -> _fix_adjacent_0_90 s t = (s, t).
Proof.
  intros H. unfold _fix_adjacent_0_90.
  destruct (length s * 3) as [|k]; [reflexivity|]. cbn [repair_loop].
  rewrite repair_scan_clean; [reflexivity|].
  intros i Hi. apply in_seq in Hi. apply no_adjacent_no_violation; [assumption|lia].
Qed.

Lemma fix_adjacent_clean_is_identity_witness :
  _has_adjacent_0_90 [45; 0; -45; 90]%Z = false /\
  _fix_adjacent_0_90 [45; 0; -45; 90]%Z [5; 3] = ([45; 0; -45; 90]%Z, [5; 3]).
Proof.
  split; [reflexivity|].
  apply (fix_adjacent_clean_is_identity [45; 0; -45; 90]%Z [5; 3]). reflexivity.
Defined.

(** X9. [_fix_adjacent_0_90] only reorders: whatever the random draws,
    its result is a permutation of its argument, of the same length. *)
Theorem fix_adjacent_only_reorders (s : list Z) (t : Tape) :
  Permutation (fst (_fix_adjacent_0_90 s t)) s /\
  length (fst (_fix_adjacent_0_90 s t)) = length s.
Proof.
  split; [apply fix_adjacent_permutation|].
  apply (proj1 (fix_adjacent_same_plies s t)).
Qed.

(** ** Reversal *)

Lemma nth_rev_mirror (s : list Z) (i : nat) :
  i < length s -> nth i (rev s) 0%Z = nth (length s - 1 - i) s 0%Z.
Proof.
  intros Hi. rewrite rev_nth by assumption. f_equal. lia.
Qed.

Lemma adjacent_0_90_rev (s : list Z) (i : nat) :
  adjacent_0_90_at s i -> adjacent_0_90_at (rev s) (length s - 2 - i).
Proof.
  intros [Hi H]. split; [rewrite length_rev; lia|].
  rewrite !nth_rev_mirror by lia.
  replace (length s - 1 - (length s - 2 - i)) with (i + 1) by lia.
  replace (length s - 1 - (length s - 2 - i + 1)) with i by lia.
  tauto.
Qed.

Lemma violates_hard_rev_1 (s : list Z) : violates_hard s -> violates_hard (rev s).
Proof.
  destruct s as [|x s']; [cbn; tauto|].
  set (s := x :: s'). assert (Hn : 0 < length s) by (cbn; lia).
  unfold violates_hard. cbv zeta. rewrite length_rev.
  intros [H|[H|[[i H]|[Hn4 H]]]].
  - right. left. rewrite nth_rev_mirror by lia.
    now replace (length s - 1 - (length s - 1)) with 0 by lia.
  - left. rewrite nth_rev_mirror by lia. now rewrite Nat.sub_0_r.
  - right. right. left. exists (length s - 2 - i). now apply adjacent_0_90_rev.
  - right. right. right. split; [assumption|].
    rewrite !nth_rev_mirror by lia.
    replace (length s - 1 - 0) with (length s - 1) by lia.
    replace (length s - 1 - 1) with (length s - 2) by lia.
    replace (length s - 1 - (length s - 2)) with 1 by lia.
    replace (length s - 1 - (length s - 1)) with 0 by lia.
    tauto.
Qed.

Lemma violates_hard_rev (s : list Z) : violates_hard (rev s) <-> violates_hard s.
Proof.
  split; intros H.
  - rewrite <- (rev_involutive s). now apply violates_hard_rev_1.
  - now apply violates_hard_rev_1.
Qed.

(** X10. [calculate_fitness] fails a stacking on the hard constraints
    exactly when it fails the same stacking read from the other face:
    the verdict does not depend on the side the plies are counted
    from. *)
Theorem calculate_fitness_hard_fail_reversal
        (fl : FloatOps) (W : Weights) (s : list Z) :
  s <> [] ->
  ((exists name rsn, calculate_fitness fl W (rev s) = Ok (hard_fail name rsn)) <->
   (exists name rsn, calculate_fitness fl W s = Ok (hard_fail name rsn))).
Proof.
  intros Hne.
  assert (Hne' : rev s <> []).
  { intros E. apply Hne. rewrite <- (rev_involutive s), E. reflexivity. }
  assert (Hiff : forall u, u <> [] ->
            ((exists name rsn, calculate_fitness fl W u = Ok (hard_fail name rsn))
             <-> violates_hard u)).
  { intros u Hu.
    destruct (calculate_fitness_cases fl W u Hu) as [[V [name [rsn H]]]|[V H]].
    - split; [intros _; exact V|intros _]. exists name, rsn. apply H.
    - split; [|tauto]. intros [name [rsn E]]. rewrite H in E.
      assert (E' := f_equal (fun r => match r with
                                      | Ok p => map fst (rules (snd p))
                                      | Raise _ => []
                                      end) E).
      change (map fst (soft_rules fl W u) = [name]) in E'.
      rewrite (proj1 (soft_rules_names fl W u)) in E'. discriminate. }
  rewrite (Hiff (rev s) Hne'), (Hiff s Hne). apply violates_hard_rev.
Qed.

Lemma calculate_fitness_hard_fail_reversal_witness :
  [0; 45; -45]%Z <> [] /\
  ((exists name rsn,
      calculate_fitness approx_float WEIGHTS (rev [0; 45; -45]%Z)
      = Ok (hard_fail name rsn)) <->
   (exists name rsn,
      calculate_fitness approx_float WEIGHTS [0; 45; -45]%Z
      = Ok (hard_fail name rsn))).
Proof.
  split; [discriminate|].
  apply (calculate_fitness_hard_fail_reversal approx_float WEIGHTS [0; 45; -45]%Z).
  discriminate.
Defined.

(** ** The mutation operators *)

Lemma nth_swap_at (l : list Z) (i j k : nat) :
  i < length l -> j < length l ->
  nth k (swap_at l i j) 0%Z
  = if k =? j then nth i l 0%Z else if k =? i then nth j l 0%Z else nth k l 0%Z.
Proof.
  intros Hi Hj. unfold swap_at.
  destruct (Nat.eqb_spec k j) as [->|Hkj].
  - apply nth_set_at_same. now rewrite set_at_length.
  - rewrite nth_set_at_other by congruence.
    destruct (Nat.eqb_spec k i) as [->|Hki].
    + now apply nth_set_at_same.
    + apply nth_set_at_other. congruence.
Qed.

Lemma mirrored_swap_length (s : list Z) (i j : nat) :
  length (mirrored_swap s i j) = length s.
Proof. unfold mirrored_swap. cbv zeta. now rewrite !swap_at_length. Qed.

Lemma nth_mirrored_swap (s : list Z) (i j k : nat) :
  i < length s / 2 -> j < length s / 2 -> i <> j ->
  nth k (mirrored_swap s i j) 0%Z
  = if k =? length s - 1 - j then nth (length s - 1 - i) s 0%Z
    else if k =? length s - 1 - i then nth (length s - 1 - j) s 0%Z
    else if k =? j then nth i s 0%Z
    else if k =? i then nth j s 0%Z
    else nth k s 0%Z.
Proof.
  intros Hi Hj Hij. unfold mirrored_swap. cbv zeta.
  pose proof (Nat.div_mod_eq (length s) 2) as Hdm.
  rewrite nth_swap_at by (rewrite swap_at_length; lia).
  rewrite !(nth_swap_at s i j) by lia.
  destruct (Nat.eqb_spec (length s - 1 - i) j); [lia|].
  destruct (Nat.eqb_spec (length s - 1 - i) i); [lia|].
  destruct (Nat.eqb_spec (length s - 1 - j) j); [lia|].
  destruct (Nat.eqb_spec (length s - 1 - j) i); [lia|].
  reflexivity.
Qed.

Lemma mirrored_swap_involutive (s : list Z) (i j : nat) :
  i < length s / 2 -> j < length s / 2 -> i <> j ->
  mirrored_swap (mirrored_swap s i j) i j = s.
Proof.
  intros Hi Hj Hij.
  pose proof (Nat.div_mod_eq (length s) 2) as Hdm.
  apply (nth_ext _ _ 0%Z 0%Z); [now rewrite !mirrored_swap_length|].
  intros k _.
  rewrite nth_mirrored_swap by (rewrite ?mirrored_swap_length; assumption).
  rewrite mirrored_swap_length.
  rewrite !(nth_mirrored_swap s i j) by assumption.
  repeat match goal with
         | |- context [Nat.eqb ?a ?b] => destruct (Nat.eqb_spec a b)
         end; subst; try reflexivity; try lia.
Qed.

Lemma mirrored_swap_perm (s : list Z) (i j : nat) :
  i < length s / 2 -> j < length s / 2 ->
  Permutation (mirrored_swap s i j) s.
Proof.
  intros Hi Hj. pose proof (Nat.div_mod_eq (length s) 2) as Hdm.
  apply (Permutation_count_occ Z.eq_dec). intros a.
  change (count (mirrored_swap s i j) a = count s a).
  unfold mirrored_swap. cbv zeta.
  rewrite count_swap_at by (rewrite swap_at_length; lia).
  apply count_swap_at; lia.
Qed.

Lemma mirrored_swap_outer (s : list Z) (i j k : nat) :
  2 <= i -> 2 <= j -> i < length s / 2 -> j < length s / 2 -> i <> j ->
  k < 2 \/ length s - 2 <= k ->
  nth k (mirrored_swap s i j) 0%Z = nth k s 0%Z.
Proof.
  intros Hi2 Hj2 Hi Hj Hij Hk.
  pose proof (Nat.div_mod_eq (length s) 2) as Hdm.
  rewrite nth_mirrored_swap by assumption.
  repeat match goal with
         | |- context [Nat.eqb ?a ?b] => destruct (Nat.eqb_spec a b)
         end; try reflexivity; lia.
Qed.

Lemma mirror_is_symmetric (s : list Z) :
  (forall i, i < length s -> nth i s 0%Z = nth (length s - 1 - i) s 0%Z) ->
  _is_symmetric s = true.
Proof.
  intros H. unfold _is_symmetric. cbv zeta. apply forallb_forall.
  intros i Hi. apply in_seq in Hi. apply Z.eqb_eq. apply H.
  pose proof (Nat.div_mod_eq (length s) 2). lia.
Qed.

Lemma mirrored_swap_symmetric (s : list Z) (i j : nat) :
  i < length s / 2 -> j < length s / 2 -> i <> j ->
  _is_symmetric s = true -> _is_symmetric (mirrored_swap s i j) = true.
Proof.
  intros Hi Hj Hij Hsym.
  pose proof (is_symmetric_mirror s Hsym) as Hm.
  pose proof (Nat.div_mod_eq (length s) 2) as Hdm.
  apply mirror_is_symmetric. rewrite mirrored_swap_length. intros k Hk.
  rewrite !nth_mirrored_swap by assumption.
  repeat match goal with
         | |- context [Nat.eqb ?a ?b] => destruct (Nat.eqb_spec a b)
         end;
    first [ exfalso; lia
          | match goal with
            | |- nth ?a s _ = nth ?b s _ =>
                first [ replace b with (length s - 1 - a) by lia; apply Hm; lia
                      | replace a with (length s - 1 - b) by lia;
                        symmetry; apply Hm; lia ]
            end ].
Qed.

Lemma safe_mutation_refl (s : list Z) : safe_mutation s s.
Proof. repeat split; auto. Qed.

Lemma mirrored_swap_safe (s : list Z) (i j : nat) :
  2 <= i -> 2 <= j -> i < length s / 2 -> j < length s / 2 -> i <> j ->
  _has_adjacent_0_90 (mirrored_swap s i j) = false ->
  safe_mutation s (mirrored_swap s i j).
Proof.
  intros Hi2 Hj2 Hi Hj Hij Hclean. repeat split.
  - now apply mirrored_swap_perm.
  - intros k Hk. now apply mirrored_swap_outer.
  - now apply mirrored_swap_symmetric.
  - intros _. exact Hclean.
Qed.

Lemma random_randint_range (a b : nat) (t : Tape) :
  a <= b -> a <= fst (random_randint a b t) <= b.
Proof.
  intros Hab. unfold random_randint. destruct (draw t) as [x t']. cbn [fst].
  pose proof (Nat.mod_upper_bound x (b - a + 1) ltac:(lia)). lia.
Qed.

Lemma random_choice_pair_In (l : list (nat * nat)) (t : Tape) :
  l <> [] -> In (fst (random_choice_pair l t)) l.
Proof.
  intros Hl. unfold random_choice_pair. destruct (draw t) as [x t']. cbn [fst].
  apply nth_In. apply Nat.mod_upper_bound. destruct l; [congruence|cbn; lia].
Qed.

(** X11. [_symmetry_preserving_swap] only reorders the plies; it never
    moves one of the two outer plies of either face, never breaks the
    symmetry of a symmetric stacking and never creates a 0/90 neighbour
    pair in a stacking that had none. *)
Theorem symmetry_preserving_swap_is_safe (s : list Z) (t : Tape) :
  safe_mutation s (fst (_symmetry_preserving_swap s t)).
Proof.
  unfold _symmetry_preserving_swap. cbv zeta.
  destruct (Nat.leb_spec (length s / 2) 2) as [|Hhalf];
    [apply safe_mutation_refl|].
  pose proof (random_randint_range 2 (length s / 2 - 1) t ltac:(lia)) as Hi.
  destruct (random_randint 2 (length s / 2 - 1) t) as [i t1]. cbn [fst] in Hi.
  pose proof (random_randint_range 2 (length s / 2 - 1) t1 ltac:(lia)) as Hj.
  destruct (random_randint 2 (length s / 2 - 1) t1) as [j t2]. cbn [fst] in Hj.
  destruct (Nat.eqb_spec i j) as [|Hij]; [apply safe_mutation_refl|].
  destruct (_has_adjacent_0_90 (mirrored_swap s i j)) eqn:Hadj; cbn [fst].
  - rewrite mirrored_swap_involutive by lia. apply safe_mutation_refl.
  - apply mirrored_swap_safe; [lia|lia|lia|lia|assumption|assumption].
Qed.

(** X12. [_grouping_aware_mutation] is a safe mutation; when it returns
    True the stacking has strictly fewer equal neighbour pairs than
    before and no 0/90 neighbour pair, and when it returns False the
    stacking is unchanged and no random number was drawn. *)
Theorem grouping_aware_mutation_improves (s : list Z) (t : Tape) :
  let '((s', changed), t') := _grouping_aware_mutation s t in
  safe_mutation s s' /\
  (changed = true ->
   _count_groupings s' < _count_groupings s /\ _has_adjacent_0_90 s' = false) /\
  (changed = false -> s' = s /\ t' = t).
Proof.
  unfold _grouping_aware_mutation. cbv zeta.
  destruct (Nat.leb_spec (length s / 2) 2) as [|Hhalf].
  { split; [apply safe_mutation_refl|]. split; [discriminate|auto]. }
  set (good := flat_map _ (seq 2 (length s / 2 - 2))).
  assert (Hgood : forall i j, In (i, j) good ->
            2 <= i /\ i < j /\ j < length s / 2 /\
            _count_groupings (mirrored_swap s i j) < _count_groupings s /\
            _has_adjacent_0_90 (mirrored_swap s i j) = false).
  { intros i j Hin. subst good.
    apply in_flat_map in Hin. destruct Hin as [i' [Hi' Hin]].
    apply in_flat_map in Hin. destruct Hin as [j' [Hj' Hin]].
    apply in_seq in Hi'. apply in_seq in Hj'.
    destruct (_count_groupings (mirrored_swap s i' j') <? _count_groupings s) eqn:Ec;
      cbn [andb] in Hin; [|destruct Hin].
    destruct (_has_adjacent_0_90 (mirrored_swap s i' j')) eqn:Ea;
      cbn [negb] in Hin; [destruct Hin|].
    destruct Hin as [E|[]]. injection E as <- <-.
    apply Nat.ltb_lt in Ec. repeat split; try assumption; lia. }
  destruct good as [|g good'] eqn:Eg.
  { split; [apply safe_mutation_refl|]. split; [discriminate|auto]. }
  pose proof (random_choice_pair_In (g :: good') t ltac:(discriminate)) as Hin.
  destruct (random_choice_pair (g :: good') t) as [[i j] t']. cbn [fst] in Hin.
  destruct (Hgood i j Hin) as [Hi [Hij [Hj [Hc Ha]]]].
  split; [|split; [intros _; now split|discriminate]].
  apply mirrored_swap_safe; [lia|lia|lia|lia|lia|assumption].
Qed.

(** X13. [_balance_aware_mutation] is a safe mutation: it only reorders
    the plies (so the +45 and -45 counts stay as they were), keeps the
    outer plies in place, keeps a symmetric stacking symmetric and
    creates no 0/90 neighbour pair. *)
Theorem balance_aware_mutation_is_safe (s : list Z) (t : Tape) :
  safe_mutation s (fst (_balance_aware_mutation s t)) /\
  count (fst (_balance_aware_mutation s t)) 45 = count s 45 /\
  count (fst (_balance_aware_mutation s t)) (-45) = count s (-45).
Proof.
  assert (Hsafe : safe_mutation s (fst (_balance_aware_mutation s t))).
  { unfold _balance_aware_mutation. cbv zeta.
    set (pos := filter _ (seq 2 (length s / 2 - 2))).
    set (neg := filter (fun i => (nth i s 0 =? -45)%Z) (seq 2 (length s / 2 - 2))).
    destruct pos as [|p pos'] eqn:Ep; [apply safe_mutation_refl|].
    destruct neg as [|q neg'] eqn:Eq; [apply safe_mutation_refl|].
    pose proof (random_choice_In (p :: pos') t ltac:(discriminate)) as H1.
    destruct (random_choice (p :: pos') t) as [i1 t1]. cbn [fst] in H1.
    pose proof (random_choice_In (q :: neg') t1 ltac:(discriminate)) as H2.
    destruct (random_choice (q :: neg') t1) as [i2 t2]. cbn [fst] in H2.
    rewrite <- Ep in H1. rewrite <- Eq in H2. subst pos neg.
    apply filter_In in H1. destruct H1 as [H1 V1].
    apply filter_In in H2. destruct H2 as [H2 V2].
    apply in_seq in H1. apply in_seq in H2.
    apply Z.eqb_eq in V1. apply Z.eqb_eq in V2.
    assert (Hne : i1 <> i2) by (intros ->; lia).
    destruct (_has_adjacent_0_90 (mirrored_swap s i1 i2)) eqn:Hadj; cbn [fst].
    - rewrite mirrored_swap_involutive by lia. apply safe_mutation_refl.
    - apply mirrored_swap_safe; [lia|lia|lia|lia|assumption|assumption]. }
  split; [exact Hsafe|].
  destruct Hsafe as [Hperm _]. split; now apply count_perm.
Qed.

(** ** The geometry of the zones *)

Lemma Qltb_lt_iff (x y : Q) : Qltb x y = true <-> (x < y)%Q.
Proof.
  split; [apply Qltb_true|]. intros H. unfold Qltb.
  destruct (Qle_bool y x) eqn:E; [|reflexivity].
  apply Qle_bool_iff in E. lra.
Qed.

Lemma Qleb_le_iff (x y : Q) : Qleb x y = true <-> (x <= y)%Q.
Proof. unfold Qleb. apply Qle_bool_iff. Qed.

Lemma Qmax_0_pos (d : Q) : (0 < Qmax 0 d <-> 0 < d)%Q.
Proof.
  destruct (Q.max_spec 0 d) as [[H E]|[H E]]; rewrite E; split; intros; lra.
Qed.

Lemma rects_adjacent_spec (x1 y1 x1b y1b x2 y2 x2b y2b threshold : Q) :
  _rects_adjacent (x1, y1, x1b, y1b) (x2, y2, x2b, y2b) threshold = true <->
  ((0 < Qmin y1b y2b - Qmax y1 y2 /\
    0 <= Qmax x1 x2 - Qmin x1b x2b <= threshold) \/
   (0 < Qmin x1b x2b - Qmax x1 x2 /\
    0 <= Qmax y1 y2 - Qmin y1b y2b <= threshold))%Q.
Proof.
  unfold _rects_adjacent. cbv zeta.
  rewrite <- (Qmax_0_pos (Qmin y1b y2b - Qmax y1 y2)).
  rewrite <- (Qmax_0_pos (Qmin x1b x2b - Qmax x1 x2)).
  rewrite <- !Qltb_lt_iff, <- !Qleb_le_iff.
  destruct (Qltb 0 (Qmax 0 (Qmin y1b y2b - Qmax y1 y2))),
    (Qleb 0 (Qmax x1 x2 - Qmin x1b x2b)),
    (Qleb (Qmax x1 x2 - Qmin x1b x2b) threshold),
    (Qltb 0 (Qmax 0 (Qmin x1b x2b - Qmax x1 x2))),
    (Qleb 0 (Qmax y1 y2 - Qmin y1b y2b)),
    (Qleb (Qmax y1 y2 - Qmin y1b y2b) threshold); cbn; intuition congruence.
Qed.

Lemma rects_adjacent_sym (r1 r2 : Q * Q * Q * Q) (threshold : Q) :
  _rects_adjacent r1 r2 threshold = _rects_adjacent r2 r1 threshold.
Proof.
  destruct r1 as [[[x1 y1] x1b] y1b], r2 as [[[x2 y2] x2b] y2b].
  assert (H : _rects_adjacent (x1, y1, x1b, y1b) (x2, y2, x2b, y2b) threshold = true
              <-> _rects_adjacent (x2, y2, x2b, y2b) (x1, y1, x1b, y1b) threshold
                  = true).
  { rewrite !rects_adjacent_spec.
    rewrite (Q.min_comm y1b y2b), (Q.max_comm y1 y2),
      (Q.min_comm x1b x2b), (Q.max_comm x1 x2). reflexivity. }
  destruct (_rects_adjacent (x1, y1, x1b, y1b) _ _),
    (_rects_adjacent (x2, y2, x2b, y2b) _ _); try reflexivity.
  - symmetry. now apply H.
  - now apply H.
Qed.

(** X14. [_rects_adjacent] does not depend on the order of its two
    rectangles. *)
Theorem rects_adjacent_symmetric (r1 r2 : Q * Q * Q * Q) (threshold : Q) :
  _rects_adjacent r1 r2 threshold = _rects_adjacent r2 r1 threshold.
Proof. apply rects_adjacent_sym. Qed.

(** X15. Two rectangles whose interiors intersect (a positive overlap
    on both axes) are never adjacent, whatever the threshold: overlapping
    zones are not neighbours. *)
Theorem rects_adjacent_overlapping_false
        (x1 y1 x1b y1b x2 y2 x2b y2b threshold : Q) :
  (Qmax x1 x2 < Qmin x1b x2b)%Q -> (Qmax y1 y2 < Qmin y1b y2b)%Q ->
  _rects_adjacent (x1, y1, x1b, y1b) (x2, y2, x2b, y2b) threshold = false.
Proof.
  intros Hx Hy.
  destruct (_rects_adjacent _ _ _) eqn:E; [|reflexivity].
  apply rects_adjacent_spec in E. destruct E as [[_ [H _]]|[_ [H _]]]; lra.
Qed.

Lemma rects_adjacent_overlapping_false_witness :
  (Qmax 0 50 < Qmin 100 150)%Q /\ (Qmax 0 50 < Qmin 100 150)%Q /\
  _rects_adjacent (0, 0, 100, 100)%Q (50, 50, 150, 150)%Q 40 = false.
Proof.
  assert (H : (Qmax 0 50 < Qmin 100 150)%Q) by reflexivity.
  split; [exact H|]. split; [exact H|].
  exact (rects_adjacent_overlapping_false 0 0 100 100 50 50 150 150 40 H H).
Defined.

(** X16. Two rectangles that share a piece of a vertical edge (the
    right side of the first is the left side of the second and their
    vertical extents overlap) are adjacent for every threshold >= 0. *)
Theorem rects_adjacent_shared_edge
        (x1 y1 x1b y1b x2 y2 x2b y2b threshold : Q) :
  (x1 <= x1b)%Q -> (x2 <= x2b)%Q -> x1b == x2 ->
  (Qmax y1 y2 < Qmin y1b y2b)%Q -> (0 <= threshold)%Q ->
  _rects_adjacent (x1, y1, x1b, y1b) (x2, y2, x2b, y2b) threshold = true.
Proof.
  intros H1 H2 E Hy Ht. apply rects_adjacent_spec. left.
  split; [lra|].
  assert (Hmax : Qmax x1 x2 == x2) by (apply Q.max_r; lra).
  assert (Hmin : Qmin x1b x2b == x1b) by (apply Q.min_l; lra).
  rewrite Hmax, Hmin. lra.
Qed.

Lemma rects_adjacent_shared_edge_witness :
  (0 <= 100)%Q /\ (100 <= 200)%Q /\ 100 == 100 /\
  (Qmax 0 50 < Qmin 100 150)%Q /\ (0 <= 40)%Q /\
  _rects_adjacent (0, 0, 100, 100)%Q (100, 50, 200, 150)%Q 40 = true.
Proof.
  assert (H1 : (0 <= 100)%Q) by (unfold Qle; cbn; lia).
  assert (H2 : (100 <= 200)%Q) by (unfold Qle; cbn; lia).
  assert (E : 100 == 100) by reflexivity.
  assert (Hy : (Qmax 0 50 < Qmin 100 150)%Q) by reflexivity.
  assert (Ht : (0 <= 40)%Q) by (unfold Qle; cbn; lia).
  repeat (split; [assumption|]).
  exact (rects_adjacent_shared_edge 0 0 100 100 100 50 200 150 40 H1 H2 E Hy Ht).
Defined.

Lemma fold_left_flat_map_nested (A B C : Type) (f : A -> C -> A) (g : B -> list C)
      (l : list B) (a : A) :
  fold_left f (flat_map g l) a = fold_left (fun a b => fold_left f (g b) a) l a.
Proof.
  revert a. induction l as [|b l IH]; intros a; cbn [flat_map fold_left];
    [reflexivity|].
  now rewrite fold_left_app, IH.
Qed.

Lemma fold_left_map_fun (A B C : Type) (f : A -> C -> A) (h : B -> C)
      (l : list B) (a : A) :
  fold_left f (map h l) a = fold_left (fun a x => f a (h x)) l a.
Proof.
  revert a. induction l as [|b l IH]; intros a; cbn [map fold_left];
    [reflexivity|apply IH].
Qed.

Lemma fold_left_ext_eq (A B : Type) (f g : A -> B -> A) (l : list B) (a : A) :
  (forall a x, f a x = g a x) -> fold_left f l a = fold_left g l a.
Proof.
  intros H. revert a. induction l as [|x l IH]; intros a; cbn [fold_left];
    [reflexivity|]. now rewrite H, IH.
Qed.

Lemma compute_neighbors_as_pairs (bounds : list Bounds) :
  compute_neighbors bounds
  = fold_left
      (neighbour_step
         (fun i j => _rects_adjacent (zone_rect bounds i) (zone_rect bounds j)
                                     NEIGHBOR_THRESHOLD_PX))
      (zone_pairs (length bounds)) (repeat [] (length bounds)).
Proof.
  unfold compute_neighbors, zone_pairs. cbv zeta.
  rewrite fold_left_flat_map_nested. apply fold_left_ext_eq. intros g i.
  now rewrite fold_left_map_fun.
Qed.

Lemma zone_pairs_In (n u v : nat) : In (u, v) (zone_pairs n) <-> u < v /\ v < n.
Proof.
  unfold zone_pairs. rewrite in_flat_map. split.
  - intros [i [Hi Hin]]. apply in_map_iff in Hin. destruct Hin as [j [E Hj]].
    injection E as -> ->. apply in_seq in Hi. apply in_seq in Hj. lia.
  - intros [Huv Hv]. exists u. split; [apply in_seq; lia|].
    apply in_map. apply in_seq. lia.
Qed.

Lemma zone_pairs_NoDup (n : nat) : NoDup (zone_pairs n).
Proof.
  unfold zone_pairs. generalize (seq_NoDup n 0). generalize (seq 0 n) as l.
  induction l as [|i l IH]; intros Hnd; cbn [flat_map]; [constructor|].
  inversion Hnd as [|? ? Hnot Hnd']; subst.
  apply NoDup_app.
  - apply Finite.Injective_map_NoDup; [|apply seq_NoDup].
    intros a b E. now injection E.
  - now apply IH.
  - intros [a b] H1 H2. apply in_map_iff in H1. destruct H1 as [j [E _]].
    injection E as <- <-. apply in_flat_map in H2. destruct H2 as [i' [Hi' H2]].
    apply in_map_iff in H2. destruct H2 as [j' [E' _]]. injection E' as -> _.
    contradiction.
Qed.

Lemma append_at_nth (i x u : nat) (g : list (list nat)) :
  i < length g ->
  nth u (append_at i x g) [] = if u =? i then nth u g [] ++ [x] else nth u g [].
Proof.
  revert i u. induction g as [|l g IH]; intros i u Hi; [cbn in Hi; lia|].
  destruct i as [|i], u as [|u]; cbn [append_at nth Nat.eqb]; try reflexivity.
  apply IH. cbn in Hi. lia.
Qed.

Section NeighbourFold.

Variable adj : nat -> nat -> bool.

Lemma neighbour_step_length (g : list (list nat)) (p : nat * nat) :
  length (neighbour_step adj g p) = length g.
Proof.
  destruct p as [i j]. unfold neighbour_step. destruct (adj i j); [|reflexivity].
  now rewrite !append_at_length.
Qed.

Lemma neighbour_step_nth (g : list (list nat)) (i j u : nat) :
  i < length g -> j < length g -> i <> j ->
  nth u (neighbour_step adj g (i, j)) []
  = if adj i j then
      if u =? i then nth u g [] ++ [j]
      else if u =? j then nth u g [] ++ [i] else nth u g []
    else nth u g [].
Proof.
  intros Hi Hj Hij. unfold neighbour_step. destruct (adj i j); [|reflexivity].
  rewrite append_at_nth by (now rewrite append_at_length).
  rewrite append_at_nth by assumption.
  destruct (Nat.eqb_spec u j) as [->|_]; [|reflexivity].
  destruct (Nat.eqb_spec j i); [congruence|reflexivity].
Qed.

Lemma neighbour_fold_In (ps : list (nat * nat)) (g0 : list (list nat)) (u v : nat) :
  (forall p, In p ps -> fst p < snd p /\ snd p < length g0) ->
  (In v (nth u (fold_left (neighbour_step adj) ps g0) []) <->
   In v (nth u g0 []) \/
   (In (u, v) ps /\ adj u v = true) \/
   (In (v, u) ps /\ adj v u = true)).
Proof.
  revert g0. induction ps as [|[i j] ps IH]; intros g0 Hps; cbn [fold_left].
  - cbn. tauto.
  - destruct (Hps (i, j) (or_introl eq_refl)) as [Hij Hj]. cbn [fst snd] in *.
    rewrite IH
      by (intros p Hp; rewrite neighbour_step_length; apply Hps; now right).
    rewrite neighbour_step_nth by lia. cbn [In]. rewrite !pair_equal_spec.
    destruct (adj i j) eqn:Ea;
      [destruct (Nat.eqb_spec u i); [|destruct (Nat.eqb_spec u j)]|];
      rewrite ?in_app_iff; cbn [In];
      intuition (subst; try tauto; try congruence; try lia).
Qed.

Lemma neighbour_fold_NoDup (ps : list (nat * nat)) (g0 : list (list nat)) :
  NoDup ps ->
  (forall p, In p ps -> fst p < snd p /\ snd p < length g0) ->
  (forall u v, In v (nth u g0 []) -> ~ In (u, v) ps /\ ~ In (v, u) ps) ->
  (forall u, NoDup (nth u g0 [])) ->
  forall u, NoDup (nth u (fold_left (neighbour_step adj) ps g0) []).
Proof.
  revert g0. induction ps as [|[i j] ps IH]; intros g0 Hnd Hps Hfresh Hg u;
    cbn [fold_left]; [apply Hg|].
  inversion Hnd as [|? ? Hnot Hnd']; subst.
  destruct (Hps (i, j) (or_introl eq_refl)) as [Hij Hj]. cbn [fst snd] in *.
  assert (Hnot' : ~ In (j, i) ps).
  { intros H. destruct (Hps (j, i) (or_intror H)) as [H' _]. cbn in H'. lia. }
  apply IH.
  - assumption.
  - intros p Hp. rewrite neighbour_step_length. apply Hps. now right.
  - intros a b. rewrite neighbour_step_nth by lia.
    assert (Hold : In b (nth a g0 []) -> ~ In (a, b) ps /\ ~ In (b, a) ps).
    { intros H. destruct (Hfresh a b H) as [H1 H2]. cbn [In] in H1, H2. tauto. }
    destruct (adj i j); [|exact Hold].
    destruct (Nat.eqb_spec a i) as [->|_].
    + rewrite in_app_iff. cbn [In]. intros [H|[<-|[]]]; [now apply Hold|tauto].
    + destruct (Nat.eqb_spec a j) as [->|_]; [|exact Hold].
      rewrite in_app_iff. cbn [In]. intros [H|[<-|[]]]; [now apply Hold|tauto].
  - intros a. rewrite neighbour_step_nth by lia.
    assert (Hsnoc : forall (l : list nat) (x : nat),
               NoDup l -> ~ In x l -> NoDup (l ++ [x])).
    { intros l x Hl Hx. apply NoDup_app; [assumption|repeat constructor; intros []|].
      intros y Hy [<-|[]]. contradiction. }
    destruct (adj i j); [|apply Hg].
    destruct (Nat.eqb_spec a i) as [->|_].
    + apply Hsnoc; [apply Hg|]. intros H. destruct (Hfresh i j H) as [H1 _].
      apply H1. now left.
    + destruct (Nat.eqb_spec a j) as [->|_]; [|apply Hg].
      apply Hsnoc; [apply Hg|]. intros H. destruct (Hfresh j i H) as [_ H2].
      apply H2. now left.
Qed.

End NeighbourFold.

Lemma nth_repeat_nil (n u : nat) : nth u (repeat (@nil nat) n) [] = [].
Proof.
  revert u. induction n as [|n IH]; intros [|u]; cbn; auto.
Qed.

Lemma compute_neighbors_In (bounds : list Bounds) (u v : nat) :
  In v (nth u (compute_neighbors bounds) []) <->
  u < length bounds /\ v < length bounds /\ u <> v /\
  _rects_adjacent (zone_rect bounds u) (zone_rect bounds v) NEIGHBOR_THRESHOLD_PX
  = true.
Proof.
  rewrite compute_neighbors_as_pairs.
  rewrite (neighbour_fold_In
             (fun i j => _rects_adjacent (zone_rect bounds i) (zone_rect bounds j)
                                         NEIGHBOR_THRESHOLD_PX)).
  - rewrite nth_repeat_nil, !zone_pairs_In.
    rewrite (rects_adjacent_sym (zone_rect bounds v) (zone_rect bounds u)).
    cbn [In]. split.
    + intros [[]|[[H E]|[H E]]]; repeat split; try assumption; lia.
    + intros [Hu [Hv [Hne E]]].
      destruct (Nat.lt_ge_cases u v); [right; left|right; right];
        (split; [lia|assumption]).
  - intros [i j] Hp. apply zone_pairs_In in Hp. rewrite repeat_length. cbn. lia.
Qed.

(** X17. The neighbour lists built by [_compute_geometry] are exact:
    zone [v] is listed under zone [u] exactly when both are zones, they
    are different, and their rectangles are adjacent within the 40 px
    threshold. *)
Theorem compute_geometry_neighbours_exact (bounds : list Bounds) (u v : nat) :
  In v (nth u (compute_neighbors bounds) []) <->
  u < length bounds /\ v < length bounds /\ u <> v /\
  _rects_adjacent (zone_rect bounds u) (zone_rect bounds v) NEIGHBOR_THRESHOLD_PX
  = true.
Proof. apply compute_neighbors_In. Qed.

(** X18. The neighbour graph built by [_compute_geometry] is symmetric,
    has no zone as its own neighbour, and lists no neighbour twice. *)
Theorem compute_geometry_graph_is_simple (bounds : list Bounds) :
  (forall u v, In v (nth u (compute_neighbors bounds) []) ->
               In u (nth v (compute_neighbors bounds) [])) /\
  (forall u, ~ In u (nth u (compute_neighbors bounds) [])) /\
  (forall u, NoDup (nth u (compute_neighbors bounds) [])).
Proof.
  split; [|split].
  - intros u v H. apply compute_neighbors_In in H.
    destruct H as [Hu [Hv [Hne E]]]. apply compute_neighbors_In.
    rewrite rects_adjacent_sym. repeat split; auto.
  - intros u H. apply compute_neighbors_In in H. tauto.
  - intros u. rewrite compute_neighbors_as_pairs.
    apply (neighbour_fold_NoDup
             (fun i j => _rects_adjacent (zone_rect bounds i) (zone_rect bounds j)
                                         NEIGHBOR_THRESHOLD_PX)).
    + apply zone_pairs_NoDup.
    + intros [i j] Hp. apply zone_pairs_In in Hp. rewrite repeat_length. cbn. lia.
    + intros a b H. rewrite nth_repeat_nil in H. destruct H.
    + intros a. rewrite nth_repeat_nil. constructor.
Qed.

(** ** The root zone and the connectivity check *)

Lemma index_of_max_first (l pre : list Z) (best_i : nat) (best : Z) :
  best_i < length pre -> nth best_i pre 0%Z = best ->
  (forall k, k < length pre -> (nth k pre 0 <= best)%Z) ->
  (forall k, k < best_i -> (nth k pre 0 < best)%Z) ->
  let r := index_of_max l (length pre) best_i best in
  r < length (pre ++ l) /\
  (forall k, k < length (pre ++ l) ->
             (nth k (pre ++ l) 0 <= nth r (pre ++ l) 0)%Z) /\
  (forall k, k < r -> (nth k (pre ++ l) 0 < nth r (pre ++ l) 0)%Z).
Proof.
  revert pre best_i best.
  induction l as [|x l IH]; intros pre best_i best Hbi Hbest Hmax Hfirst;
    cbn [index_of_max].
  - cbv zeta. rewrite app_nil_r. rewrite Hbest. auto.
  - cbv zeta.
    replace (pre ++ x :: l) with ((pre ++ [x]) ++ l) by (now rewrite <- app_assoc).
    replace (S (length pre)) with (length (pre ++ [x]))
      by (rewrite length_app; cbn; lia).
    assert (Hx : nth (length pre) (pre ++ [x]) 0%Z = x)
      by (rewrite app_nth2, Nat.sub_diag by lia; reflexivity).
    assert (Hpre : forall k, k < length pre ->
                             nth k (pre ++ [x]) 0%Z = nth k pre 0%Z)
      by (intros k Hk; now apply app_nth1).
    destruct (Z.ltb_spec best x) as [Hlt|Hge].
    + apply (IH (pre ++ [x]) (length pre) x).
      * rewrite length_app. cbn. lia.
      * exact Hx.
      * intros k Hk. rewrite length_app in Hk. cbn in Hk.
        destruct (Nat.eq_dec k (length pre)) as [->|Hne]; [rewrite Hx; lia|].
        rewrite Hpre by lia. specialize (Hmax k ltac:(lia)). lia.
      * intros k Hk. rewrite Hpre by lia. specialize (Hmax k Hk). lia.
    + apply (IH (pre ++ [x]) best_i best).
      * rewrite length_app. cbn. lia.
      * rewrite Hpre by lia. exact Hbest.
      * intros k Hk. rewrite length_app in Hk. cbn in Hk.
        destruct (Nat.eq_dec k (length pre)) as [->|Hne]; [rewrite Hx; lia|].
        rewrite Hpre by lia. apply Hmax. lia.
      * intros k Hk. rewrite Hpre by lia. now apply Hfirst.
Qed.

(** X19. [MultiZoneOptimizer.__init__] makes the root the first of the
    thickest zones: the totals are the sums of the zones' ply counts, no
    zone has more plies than the root, and every zone before the root
    has strictly fewer. *)
Theorem init_root_is_first_thickest
        (config : list (list (Z * Z))) (bounds : option (list Bounds))
        (mz : MultiZoneOptimizer) :
  mz_init config bounds = Ok mz ->
  zone_totals mz = map (fun z => fold_left Z.add (map snd z) 0%Z) config /\
  root_index mz < length config /\
  (forall k, k < length config ->
             (nth k (zone_totals mz) 0 <= nth (root_index mz) (zone_totals mz) 0)%Z) /\
  (forall k, k < root_index mz ->
             (nth k (zone_totals mz) 0 < nth (root_index mz) (zone_totals mz) 0)%Z).
Proof.
  unfold mz_init. cbv zeta.
  destruct config as [|z config']; [discriminate|].
  cbn [map]. intros [= <-]. cbn [zone_totals root_index].
  set (t := fold_left Z.add (map snd z) 0%Z).
  set (rest := map (fun z0 => fold_left Z.add (map snd z0) 0%Z) config').
  destruct (index_of_max_first rest [t] 0 t) as [H1 [H2 H3]].
  - cbn. lia.
  - reflexivity.
  - intros k Hk. cbn in Hk. assert (k = 0) as -> by lia. cbn. lia.
  - intros k Hk. lia.
  - cbn [length app] in H1, H2, H3. cbv zeta in H1, H2, H3.
    assert (Hlen : length (z :: config') = S (length rest))
      by (subst rest; rewrite length_map; reflexivity).
    rewrite Hlen. repeat split; assumption.
Qed.

Lemma init_root_is_first_thickest_witness :
  mz_init isolated_config None = Ok isolated_mz_no_geometry /\
  root_index isolated_mz_no_geometry < length isolated_config.
Proof.
  assert (H : mz_init isolated_config None = Ok isolated_mz_no_geometry)
    by reflexivity.
  split; [exact H|].
  exact (proj1 (proj2 (init_root_is_first_thickest isolated_config None _ H))).
Defined.

(** X20. When every zone can be reached from the root through the
    neighbour graph, [optimize_all] does not stop at the connectivity
    check: it goes on to the optimization loop, and returns what the
    loop returns. *)
Theorem optimize_all_connected_proceeds
        (config : list (list (Z * Z))) (bounds : list Bounds)
        (mz : MultiZoneOptimizer) (R : Type)
        (retry_loop : MultiZoneOptimizer -> result R) :
  mz_init config (Some bounds) = Ok mz ->
  bounds <> [] -> length bounds = length config ->
  (forall i, i < length config ->
             reachable (zone_neighbors mz) (root_index mz) i) ->
  optimize_all mz retry_loop
  = match retry_loop mz with
    | Ok r => Some (Ok (Attempted r))
    | Raise e => Some (Raise e)
    end.
Proof.
  intros Hinit Hne Hlen Hreach.
  destruct (mz_init_geometry _ _ _ Hinit Hne Hlen) as [Hcfg [Hroot [Hg Hgne]]].
  assert (Hrange : graph_in_range (length (zones_config mz)) (zone_neighbors mz)).
  { rewrite Hcfg, Hg, <- Hlen. apply compute_neighbors_in_range. }
  rewrite <- Hcfg in Hroot.
  destruct (check_connectivity_spec mz Hgne Hrange Hroot) as [disc [Hcheck [_ Hin]]].
  rewrite Hcfg in Hin.
  assert (Hdisc : disc = []).
  { destruct disc as [|i disc']; [reflexivity|]. exfalso.
    destruct (proj1 (Hin i) (or_introl eq_refl)) as [Hi Hnot].
    apply Hnot. now apply Hreach. }
  subst disc. unfold optimize_all. cbv zeta. rewrite Hcheck. cbn [length Nat.eqb negb].
  destruct (zone_neighbors mz); [congruence|reflexivity].
Qed.

Lemma optimize_all_connected_proceeds_witness :
  mz_init paired_config (Some paired_bounds) = Ok paired_mz /\
  optimize_all paired_mz (fun _ => Ok tt) = Some (Ok (Attempted tt)).
Proof.
  assert (Hinit : mz_init paired_config (Some paired_bounds) = Ok paired_mz)
    by reflexivity.
  split; [exact Hinit|].
  apply (optimize_all_connected_proceeds paired_config paired_bounds paired_mz
           unit (fun _ => Ok tt) Hinit).
  - discriminate.
  - reflexivity.
  - intros i Hi. cbn in Hi.
    destruct i as [|[|i]]; [apply reach_root| |lia].
    apply reach_step with (u := 0); [apply reach_root|cbn; auto].
Defined.

(** X21. Without bounds, with an empty bounds list, or with a bounds
    list whose length differs from the number of zones, no neighbour
    graph is kept and [optimize_all] skips the connectivity check. *)
Theorem optimize_all_without_geometry_skips_check
        (config : list (list (Z * Z))) (bounds : option (list Bounds))
        (mz : MultiZoneOptimizer) (R : Type)
        (retry_loop : MultiZoneOptimizer -> result R) :
  mz_init config bounds = Ok mz ->
  match bounds with
  | None => True
  | Some bs => bs = [] \/ length bs <> length config
  end ->
  zone_neighbors mz = [] /\
  optimize_all mz retry_loop
  = match retry_loop mz with
    | Ok r => Some (Ok (Attempted r))
    | Raise e => Some (Raise e)
    end.
Proof.
  intros Hinit Hb.
  assert (Hn : zone_neighbors mz = []).
  { unfold mz_init in Hinit. cbv zeta in Hinit.
    destruct (map _ config) as [|t rest]; [discriminate|].
    injection Hinit as <-. cbn [zone_neighbors].
    destruct bounds as [[|b bs]|]; try reflexivity.
    destruct Hb as [Hb|Hb]; [discriminate|].
    destruct (Nat.eqb_spec (length (b :: bs)) (length config)); [contradiction|].
    reflexivity. }
  split; [exact Hn|]. unfold optimize_all. cbv zeta. now rewrite Hn.
Qed.

Lemma optimize_all_without_geometry_skips_check_witness :
  mz_init isolated_config (Some [ {| b_x := 0; b_y := 0; b_w := 1; b_h := 1 |} ]%Q)
  = Ok isolated_mz_no_geometry /\
  optimize_all isolated_mz_no_geometry (fun _ => Ok tt) = Some (Ok (Attempted tt)).
Proof.
  assert (Hinit : mz_init isolated_config
                          (Some [ {| b_x := 0; b_y := 0; b_w := 1; b_h := 1 |} ]%Q)
                  = Ok isolated_mz_no_geometry) by reflexivity.
  split; [exact Hinit|].
  assert (Hb : [ {| b_x := 0; b_y := 0; b_w := 1; b_h := 1 |} ]%Q = []
               \/ length [ {| b_x := 0; b_y := 0; b_w := 1; b_h := 1 |} ]%Q
                  <> length isolated_config)
    by (right; discriminate).
  exact (proj2 (optimize_all_without_geometry_skips_check
                  isolated_config (Some _) isolated_mz_no_geometry unit
                  (fun _ => Ok tt) Hinit Hb)).
Defined.

(** ** [optimize_drop] *)

Lemma pop_at_incl (A : Type) (i : nat) (l : list A) (x : A) :
  In x (pop_at i l) -> In x l.
Proof.
  revert i. induction l as [|y l IH]; intros [|i]; cbn; auto.
  intros [H|H]; auto.
  right. now apply (IH i).
Qed.

Lemma random_sample_Z_incl (l : list Z) (k : nat) (t : Tape) (x : Z) :
  In x (fst (random_sample_Z l k t)) -> In x l.
Proof.
  revert l t. induction k as [|k IH]; intros l t; cbn [random_sample_Z];
    [intros []|].
  destruct l as [|y l']; [intros []|].
  destruct (draw t) as [r t1].
  destruct (random_sample_Z (pop_at (r mod length (y :: l')) (y :: l')) k t1)
    as [rest t2] eqn:E.
  cbn [fst]. intros [H|H].
  - subst x. apply nth_In. apply Nat.mod_upper_bound. cbn. lia.
  - apply (pop_at_incl Z (r mod length (y :: l')) (y :: l')).
    apply (IH _ t1). now rewrite E.
Qed.

Lemma random_choice_Z_In (l : list Z) (t : Tape) :
  l <> [] -> In (fst (random_choice_Z l t)) l.
Proof.
  intros Hl. unfold random_choice_Z. destruct (draw t) as [x t']. cbn [fst].
  apply nth_In. apply Nat.mod_upper_bound. destruct l; [congruence|cbn; lia].
Qed.

Lemma range_Z_In (a b i : Z) : In i (range_Z a b) <-> (a <= i < b)%Z.
Proof.
  unfold range_Z. rewrite in_map_iff. split.
  - intros [k [<- Hk]]. apply in_seq in Hk. lia.
  - intros H. exists (Z.to_nat (i - a)). split; [lia|].
    apply in_seq. lia.
Qed.

Lemma select_drops_spec (search_indices : list Z) (break_pair_for_middle : bool)
      (pairs_to_remove : Z) (t t' : Tape) (break_pair_idx : option Z)
      (left_drops : list Z) :
  select_drops search_indices break_pair_for_middle pairs_to_remove t
  = (Some (break_pair_idx, left_drops), t') ->
  (forall i, In i left_drops -> In i search_indices) /\
  (forall b, break_pair_idx = Some b -> In b search_indices).
Proof.
  unfold select_drops.
  set (choice := if break_pair_for_middle then _ else _).
  assert (Hc : forall b t1, choice = (true, Some b, t1) -> In b search_indices).
  { subst choice. intros b t1. destruct break_pair_for_middle; [|discriminate].
    destruct search_indices as [|x l] eqn:El; [discriminate|].
    pose proof (random_choice_Z_In (x :: l) t ltac:(discriminate)) as H.
    destruct (random_choice_Z (x :: l) t) as [b' t1']. cbn [fst] in H.
    intros [= <- <-]. exact H. }
  destruct choice as [[proceed bpi] t1].
  destruct proceed; cbn [negb]; [|discriminate].
  match goal with
  | |- (let '(left_drops, t2) := ?e in _) = _ -> _ => destruct e as [ld t2] eqn:E
  end.
  intros [= <- <- <-]. split.
  - intros i Hi.
    destruct ((0 <? pairs_to_remove)%Z && (0 <? length search_indices));
      [|injection E as <- _; destruct Hi].
    destruct (0 <? Z.min pairs_to_remove _)%Z; [|injection E as <- _; destruct Hi].
    match type of E with
    | (let '(sample, t2) := ?e in _) = _ => destruct e as [smp t3] eqn:Es
    end.
    injection E as <- _. apply (proj1 (sorted_Z_In _ _)) in Hi.
    assert (Hs : In i (fst (random_sample_Z
                              (filter (fun i0 => match bpi with
                                                 | Some b => negb (i0 =? b)%Z
                                                 | None => true
                                                 end) search_indices)
                              (Z.to_nat (Z.min pairs_to_remove
                                 (Z.of_nat (length (filter (fun i0 =>
                                    match bpi with
                                    | Some b => negb (i0 =? b)%Z
                                    | None => true
                                    end) search_indices))))) t1)))
      by (rewrite Es; exact Hi).
    apply random_sample_Z_incl in Hs. apply filter_In in Hs. apply Hs.
  - intros b ->. now apply (Hc b t1).
Qed.

Lemma py_getitem_raise (l : list Z) (i : Z) (e : exn) :
  py_getitem l i = Raise e -> e = IndexError.
Proof.
  unfold py_getitem. cbv zeta.
  destruct (_ || _)%bool; [now intros [= <-]|].
  destruct (nth_error l _); [discriminate|now intros [= <-]].
Qed.

Lemma getitems_raise (l idxs : list Z) (e : exn) :
  getitems l idxs = Raise e -> e = IndexError.
Proof.
  induction idxs as [|i rest IH]; cbn [getitems]; [discriminate|].
  unfold bind. destruct (py_getitem l i) eqn:E.
  - destruct (getitems l rest); [discriminate|]. intros [= <-]. now apply IH.
  - intros [= <-]. now apply (py_getitem_raise l i).
Qed.

Lemma positive_fitness_is_soft (fl : FloatOps) (W : Weights) (s : list Z)
      (sc : Q) (bd : Breakdown) :
  calculate_fitness fl W s = Ok (sc, bd) -> (0 < sc)%Q ->
  rules bd = soft_rules fl W s.
Proof.
  intros E Hpos.
  destruct s as [|x s']; [discriminate|].
  destruct (calculate_fitness_cases fl W (x :: s') ltac:(discriminate))
    as [[_ [name [rsn H]]]|[_ H]].
  - rewrite (H fl W) in E. injection E as <- _. exfalso. revert Hpos.
    apply Qlt_irrefl.
  - rewrite H in E.
    assert (E' := f_equal (fun r => match r with
                                    | Ok p => rules (snd p)
                                    | Raise _ => []
                                    end) E).
    cbv beta iota in E'. symmetry. exact E'.
Qed.

Lemma soft_rules_have_R1_R8 (fl : FloatOps) (W : Weights) (s : list Z) :
  rules_get (soft_rules fl W s) "R1" <> None /\
  rules_get (soft_rules fl W s) "R8" <> None.
Proof. split; discriminate. Qed.

Section OptimizeDropFacts.

Variable fl : FloatOps.
Variable W : Weights.

Lemma judge_candidate_spec (temp_seq all_drops : list Z) (spacing_std : Q)
      (dropped_angles_left : list Z) (total_score : Q) (details : Breakdown)
      (key : list Q) (cand dropped : list Z) :
  judge_candidate temp_seq all_drops spacing_std dropped_angles_left
                  total_score details
  = Candidate key cand dropped ->
  cand = temp_seq /\ dropped = all_drops /\ (0 < total_score)%Q /\
  _find_groups_of_size temp_seq 4 + _find_groups_of_size temp_seq 5 = 0 /\
  _find_groups_of_size temp_seq 3 <= 3 /\
  (nth 10 key 0%Q = inject_Z 0 \/ nth 10 key 0%Q = inject_Z (-1)).
Proof.
  unfold judge_candidate. cbv zeta.
  destruct (Qleb total_score 0) eqn:Esc; [discriminate|].
  destruct (Nat.ltb_spec 0 (_find_groups_of_size temp_seq 4
                            + _find_groups_of_size temp_seq 5)); [discriminate|].
  destruct (Nat.ltb_spec 3 (_find_groups_of_size temp_seq 3)); [discriminate|].
  destruct (2 <? count_rule_violations (rules details)); [discriminate|].
  destruct (rules_get (rules details) "R1"); [|discriminate].
  destruct (rules_get (rules details) "R8"); [|discriminate].
  intros [= <- <- <-].
  split; [reflexivity|]. split; [reflexivity|].
  split; [now apply Qleb_false|]. split; [lia|]. split; [lia|].
  cbn [nth]. destruct (0 <? count dropped_angles_left 0); auto.
Qed.

Lemma judge_candidate_abort (temp_seq all_drops : list Z) (spacing_std : Q)
      (dropped_angles_left : list Z) (total_score : Q) (details : Breakdown)
      (e : py_exn) :
  judge_candidate temp_seq all_drops spacing_std dropped_angles_left
                  total_score details = Aborted e ->
  (0 < total_score)%Q /\
  (rules_get (rules details) "R1" = None \/ rules_get (rules details) "R8" = None).
Proof.
  unfold judge_candidate. cbv zeta.
  destruct (Qleb total_score 0) eqn:Esc; [discriminate|].
  destruct (0 <? _); [discriminate|].
  destruct (3 <? _); [discriminate|].
  destruct (2 <? _); [discriminate|].
  split; [now apply Qleb_false|].
  destruct (rules_get (rules details) "R1"); [|now left].
  destruct (rules_get (rules details) "R8"); [discriminate|now right].
Qed.

Lemma evaluate_drops_spec (opt : DropOffOptimizer) (drop_middle : bool)
      (middle_idx : option Z) (break_pair_for_middle : bool)
      (break_pair_idx : option Z) (left_drops : list Z)
      (key : list Q) (cand dropped : list Z) :
  evaluate_drops fl W opt drop_middle middle_idx break_pair_for_middle
                 break_pair_idx left_drops = Candidate key cand dropped ->
  dropped = all_drops_of (total_plies opt) drop_middle middle_idx
                         break_pair_for_middle break_pair_idx left_drops /\
  cand = remove_positions (master_sequence opt) dropped /\
  (exists sc bd, calculate_fitness fl W cand = Ok (sc, bd) /\ (0 < sc)%Q) /\
  _find_groups_of_size cand 4 + _find_groups_of_size cand 5 = 0 /\
  _find_groups_of_size cand 3 <= 3 /\
  (nth 10 key 0%Q = inject_Z 0 \/ nth 10 key 0%Q = inject_Z (-1)).
Proof.
  unfold evaluate_drops. cbv zeta.
  destruct (_ && has_consecutive_Z left_drops); [discriminate|].
  destruct (_ && Qltb _ _); [discriminate|].
  destruct (getitems _ _) as [dal|e]; [|discriminate].
  destruct (_ && (2 <? length dal)); [discriminate|].
  destruct (3 <? count dal 90); [discriminate|].
  destruct (_ && _ && _); [discriminate|].
  match goal with
  | |- (if ?c then _ else _) = _ -> _ => destruct c; [discriminate|]
  end.
  destruct (calculate_fitness fl W _) as [[sc bd]|e] eqn:Ef; [|discriminate].
  intros Hj. apply judge_candidate_spec in Hj.
  destruct Hj as [-> [-> [Hpos [H4 [H3 Hk]]]]].
  split; [reflexivity|]. split; [reflexivity|].
  split; [exists sc, bd; split; assumption|].
  split; [assumption|]. split; assumption.
Qed.

Lemma evaluate_drops_abort (opt : DropOffOptimizer) (drop_middle : bool)
      (middle_idx : option Z) (break_pair_for_middle : bool)
      (break_pair_idx : option Z) (left_drops : list Z) (e : py_exn) :
  evaluate_drops fl W opt drop_middle middle_idx break_pair_for_middle
                 break_pair_idx left_drops = Aborted e ->
  e = Raised IndexError.
Proof.
  unfold evaluate_drops. cbv zeta.
  destruct (_ && has_consecutive_Z left_drops); [discriminate|].
  destruct (_ && Qltb _ _); [discriminate|].
  destruct (getitems _ _) as [dal|e'] eqn:Eg.
  2: { intros [= <-]. now rewrite (getitems_raise _ _ _ Eg). }
  destruct (_ && (2 <? length dal)); [discriminate|].
  destruct (3 <? count dal 90); [discriminate|].
  destruct (_ && _ && _); [discriminate|].
  match goal with
  | |- (if ?c then _ else _) = _ -> _ => destruct c; [discriminate|]
  end.
  destruct (calculate_fitness fl W _) as [[sc bd]|e'] eqn:Ef.
  - intros Hj. apply judge_candidate_abort in Hj. destruct Hj as [Hpos Hnone].
    exfalso. rewrite (positive_fitness_is_soft fl W _ sc bd Ef Hpos) in Hnone.
    destruct (soft_rules_have_R1_R8 fl W
                (remove_positions (master_sequence opt)
                   (all_drops_of (total_plies opt) drop_middle middle_idx
                      break_pair_for_middle break_pair_idx left_drops)))
      as [H1 H8].
    destruct Hnone; contradiction.
  - intros [= <-]. apply calculate_fitness_raise in Ef. now destruct Ef as [_ ->].
Qed.

Lemma drop_loop_spec (attempts : nat) (opt : DropOffOptimizer) (drop_middle : bool)
      (middle_idx : option Z) (break_pair_for_middle : bool)
      (pairs_to_remove : Z) (search_indices : list Z) (best : DropBest) (t : Tape) :
  good_drop_best fl W opt drop_middle middle_idx break_pair_for_middle
                 search_indices best ->
  match drop_loop fl W attempts opt drop_middle middle_idx break_pair_for_middle
                  pairs_to_remove search_indices best t with
  | Returns best' _ =>
      good_drop_best fl W opt drop_middle middle_idx break_pair_for_middle
                     search_indices best'
  | Raises e => e = Raised IndexError
  end.
Proof.
  revert best t. induction attempts as [|k IH]; intros best t Hbest;
    cbn [drop_loop]; [exact Hbest|].
  cbv zeta.
  destruct (select_drops search_indices break_pair_for_middle pairs_to_remove t)
    as [[[bpi left]|] t1] eqn:Es; [|now apply IH].
  destruct (select_drops_spec _ _ _ _ _ _ _ Es) as [Hleft Hbpi].
  destruct (evaluate_drops fl W opt drop_middle middle_idx break_pair_for_middle
                           bpi left) as [|key cand dropped|e] eqn:Ee.
  - now apply IH.
  - apply evaluate_drops_spec in Ee.
    destruct Ee as [Hd [Hc [Hf [H4 [H3 Hk]]]]].
    assert (Hnew : good_drop_best fl W opt drop_middle middle_idx
                     break_pair_for_middle search_indices
                     (Some (key, cand, dropped))).
    { cbn. repeat (split; [assumption|]). exists bpi, left. auto. }
    destruct best as [[[bk bc] bd]|]; [|now apply IH].
    destruct (key_ltb key bk); now apply IH.
  - now apply (evaluate_drops_abort _ _ _ _ _ _ _ Ee).
Qed.

Lemma optimize_drop_cases (opt : DropOffOptimizer) (target_ply : Z) (t : Tape) :
  match optimize_drop fl W opt target_ply t with
  | Raises e => e = Raised IndexError
  | Returns (child, sc, dropped) _ =>
      (child = master_sequence opt /\ sc = 0%Q /\ dropped = []) \/
      exists key drop_middle break_pair_for_middle,
        sc = (nth 10 key 0 * (-1))%Q /\
        (drop_middle = true -> (total_plies opt mod 2 = 1)%Z) /\
        good_drop_best fl W opt drop_middle
          (if (total_plies opt mod 2 =? 1)%Z then Some (total_plies opt / 2)%Z
           else None)
          break_pair_for_middle (range_Z 2 (total_plies opt / 2))
          (Some (key, child, dropped))
  end.
Proof.
  unfold optimize_drop. cbv zeta.
  destruct (total_plies opt - target_ply <=? 0)%Z; [left; auto|].
  set (strategy := if (_ && _)%bool then _ else _).
  assert (Hs : fst (fst strategy) = true -> (total_plies opt mod 2 = 1)%Z).
  { subst strategy.
    destruct (Z.eqb_spec (total_plies opt mod 2) 1) as [E|E]; cbn [andb negb].
    - intros _. exact E.
    - destruct (target_ply mod 2 =? 1)%Z; cbn; discriminate. }
  destruct strategy as [[drop_middle bp] ptr]. cbn [fst] in Hs.
  pose proof (drop_loop_spec DROP_OFF_ATTEMPTS opt drop_middle
                (if (total_plies opt mod 2 =? 1)%Z
                 then Some (total_plies opt / 2)%Z else None)
                bp ptr (range_Z 2 (total_plies opt / 2)) None t I) as H.
  destruct (drop_loop fl W DROP_OFF_ATTEMPTS opt drop_middle _ bp ptr _ None t)
    as [[[[key cand] dropped]|] t'|e]; [|left; auto|exact H].
  right. exists key, drop_middle, bp. auto.
Qed.

End OptimizeDropFacts.

(** X23. The score [optimize_drop] returns is never the fitness of the
    child: it is element 10 of the selection key negated, the flag
    that tells whether a 0-degree ply was dropped, so it is 0 or 1 on
    every return. *)
Theorem optimize_drop_score_is_zero_or_one
        (fl : FloatOps) (W : Weights) (opt : DropOffOptimizer) (target_ply : Z)
        (t t' : Tape) (child dropped : list Z) (sc : Q) :
  optimize_drop fl W opt target_ply t = Returns (child, sc, dropped) t' ->
  sc == 0 \/ sc == 1.
Proof.
  intros E. pose proof (optimize_drop_cases fl W opt target_ply t) as H.
  rewrite E in H. destruct H as [[_ [-> _]]|[key [dm [bp [-> [_ Hg]]]]]].
  - left. reflexivity.
  - destruct Hg as [[Hk|Hk] _]; rewrite Hk; [left|right]; reflexivity.
Qed.

Lemma optimize_drop_score_is_zero_or_one_witness :
  optimize_drop approx_float WEIGHTS (dropoff_init [45; -45; 0; 0; -45; 45]%Z) 4 []
  = Returns ([45; -45; -45; 45]%Z, 1%Q, [2; 3]%Z) [] /\
  (1%Q == 0 \/ 1%Q == 1).
Proof.
  assert (E : optimize_drop approx_float WEIGHTS
                (dropoff_init [45; -45; 0; 0; -45; 45]%Z) 4 []
              = Returns ([45; -45; -45; 45]%Z, 1%Q, [2; 3]%Z) [])
    by (vm_compute; reflexivity).
  split; [exact E|].
  exact (optimize_drop_score_is_zero_or_one approx_float WEIGHTS _ 4 [] []
           _ _ _ E).
Defined.

Lemma insert_Z_ascending (x : Z) (l : list Z) :
  ascending l -> ascending (insert_Z x l).
Proof.
  induction l as [|y l IH]; cbn [insert_Z]; [exact (fun H => H)|].
  intros Hl. destruct (Z.leb_spec x y) as [Hxy|Hxy].
  - split; assumption.
  - destruct l as [|z l'].
    + cbn. split; [lia|exact I].
    + destruct Hl as [Hyz Hl]. specialize (IH Hl). cbn [insert_Z] in IH |- *.
      destruct (Z.leb_spec x z); (split; [lia|assumption]).
Qed.

Lemma sorted_Z_ascending (l : list Z) : ascending (sorted_Z l).
Proof.
  induction l as [|x l IH]; [exact I|].
  apply insert_Z_ascending. exact IH.
Qed.

Lemma all_drops_of_In (total : Z) (drop_middle : bool) (middle_idx : option Z)
      (break_pair_for_middle : bool) (break_pair_idx : option Z)
      (left_drops : list Z) (i : Z) :
  In i (all_drops_of total drop_middle middle_idx break_pair_for_middle
                     break_pair_idx left_drops) ->
  (exists l, In l left_drops /\ (i = l \/ i = total - 1 - l)%Z) \/
  (drop_middle = true /\ middle_idx = Some i) \/
  (exists b, break_pair_idx = Some b /\ i = (total - 1 - b)%Z).
Proof.
  unfold all_drops_of. cbv zeta. intros H.
  apply (proj1 (sorted_Z_In _ _)) in H.
  assert (Hflat : In i (flat_map (fun idx => [idx; (total - 1 - idx)%Z]) left_drops) ->
                  exists l, In l left_drops /\ (i = l \/ i = total - 1 - l)%Z).
  { intros Hi. apply in_flat_map in Hi. destruct Hi as [l [Hl Hi]].
    exists l. split; [exact Hl|]. cbn in Hi. intuition. }
  assert (Hmid : In i (match drop_middle, middle_idx with
                       | true, Some m =>
                           flat_map (fun idx => [idx; (total - 1 - idx)%Z]) left_drops
                                    ++ [m]
                       | _, _ =>
                           flat_map (fun idx => [idx; (total - 1 - idx)%Z]) left_drops
                       end) ->
                 (exists l, In l left_drops /\ (i = l \/ i = total - 1 - l)%Z) \/
                 (drop_middle = true /\ middle_idx = Some i)).
  { destruct drop_middle; [destruct middle_idx as [m|]|]; auto.
    intros Hi. apply in_app_or in Hi. destruct Hi as [Hi|[<-|[]]]; auto. }
  destruct break_pair_for_middle; [destruct break_pair_idx as [b|]|].
  - apply in_app_or in H. destruct H as [H|[<-|[]]].
    + destruct (Hmid H); auto.
    + right; right. exists b. auto.
  - destruct (Hmid H); auto.
  - destruct (Hmid H); auto.
Qed.

Lemma getitems_in_range (l idxs : list Z) :
  (forall i, In i idxs -> (0 <= i < Z.of_nat (length l))%Z) ->
  exists xs, getitems l idxs = Ok xs.
Proof.
  induction idxs as [|i rest IH]; intros H; cbn [getitems]; [now exists []|].
  destruct (H i (or_introl eq_refl)) as [Hlo Hhi].
  destruct l as [|d l0] eqn:El; [cbn in Hhi; lia|]. rewrite <- El in *.
  destruct IH as [xs Hxs]; [intros j Hj; apply H; now right|].
  assert (Hi : py_getitem l i = Ok (nth (Z.to_nat i) l d)).
  { rewrite <- (Z2Nat.id i Hlo) at 1. apply py_getitem_nat. lia. }
  unfold bind. rewrite Hi, Hxs. eexists. reflexivity.
Qed.

Lemma remove_positions_keeps_first (x : Z) (l drops : list Z) :
  ~ In 0%Z drops -> remove_positions (x :: l) drops <> [].
Proof.
  intros H0. unfold remove_positions. cbn [length seq combine filter fst Z.of_nat].
  destruct (existsb (Z.eqb 0) drops) eqn:E.
  - apply existsb_exists in E. destruct E as [y [Hy Ey]].
    apply Z.eqb_eq in Ey. subst y. contradiction.
  - cbn. discriminate.
Qed.

(** The comprehension that builds [temp_seq], started at position [k]. *)
Lemma remove_from_app (drops l1 l2 : list Z) (k : nat) :
  map snd (filter (fun p => negb (existsb (Z.eqb (Z.of_nat (fst p))) drops))
                  (combine (seq k (length (l1 ++ l2))) (l1 ++ l2)))
  = map snd (filter (fun p => negb (existsb (Z.eqb (Z.of_nat (fst p))) drops))
                    (combine (seq k (length l1)) l1))
    ++ map snd (filter (fun p => negb (existsb (Z.eqb (Z.of_nat (fst p))) drops))
                       (combine (seq (k + length l1) (length l2)) l2)).
Proof.
  revert k. induction l1 as [|x l1 IH]; intros k.
  - cbn [app length seq combine filter map]. now rewrite Nat.add_0_r.
  - cbn [app length seq combine filter].
    rewrite <- Nat.add_succ_comm.
    destruct (negb _); cbn [map app]; now rewrite IH.
Qed.

Lemma remove_from_untouched (drops l : list Z) (k : nat) :
  (forall i, In i drops ->
             (i < Z.of_nat k \/ Z.of_nat (k + length l) <= i)%Z) ->
  map snd (filter (fun p => negb (existsb (Z.eqb (Z.of_nat (fst p))) drops))
                  (combine (seq k (length l)) l)) = l.
Proof.
  revert k. induction l as [|x l IH]; intros k H; [reflexivity|].
  cbn [length seq combine filter fst].
  destruct (existsb (Z.eqb (Z.of_nat k)) drops) eqn:E.
  - exfalso. apply existsb_exists in E. destruct E as [y [Hy Ey]].
    apply Z.eqb_eq in Ey. subst y. specialize (H _ Hy). cbn [length] in H. lia.
  - cbn [negb map snd]. f_equal. apply IH.
    intros i Hi. specialize (H i Hi). cbn [length] in H. lia.
Qed.

Lemma remove_positions_inner (pre mid post drops : list Z) :
  (forall i, In i drops ->
             (Z.of_nat (length pre) <= i < Z.of_nat (length pre + length mid))%Z) ->
  exists mid', remove_positions (pre ++ mid ++ post) drops = pre ++ mid' ++ post.
Proof.
  intros H. unfold remove_positions.
  rewrite (remove_from_app drops pre (mid ++ post) 0).
  rewrite (remove_from_app drops mid post (0 + length pre)).
  rewrite (remove_from_untouched drops pre 0)
    by (intros i Hi; specialize (H i Hi); lia).
  rewrite (remove_from_untouched drops post (0 + length pre + length mid))
    by (intros i Hi; specialize (H i Hi); lia).
  eexists. reflexivity.
Qed.

Section OptimizeDropInit.

Variable fl : FloatOps.
Variable W : Weights.

Lemma init_drops_in_range (s : list Z) (drop_middle : bool)
      (break_pair_for_middle : bool) (break_pair_idx : option Z)
      (left_drops : list Z) (i : Z) :
  let n := Z.of_nat (length s) in
  (drop_middle = true -> (n mod 2 = 1)%Z) ->
  (forall l, In l left_drops -> In l (range_Z 2 (n / 2))) ->
  (forall b, break_pair_idx = Some b -> In b (range_Z 2 (n / 2))) ->
  In i (all_drops_of n drop_middle
                     (if (n mod 2 =? 1)%Z then Some (n / 2)%Z else None)
                     break_pair_for_middle break_pair_idx left_drops) ->
  ((2 <= i <= n - 3)%Z \/ (i = n / 2 /\ n mod 2 = 1)%Z) /\ (1 <= i \/ n = 1)%Z.
Proof.
  intros n Hdm Hleft Hbpi Hi.
  apply all_drops_of_In in Hi.
  destruct Hi as [[l [Hl Hi]]|[[Hd Hm]|[b [Hb Hi]]]].
  - apply Hleft in Hl. apply range_Z_In in Hl.
    assert (n = 2 * (n / 2) + n mod 2)%Z by (apply Z.div_mod; lia).
    assert (0 <= n mod 2 < 2)%Z by (apply Z.mod_pos_bound; lia).
    split; [left|left]; lia.
  - specialize (Hdm Hd). destruct (Z.eqb_spec (n mod 2) 1); [|lia].
    injection Hm as <-. split; [right; auto|].
    assert (n = 2 * (n / 2) + n mod 2)%Z by (apply Z.div_mod; lia).
    assert (0 <= n / 2)%Z by (apply Z.div_pos; lia).
    lia.
  - apply Hbpi in Hb. apply range_Z_In in Hb.
    assert (n = 2 * (n / 2) + n mod 2)%Z by (apply Z.div_mod; lia).
    assert (0 <= n mod 2 < 2)%Z by (apply Z.mod_pos_bound; lia).
    split; [left|left]; lia.
Qed.

Lemma evaluate_drops_init_no_abort (s : list Z) (drop_middle : bool)
      (break_pair_for_middle : bool) (break_pair_idx : option Z)
      (left_drops : list Z) (e : py_exn) :
  let n := Z.of_nat (length s) in
  2 <= length s ->
  (drop_middle = true -> (n mod 2 = 1)%Z) ->
  (forall l, In l left_drops -> In l (range_Z 2 (n / 2))) ->
  (forall b, break_pair_idx = Some b -> In b (range_Z 2 (n / 2))) ->
  evaluate_drops fl W (dropoff_init s) drop_middle
                 (if (n mod 2 =? 1)%Z then Some (n / 2)%Z else None)
                 break_pair_for_middle break_pair_idx left_drops
  <> Aborted e.
Proof.
  intros n Hn Hdm Hleft Hbpi.
  assert (Hdiv : (n = 2 * (n / 2) + n mod 2)%Z) by (apply Z.div_mod; lia).
  assert (Hmod : (0 <= n mod 2 < 2)%Z) by (apply Z.mod_pos_bound; lia).
  assert (Hn2 : (2 <= n)%Z) by (unfold n; lia).
  unfold evaluate_drops. cbv zeta.
  cbn [master_sequence total_plies dropoff_init]. fold n.
  destruct (_ && has_consecutive_Z left_drops); [discriminate|].
  destruct (_ && Qltb _ _); [discriminate|].
  match goal with
  | |- match getitems s ?idxs with _ => _ end <> _ =>
      destruct (getitems_in_range s idxs) as [dal Hdal]
  end.
  { intros i Hi. fold n. apply in_app_or in Hi. destruct Hi as [Hi|Hi].
    - apply Hleft in Hi. apply range_Z_In in Hi. lia.
    - apply in_app_or in Hi. destruct Hi as [Hi|Hi].
      + destruct drop_middle; [|destruct Hi].
        destruct (n mod 2 =? 1)%Z; [|destruct Hi].
        destruct Hi as [<-|[]]. lia.
      + destruct break_pair_for_middle; [|destruct Hi].
        destruct break_pair_idx as [b|]; [|destruct Hi].
        destruct Hi as [<-|[]].
        specialize (Hbpi b eq_refl). apply range_Z_In in Hbpi. lia. }
  rewrite Hdal.
  destruct (_ && (2 <? length dal)); [discriminate|].
  destruct (3 <? count dal 90); [discriminate|].
  destruct (_ && _ && _); [discriminate|].
  match goal with
  | |- (if ?c then _ else _) <> _ => destruct c; [discriminate|]
  end.
  destruct (calculate_fitness fl W _) as [[sc bd]|e'] eqn:Ef.
  - intros Hj. apply judge_candidate_abort in Hj. destruct Hj as [Hpos Hnone].
    rewrite (positive_fitness_is_soft fl W _ sc bd Ef Hpos) in Hnone.
    destruct Hnone; discriminate.
  - intros _. apply calculate_fitness_raise in Ef. destruct Ef as [Ef _].
    destruct s as [|x s']; [cbn in Hn; lia|].
    revert Ef. apply remove_positions_keeps_first.
    intros H0.
    destruct (init_drops_in_range (x :: s') drop_middle break_pair_for_middle
                break_pair_idx left_drops 0%Z Hdm Hleft Hbpi H0) as [_ H].
    fold n in H. lia.
Qed.

Lemma drop_loop_init_returns (attempts : nat) (s : list Z) (drop_middle : bool)
      (break_pair_for_middle : bool) (pairs_to_remove : Z)
      (best : DropBest) (t : Tape) :
  let n := Z.of_nat (length s) in
  2 <= length s ->
  (drop_middle = true -> (n mod 2 = 1)%Z) ->
  exists best' t',
    drop_loop fl W attempts (dropoff_init s) drop_middle
              (if (n mod 2 =? 1)%Z then Some (n / 2)%Z else None)
              break_pair_for_middle pairs_to_remove (range_Z 2 (n / 2)) best t
    = Returns best' t'.
Proof.
  intros n Hn Hdm. revert best t.
  induction attempts as [|k IH]; intros best t; cbn [drop_loop];
    [now exists best, t|].
  cbv zeta.
  destruct (select_drops (range_Z 2 (n / 2)) break_pair_for_middle
                         pairs_to_remove t)
    as [[[bpi left]|] t1] eqn:Es; [|now apply IH].
  destruct (select_drops_spec _ _ _ _ _ _ _ Es) as [Hleft Hbpi].
  pose proof (fun e => evaluate_drops_init_no_abort s drop_middle
                         break_pair_for_middle bpi left e Hn Hdm Hleft Hbpi)
    as Hno.
  fold n in Hno.
  destruct (evaluate_drops fl W (dropoff_init s) drop_middle _
                           break_pair_for_middle bpi left)
    as [|key cand dropped|e].
  - now apply IH.
  - destruct best as [[[bk bc] bd]|]; [|now apply IH].
    destruct (key_ltb key bk); now apply IH.
  - exfalso. now apply (Hno e).
Qed.

Lemma optimize_drop_init_returns (s : list Z) (target_ply : Z) (t : Tape) :
  2 <= length s ->
  exists r t', optimize_drop fl W (dropoff_init s) target_ply t = Returns r t'.
Proof.
  intros Hn. unfold optimize_drop. cbv zeta.
  cbn [master_sequence total_plies dropoff_init].
  set (n := Z.of_nat (length s)).
  destruct (n - target_ply <=? 0)%Z; [now eexists; eexists|].
  set (strategy := if (_ && _)%bool then _ else _).
  assert (Hs : fst (fst strategy) = true -> (n mod 2 = 1)%Z).
  { subst strategy.
    destruct (Z.eqb_spec (n mod 2) 1) as [E|E]; cbn [andb negb].
    - intros _. exact E.
    - destruct (target_ply mod 2 =? 1)%Z; cbn; discriminate. }
  destruct strategy as [[drop_middle bp] ptr]. cbn [fst] in Hs.
  destruct (drop_loop_init_returns DROP_OFF_ATTEMPTS s drop_middle bp ptr None t
              Hn Hs) as [best' [t' E]].
  fold n in E. rewrite E.
  destruct best' as [[[key cand] dropped]|]; eexists; eexists; reflexivity.
Qed.

Lemma optimize_drop_init_drops (s : list Z) (target_ply : Z) (t t' : Tape)
      (child dropped : list Z) (sc : Q) :
  let n := Z.of_nat (length s) in
  optimize_drop fl W (dropoff_init s) target_ply t
  = Returns (child, sc, dropped) t' ->
  (child = s /\ dropped = []) \/
  (child = remove_positions s dropped /\
   forall i, In i dropped ->
             (2 <= i <= n - 3)%Z \/ (i = n / 2 /\ n mod 2 = 1)%Z).
Proof.
  intros n E.
  pose proof (optimize_drop_cases fl W (dropoff_init s) target_ply t) as H.
  rewrite E in H. cbn [master_sequence total_plies dropoff_init] in H. fold n in H.
  destruct H as [[-> [_ ->]]|[key [dm [bp [_ [Hdm Hg]]]]]]; [left; auto|].
  right. destruct Hg as [_ [Hc [_ [_ [_ [bpi [left [Hleft [Hbpi Hd]]]]]]]]].
  cbn [master_sequence total_plies dropoff_init] in Hc, Hd. fold n in Hd.
  split; [exact Hc|]. intros i Hi. rewrite Hd in Hi.
  now destruct (init_drops_in_range s dm bp bpi left i Hdm Hleft Hbpi Hi).
Qed.

End OptimizeDropInit.

(** X24. Whatever [optimize_drop] returns is either the master
    sequence with no dropped index, or a child that is the master without
    the returned positions, which are in ascending order; that child has a
    positive fitness (so it passes the hard constraints), no run of
    exactly 4 or 5 equal plies and at most three runs of exactly 3. *)
Theorem optimize_drop_returns_master_or_scored_child
        (fl : FloatOps) (W : Weights) (opt : DropOffOptimizer) (target_ply : Z)
        (t t' : Tape) (child dropped : list Z) (sc : Q) :
  optimize_drop fl W opt target_ply t = Returns (child, sc, dropped) t' ->
  (child = master_sequence opt /\ dropped = []) \/
  (child = remove_positions (master_sequence opt) dropped /\
   ascending dropped /\
   (exists total bd, calculate_fitness fl W child = Ok (total, bd) /\ (0 < total)%Q) /\
   _find_groups_of_size child 4 + _find_groups_of_size child 5 = 0 /\
   _find_groups_of_size child 3 <= 3).
Proof.
  intros E. pose proof (optimize_drop_cases fl W opt target_ply t) as H.
  rewrite E in H. destruct H as [[-> [_ ->]]|[key [dm [bp [_ [_ Hg]]]]]];
    [left; auto|].
  right. destruct Hg as [_ [Hc [Hf [H4 [H3 [bpi [left [_ [_ Hd]]]]]]]]].
  repeat (split; [assumption|]).
  split; [|auto]. rewrite Hd. apply sorted_Z_ascending.
Qed.

Lemma optimize_drop_returns_master_or_scored_child_witness :
  optimize_drop approx_float WEIGHTS (dropoff_init [45; -45; 0; 0; -45; 45]%Z) 4 []
  = Returns ([45; -45; -45; 45]%Z, 1%Q, [2; 3]%Z) [] /\
  (([45; -45; -45; 45]%Z
    = master_sequence (dropoff_init [45; -45; 0; 0; -45; 45]%Z) /\
    [2; 3]%Z = []) \/
   ([45; -45; -45; 45]%Z
    = remove_positions (master_sequence (dropoff_init [45; -45; 0; 0; -45; 45]%Z))
                       [2; 3]%Z /\
    ascending [2; 3]%Z /\
    (exists total bd,
        calculate_fitness approx_float WEIGHTS [45; -45; -45; 45]%Z
        = Ok (total, bd) /\ (0 < total)%Q) /\
    _find_groups_of_size [45; -45; -45; 45]%Z 4
    + _find_groups_of_size [45; -45; -45; 45]%Z 5 = 0 /\
    _find_groups_of_size [45; -45; -45; 45]%Z 3 <= 3)).
Proof.
  assert (E : optimize_drop approx_float WEIGHTS
                (dropoff_init [45; -45; 0; 0; -45; 45]%Z) 4 []
              = Returns ([45; -45; -45; 45]%Z, 1%Q, [2; 3]%Z) [])
    by (vm_compute; reflexivity).
  split; [exact E|].
  exact (optimize_drop_returns_master_or_scored_child approx_float WEIGHTS
           _ 4 [] [] _ _ _ E).
Defined.

(** X25. The only exception [optimize_drop] can raise is IndexError
    (an index outside the master sequence, or a candidate left with no
    ply): the lookups of the R1 and R8 penalties never raise KeyError,
    because they are reached only for a candidate with a positive score,
    whose breakdown has all eight rules. *)
Theorem optimize_drop_raises_only_index_error
        (fl : FloatOps) (W : Weights) (opt : DropOffOptimizer) (target_ply : Z)
        (t : Tape) (e : py_exn) :
  optimize_drop fl W opt target_ply t = Raises e -> e = Raised IndexError.
Proof.
  intros E. pose proof (optimize_drop_cases fl W opt target_ply t) as H.
  rewrite E in H. exact H.
Qed.

Lemma optimize_drop_raises_only_index_error_witness :
  optimize_drop approx_float WEIGHTS (dropoff_init [45]%Z) 0 []
  = Raises (Raised IndexError) /\
  Raised IndexError = Raised IndexError.
Proof.
  assert (E : optimize_drop approx_float WEIGHTS (dropoff_init [45]%Z) 0 []
              = Raises (Raised IndexError)) by (vm_compute; reflexivity).
  split; [exact E|].
  exact (optimize_drop_raises_only_index_error approx_float WEIGHTS _ 0 [] _ E).
Defined.

(** X26. For an optimizer built by [__init__] on a laminate of at
    least two plies, [optimize_drop] returns a result for every target and
    every run of the random generator: it raises nothing. *)
Theorem optimize_drop_init_never_raises
        (fl : FloatOps) (W : Weights) (s : list Z) (target_ply : Z) (t : Tape) :
  2 <= length s ->
  exists r t', optimize_drop fl W (dropoff_init s) target_ply t = Returns r t'.
Proof. apply optimize_drop_init_returns. Qed.

Lemma optimize_drop_init_never_raises_witness :
  2 <= length [45; -45; 0; -45; 45]%Z /\
  exists r t',
    optimize_drop approx_float WEIGHTS (dropoff_init [45; -45; 0; -45; 45]%Z) 3 [7]
    = Returns r t'.
Proof.
  assert (H : 2 <= length [45; -45; 0; -45; 45]%Z) by (cbn; lia).
  split; [exact H|].
  exact (optimize_drop_init_never_raises approx_float WEIGHTS
           [45; -45; 0; -45; 45]%Z 3 [7] H).
Defined.

(** X27. For an optimizer built by [__init__], [optimize_drop] keeps
    the two outer plies on each side: a master [a; b] ++ mid ++ [c; d]
    gives a child [a; b] ++ mid' ++ [c; d]. *)
Theorem optimize_drop_keeps_external_plies
        (fl : FloatOps) (W : Weights) (a b c d : Z) (mid : list Z)
        (target_ply : Z) (t t' : Tape) (child dropped : list Z) (sc : Q) :
  optimize_drop fl W (dropoff_init ([a; b] ++ mid ++ [c; d])) target_ply t
  = Returns (child, sc, dropped) t' ->
  exists mid', child = [a; b] ++ mid' ++ [c; d].
Proof.
  intros E.
  destruct (optimize_drop_init_drops fl W _ target_ply t t' child dropped sc E)
    as [[-> _]|[-> Hd]]; [now exists mid|].
  apply remove_positions_inner. intros i Hi. specialize (Hd i Hi).
  revert Hd. rewrite !length_app. cbn [length].
  set (m := length mid).
  replace (Z.of_nat (2 + (m + 2))) with (Z.of_nat m + 4)%Z by lia.
  intros Hd.
  assert (Hdiv : (Z.of_nat m + 4 = 2 * ((Z.of_nat m + 4) / 2)
                                   + (Z.of_nat m + 4) mod 2)%Z)
    by (apply Z.div_mod; lia).
  lia.
Qed.

Lemma optimize_drop_keeps_external_plies_witness :
  optimize_drop approx_float WEIGHTS
                (dropoff_init ([45; -45] ++ [0; 0] ++ [-45; 45])%Z) 4 []
  = Returns ([45; -45; -45; 45]%Z, 1%Q, [2; 3]%Z) [] /\
  exists mid', [45; -45; -45; 45]%Z = ([45; -45] ++ mid' ++ [-45; 45])%Z.
Proof.
  assert (E : optimize_drop approx_float WEIGHTS
                (dropoff_init ([45; -45] ++ [0; 0] ++ [-45; 45])%Z) 4 []
              = Returns ([45; -45; -45; 45]%Z, 1%Q, [2; 3]%Z) [])
    by (vm_compute; reflexivity).
  split; [exact E|].
  exact (optimize_drop_keeps_external_plies approx_float WEIGHTS
           45%Z (-45)%Z (-45)%Z 45%Z [0; 0]%Z 4%Z [] [] _ _ _ E).
Defined.
